(* ===== verification/_CoqProject ===== *)
-Q . S2P
Prelude.v
Float64.v
Rand.v
GoErrors.v
Model.v
KubeApi.v
Resources.v
Capability.v
Json.v
Events.v
Metrics.v
MetricsSignal.v
FanOut.v
DiskSignal.v
Kubelet.v
Wire.v
Snapshot.v
PubSub.v
Source.v
Mock.v
MockCluster.v
MockSnapshot.v
MockTermination.v
MockSource.v
Collector.v
Server.v
Stream.v
Serving.v
Telemetry.v
KubeClient.v
Main.v
Lifecycle.v
