(* ===== verification/Prelude.v ===== *)
(** * kshows: a verification development

    kshows draws a Kubernetes cluster: a collector polls the cluster and
    assembles a snapshot (nodes, their pods, requests, limits, live usage,
    disk), publishes it to its readers, and an HTTP server hands it out as JSON
    and as an event stream.  Two of its signals are optional: live CPU/RAM
    usage from the Metrics Server and live node disk from the kubelets.  Either
    may be off, forbidden, absent or failing, and what the program must get
    right is that a snapshot never shows data it does not have.

    ** The program and the files

    The Go sources are under src/; each file here models one part, with the
    names of the code.
    - Prelude (this file): int64 arithmetic, times and durations, sorting,
      strings, the lemmas on them the parts share, the hint databases [go].
    - Float64: the language's float64, rounding included; Rand: math/rand as
      far as the mock source uses it, with the rules for its rejection loops.
    - GoErrors: [error] values, [%w] wrapping, and the Kubernetes error
      predicates as a class (they are library code).
    - Model: internal/model/model.go, the snapshot types.
    - KubeApi: the fields of the Kubernetes objects the program reads;
      [resource.Quantity] is a class with its documented laws.
    - Resources: internal/collector/resources.go, [effectiveResources].
    - Capability: the hysteresis both signals promise, as an abstract state
      machine with a closed form ([verdict]), and the class a signal
      implements.  MetricsSignal and DiskSignal are its instances.
    - Json: the part of encoding/json the program uses, reader and writer.
    - Events: the observable effects (log lines, metric updates, requests).
    - Metrics: internal/metrics/metrics.go, the declarations included.
    - MetricsSignal: [fetchMetrics], [noteMetrics], [currentMetrics] of
      internal/collector/collector.go.
    - FanOut: [fanOut] of internal/collector/disk.go, with its goroutines.
    - DiskSignal: [fetchDisk] of disk.go and [currentDisk] of collector.go.
    - Kubelet: the two routes of disk.go to a kubelet, down to the URL, the
      status codes and the bytes of the summary document.
    - Wire: the JSON text of a snapshot.
    - Snapshot: the join in [pollOnce], [nodeReady], [nodeRoles].
    - PubSub: [Latest], [Subscribe], [publish].
    - Source: the interface [Source] of collector.go as a class, with the
      contract its client relies on; Collector and Mock are its instances.
    - Collector: [New], [Run], [poll], [pollOnce], and the collector among
      its subscribers.
    - Mock: internal/collector/mock.go, every function.  Its invariants are in
      MockCluster (nodes and pods), MockSnapshot (what a snapshot shows),
      MockTermination (the rejection loops) and MockSource (the interleaving
      with readers, and the properties).
    - Server: internal/server/server.go, a handler at a time.  Stream: its
      event stream step by step among other goroutines.  Serving: its
      concurrent handlers over any [Source].
    - Telemetry: the metric updates of the other parts against the
      declarations.
    - KubeClient: internal/kube/client.go.
    - Main: cmd/kshows/main.go up to serving; Lifecycle: from there to the
      exit of the process.

    The collector's struct is split by owner: [MetricsState] and [DiskState]
    belong to the poll goroutine, [pubsub] is what the mutex guards, and the
    record [Collector] puts them together with the configuration.  A function
    that reads the clock, asks the cluster or writes to a client takes what
    it met as arguments and returns its effects as a list of events in order.
    The poll goroutine and the readers share nothing but [pubsub], whose
    operations are atomic under the mutex, so a run of the collector is a
    sequence of polls interleaved with readers' calls ([act]).  The fan-out is
    the only place with real concurrency inside an operation; [FanOut.step]
    is its interleaving semantics.

    ** What the theorems show

    - End to end (Collector): in every interleaving of polls with readers,
      whatever the cluster answers, every snapshot anyone can get is coherent;
      a switched-off signal is never requested; a poll publishes one snapshot
      or none, and is counted once.
    - Over the interface (Serving): whatever the source, every text a handler
      gets is that of the snapshot it holds, which is coherent.
    - The mock (MockSource): every snapshot is within its numbers, rounding
      errors included, and shows the same pods as the one before; with a fair
      generator building and drifting return, and each tick publishes once.
    - The signals (MetricsSignal, DiskSignal): a capability is a function of
      the history of fetch outcomes ([verdict]); usage and disk data come and
      go with it; a 403 parks a signal; the disk fan-out is rate-limited and
      its cache served between;
      which route auto mode uses and when it probes again.
    - The fan-out (FanOut): every interleaving returns, what it returns is the
      sequential [fanOut] in some order of completion, at most eight calls are
      in flight, and the result's error is nil exactly when a node answered or
      there was none to ask.
    - Kubelets (Kubelet): which address, which answers count as forbidden, and
      that the summary document is read right wherever the fields stand.
    - Assembly (Snapshot, Resources): pods are conserved, nothing depends on
      the order the caches list things in, and the effective resources are the
      formula the code's comment gives.
    - Delivery (PubSub, Server, Stream, Wire): a subscriber gets a subsequence
      of the publications in order, a slow one skips; the stream read by a
      browser is the latest snapshot at the time and then what its channel
      delivered since it subscribed, beginning with the first publication
      since; the JSON text reads back as the snapshot, gzipped when asked for;
      the marshal cache is transparent and marshals once per snapshot; gauges
      balance and subscriptions end.
    - Self-observation (Telemetry): every metric update is one the client
      library accepts, and exactly the polls counted as a success publish.
    - The process (Main, Lifecycle): which flags are refused, which source is
      served with which of them, what each exit code means, and that a shutdown does not wait for
      the requests in flight.

    ** Integers, bounds and fuel

    An int64 is an integer of [Z] wrapped by [wrap64] after each operation
    that may leave the range; theorems that need no overflow say so.  Lengths
    of slices in memory are not wrapped.  The JSON reader takes fuel; [enough]
    gives it one more than twice the length of the input, and [value_fuel]
    shows that any more makes no difference.  The mock's loops take fuel too:
    nothing bounds how often math/rand draws again, so a theorem either holds
    for any fuel that gives a result, or says that a fair generator has enough
    ([mock_returns]).  Everything else recurses on its data; [FanOut.measure] bounds the length of every interleaving.

    ** What is left out

    - The informers, the API server, the kubelets, HTTP transport, TLS and
      gzip: their answers are arguments.  The text of encoding/json's errors
      and the verdict of the URL parser are arguments too.  Timeouts show as
      the errors they cause.
    - The Prometheus exposition format, and the table math/rand seeds its
      generator from: a generator is any stream of 63-bit values.
    - A float64 is finite; the infinities and NaN, which the mock never
      computes, and the sign of zero are left out.
    - web/embed.go, a go:embed directive and a call of fs.Sub.
    - The browser UI under web/static, the Helm chart and the manifests, which
      are not Go. *)

From stdpp Require Export base tactics numbers option list gmap sets strings sorting relations pretty.
From Stdlib Require Export ZArith Lia.
From Stdlib Require Import Ascii.

Declare Scope go_scope.
Delimit Scope go_scope with go.

Create HintDb go.
Create Rewrite HintDb go.

(** ** Go integers

    A Go [int64] (and an [int], on the 64-bit targets the image is built for)
    is an integer of [Z] kept in its range by [wrap64], the two's complement
    wrap-around of the language specification. *)

Definition in_int64 (z : Z) : Prop := (-2 ^ 63 ≤ z < 2 ^ 63)%Z.

Definition wrap64 (z : Z) : Z := ((z + 2 ^ 63) mod 2 ^ 64 - 2 ^ 63)%Z.

Definition add64 (a b : Z) : Z := wrap64 (a + b).

(** The loop [for _, x := range xs { s += x }] over an [int64]. *)
Definition sum64 (xs : list Z) : Z := foldl add64 0%Z xs.

(** The mathematical sum the loop stands for. *)
Definition sumZ (xs : list Z) : Z := foldr Z.add 0%Z xs.

(** The loop [for _, x := range xs { m = max(m, x) }], started at 0. *)
Definition max0 (xs : list Z) : Z := foldl Z.max 0%Z xs.

Notation "a +! b" := (add64 a b) (at level 50, left associativity) : go_scope.

(** ** Time

    A [time.Time] is the number of nanoseconds since Go's zero Time (year 1,
    UTC), so the zero Time is 0; the readings of [time.Now] are values of the
    model's inputs.  A [time.Duration] is an int64 count of nanoseconds. *)

Abbreviation Time := Z (only parsing).
Abbreviation Duration := Z (only parsing).

Definition zeroTime : Time := 0%Z.
Definition Second : Duration := 1000000000%Z.
Definition Minute : Duration := (60 * Second)%Z.

(** [Time.Sub] saturates instead of wrapping around. *)
Definition sat64 (z : Z) : Z := (Z.min (2 ^ 63 - 1) (Z.max (- 2 ^ 63) z))%Z.
Definition Since (now t : Time) : Duration := sat64 (now - t).
Definition Before (t u : Time) : bool := (t <? u)%Z.

(** ** Sorting

    [sort.Slice(x, func(i, j int) bool { return key(x[i]) < key(x[j]) })] and
    [sort.Strings]: strings are compared bytewise.  Go's sort is not stable;
    [sort_by_unique] shows that with distinct keys there is only one result,
    so the algorithm does not matter where the program relies on it. *)

Definition key_le {A} (key : A → string) (x y : A) : Prop := String.le (key x) (key y).

#[export] Instance key_le_dec {A} (key : A → string) (x y : A) : Decision (key_le key x y).
Proof. unfold key_le. apply _. Defined.

Definition sort_by {A} (key : A → string) (xs : list A) : list A :=
  merge_sort (key_le key) xs.

(** ** Strings *)

(** [strings.CutPrefix]: the rest of [s] after [p], when [s] starts with [p]. *)
Fixpoint CutPrefix (s p : string) {struct p} : option string :=
  match p, s with
  | EmptyString, _ => Some s
  | String a p', String b s' => if decide (a = b) then CutPrefix s' p' else None
  | String _ _, EmptyString => None
  end.

(** [strings.Contains]. *)
Fixpoint Contains (s sub : string) : bool :=
  match CutPrefix s sub with
  | Some _ => true
  | None => match s with EmptyString => false | String _ s' => Contains s' sub end
  end.

Definition slash : ascii := "/"%char.
Definition colon : ascii := ":"%char.

(** [strings.IndexByte(s, c) >= 0]. *)
Fixpoint HasByte (s : string) (c : Ascii.ascii) : bool :=
  match s with
  | EmptyString => false
  | String a s' => if decide (a = c) then true else HasByte s' c
  end.

(** The first [n] bytes of a stream ([io.LimitReader]). *)
Fixpoint limit_bytes (n : N) (s : string) : string :=
  match s with
  | EmptyString => EmptyString
  | String a s' => if (n =? 0)%N then EmptyString else String a (limit_bytes (N.pred n) s')
  end.

(** ** Automation *)

(** Splits on every [match] and [decide] in sight and cleans up the equations. *)
Ltac split_matches :=
  repeat (case_match || case_decide); simplify_eq/=.

(** ** Lemmas: integers *)

Section integers.
Local Open Scope Z_scope.
Implicit Types (a b c z : Z).

Lemma wrap64_range z : in_int64 (wrap64 z).
Proof.
  unfold in_int64, wrap64.
  pose proof (Z.mod_pos_bound (z + 2 ^ 63) (2 ^ 64)). lia.
Qed.

Lemma wrap64_small z : in_int64 z → wrap64 z = z.
Proof. unfold in_int64, wrap64. intros. rewrite Z.mod_small; lia. Qed.

Lemma wrap64_idem_l a b : wrap64 (wrap64 a + b) = wrap64 (a + b).
Proof.
  unfold wrap64. f_equal.
  replace ((a + 2 ^ 63) mod 2 ^ 64 - 2 ^ 63 + b + 2 ^ 63)
    with ((a + 2 ^ 63) mod 2 ^ 64 + b) by lia.
  rewrite Z.add_mod_idemp_l by lia. f_equal. lia.
Qed.

Lemma add64_comm a b : add64 a b = add64 b a.
Proof. unfold add64. by rewrite Z.add_comm. Qed.

Lemma add64_assoc a b c : add64 a (add64 b c) = add64 (add64 a b) c.
Proof.
  unfold add64. rewrite wrap64_idem_l.
  rewrite (Z.add_comm a), wrap64_idem_l. f_equal. lia.
Qed.

Lemma add64_range a b : in_int64 (add64 a b).
Proof. apply wrap64_range. Qed.

Lemma add64_small a b : in_int64 (a + b) → add64 a b = a + b.
Proof. apply wrap64_small. Qed.

(** Wrap-around commutes with the whole loop: only the total matters. *)
Lemma sum64_from acc xs : in_int64 acc → foldl add64 acc xs = wrap64 (acc + sumZ xs).
Proof.
  revert acc. induction xs as [|x xs IH]; intros acc Hacc; simpl.
  - rewrite Z.add_0_r. by rewrite wrap64_small.
  - rewrite IH by apply add64_range. unfold add64.
    rewrite wrap64_idem_l. f_equal. lia.
Qed.

Lemma sum64_wrap xs : sum64 xs = wrap64 (sumZ xs).
Proof. unfold sum64. rewrite sum64_from; [done|]. unfold in_int64. lia. Qed.

Lemma sum64_small xs : in_int64 (sumZ xs) → sum64 xs = sumZ xs.
Proof. rewrite sum64_wrap. apply wrap64_small. Qed.

Lemma sum64_range xs : in_int64 (sum64 xs).
Proof. rewrite sum64_wrap. apply wrap64_range. Qed.

Lemma sumZ_cons x xs : sumZ (x :: xs) = x + sumZ xs.
Proof. reflexivity. Qed.

Lemma sumZ_app xs ys : sumZ (xs ++ ys) = sumZ xs + sumZ ys.
Proof. induction xs; simpl; lia. Qed.

#[export] Instance sumZ_Permutation : Proper (Permutation ==> eq) sumZ.
Proof. induction 1; simpl; lia. Qed.

#[export] Instance sum64_Permutation : Proper (Permutation ==> eq) sum64.
Proof. intros xs ys H. by rewrite !sum64_wrap, H. Qed.

Lemma sumZ_nonneg xs : Forall (Z.le 0) xs → 0 ≤ sumZ xs.
Proof. induction 1; simpl; lia. Qed.

Lemma max0_from acc xs : foldl Z.max acc xs = Z.max acc (foldr Z.max acc xs).
Proof.
  revert acc. induction xs as [|x xs IH]; intros acc; simpl; [lia|].
  rewrite IH. clear IH. induction xs; simpl; lia.
Qed.

Lemma max0_nonneg xs : 0 ≤ max0 xs.
Proof. unfold max0. rewrite max0_from. lia. Qed.

Lemma max0_cons x xs : max0 (x :: xs) = Z.max x (max0 xs).
Proof.
  unfold max0. simpl. rewrite !max0_from. induction xs; simpl; lia.
Qed.

Lemma max0_le xs b : 0 ≤ b → Forall (λ x, x ≤ b) xs → max0 xs ≤ b.
Proof.
  unfold max0. generalize 0. intros acc Hb Hxs. revert acc Hb.
  induction Hxs; intros acc Hb; simpl; [lia|]. apply IHHxs. lia.
Qed.

Lemma max0_range xs : Forall in_int64 xs → in_int64 (max0 xs).
Proof.
  intros Hxs. split.
  - pose proof (max0_nonneg xs). lia.
  - enough (max0 xs ≤ 2 ^ 63 - 1) by lia.
    apply max0_le; [lia|]. eapply Forall_impl; [done|]. unfold in_int64. intros; lia.
Qed.

#[export] Instance max0_Permutation : Proper (Permutation ==> eq) max0.
Proof.
  intros xs ys H. unfold max0. generalize 0. induction H; intros acc; simpl.
  - done.
  - apply IHPermutation.
  - f_equal. lia.
  - by rewrite IHPermutation1.
Qed.

Lemma sat64_range z : in_int64 (sat64 z).
Proof. unfold in_int64, sat64. lia. Qed.

Lemma Since_lt now t d :
  - 2 ^ 63 < d <= 2 ^ 63 - 1 → Since now t < d ↔ now < t + d.
Proof. unfold Since, sat64. lia. Qed.
End integers.

#[export] Hint Rewrite sumZ_cons sumZ_app max0_cons : go.
#[export] Hint Resolve wrap64_range add64_range sum64_range max0_nonneg : go.

(** ** Lemmas: sorting *)

Section sorting.
Context {A : Type} (key : A → string).
Implicit Types (xs ys : list A).

#[local] Instance key_le_trans : Transitive (key_le key).
Proof. intros x y z. unfold key_le. apply transitivity. Qed.

#[local] Instance key_le_total : Total (key_le key).
Proof. intros x y. unfold key_le. apply total, _. Qed.

Lemma sort_by_perm xs : sort_by key xs ≡ₚ xs.
Proof. apply merge_sort_Permutation. Qed.

Lemma sort_by_sorted xs : Sorted (key_le key) (sort_by key xs).
Proof. apply Sorted_merge_sort, _. Qed.

Lemma NoDup_key_inj xs x y :
  NoDup (key <$> xs) → x ∈ xs → y ∈ xs → key x = key y → x = y.
Proof.
  induction xs as [|z xs IH]; [set_solver|].
  rewrite fmap_cons, NoDup_cons. intros [Hz Hnd] Hx Hy Hk.
  apply elem_of_cons in Hx as [->|Hx]; apply elem_of_cons in Hy as [->|Hy]; auto.
  - destruct Hz. rewrite Hk. by apply list_elem_of_fmap_2.
  - destruct Hz. rewrite <-Hk. by apply list_elem_of_fmap_2.
Qed.

(** With distinct keys the sorted permutation is unique: whatever algorithm
    [sort.Slice] runs, its result is [sort_by]'s. *)
Lemma sort_by_unique xs ys :
  NoDup (key <$> xs) → ys ≡ₚ xs → Sorted (key_le key) ys → ys = sort_by key xs.
Proof.
  intros Hnd Hperm Hsorted. eapply (Sorted_unique_strong (key_le key)).
  - intros x y Hx Hy Hxy Hyx. apply (NoDup_key_inj xs); [done|..].
    + by rewrite <-Hperm.
    + by rewrite <-(sort_by_perm xs).
    + by apply (anti_symm String.le).
  - done.
  - apply sort_by_sorted.
  - by rewrite sort_by_perm.
Qed.

Lemma sort_by_Permutation xs ys :
  NoDup (key <$> xs) → xs ≡ₚ ys → sort_by key xs = sort_by key ys.
Proof.
  intros Hnd Hperm. apply sort_by_unique.
  - by rewrite <-Hperm.
  - by rewrite sort_by_perm.
  - apply sort_by_sorted.
Qed.
End sorting.

(** ** Lemmas: strings *)

Lemma app_nil_l_string s : ("" +:+ s)%string = s.
Proof. reflexivity. Qed.

Lemma app_cons_string a s t : (String a s +:+ t)%string = String a (s +:+ t)%string.
Proof. reflexivity. Qed.

#[export] Hint Rewrite app_nil_l_string app_cons_string : go.

Lemma CutPrefix_Some s p r : CutPrefix s p = Some r ↔ s = (p +:+ r)%string.
Proof.
  revert s r. induction p as [|a p IH]; intros s r; simpl; autorewrite with go.
  - split; congruence.
  - destruct s as [|b s]; [split; discriminate|].
    destruct (decide (a = b)) as [->|Hab].
    + rewrite IH. split; congruence.
    + split; congruence.
Qed.

Lemma HasByte_app s1 s2 c : HasByte (s1 +:+ s2) c = HasByte s1 c || HasByte s2 c.
Proof.
  induction s1 as [|a s1 IH]; autorewrite with go; simpl; [done|].
  by destruct (decide (a = c)).
Qed.

(** A separator that occurs in neither left part splits a string uniquely. *)
Lemma string_split_unique c s1 s2 t1 t2 :
  HasByte s1 c = false → HasByte s2 c = false →
  (s1 +:+ String c t1 = s2 +:+ String c t2)%string → s1 = s2 ∧ t1 = t2.
Proof.
  revert s2. induction s1 as [|a s1 IH]; intros [|b s2]; autorewrite with go; simpl;
    intros H1 H2 Heq; repeat destruct (decide (_ = _)); simplify_eq/=; try done.
  by edestruct IH as [-> ->].
Qed.

Lemma limit_bytes_length n s : (String.length (limit_bytes n s) <= N.to_nat n)%nat.
Proof.
  revert n. induction s as [|a s IH]; intros n; simpl; [lia|].
  destruct (N.eqb_spec n 0); simpl; [lia|]. specialize (IH (N.pred n)). lia.
Qed.

Lemma limit_bytes_id n s : (String.length s <= N.to_nat n)%nat → limit_bytes n s = s.
Proof.
  revert n. induction s as [|a s IH]; intros n; simpl; [done|].
  intros Hn. destruct (N.eqb_spec n 0); [lia|]. f_equal. apply IH. lia.
Qed.

(** ** Lemmas: reachability *)

(** A property of the initial state that every step preserves holds of every
    state a run reaches. *)
Lemma rtc_invariant {S : Type} (R : relation S) (I : S → Prop) s s' :
  (∀ t t', I t → R t t' → I t') → rtc R s s' → I s → I s'.
Proof. intros Hstep Hrtc. induction Hrtc; eauto. Qed.

(** ** Lemmas: lists *)

Lemma filter_none {A} (P : A → Prop) `{!∀ x, Decision (P x)} (xs : list A) :
  (∀ x, x ∈ xs → ¬ P x) → filter P xs = [].
Proof.
  induction xs as [|x xs IH]; intros Hno; [done|].
  rewrite filter_cons_False by (apply Hno; left). apply IH. intros y Hy. apply Hno. by right.
Qed.

Lemma NoDup_fmap_filter {A B} (f : A → B) (P : A → Prop) `{!∀ x, Decision (P x)} (xs : list A) :
  NoDup (f <$> xs) → NoDup (f <$> filter P xs).
Proof.
  induction xs as [|x xs IH]; [done|]. rewrite fmap_cons, NoDup_cons. intros [Hx Hnd].
  destruct (decide (P x)).
  - rewrite filter_cons_True, fmap_cons, NoDup_cons by done. split; [|auto].
    intros (y & Hy & [_ Hin]%list_elem_of_filter)%list_elem_of_fmap. apply Hx. rewrite Hy.
    by apply list_elem_of_fmap_2.
  - rewrite filter_cons_False by done. auto.
Qed.

(** The loop [for _, x := range xs { m[f(x)] = g(x) }]. *)
Lemma foldl_insert_not_elem {A V} (f : A → string) (g : A → V) (xs : list A) (m : gmap string V) k :
  k ∉ f <$> xs → foldl (λ m x, <[f x := g x]> m) m xs !! k = m !! k.
Proof.
  revert m. induction xs as [|x xs IH]; intros m Hk; simpl; [done|].
  rewrite fmap_cons, not_elem_of_cons in Hk. destruct Hk as [Hne Hk].
  rewrite IH by done. by rewrite lookup_insert_ne.
Qed.

Lemma foldl_insert_elem {A V} (f : A → string) (g : A → V) (xs : list A) (m : gmap string V) x :
  NoDup (f <$> xs) → x ∈ xs → foldl (λ m x, <[f x := g x]> m) m xs !! f x = Some (g x).
Proof.
  revert m. induction xs as [|y xs IH]; intros m Hnd Hx; [by apply not_elem_of_nil in Hx|].
  rewrite fmap_cons, NoDup_cons in Hnd. destruct Hnd as [Hy Hnd]. simpl.
  apply elem_of_cons in Hx as [->|Hx].
  - rewrite foldl_insert_not_elem by done. by rewrite lookup_insert_eq.
  - by apply IH.
Qed.

Lemma foldl_insert_Some {A V} (f : A → string) (g : A → V) (xs : list A) k v :
  foldl (λ m x, <[f x := g x]> m) (∅ : gmap string V) xs !! k = Some v →
  ∃ x, x ∈ xs ∧ f x = k ∧ g x = v.
Proof.
  induction xs as [|x xs IH] using rev_ind; [done|].
  rewrite foldl_app. simpl. rewrite lookup_insert_Some.
  intros [[<- <-]|[Hne H]].
  - exists x. split; [|done]. apply elem_of_app. right. by left.
  - destruct (IH H) as (y & Hy & ? & ?). exists y. split; [|done]. apply elem_of_app. by left.
Qed.
