(* ===== verification/Float64.v ===== *)
(** * float64

    Go's [float64], IEEE 754 binary64 rounding to nearest with ties to even,
    for the finite values the mock source computes with.  A value is the
    integer number of units of 2^-1074, the smallest positive float64, so
    every finite float64 is an integer, comparison is the comparison of
    integers and the exact result of an operation is a fraction with a
    positive denominator, which [round_frac] rounds once.  The two zeros are
    one value.  There are no infinities: a result beyond the largest finite
    float64 stays finite here, and the mock's values are nowhere near it. *)

From Stdlib Require Import SpecFloat.
From S2P Require Import Prelude.

Local Open Scope Z_scope.

Abbreviation float64 := Z (only parsing).

(** The exponent of the unit, and 1.0. *)
Definition unit_bits : Z := 1074.
Definition one : float64 := 2 ^ unit_bits.

(** ** Rounding *)

(** The integer nearest to [n / d], the even one of two. *)
Definition nearest (n d : Z) : Z :=
  let q := n / d in
  let r := n mod d in
  if 2 * r <? d then q else if d <? 2 * r then q + 1 else if Z.even q then q else q + 1.

(** The exponent of the last of the 53 significant bits of [n / d]; subnormal
    numbers have their last bit at the unit. *)
Definition ulp_exp (n d : Z) : Z := Z.max 0 (Z.log2 (n / d) - 52).

Definition round_abs (n d : Z) : Z :=
  let s := ulp_exp n d in nearest n (d * 2 ^ s) * 2 ^ s.

(** [n / d] units, rounded. *)
Definition round_frac (n d : Z) : float64 := Z.sgn n * round_abs (Z.abs n) d.

(** The same for the denominator [2 ^ k], by shifts ([round_shift_frac]). *)
Definition nearest_shift (n t : Z) : Z :=
  let q := Z.shiftr n t in
  let r := n - Z.shiftl q t in
  let d := Z.shiftl 1 t in
  if 2 * r <? d then q else if d <? 2 * r then q + 1 else if Z.even q then q else q + 1.

Definition round_shift (n k : Z) : float64 :=
  let a := Z.abs n in
  let s := Z.max 0 (Z.log2 (Z.shiftr a k) - 52) in
  Z.sgn n * Z.shiftl (nearest_shift a (k + s)) s.

(** ** Operations *)

(** A constant [n / d] of the source, converted to float64. *)
Definition lit (n d : Z) : float64 := round_frac (n * one) d.

(** [float64(z)] of an integer, and [int64(x)], which truncates toward zero
    (and is only defined in range). *)
Definition of_int (z : Z) : float64 := round_shift (Z.shiftl z unit_bits) 0.
Definition to_int (x : float64) : Z := Z.sgn x * Z.shiftr (Z.abs x) unit_bits.

Definition fadd (x y : float64) : float64 := round_shift (x + y) 0.
Definition fsub (x y : float64) : float64 := round_shift (x - y) 0.
Definition fmul (x y : float64) : float64 := round_shift (x * y) unit_bits.

(** [x / 2^k]. *)
Definition fdiv_pow2 (x : float64) (k : Z) : float64 := round_shift x k.

(** [x*y + z]: the language lets a compiler fuse the two operations into one
    that rounds once, and whether it does depends on the target. *)
Definition fmuladd (fused : bool) (x y z : float64) : float64 :=
  if fused then round_shift (x * y + Z.shiftl z unit_bits) unit_bits else fadd (fmul x y) z.

(** [math.Min] and [math.Max]. *)
Definition fmin (x y : float64) : float64 := Z.min x y.
Definition fmax (x y : float64) : float64 := Z.max x y.

(** The values a float64 can have. *)
Definition representable (x : float64) : Prop := ∃ m e, 0 ≤ e ∧ Z.abs m ≤ 2 ^ 53 ∧ x = m * 2 ^ e.

(** ** Lemmas: rounding *)

Section nearest.
Implicit Types (n m d c : Z).

Lemma nearest_cases n d :
  0 < d → ∃ q r, n = d * q + r ∧ 0 ≤ r < d ∧ n / d = q ∧
    ((nearest n d = q ∧ 2 * r ≤ d) ∨ (nearest n d = q + 1 ∧ d ≤ 2 * r)).
Proof.
  intros Hd. exists (n / d), (n mod d). pose proof (Z.div_mod n d ltac:(lia)).
  pose proof (Z.mod_pos_bound n d Hd). split_and!; [lia|lia|lia|done|]. unfold nearest.
  destruct (Z.ltb_spec (2 * (n mod d)) d); [left; lia|]. destruct (Z.ltb_spec d (2 * (n mod d))); [right; lia|].
  destruct (Z.even (n / d)); [left|right]; lia.
Qed.

Lemma nearest_lower n d c : 0 < d → c * d ≤ n → c ≤ nearest n d.
Proof. intros Hd H. destruct (nearest_cases n d Hd) as (q & r & -> & Hr & _ & [[-> _]|[-> _]]); nia. Qed.

Lemma nearest_upper n d c : 0 < d → n ≤ c * d → nearest n d ≤ c.
Proof. intros Hd H. destruct (nearest_cases n d Hd) as (q & r & -> & Hr & _ & [[-> _]|[-> ?]]); nia. Qed.

Lemma nearest_error n d : 0 < d → 2 * Z.abs (nearest n d * d - n) ≤ d.
Proof. intros Hd. destruct (nearest_cases n d Hd) as (q & r & -> & Hr & _ & [[-> ?]|[-> ?]]); nia. Qed.

Lemma nearest_exact c d : 0 < d → nearest (c * d) d = c.
Proof. intros Hd. apply Z.le_antisymm; [apply nearest_upper|apply nearest_lower]; lia. Qed.

Lemma nearest_mono n m d : 0 < d → n ≤ m → nearest n d ≤ nearest m d.
Proof.
  intros Hd Hnm. pose proof (Z.div_le_mono n m d Hd Hnm) as Hq.
  destruct (Z.eq_dec (n / d) (m / d)) as [Heq|Hne].
  - unfold nearest. rewrite Heq. pose proof (Z.div_mod n d ltac:(lia)). pose proof (Z.div_mod m d ltac:(lia)).
    repeat case_match; lia.
  - destruct (nearest_cases n d Hd) as (q & r & _ & _ & Eq & [[-> _]|[-> _]]);
      destruct (nearest_cases m d Hd) as (q' & r' & _ & _ & Eq' & [[-> _]|[-> _]]); lia.
Qed.
End nearest.

Section rounding.
Implicit Types (n m d x y : Z).

Lemma ulp_exp_nonneg n d : 0 ≤ ulp_exp n d.
Proof. unfold ulp_exp. lia. Qed.

Lemma pow2_pos k : 0 ≤ k → 0 < 2 ^ k.
Proof. intros. by apply Z.pow_pos_nonneg. Qed.

Lemma ulp_exp_mono n m d : 0 < d → n ≤ m → ulp_exp n d ≤ ulp_exp m d.
Proof.
  intros Hd H. unfold ulp_exp. pose proof (Z.log2_le_mono _ _ (Z.div_le_mono n m d Hd H)). lia.
Qed.

(** [n / d] is less than 2^53 last places... *)
Lemma ulp_exp_upper n d : 0 < d → 0 ≤ n → n < d * 2 ^ (ulp_exp n d + 53).
Proof.
  intros Hd Hn. assert (n / d < 2 ^ (ulp_exp n d + 53)) as H.
  { pose proof (Z.div_pos n d Hn Hd). destruct (Z.eq_dec (n / d) 0) as [->|Hne].
    - apply pow2_pos. pose proof (ulp_exp_nonneg n d). lia.
    - pose proof (Z.log2_spec (n / d) ltac:(lia)) as [_ H1].
      eapply Z.lt_le_trans; [exact H1|]. apply Z.pow_le_mono_r; [lia|]. unfold ulp_exp. lia. }
  pose proof (Z.div_mod n d ltac:(lia)). pose proof (Z.mod_pos_bound n d Hd). nia.
Qed.

(** ... and at least 2^52 of them, when the last place is above the unit. *)
Lemma ulp_exp_lower n d : 0 < d → 0 < ulp_exp n d → d * 2 ^ (ulp_exp n d + 52) ≤ n.
Proof.
  intros Hd Hs. assert (0 < n / d) as Hq.
  { destruct (Z.lt_ge_cases 0 (n / d)); [done|]. unfold ulp_exp in Hs.
    rewrite Z.log2_nonpos in Hs by done. lia. }
  pose proof (Z.log2_spec (n / d) Hq) as [H1 _].
  replace (ulp_exp n d + 52) with (Z.log2 (n / d)) by (unfold ulp_exp in *; lia).
  pose proof (Z.div_mod n d ltac:(lia)). pose proof (Z.mod_pos_bound n d Hd). nia.
Qed.

Lemma round_abs_nonneg n d : 0 < d → 0 ≤ n → 0 ≤ round_abs n d.
Proof.
  intros Hd Hn. unfold round_abs. pose proof (pow2_pos _ (ulp_exp_nonneg n d)).
  apply Z.mul_nonneg_nonneg; [|lia]. apply nearest_lower; nia.
Qed.

Lemma round_abs_upper n d : 0 < d → 0 ≤ n → round_abs n d ≤ 2 ^ (ulp_exp n d + 53).
Proof.
  intros Hd Hn. unfold round_abs. pose proof (ulp_exp_nonneg n d) as Hs.
  pose proof (pow2_pos _ Hs). rewrite Z.pow_add_r, Z.mul_comm by lia.
  apply Z.mul_le_mono_nonneg_l; [lia|]. apply nearest_upper; [nia|].
  pose proof (ulp_exp_upper n d Hd Hn) as Hu. rewrite Z.pow_add_r in Hu by lia. nia.
Qed.

Lemma round_abs_lower n d :
  0 < d → 0 < ulp_exp n d → 2 ^ (ulp_exp n d + 52) ≤ round_abs n d.
Proof.
  intros Hd Hs. unfold round_abs. pose proof (pow2_pos (ulp_exp n d) ltac:(lia)).
  rewrite Z.pow_add_r, Z.mul_comm by lia.
  apply Z.mul_le_mono_nonneg_r; [lia|]. apply nearest_lower; [nia|].
  pose proof (ulp_exp_lower n d Hd Hs) as Hl. rewrite Z.pow_add_r in Hl by lia. nia.
Qed.

Lemma round_abs_mono n m d : 0 < d → 0 ≤ n → n ≤ m → round_abs n d ≤ round_abs m d.
Proof.
  intros Hd Hn Hnm. pose proof (ulp_exp_mono n m d Hd Hnm). pose proof (ulp_exp_nonneg n d).
  destruct (Z.eq_dec (ulp_exp n d) (ulp_exp m d)) as [E|Hne].
  - unfold round_abs. rewrite E. pose proof (pow2_pos (ulp_exp m d) ltac:(lia)).
    apply Z.mul_le_mono_nonneg_r; [lia|]. apply nearest_mono; nia.
  - etrans; [apply round_abs_upper; lia|]. etrans; [|apply round_abs_lower; lia].
    apply Z.pow_le_mono_r; lia.
Qed.

Lemma round_frac_abs n d : 0 < d → 0 ≤ n → round_frac n d = round_abs n d.
Proof.
  intros Hd Hn. unfold round_frac. rewrite Z.abs_eq by done.
  destruct (Z.eq_dec n 0) as [->|Hne].
  - pose proof (round_abs_nonneg 0 d Hd ltac:(lia)). unfold round_abs in *.
    change (nearest 0) with (nearest (0 * (d * 2 ^ ulp_exp 0 d))). pose proof (pow2_pos _ (ulp_exp_nonneg 0 d)).
    by rewrite nearest_exact by nia.
  - rewrite Z.sgn_pos by lia. lia.
Qed.

Lemma round_frac_opp n d : round_frac (- n) d = - round_frac n d.
Proof. unfold round_frac. rewrite Z.abs_opp, Z.sgn_opp. lia. Qed.

Lemma round_frac_nonneg n d : 0 < d → 0 ≤ n → 0 ≤ round_frac n d.
Proof. intros. rewrite round_frac_abs by done. by apply round_abs_nonneg. Qed.

Lemma round_frac_nonpos n d : 0 < d → n ≤ 0 → round_frac n d ≤ 0.
Proof.
  intros Hd Hn. rewrite <-(Z.opp_involutive n), round_frac_opp.
  pose proof (round_frac_nonneg (- n) d Hd). lia.
Qed.

(** Rounding is monotone. *)
Lemma round_frac_mono n m d : 0 < d → n ≤ m → round_frac n d ≤ round_frac m d.
Proof.
  intros Hd Hnm. destruct (Z.le_ge_cases 0 n) as [Hn|Hn].
  - rewrite !round_frac_abs by lia. by apply round_abs_mono.
  - destruct (Z.le_ge_cases 0 m) as [Hm|Hm].
    + etrans; [by apply round_frac_nonpos|by apply round_frac_nonneg].
    + rewrite <-(Z.opp_involutive n), <-(Z.opp_involutive m), !(round_frac_opp (- _)).
      apply Z.opp_le_mono. rewrite !Z.opp_involutive, !round_frac_abs by lia. apply round_abs_mono; lia.
Qed.

(** The rounding error is at most half a last place: 2^-53 of the value, or
    half a unit. *)
Lemma round_frac_error n d :
  0 < d → 2 ^ 53 * Z.abs (round_frac n d * d - n) ≤ Z.max (Z.abs n) (d * 2 ^ 52).
Proof.
  intros Hd. replace (Z.abs (round_frac n d * d - n)) with (Z.abs (round_abs (Z.abs n) d * d - Z.abs n)).
  - pose proof (pow2_pos _ (ulp_exp_nonneg (Z.abs n) d)) as Hp.
    pose proof (nearest_error (Z.abs n) (d * 2 ^ ulp_exp (Z.abs n) d) ltac:(nia)) as He. unfold round_abs.
    set (q := nearest _ _) in *. set (s := ulp_exp _ _) in *.
    replace (q * 2 ^ s * d) with (q * (d * 2 ^ s)) by lia.
    destruct (Z.eq_dec s 0) as [Hs|Hs].
    + rewrite Hs in *. change (2 ^ 0) with 1 in *. lia.
    + pose proof (ulp_exp_lower (Z.abs n) d Hd) as Hl. fold s in Hl.
      assert (0 < s) as Hpos by (pose proof (ulp_exp_nonneg (Z.abs n) d); lia). specialize (Hl Hpos).
      rewrite Z.pow_add_r in Hl by lia. change (2 ^ 53) with (2 ^ 52 * 2). nia.
  - unfold round_frac. destruct (Z.lt_trichotomy n 0) as [H|[-> |H]].
    + rewrite Z.sgn_neg, (Z.abs_neq n) by lia. lia.
    + simpl. rewrite <-round_frac_abs by lia. by unfold round_frac.
    + rewrite Z.sgn_pos, (Z.abs_eq n) by lia. lia.
Qed.

Lemma representable_nonneg_exact x d : 0 < d → 0 ≤ x → representable x → round_abs (x * d) d = x.
Proof.
  intros Hd Hx (m & e & He & Hm & ->). pose proof (pow2_pos e He) as Hp.
  assert (0 ≤ m) as Hm0 by nia. rewrite Z.abs_eq in Hm by done.
  set (x := m * 2 ^ e). set (s := ulp_exp (x * d) d).
  pose proof (ulp_exp_nonneg (x * d) d) as Hs. fold s in Hs.
  assert (∃ c, x = c * 2 ^ s) as [c Hc].
  { destruct (Z.le_gt_cases s e) as [Hle|Hlt].
    - exists (m * 2 ^ (e - s)). unfold x. rewrite <-Z.mul_assoc, <-Z.pow_add_r by lia. do 2 f_equal. lia.
    - pose proof (ulp_exp_lower (x * d) d Hd) as Hl. fold s in Hl. specialize (Hl ltac:(lia)).
      assert (2 ^ (s + 52) ≤ x) as Hl' by nia. unfold x in Hl'.
      assert (s = e + 1) as ->.
      { apply Z.le_antisymm; [|lia]. apply Z.lt_succ_r, Z.nle_gt. intros Hs'.
        assert (2 ^ (e + 54) ≤ m * 2 ^ e) as Hb.
        { etrans; [|exact Hl']. apply Z.pow_le_mono_r; lia. }
        rewrite Z.pow_add_r in Hb by lia. nia. }
      rewrite Z.add_comm, Z.add_assoc, (Z.add_comm (52 + e)) in Hl'. change (1 + (52 + e)) with (1 + (52 + e)) in Hl'.
      replace (1 + (52 + e)) with (53 + e) in Hl' by lia. rewrite Z.pow_add_r in Hl' by lia.
      assert (m = 2 ^ 53) as Hm53 by nia. exists (2 ^ 52). unfold x. rewrite Hm53, <-!Z.pow_add_r by lia.
      f_equal. lia. }
  unfold round_abs. fold s. replace (x * d) with (c * (d * 2 ^ s)) by (rewrite Hc; lia).
  rewrite nearest_exact by (pose proof (pow2_pos s Hs); nia). by rewrite <-Hc.
Qed.

(** A representable value is not changed by rounding... *)
Lemma round_frac_exact x d : 0 < d → representable x → round_frac (x * d) d = x.
Proof.
  intros Hd Hr. destruct (Z.le_ge_cases 0 x) as [Hx|Hx].
  - rewrite round_frac_abs by nia. by apply representable_nonneg_exact.
  - rewrite <-(Z.opp_involutive x), Z.mul_opp_l, round_frac_opp, round_frac_abs by nia. f_equal.
    apply representable_nonneg_exact; [done|lia|]. destruct Hr as (m & e & He & Hm & ->).
    exists (- m), e. split_and!; lia.
Qed.

(** ... and rounding always gives one. *)
Lemma round_frac_representable n d : 0 < d → representable (round_frac n d).
Proof.
  intros Hd. exists (Z.sgn n * nearest (Z.abs n) (d * 2 ^ ulp_exp (Z.abs n) d)), (ulp_exp (Z.abs n) d).
  pose proof (ulp_exp_nonneg (Z.abs n) d) as Hs. pose proof (pow2_pos _ Hs).
  split_and!; [done| |unfold round_frac, round_abs; lia].
  assert (0 ≤ nearest (Z.abs n) (d * 2 ^ ulp_exp (Z.abs n) d) ≤ 2 ^ 53) as Hb; [|rewrite Z.abs_mul; nia].
  split; [apply nearest_lower; nia|apply nearest_upper; [nia|]].
  pose proof (ulp_exp_upper (Z.abs n) d Hd ltac:(lia)) as Hu. rewrite Z.pow_add_r in Hu by lia. nia.
Qed.

(** So nothing is rounded past a representable value. *)
Lemma round_frac_le x n d : 0 < d → representable x → n ≤ x * d → round_frac n d ≤ x.
Proof. intros Hd Hr Hn. rewrite <-(round_frac_exact x d Hd Hr). by apply round_frac_mono. Qed.

Lemma round_frac_ge x n d : 0 < d → representable x → x * d ≤ n → x ≤ round_frac n d.
Proof. intros Hd Hr Hn. rewrite <-(round_frac_exact x d Hd Hr) at 1. by apply round_frac_mono. Qed.

Lemma round_shift_frac n k : 0 ≤ k → round_shift n k = round_frac n (2 ^ k).
Proof.
  intros Hk. unfold round_shift, round_frac, round_abs. f_equal.
  assert (Z.max 0 (Z.log2 (Z.shiftr (Z.abs n) k) - 52) = ulp_exp (Z.abs n) (2 ^ k)) as ->.
  { unfold ulp_exp. by rewrite Z.shiftr_div_pow2. }
  pose proof (ulp_exp_nonneg (Z.abs n) (2 ^ k)) as Hs. set (s := ulp_exp _ _) in *.
  rewrite Z.shiftl_mul_pow2 by done. f_equal. rewrite <-Z.pow_add_r by lia.
  unfold nearest_shift, nearest. rewrite Z.shiftr_div_pow2, !Z.shiftl_mul_pow2, Z.mul_1_l by lia.
  rewrite (Z.mul_comm (_ / _)), <-Z.mod_eq by (pose proof (pow2_pos (k + s)); lia). done.
Qed.

End rounding.

(** ** Lemmas: operations *)

Section operations.
Implicit Types (x y z : float64).

Lemma one_pos : 0 < one.
Proof. reflexivity. Qed.

Lemma one_eq : 2 ^ unit_bits = one.
Proof. reflexivity. Qed.

#[local] Hint Resolve one_pos : core.
#[local] Opaque one.

Lemma fadd_frac x y : fadd x y = round_frac (x + y) 1.
Proof. by apply round_shift_frac. Qed.

Lemma fsub_frac x y : fsub x y = round_frac (x - y) 1.
Proof. by apply round_shift_frac. Qed.

Lemma fmul_frac x y : fmul x y = round_frac (x * y) one.
Proof. by apply round_shift_frac. Qed.

Lemma fmuladd_frac fused x y z :
  fmuladd fused x y z = if fused then round_frac (x * y + z * one) one else fadd (fmul x y) z.
Proof.
  unfold fmuladd. rewrite Z.shiftl_mul_pow2 by done. rewrite one_eq. destruct fused; [|done].
  by apply round_shift_frac.
Qed.

Lemma of_int_frac i : of_int i = round_frac (i * one) 1.
Proof. unfold of_int. rewrite Z.shiftl_mul_pow2 by done. by apply round_shift_frac. Qed.

Lemma fadd_mono x x' y y' : x ≤ x' → y ≤ y' → fadd x y ≤ fadd x' y'.
Proof. intros. rewrite !fadd_frac. apply round_frac_mono; lia. Qed.

Lemma fsub_mono x x' y y' : x ≤ x' → y' ≤ y → fsub x y ≤ fsub x' y'.
Proof. intros. rewrite !fsub_frac. apply round_frac_mono; lia. Qed.

Lemma fmul_mono x x' y y' : 0 ≤ y → 0 ≤ x' → x ≤ x' → y ≤ y' → fmul x y ≤ fmul x' y'.
Proof. intros. rewrite !fmul_frac. apply round_frac_mono; [done|nia]. Qed.

Lemma fmuladd_mono fused x x' y z : 0 ≤ y → x ≤ x' → fmuladd fused x y z ≤ fmuladd fused x' y z.
Proof.
  intros Hy Hx. rewrite !fmuladd_frac. destruct fused; [apply round_frac_mono; [done|nia]|].
  apply fadd_mono; [|done]. rewrite !fmul_frac. apply round_frac_mono; [done|nia].
Qed.

Lemma fmul_representable x y : representable (fmul x y).
Proof. rewrite fmul_frac. by apply round_frac_representable. Qed.

Lemma fadd_representable x y : representable (fadd x y).
Proof. rewrite fadd_frac. by apply round_frac_representable. Qed.

Lemma fsub_representable x y : representable (fsub x y).
Proof. rewrite fsub_frac. by apply round_frac_representable. Qed.

Lemma fmuladd_representable fused x y z : representable (fmuladd fused x y z).
Proof.
  rewrite fmuladd_frac. destruct fused; [by apply round_frac_representable|apply fadd_representable].
Qed.

Lemma of_int_representable i : representable (of_int i).
Proof. rewrite of_int_frac. by apply round_frac_representable. Qed.

(** Integers of 53 bits times a power of two are exact. *)
Lemma of_int_exact m e : 0 ≤ e → Z.abs m ≤ 2 ^ 53 → of_int (m * 2 ^ e) = m * 2 ^ e * one.
Proof.
  intros He Hm. rewrite of_int_frac. rewrite <-(round_frac_exact (m * 2 ^ e * one) 1) at 2.
  - by rewrite Z.mul_1_r.
  - done.
  - exists m, (e + unit_bits). split_and!; [unfold unit_bits; lia|done|].
    by rewrite Z.pow_add_r, Z.mul_assoc, one_eq by (unfold unit_bits; lia).
Qed.

Lemma fmin_representable x y : representable x → representable y → representable (fmin x y).
Proof. unfold fmin. intros. by destruct (Z.min_spec x y) as [[_ ->]|[_ ->]]. Qed.

Lemma fmax_representable x y : representable x → representable y → representable (fmax x y).
Proof. unfold fmax. intros. by destruct (Z.max_spec x y) as [[_ ->]|[_ ->]]. Qed.

Lemma to_int_nonneg x : 0 ≤ x → to_int x = x / one.
Proof.
  intros Hx. unfold to_int. rewrite Z.shiftr_div_pow2 by done. rewrite one_eq. rewrite Z.abs_eq by done.
  destruct (Z.eq_dec x 0) as [->|Hne]; [done|]. rewrite Z.sgn_pos by lia. lia.
Qed.

Lemma to_int_mono x y : 0 ≤ x → x ≤ y → to_int x ≤ to_int y.
Proof. intros. rewrite !to_int_nonneg by lia. by apply Z.div_le_mono. Qed.

Lemma to_int_bounds x : 0 ≤ x → to_int x * one ≤ x < (to_int x + 1) * one.
Proof.
  intros. rewrite to_int_nonneg by done. pose proof (Z.div_mod x one ltac:(done)).
  pose proof (Z.mod_pos_bound x one one_pos). lia.
Qed.

(** Multiplication of values of at least 2^-500 or so has a relative error of
    2^-53. *)
Lemma fmul_error x y :
  2 ^ 52 * one ≤ Z.abs (x * y) → 2 ^ 53 * Z.abs (fmul x y * one - x * y) ≤ Z.abs (x * y).
Proof. intros H. rewrite fmul_frac. pose proof (round_frac_error (x * y) one one_pos). lia. Qed.

Lemma fsub_error x y :
  2 ^ 52 ≤ Z.abs (x - y) → 2 ^ 53 * Z.abs (fsub x y - (x - y)) ≤ Z.abs (x - y).
Proof. intros H. rewrite fsub_frac. pose proof (round_frac_error (x - y) 1). lia. Qed.
End operations.

(** ** The Standard Library's executable IEEE 754

    On sample values the operations agree with [SpecFloat], the Standard
    Library's bit-level definition of the format. *)

Module SpecFloatCheck.
(** A finite value in units of 2^-1074. *)
Definition units (f : spec_float) : Z :=
  match f with
  | S754_finite s m e => (if s then -1 else 1) * (Zpos m * 2 ^ (e + unit_bits))
  | _ => 0
  end.

(** 0.6, 0.01, 800, 9/49 and -0.495 in the format. *)
Definition samples : list spec_float :=
  (λ '(n, d), SFdiv 53 1024 (binary_normalize 53 1024 n 0 false) (binary_normalize 53 1024 d 0 false)) <$>
    [(6, 10); (1, 100); (800, 1); (9, 49); (-495, 1000)].

Example operations_agree :
  Forall (λ x, Forall (λ y,
    units (SFadd 53 1024 x y) = fadd (units x) (units y) ∧
    units (SFsub 53 1024 x y) = fsub (units x) (units y) ∧
    units (SFmul 53 1024 x y) = fmul (units x) (units y)) samples) samples.
Proof. apply (bool_decide_unpack _). vm_compute. exact I. Qed.

Example literals_agree : units <$> samples =
  [lit 6 10; lit 1 100; lit 800 1; lit 9 49; lit (-495) 1000].
Proof. vm_compute. reflexivity. Qed.
End SpecFloatCheck.
