(* ===== verification/Rand.v ===== *)
(** * math/rand

    What the mock source uses of the Standard Library's math/rand: [Intn] and
    [Float64] of a [*rand.Rand], as the library computes them from the 63-bit
    values of its source.  The source itself (a generator with a table of
    seeded values) is a stream [Int63 : nat → Z], the [k]-th value it returns.
    A computation that draws is a [Rand]: it takes the position in the stream
    and the fuel its rejection loops may use, and returns its result and the
    new position, or nothing when the fuel ran out.

    [ensures] is partial correctness, whatever the stream; [returns] is total
    correctness from a position: enough fuel gives the result. *)

From S2P Require Import Prelude.
From S2P Require Import Float64.

(** ** The monad *)

Definition Rand (A : Type) : Type := nat → nat → option (A * nat).

#[export] Instance Rand_ret : MRet Rand := λ A x fuel pos, Some (x, pos).

#[export] Instance Rand_bind : MBind Rand := λ A B k m fuel pos,
  match m fuel pos with Some (x, pos) => k x fuel pos | None => None end.

Definition ensures {A} (m : Rand A) (Q : A → Prop) : Prop :=
  ∀ fuel pos x pos', m fuel pos = Some (x, pos') → Q x.

Definition returns {A} (m : Rand A) (pos : nat) (Q : A → nat → Prop) : Prop :=
  ∃ x pos' enough, Q x pos' ∧ ∀ fuel, enough ≤ fuel → m fuel pos = Some (x, pos').

Section rand.
Context (Int63 : nat → Z).

(** Draws until a value is not rejected. *)
Fixpoint redraw (reject : Z → bool) (fuel pos : nat) : option (Z * nat) :=
  match fuel with
  | 0 => None
  | S fuel => if reject (Int63 pos) then redraw reject fuel (S pos) else Some (Int63 pos, S pos)
  end.

(** [r.Int31()] of a drawn value: its high 31 bits. *)
Definition Int31 (v : Z) : Z := Z.shiftr v 32.

(** [r.Intn(n)] for [0 < n < 2^31]: a power of two masks, any other [n] draws
    again above the largest multiple of [n]. *)
Definition Intn_rejects (n v : Z) : bool :=
  negb (Z.land n (n - 1) =? 0)%Z && (2 ^ 31 - 1 - 2 ^ 31 mod n <? Int31 v)%Z.

Definition Intn_value (n v : Z) : Z :=
  if (Z.land n (n - 1) =? 0)%Z then Z.land (Int31 v) (n - 1) else (Int31 v mod n)%Z.

Definition Intn (n : Z) : Rand Z :=
  v ← (redraw (Intn_rejects n) : Rand Z); mret (Intn_value n v).

(** [r.Float64()]: [float64(r.Int63()) / (1<<63)], drawn again when it rounds
    to 1. *)
Definition Float64_value (v : Z) : float64 := fdiv_pow2 (of_int v) 63.

Definition Float64_rejects (v : Z) : bool := (Float64_value v =? one)%Z.

Definition Float64 : Rand float64 :=
  v ← (redraw Float64_rejects : Rand Z); mret (Float64_value v).
End rand.

(** What the library documents of a source. *)
Class Int63Laws (Int63 : nat → Z) : Prop :=
  Int63_range : ∀ k, (0 ≤ Int63 k < 2 ^ 63)%Z.

(** ** Rules *)

Section rules.
Context {A B : Type}.
Implicit Types (m : Rand A) (k : A → Rand B).

Lemma ensures_ret (x : A) (Q : A → Prop) : Q x → ensures (mret x) Q.
Proof. intros H fuel pos y pos' [= <- <-]. done. Qed.

Lemma ensures_bind m k (R : A → Prop) (Q : B → Prop) :
  ensures m R → (∀ x, R x → ensures (k x) Q) → ensures (m ≫= k) Q.
Proof.
  intros Hm Hk fuel pos y pos'. unfold mbind, Rand_bind.
  destruct (m fuel pos) as [[x p]|] eqn:E; [|done]. intros Hy. by eapply Hk; [eapply Hm|].
Qed.

Lemma ensures_weaken m (R Q : A → Prop) : ensures m R → (∀ x, R x → Q x) → ensures m Q.
Proof. intros Hm HQ fuel pos x pos' E. apply HQ. by eapply Hm. Qed.

Lemma returns_ret (x : A) pos (Q : A → nat → Prop) : Q x pos → returns (mret x) pos Q.
Proof. intros H. by exists x, pos, 0. Qed.

Lemma returns_bind m k pos (Q : B → nat → Prop) :
  returns m pos (λ x p, returns (k x) p Q) → returns (m ≫= k) pos Q.
Proof.
  intros (x & p & n & (y & p' & n' & HQ & Hk) & Hm). exists y, p', (n `max` n'). split; [done|].
  intros fuel Hf. unfold mbind, Rand_bind. rewrite Hm by lia. apply Hk. lia.
Qed.

Lemma returns_weaken m pos (R Q : A → nat → Prop) :
  returns m pos R → (∀ x p, R x p → Q x p) → returns m pos Q.
Proof. intros (x & p & n & HR & Hm) HQ. exists x, p, n. auto. Qed.

(** A result that is returned has what every result has. *)
Lemma returns_ensures m pos (R : A → Prop) (Q : A → nat → Prop) :
  ensures m R → returns m pos Q → returns m pos (λ x p, R x ∧ Q x p).
Proof.
  intros Hm (x & p & n & HQ & Hn). exists x, p, n. split; [|done]. split; [|done].
  eapply Hm, (Hn n). lia.
Qed.
End rules.

(** ** Draws *)

Section draws.
Context (Int63 : nat → Z) `{!Int63Laws Int63}.

Lemma redraw_ensures reject :
  ensures (redraw Int63 reject : Rand Z) (λ v, reject v = false ∧ (0 ≤ v < 2 ^ 63)%Z).
Proof.
  intros fuel. induction fuel as [|fuel IH]; intros pos v pos' E; [done|]. simpl in E.
  destruct (reject (Int63 pos)) eqn:Er; [by eapply IH|]. injection E as <- <-.
  split; [done|apply Int63_range].
Qed.

(** The first value that is not rejected ends the loop: it is drawn at [w] at
    the latest, and at once if [w] is where the loop starts. *)
Lemma redraw_returns reject pos w :
  pos ≤ w → reject (Int63 w) = false →
  returns (redraw Int63 reject : Rand Z) pos (λ v p, pos < p ≤ S w ∧ v = Int63 (pred p)).
Proof.
  intros Hle Hw. remember (w - pos) as n eqn:Hn. revert pos Hle Hn.
  induction n as [|n IH]; intros pos Hle Hn.
  - assert (pos = w) as -> by lia. exists (Int63 w), (S w), 1. split; [split; [lia|done]|].
    intros [|fuel] Hf; [lia|]. simpl. by rewrite Hw.
  - destruct (reject (Int63 pos)) eqn:Er.
    + destruct (IH (S pos)) as (v & p & k & [Hp Hv] & Hk); [lia|lia|].
      exists v, p, (S k). split; [split; [lia|done]|]. intros [|fuel] Hf; [lia|]. simpl. rewrite Er.
      apply Hk. lia.
    + exists (Int63 pos), (S pos), 1. split; [split; [lia|done]|]. intros [|fuel] Hf; [lia|].
      simpl. by rewrite Er.
Qed.

Lemma Int31_range v : (0 ≤ v < 2 ^ 63)%Z → (0 ≤ Int31 v < 2 ^ 31)%Z.
Proof.
  intros [H1 H2]. unfold Int31. rewrite Z.shiftr_div_pow2 by done. split.
  - by apply Z.div_pos.
  - apply Z.div_lt_upper_bound; [done|]. exact H2.
Qed.

Lemma Intn_ensures n : (0 < n)%Z → ensures (Intn Int63 n) (λ r, (0 ≤ r < n)%Z).
Proof.
  intros Hn. eapply ensures_bind; [apply redraw_ensures|]. intros v [_ Hv]. apply ensures_ret.
  apply Int31_range in Hv. unfold Intn_value. destruct (Z.land n (n - 1) =? 0)%Z.
  - rewrite <-(Z2N.id (Int31 v)), <-(Z2N.id (n - 1)), <-N2Z.inj_land by lia.
    pose proof (N.land_le_r (Z.to_N (Int31 v)) (Z.to_N (n - 1))). lia.
  - apply Z.mod_pos_bound. lia.
Qed.

(** A number of [0, 1]; 1 itself is drawn again. *)
Lemma Float64_value_range v : (0 ≤ v < 2 ^ 63)%Z → (0 ≤ Float64_value v ≤ one)%Z.
Proof.
  intros [H1 H2]. unfold Float64_value, fdiv_pow2. rewrite round_shift_frac by done. rewrite of_int_frac.
  assert (representable one) as Ho by by exists 1%Z, unit_bits.
  assert (representable (2 ^ 63 * one)%Z) as Hb by by exists 1%Z, (63 + unit_bits)%Z.
  split; [apply round_frac_nonneg; [done|]; apply round_frac_nonneg; [done|]; pose proof one_pos; nia|].
  apply round_frac_le; [done|done|]. rewrite Z.mul_comm. apply round_frac_le; [done|done|].
  pose proof one_pos. nia.
Qed.

Lemma Float64_ensures : ensures (Float64 Int63) (λ f, (0 ≤ f < one)%Z).
Proof.
  eapply ensures_bind; [apply redraw_ensures|]. intros v [Hr Hv]. apply ensures_ret.
  apply Float64_value_range in Hv. unfold Float64_rejects in Hr. apply Z.eqb_neq in Hr. lia.
Qed.
End draws.
