(* ===== verification/GoErrors.v ===== *)
(** * Errors

    Go's [error] values as the program builds and inspects them.  A nil error
    is [None] of [option (error X)].  [errors.New] and [fmt.Errorf] belong to
    the standard library and are modelled; the error types of the Kubernetes
    client libraries are not under src/, so they are a type [X] with the
    operations of class [KubeErrors], and what the program relies on of their
    documented behaviour is class [KubeErrorsLaws]. *)

From S2P Require Import Prelude.

Inductive error (X : Type) : Type :=
| errorString (s : string)                (* errors.New, fmt.Errorf without %w *)
| wrapError (msg : string) (err : error X) (* fmt.Errorf with one %w *)
| foreign (x : X).                        (* an error type of a library *)
Arguments errorString {X} s.
Arguments wrapError {X} msg err.
Arguments foreign {X} x.

(** [k8s.io/apimachinery/pkg/api/errors] and [.../api/meta], on non-nil errors. *)
Class KubeErrors (X : Type) := {
  foreign_Error : X → string;
  IsForbidden : error X → bool;
  IsNotFound : error X → bool;
  IsNoMatchError : error X → bool;
  NewForbidden : string → string → error X → X;
}.

(** Documented: the predicates see through [%w] wrapping, a plain text error is
    no API status, and [NewForbidden] builds the status [IsForbidden] tests. *)
Class KubeErrorsLaws (X : Type) `{!KubeErrors X} : Prop := {
  IsForbidden_wrap : ∀ m (e : error X), IsForbidden (wrapError m e) = IsForbidden e;
  IsForbidden_text : ∀ s, IsForbidden (errorString s : error X) = false;
  IsForbidden_new : ∀ r n (e : error X), IsForbidden (foreign (NewForbidden r n e)) = true;
}.

#[export] Hint Rewrite @IsForbidden_wrap @IsForbidden_text @IsForbidden_new using done : go.

Section errors.
Context {X : Type} `{!KubeErrors X}.

(** The [Error] method: what [%v] prints. *)
Definition Error (e : error X) : string :=
  match e with
  | errorString s => s
  | wrapError msg _ => msg
  | foreign x => foreign_Error x
  end.

(** The predicates on a possibly nil error: false on nil. *)
Definition is_forbidden (oe : option (error X)) : bool :=
  match oe with Some e => IsForbidden e | None => false end.

(** [fmt.Errorf(prefix + ": %w", err)] for a possibly nil [err]: with a nil
    operand [%w] prints "%!w(<nil>)" and wraps nothing. *)
Definition Errorf_w (prefix : string) (err : option (error X)) : error X :=
  match err with
  | Some e => wrapError (prefix +:+ ": " +:+ Error e) e
  | None => errorString (prefix +:+ ": %!w(<nil>)")
  end.
End errors.

(** ** A concrete instance, for the witnesses

    The statuses the program can meet, one constructor each. *)
Module SampleErrors.
Inductive api_error : Type :=
| StatusForbidden (resource name : string)
| StatusNotFound
| NoKindMatch
| InternalError.

#[export] Instance api_error_eq_dec : EqDecision api_error.
Proof. solve_decision. Defined.

Fixpoint status_of (e : error api_error) : option api_error :=
  match e with
  | errorString _ => None
  | wrapError _ e' => status_of e'
  | foreign x => Some x
  end.

#[export] Instance api_errors : KubeErrors api_error := {
  foreign_Error x := match x with
                     | StatusForbidden r n => r +:+ " " +:+ n +:+ " is forbidden"
                     | StatusNotFound => "the server could not find the requested resource"
                     | NoKindMatch => "no matches for kind"
                     | InternalError => "internal error"
                     end;
  IsForbidden e := match status_of e with Some (StatusForbidden _ _) => true | _ => false end;
  IsNotFound e := bool_decide (status_of e = Some StatusNotFound);
  IsNoMatchError e := bool_decide (status_of e = Some NoKindMatch);
  NewForbidden r n _ := StatusForbidden r n;
}.

#[export] Instance api_errors_laws : KubeErrorsLaws api_error.
Proof. by constructor. Qed.

Definition forbidden : error api_error := foreign (StatusForbidden "nodes" "n1").
Definition not_found : error api_error := foreign StatusNotFound.
Definition transient : error api_error := foreign InternalError.
Definition unreachable : error api_error := errorString "dial tcp: connection refused".
End SampleErrors.
