(* ===== verification/Model.v ===== *)
(** * Snapshot types

    The types of src/internal/model/model.go, shared by the collector, the
    mock source and the JSON API.  The Go field names are kept, prefixed with
    the type's name where two structs share one; a slice whose nil-ness shows
    (it marshals to [null]) is an [option] of a list, [None] for nil. *)

From S2P Require Import Prelude.

(** A CPU/memory pair: millicores and bytes, both int64. *)
Record Resources := {
  CPUMillis : Z;
  MemBytes : Z;
}.

(** A node's usable capacity. *)
Record Allocatable := {
  AllocCPUMillis : Z;
  AllocMemBytes : Z;
  AllocDiskBytes : Z;
  AllocPods : Z;
}.

(** Node-level filesystem usage; [DiskIsLive] is false when only the capacity
    (from allocatable) is known. *)
Record Disk := {
  CapacityBytes : Z;
  UsedBytes : Z;
  AvailableBytes : Z;
  DiskIsLive : bool;
}.

Record Pod := {
  PodUID : string;
  PodName : string;
  PodNamespace : string;
  PodRequests : Resources;
  PodLimits : Resources;
  PodUsage : Resources;
  PodHasUsage : bool;
}.

Record Node := {
  NodeName : string;
  NodeIsReady : bool;
  NodeRoles : list string;
  NodeAllocatable : Allocatable;
  NodeUsage : Resources;
  NodeHasUsage : bool;
  NodeDisk : Disk;
  NodePods : option (list Pod);
}.

Record Capabilities := {
  CapMetrics : bool;
  CapMetricsReason : string;
  CapDisk : bool;
  CapDiskReason : string;
}.

Definition ReasonDisabled : string := "disabled".
Definition ReasonForbidden : string := "forbidden".
Definition ReasonAbsent : string := "absent".
Definition ReasonUnavailable : string := "unavailable".

Record Snapshot := {
  GeneratedAt : Time;
  SnapNodes : list Node;
  SnapCapabilities : Capabilities;
}.

(** The zero values [var u Resources] and [Disk{}]. *)
Definition zeroResources : Resources := {| CPUMillis := 0; MemBytes := 0 |}.
Definition zeroDisk : Disk :=
  {| CapacityBytes := 0; UsedBytes := 0; AvailableBytes := 0; DiskIsLive := false |}.

#[export] Instance Resources_eq_dec : EqDecision Resources.
Proof. solve_decision. Defined.
#[export] Instance Allocatable_eq_dec : EqDecision Allocatable.
Proof. solve_decision. Defined.
#[export] Instance Disk_eq_dec : EqDecision Disk.
Proof. solve_decision. Defined.
#[export] Instance Pod_eq_dec : EqDecision Pod.
Proof. solve_decision. Defined.
#[export] Instance Node_eq_dec : EqDecision Node.
Proof. solve_decision. Defined.
#[export] Instance Capabilities_eq_dec : EqDecision Capabilities.
Proof. solve_decision. Defined.
#[export] Instance Snapshot_eq_dec : EqDecision Snapshot.
Proof. solve_decision. Defined.

(** The pods of a node, nil read as empty ([range], [len]). *)
Definition node_pods (n : Node) : list Pod := default [] (NodePods n).

(** Equations between the reasons. *)
Ltac reasons_congruence :=
  unfold ReasonDisabled, ReasonForbidden, ReasonAbsent, ReasonUnavailable in *; congruence.
