(* ===== verification/KubeApi.v ===== *)
(** * Kubernetes API objects

    The fields of the Kubernetes API types (k8s.io/api, k8s.io/metrics) that
    the program reads, and their documented string constants.  The libraries
    are not under src/: a [resource.Quantity] is a type [Q] whose accessors
    are the operations of class [Quantity], and class [QuantityLaws] states
    what their documentation promises. *)

From S2P Require Import Prelude.

(** [corev1.ResourceList] is [map[ResourceName]resource.Quantity]. *)
Class Quantity (Q : Type) := {
  Value : Q → Z;
  MilliValue : Q → Z;
  (* the methods ResourceList.Cpu and ResourceList.Memory *)
  ListCpu : gmap string Q → Q;
  ListMemory : gmap string Q → Q;
}.

Definition ResourceCPU : string := "cpu".
Definition ResourceMemory : string := "memory".
Definition ResourceEphemeralStorage : string := "ephemeral-storage".
Definition ResourcePods : string := "pods".

(** [Value] and [MilliValue] return an int64; [Cpu] and [Memory] return the
    list's entry, a zero quantity when there is none. *)
Class QuantityLaws (Q : Type) `{!Quantity Q} : Prop := {
  Value_range : ∀ q : Q, in_int64 (Value q);
  MilliValue_range : ∀ q : Q, in_int64 (MilliValue q);
  ListCpu_entry : ∀ rl (q : Q), rl !! ResourceCPU = Some q → ListCpu rl = q;
  ListCpu_none : ∀ rl : gmap string Q, rl !! ResourceCPU = None → MilliValue (ListCpu rl) = 0%Z;
  ListMemory_entry : ∀ rl (q : Q), rl !! ResourceMemory = Some q → ListMemory rl = q;
  ListMemory_none : ∀ rl : gmap string Q, rl !! ResourceMemory = None → Value (ListMemory rl) = 0%Z;
}.

#[export] Hint Resolve Value_range MilliValue_range : go.

Record Container (Q : Type) := {
  Requests : gmap string Q;
  Limits : gmap string Q;
  RestartPolicy : option string;
}.
Arguments Requests {Q} _.
Arguments Limits {Q} _.
Arguments RestartPolicy {Q} _.

Definition ContainerRestartPolicyAlways : string := "Always".

Record PodSpec (Q : Type) := {
  SpecNodeName : string;
  Containers : list (Container Q);
  InitContainers : list (Container Q);
}.
Arguments SpecNodeName {Q} _.
Arguments Containers {Q} _.
Arguments InitContainers {Q} _.

Definition PodSucceeded : string := "Succeeded".
Definition PodFailed : string := "Failed".
Definition PodRunning : string := "Running".

(** [corev1.Pod]. *)
Record KPod (Q : Type) := {
  KPodUID : string;
  KPodName : string;
  KPodNamespace : string;
  KPodSpec : PodSpec Q;
  KPodPhase : string;
}.
Arguments KPodUID {Q} _.
Arguments KPodName {Q} _.
Arguments KPodNamespace {Q} _.
Arguments KPodSpec {Q} _.
Arguments KPodPhase {Q} _.

Record NodeCondition := { CondType : string; CondStatus : string }.
Record NodeAddress := { AddrType : string; Address : string }.

Definition ConditionNodeReady : string := "Ready".
Definition ConditionTrue : string := "True".
Definition NodeInternalIP : string := "InternalIP".
Definition NodeExternalIP : string := "ExternalIP".
Definition NodeHostName : string := "Hostname".

(** [corev1.Node]; [KubeletEndpointPort] is an int32. *)
Record KNode (Q : Type) := {
  KNodeName : string;
  KNodeLabels : gmap string string;
  KNodeAllocatable : gmap string Q;
  KNodeConditions : list NodeCondition;
  KNodeAddresses : list NodeAddress;
  KubeletEndpointPort : Z;
}.
Arguments KNodeName {Q} _.
Arguments KNodeLabels {Q} _.
Arguments KNodeAllocatable {Q} _.
Arguments KNodeConditions {Q} _.
Arguments KNodeAddresses {Q} _.
Arguments KubeletEndpointPort {Q} _.

(** [metricsv1beta1.NodeMetrics] and [PodMetrics]; a container's metrics are
    its usage list. *)
Record NodeMetrics (Q : Type) := {
  NMName : string;
  NMUsage : gmap string Q;
}.
Arguments NMName {Q} _.
Arguments NMUsage {Q} _.

Record PodMetrics (Q : Type) := {
  PMNamespace : string;
  PMName : string;
  PMContainers : list (gmap string Q);
}.
Arguments PMNamespace {Q} _.
Arguments PMName {Q} _.
Arguments PMContainers {Q} _.

(** ** A concrete instance, for the witnesses

    A quantity as a number of thousandths, rounded up by [Value] and clamped
    to the int64 range. *)
Module SampleQuantity.
Record quantity := Milli { millis : Z }.

Definition whole (n : Z) : quantity := Milli (1000 * n).

#[export] Instance sample_quantity : Quantity quantity := {
  Value q := sat64 (- ((- millis q) / 1000));
  MilliValue q := sat64 (millis q);
  ListCpu rl := default (Milli 0) (rl !! ResourceCPU);
  ListMemory rl := default (Milli 0) (rl !! ResourceMemory);
}.

#[export] Instance sample_quantity_laws : QuantityLaws quantity.
Proof.
  constructor; intros; simpl; try apply sat64_range;
    repeat match goal with H : _ !! _ = _ |- _ => rewrite H end; done.
Qed.

Definition rl (cpu_millis mem : Z) : gmap string quantity :=
  {[ ResourceCPU := Milli cpu_millis; ResourceMemory := whole mem ]}.
End SampleQuantity.
