(* ===== verification/Resources.v ===== *)
(** * Effective pod resources

    src/internal/collector/resources.go: the effective requests and limits of
    a pod from those of its containers, in int64 arithmetic. *)

From S2P Require Import Prelude.
From S2P Require Import Model.
From S2P Require Import KubeApi.

Section resources.
Context {Q : Type} `{!Quantity Q}.
Implicit Types (rl : gmap string Q) (c : Container Q) (spec : PodSpec Q).

Definition cpuMillis rl : Z :=
  match rl !! ResourceCPU with Some q => MilliValue q | None => 0%Z end.

Definition memBytes rl : Z :=
  match rl !! ResourceMemory with Some q => Value q | None => 0%Z end.

Definition quantityValue rl (name : string) : Z :=
  match rl !! name with Some q => Value q | None => 0%Z end.

(** The four running totals a loop of [effectiveResources] updates. *)
Record totals := Totals { reqCPU : Z; reqMem : Z; limCPU : Z; limMem : Z }.

(** One step of such a loop: [op] is [+=] for a sum, [max] for a maximum. *)
Definition totals_step (op : Z → Z → Z) (t : totals) c : totals := {|
  reqCPU := op (reqCPU t) (cpuMillis (Requests c));
  reqMem := op (reqMem t) (memBytes (Requests c));
  limCPU := op (limCPU t) (cpuMillis (Limits c));
  limMem := op (limMem t) (memBytes (Limits c));
|}.

Definition totals0 : totals := Totals 0 0 0 0.

(** [c.RestartPolicy != nil && *c.RestartPolicy == Always]. *)
Definition is_sidecar c : bool :=
  bool_decide (RestartPolicy c = Some ContainerRestartPolicyAlways).

(** The body of the loop over the init containers, on the sidecar sums and
    the maxima of the others. *)
Definition init_step (t : totals * totals) c : totals * totals :=
  let '(side, init) := t in
  if is_sidecar c
  then (totals_step add64 side c, init)
  else (side, totals_step Z.max init c).

Definition effectiveResources spec : Resources * Resources :=
  let regular := foldl (totals_step add64) totals0 (Containers spec) in
  let '(side, init) := foldl init_step (totals0, totals0) (InitContainers spec) in
  let requests := {|
    CPUMillis := Z.max (add64 (reqCPU regular) (reqCPU side)) (add64 (reqCPU init) (reqCPU side));
    MemBytes := Z.max (add64 (reqMem regular) (reqMem side)) (add64 (reqMem init) (reqMem side));
  |} in
  let limits := {|
    CPUMillis := Z.max (add64 (limCPU regular) (limCPU side)) (add64 (limCPU init) (limCPU side));
    MemBytes := Z.max (add64 (limMem regular) (limMem side)) (add64 (limMem init) (limMem side));
  |} in
  (requests, limits).

(** ** The specification

    One resource dimension [f] at a time: the int64 total the four formulas
    share, and the mathematical total the comment describes. *)

Definition sidecars spec : list (Container Q) := filter (λ c, is_sidecar c = true) (InitContainers spec).
Definition plain_inits spec : list (Container Q) := filter (λ c, is_sidecar c = false) (InitContainers spec).

Definition effective64 (f : Container Q → Z) spec : Z :=
  Z.max (add64 (sum64 (f <$> Containers spec)) (sum64 (f <$> sidecars spec)))
        (add64 (max0 (f <$> plain_inits spec)) (sum64 (f <$> sidecars spec))).

Definition effective_spec (f : Container Q → Z) spec : Z :=
  (sumZ (f <$> sidecars spec)
   + Z.max (sumZ (f <$> Containers spec)) (max0 (f <$> plain_inits spec)))%Z.

(** The four dimensions. *)
Definition req_cpu c : Z := cpuMillis (Requests c).
Definition req_mem c : Z := memBytes (Requests c).
Definition lim_cpu c : Z := cpuMillis (Limits c).
Definition lim_mem c : Z := memBytes (Limits c).

(** No total the code computes leaves the int64 range. *)
Definition no_overflow (f : Container Q → Z) spec : Prop :=
  in_int64 (sumZ (f <$> Containers spec)) ∧ in_int64 (sumZ (f <$> sidecars spec)) ∧
  in_int64 (sumZ (f <$> Containers spec) + sumZ (f <$> sidecars spec)) ∧
  in_int64 (max0 (f <$> plain_inits spec) + sumZ (f <$> sidecars spec)).

(** ** Lemmas *)

Lemma totals_fold op t cs :
  foldl (totals_step op) t cs =
    Totals (foldl op (reqCPU t) (req_cpu <$> cs)) (foldl op (reqMem t) (req_mem <$> cs))
           (foldl op (limCPU t) (lim_cpu <$> cs)) (foldl op (limMem t) (lim_mem <$> cs)).
Proof. revert t. induction cs as [|c cs IH]; intros t; simpl; [by destruct t|]. by rewrite IH. Qed.

Lemma init_fold side init cs :
  foldl init_step (side, init) cs =
    (foldl (totals_step add64) side (filter (λ c, is_sidecar c = true) cs),
     foldl (totals_step Z.max) init (filter (λ c, is_sidecar c = false) cs)).
Proof.
  revert side init. induction cs as [|c cs IH]; intros side init; [done|].
  rewrite !filter_cons. simpl. by destruct (is_sidecar c); rewrite IH.
Qed.

(** The function is [effective64] in each of its four dimensions. *)
Lemma effectiveResources_eq spec :
  effectiveResources spec =
    ({| CPUMillis := effective64 req_cpu spec; MemBytes := effective64 req_mem spec |},
     {| CPUMillis := effective64 lim_cpu spec; MemBytes := effective64 lim_mem spec |}).
Proof. unfold effectiveResources. by rewrite init_fold, !totals_fold. Qed.

Lemma effective64_spec f spec : no_overflow f spec → effective64 f spec = effective_spec f spec.
Proof.
  intros (Hc & Hs & Hcs & His). unfold effective64, effective_spec.
  rewrite !sum64_small, !add64_small by done. lia.
Qed.

Lemma effective64_range f spec : in_int64 (effective64 f spec).
Proof.
  unfold effective64.
  destruct (Z.max_spec (add64 (sum64 (f <$> Containers spec)) (sum64 (f <$> sidecars spec)))
              (add64 (max0 (f <$> plain_inits spec)) (sum64 (f <$> sidecars spec))))
    as [[_ ->]|[_ ->]]; auto with go.
Qed.

Lemma effective64_Permutation f n cs cs' ics ics' :
  cs ≡ₚ cs' → ics ≡ₚ ics' →
  effective64 f {| SpecNodeName := n; Containers := cs; InitContainers := ics |} =
  effective64 f {| SpecNodeName := n; Containers := cs'; InitContainers := ics' |}.
Proof.
  intros Hc Hi. unfold effective64, sidecars, plain_inits. simpl.
  by rewrite Hc, Hi.
Qed.
End resources.

(** ** Properties *)

Section properties.
Context {Q : Type} `{!Quantity Q}.
Implicit Types (spec : PodSpec Q).

(** C36: when no total overflows, [effectiveResources] returns in each of its four
    dimensions the sum of the sidecars plus the larger of the sum of the regular
    containers and the largest ordinary init container. *)
Theorem effectiveResources_formula spec :
  no_overflow req_cpu spec → no_overflow req_mem spec →
  no_overflow lim_cpu spec → no_overflow lim_mem spec →
  effectiveResources spec =
    ({| CPUMillis := effective_spec req_cpu spec; MemBytes := effective_spec req_mem spec |},
     {| CPUMillis := effective_spec lim_cpu spec; MemBytes := effective_spec lim_mem spec |}).
Proof. intros. by rewrite effectiveResources_eq, !effective64_spec. Qed.

(** [effectiveResources] does not depend on the order in which the containers
    and the init containers are listed, overflow included, and whatever the
    quantities its results are int64 values. *)
Theorem effectiveResources_order_range n cs cs' ics ics' :
  cs ≡ₚ cs' → ics ≡ₚ ics' →
  let r := effectiveResources {| SpecNodeName := n; Containers := cs; InitContainers := ics |} in
  r = effectiveResources {| SpecNodeName := n; Containers := cs'; InitContainers := ics' |} ∧
  in_int64 (CPUMillis r.1) ∧ in_int64 (MemBytes r.1) ∧
  in_int64 (CPUMillis r.2) ∧ in_int64 (MemBytes r.2).
Proof.
  intros Hc Hi r. unfold r. rewrite !effectiveResources_eq. split.
  - by rewrite !(effective64_Permutation _ n _ _ _ _ Hc Hi).
  - split_and!; apply effective64_range.
Qed.
End properties.

(** ** Witnesses *)

Module ResourcesWitness.
Import SampleQuantity.

Definition container (cpu mem lcpu lmem : Z) (policy : option string) : Container quantity :=
  {| Requests := rl cpu mem; Limits := rl lcpu lmem; RestartPolicy := policy |}.

(** A pod with a regular container, a sidecar and an ordinary init container. *)
Definition spec : PodSpec quantity := {|
  SpecNodeName := "n1";
  Containers := [container 400 256 800 512 None];
  InitContainers := [container 100 64 200 128 (Some ContainerRestartPolicyAlways);
                     container 300 128 300 128 None];
|}.

Lemma effectiveResources_formula_witness :
  effectiveResources spec =
    ({| CPUMillis := 500; MemBytes := 320 |}, {| CPUMillis := 1000; MemBytes := 640 |}).
Proof.
  rewrite (effectiveResources_formula spec); [reflexivity|..];
    unfold no_overflow, in_int64; vm_compute; repeat split; discriminate.
Defined.

Lemma effectiveResources_order_range_witness :
  effectiveResources spec =
  effectiveResources {| SpecNodeName := "n1"; Containers := Containers spec;
                        InitContainers := reverse (InitContainers spec) |}.
Proof.
  destruct (effectiveResources_order_range "n1" (Containers spec) (Containers spec)
              (InitContainers spec) (reverse (InitContainers spec))) as [H _].
  - reflexivity.
  - symmetry. apply reverse_Permutation.
  - exact H.
Defined.
End ResourcesWitness.
