(* ===== verification/Capability.v ===== *)
(** * Capability hysteresis

    The metrics signal and the disk signal of the collector fold each fetch
    result into a capability: live or degraded, with a reason.  This file
    states what that promises ([cap_step], an abstract state machine), the
    interface a signal implements (class [Signal], with its laws), and the
    theorems a client gets from the interface alone.  MetricsSignal and
    DiskSignal discharge it. *)

From S2P Require Import Prelude.
From S2P Require Import Model.

(** How a fetch ended: it answered, a 403, the API is not installed, or any
    other failure. *)
Inductive outcome := Success | Denied | NotInstalled | Transient.

#[export] Instance outcome_eq_dec : EqDecision outcome.
Proof. solve_decision. Defined.

(** Consecutive transient failures it takes to drop a capability. *)
Definition capFailThreshold : Z := 3.

(** ** The abstract machine *)

Inductive cap :=
| Up (failures : Z)
| Down (reason : string).

Definition cap_step (c : cap) (o : outcome) : cap :=
  match o with
  | Success => Up 0
  | Denied => Down ReasonForbidden
  | NotInstalled => Down ReasonAbsent
  | Transient =>
      match c with
      | Up n => if (capFailThreshold <=? n + 1)%Z then Down ReasonUnavailable else Up (n + 1)
      | Down _ => Down ReasonUnavailable
      end
  end.

Definition cap_run (c : cap) (os : list outcome) : cap := foldl cap_step c os.

Definition cap_up (c : cap) : bool := match c with Up _ => true | Down _ => false end.

(** ** The closed form

    What the machine, started live, has become after a history, read from the
    latest outcome back: [k] counts the transient failures seen so far. *)
Definition streak (k : Z) : cap :=
  if (k <? capFailThreshold)%Z then Up k else Down ReasonUnavailable.

Fixpoint verdict (k : Z) (latest_first : list outcome) : cap :=
  match latest_first with
  | [] => streak k
  | Transient :: os => verdict (k + 1) os
  | Success :: _ => streak k
  | Denied :: _ => Down (if (k =? 0)%Z then ReasonForbidden else ReasonUnavailable)
  | NotInstalled :: _ => Down (if (k =? 0)%Z then ReasonAbsent else ReasonUnavailable)
  end.

(** ** The interface

    A signal has a state [St] and folds inputs [In] (one per fetch). *)
Class Signal (St In : Type) := {
  sig_up : St → bool;
  sig_reason : St → string;
  sig_failures : St → Z;
  sig_outcome : In → outcome;
  sig_step : In → St → St;
}.

Section signal.
Context {St In : Type} `{!Signal St In}.

Definition sig_abs (st : St) : cap :=
  if sig_up st then Up (sig_failures st) else Down (sig_reason st).

(** The reason is empty exactly while the signal is live, and a live signal's
    failure streak is below the threshold. *)
Definition sig_ok (st : St) : Prop :=
  if sig_up st
  then sig_reason st = "" ∧ (0 ≤ sig_failures st < capFailThreshold)%Z
  else sig_reason st ≠ "".

Definition sig_run (st : St) (ins : list In) : St := foldl (λ st i, sig_step i st) st ins.
End signal.

(** What an implementation has to show: the invariant, and a simulation. *)
Class SignalLaws (St In : Type) `{!Signal St In} : Prop := {
  sig_step_ok : ∀ (i : In) (st : St), sig_ok st → sig_ok (sig_step i st);
  sig_step_refines : ∀ (i : In) (st : St),
    sig_ok st → sig_abs (sig_step i st) = cap_step (sig_abs st) (sig_outcome i);
}.

(** ** The abstract machine has the closed form *)

Lemma cap_run_unavailable k :
  foldl cap_step (Down ReasonUnavailable) (replicate k Transient) = Down ReasonUnavailable.
Proof. induction k; simpl; auto. Qed.

Lemma cap_run_transients n k :
  (0 ≤ n < capFailThreshold)%Z →
  cap_run (Up n) (replicate k Transient) = streak (n + Z.of_nat k).
Proof.
  revert n. unfold cap_run.
  induction k as [|k IH]; intros n Hn; simpl foldl.
  - unfold streak. rewrite Z.add_0_r. by destruct (Z.ltb_spec n capFailThreshold); [|lia].
  - destruct (Z.leb_spec capFailThreshold (n + 1)) as [Hk|Hk].
    + rewrite cap_run_unavailable. unfold streak.
      by destruct (Z.ltb_spec (n + Z.of_nat (S k)) capFailThreshold); [lia|].
    + rewrite IH by lia. f_equal. lia.
Qed.

Lemma cap_run_down_transients r k :
  cap_run (Down r) (replicate k Transient) = Down (if (Z.of_nat k =? 0)%Z then r else ReasonUnavailable).
Proof.
  revert r. induction k as [|k IH]; intros r; [done|].
  unfold cap_run in *. simpl foldl. rewrite IH. by destruct k.
Qed.

Lemma cap_run_verdict_from os k :
  cap_run (Up 0) (os ++ replicate k Transient) = verdict (Z.of_nat k) (reverse os).
Proof.
  revert k. induction os as [|o os IH] using rev_ind; intros k; simpl.
  { rewrite cap_run_transients; [done|]. unfold capFailThreshold. lia. }
  rewrite reverse_snoc. unfold cap_run. rewrite !foldl_app. simpl.
  destruct o; simpl; fold (cap_run (Up 0) (replicate k Transient)).
  - rewrite cap_run_transients; [done|]. unfold capFailThreshold. lia.
  - apply cap_run_down_transients.
  - apply cap_run_down_transients.
  - specialize (IH (S k)). unfold cap_run in IH. rewrite foldl_app in IH. simpl in IH.
    rewrite IH. f_equal. lia.
Qed.

Lemma cap_run_verdict os : cap_run (Up 0) os = verdict 0 (reverse os).
Proof. pose proof (cap_run_verdict_from os 0) as H. simpl in H. by rewrite app_nil_r in H. Qed.

(** ** What every implementation gets *)

Section client.
Context {St In : Type} `{!Signal St In, !SignalLaws St In}.
Implicit Types (st : St) (i : In) (ins : list In).

Lemma sig_run_refines st ins :
  sig_ok st → sig_ok (sig_run st ins) ∧
  sig_abs (sig_run st ins) = cap_run (sig_abs st) (sig_outcome <$> ins).
Proof.
  revert st. induction ins as [|i ins IH]; intros st Hok; simpl; [done|].
  destruct (IH (sig_step i st)) as [H1 H2]; [by apply sig_step_ok|].
  split; [done|]. unfold sig_run in *. simpl. rewrite H2. unfold cap_run. simpl.
  by rewrite sig_step_refines.
Qed.

Lemma sig_run_verdict st ins :
  sig_ok st → sig_up st = true → sig_failures st = 0%Z →
  sig_abs (sig_run st ins) = verdict 0 (reverse (sig_outcome <$> ins)).
Proof.
  intros Hok Hup Hf. destruct (sig_run_refines st ins Hok) as [_ ->].
  unfold sig_abs. by rewrite Hup, Hf, cap_run_verdict.
Qed.

Lemma sig_reason_iff st : sig_ok st → sig_up st = true ↔ sig_reason st = "".
Proof. unfold sig_ok. destruct (sig_up st); intuition congruence. Qed.

End client.
