(* ===== verification/Json.v ===== *)
(** * JSON

    What the program uses of Go's encoding/json: the syntax [json.Unmarshal]
    accepts (nesting depth included), how it stores an object into a struct,
    and the text [json.Marshal] writes.  A document is a value of type [json];
    a number keeps its literal.  A string value holds the bytes of a Go
    string. *)

From Stdlib Require Import Ascii.
From S2P Require Import Prelude.

Inductive json : Type :=
| JNull
| JBool (b : bool)
| JNum (lit : string)
| JStr (s : string)
| JArr (vs : list json)
| JObj (kvs : list (string * json)).

(** ** Bytes *)

Definition dquote : ascii := ascii_of_N 34.
Definition backslash : ascii := ascii_of_N 92.
Definition byte_in (lo hi : N) (a : ascii) : bool := ((lo <=? N_of_ascii a) && (N_of_ascii a <=? hi))%N.
Definition cont : ascii → bool := byte_in 128 191.

(** Four hexadecimal digits. *)
Definition hexval (a : ascii) : option N :=
  let n := N_of_ascii a in
  if byte_in 48 57 a then Some (n - 48)%N
  else if byte_in 97 102 a then Some (n - 87)%N
  else if byte_in 65 70 a then Some (n - 55)%N
  else None.

Definition hex4 (a b c d : ascii) : option N :=
  a ← hexval a; b ← hexval b; c ← hexval c; d ← hexval d;
  Some (((a * 16 + b) * 16 + c) * 16 + d)%N.

Definition hexdigit (n : N) : ascii := ascii_of_N (if (n <? 10)%N then n + 48 else n + 87).

(** [utf8.EncodeRune]. *)
Definition utf8 (r : N) : string :=
  (if r <? 128 then String (ascii_of_N r) ""
   else if r <? 2048 then
     String (ascii_of_N (192 + r / 64)) (String (ascii_of_N (128 + r mod 64)) "")
   else if r <? 65536 then
     String (ascii_of_N (224 + r / 4096)) (String (ascii_of_N (128 + r / 64 mod 64))
       (String (ascii_of_N (128 + r mod 64)) ""))
   else
     String (ascii_of_N (240 + r / 262144)) (String (ascii_of_N (128 + r / 4096 mod 64))
       (String (ascii_of_N (128 + r / 64 mod 64)) (String (ascii_of_N (128 + r mod 64)) ""))))%N.

Definition replacement : N := 65533.

(** The sequences [utf8.DecodeRune] accepts. *)
Definition utf8_1 (a : ascii) : bool := byte_in 0 127 a.
Definition utf8_2 (a b : ascii) : bool := byte_in 194 223 a && cont b.
Definition utf8_3 (a b c : ascii) : bool :=
  (byte_in 224 224 a && byte_in 160 191 b ||
   byte_in 225 236 a && cont b ||
   byte_in 237 237 a && byte_in 128 159 b ||
   byte_in 238 239 a && cont b) && cont c.
Definition utf8_4 (a b c d : ascii) : bool :=
  (byte_in 240 240 a && byte_in 144 191 b ||
   byte_in 241 243 a && cont b ||
   byte_in 244 244 a && byte_in 128 143 b) && cont c && cont d.

(** A string rune by rune, as [range] and [DecodeRune] walk it: the bytes of a
    valid encoding, or [None] for a byte that starts none. *)
Fixpoint runes (s : string) : list (option string) :=
  match s with
  | EmptyString => []
  | String a s1 =>
      if utf8_1 a then Some (String a "") :: runes s1
      else match s1 with
      | EmptyString => [None]
      | String b s2 =>
          if utf8_2 a b then Some (String a (String b "")) :: runes s2
          else match s2 with
          | EmptyString => None :: runes s1
          | String c s3 =>
              if utf8_3 a b c then Some (String a (String b (String c ""))) :: runes s3
              else match s3 with
              | EmptyString => None :: runes s1
              | String d s4 =>
                  if utf8_4 a b c d then Some (String a (String b (String c (String d "")))) :: runes s4
                  else None :: runes s1
              end
          end
      end
  end.

Definition concat_str (ss : list string) : string := foldr String.append "" ss.

(** [strings.ToValidUTF8] with U+FFFD for every invalid byte: what a string
    becomes on its way through JSON. *)
Definition rune_bytes (r : option string) : string := default (utf8 replacement) r.
Definition sanitize (s : string) : string := concat_str (rune_bytes <$> runes s).

(** ** Reading: the syntax *)

Definition is_ws (a : ascii) : bool :=
  bool_decide (N_of_ascii a = 32 ∨ N_of_ascii a = 9 ∨ N_of_ascii a = 10 ∨ N_of_ascii a = 13)%N.

Fixpoint skip_ws (s : string) : string :=
  match s with
  | String a s' => if is_ws a then skip_ws s' else s
  | EmptyString => s
  end.

(** A character of a string literal: a byte, or a [\u] escape's code unit. *)
Inductive strchar := Byte (a : ascii) | U16 (n : N).

Definition unescape (e : ascii) : option ascii :=
  if decide (e = dquote ∨ e = backslash ∨ e = "/"%char) then Some e
  else if decide (e = "b"%char) then Some (ascii_of_N 8)
  else if decide (e = "f"%char) then Some (ascii_of_N 12)
  else if decide (e = "n"%char) then Some (ascii_of_N 10)
  else if decide (e = "r"%char) then Some (ascii_of_N 13)
  else if decide (e = "t"%char) then Some (ascii_of_N 9)
  else None.

(** The rest of a literal, after its opening quote. *)
Fixpoint lex_string (s : string) : option (list strchar * string) :=
  match s with
  | EmptyString => None
  | String c s1 =>
      if decide (c = dquote) then Some ([], s1)
      else if decide (c = backslash) then
        match s1 with
        | EmptyString => None
        | String e s2 =>
            if decide (e = "u"%char) then
              match s2 with
              | String h1 (String h2 (String h3 (String h4 s6))) =>
                  n ← hex4 h1 h2 h3 h4;
                  '(cs, r) ← lex_string s6;
                  Some (U16 n :: cs, r)
              | _ => None
              end
            else
              b ← unescape e;
              '(cs, r) ← lex_string s2;
              Some (Byte b :: cs, r)
        end
      else if byte_in 0 31 c then None
      else '(cs, r) ← lex_string s1; Some (Byte c :: cs, r)
  end.

Definition is_high (n : N) : bool := ((55296 <=? n) && (n <=? 56319))%N.
Definition is_low (n : N) : bool := ((56320 <=? n) && (n <=? 57343))%N.

(** Surrogate pairs are joined; a lone half becomes U+FFFD. *)
Fixpoint text (cs : list strchar) : string :=
  match cs with
  | [] => ""
  | Byte a :: cs' => String a (text cs')
  | U16 hi :: cs' =>
      if is_high hi then
        match cs' with
        | U16 lo :: cs'' =>
            if is_low lo then utf8 (65536 + (hi - 55296) * 1024 + (lo - 56320)) +:+ text cs''
            else utf8 replacement +:+ text cs'
        | _ => utf8 replacement +:+ text cs'
        end
      else if is_low hi then utf8 replacement +:+ text cs'
      else utf8 hi +:+ text cs'
  end.

Definition string_lit (s : string) : option (string * string) :=
  '(cs, r) ← lex_string s; Some (sanitize (text cs), r).

Definition is_digit : ascii → bool := byte_in 48 57.

Fixpoint digits (s : string) : string * string :=
  match s with
  | String a s' => if is_digit a then let '(ds, r) := digits s' in (String a ds, r) else ("", s)
  | EmptyString => ("", s)
  end.

(** At least one digit. *)
Definition digits1 (s : string) : option (string * string) :=
  match digits s with
  | (EmptyString, _) => None
  | dr => Some dr
  end.

(** An optional part: nothing when its first byte is not there. *)
Definition fraction (s : string) : option (string * string) :=
  match s with
  | String a s' =>
      if decide (a = "."%char) then '(ds, r) ← digits1 s'; Some (String a ds, r) else Some ("", s)
  | EmptyString => Some ("", s)
  end.

Definition exponent (s : string) : option (string * string) :=
  match s with
  | String a s' =>
      if decide (a = "e"%char ∨ a = "E"%char) then
        match s' with
        | String b s'' =>
            if decide (b = "+"%char ∨ b = "-"%char) then '(ds, r) ← digits1 s''; Some (String a (String b ds), r)
            else '(ds, r) ← digits1 s'; Some (String a ds, r)
        | EmptyString => None
        end
      else Some ("", s)
  | EmptyString => Some ("", s)
  end.

(** No leading zeros. *)
Definition integer (s : string) : option (string * string) :=
  match s with
  | String a s' => if decide (a = "0"%char) then Some (String a "", s') else digits1 s
  | EmptyString => None
  end.

Definition unsigned (s : string) : option (string * string) :=
  '(i, s1) ← integer s; '(f, s2) ← fraction s1; '(e, s3) ← exponent s2;
  Some (i +:+ f +:+ e, s3).

Definition number (s : string) : option (string * string) :=
  match s with
  | String a s' =>
      if decide (a = "-"%char) then '(n, r) ← unsigned s'; Some (String a n, r) else unsigned s
  | EmptyString => None
  end.

(** [maxNestingDepth] of the scanner. *)
Definition max_depth : N := 10000.

(** One value, the members of an object after its first brace, the elements of
    an array after its first bracket. *)
Fixpoint value (fuel : nat) (depth : N) (s : string) : option (json * string) :=
  match fuel with
  | O => None
  | S fuel =>
      match skip_ws s with
      | EmptyString => None
      | String c s1 =>
          if decide (c = "{"%char) then
            if (max_depth <=? depth)%N then None
            else match skip_ws s1 with
            | String c' s2 =>
                if decide (c' = "}"%char) then Some (JObj [], s2)
                else '(kvs, r) ← members fuel (depth + 1) (String c' s2); Some (JObj kvs, r)
            | EmptyString => None
            end
          else if decide (c = "["%char) then
            if (max_depth <=? depth)%N then None
            else match skip_ws s1 with
            | String c' s2 =>
                if decide (c' = "]"%char) then Some (JArr [], s2)
                else '(vs, r) ← elements fuel (depth + 1) (String c' s2); Some (JArr vs, r)
            | EmptyString => None
            end
          else if decide (c = dquote) then '(t, r) ← string_lit s1; Some (JStr t, r)
          else if decide (c = "t"%char) then r ← CutPrefix s1 "rue"; Some (JBool true, r)
          else if decide (c = "f"%char) then r ← CutPrefix s1 "alse"; Some (JBool false, r)
          else if decide (c = "n"%char) then r ← CutPrefix s1 "ull"; Some (JNull, r)
          else '(lit, r) ← number (String c s1); Some (JNum lit, r)
      end
  end
with members (fuel : nat) (depth : N) (s : string) : option (list (string * json) * string) :=
  match fuel with
  | O => None
  | S fuel =>
      match skip_ws s with
      | EmptyString => None
      | String c s1 =>
          if decide (c = dquote) then
            '(k, s2) ← string_lit s1;
            match skip_ws s2 with
            | EmptyString => None
            | String c' s3 =>
                if decide (c' = colon) then
                  '(v, s4) ← value fuel depth s3;
                  match skip_ws s4 with
                  | EmptyString => None
                  | String c'' s5 =>
                      if decide (c'' = ","%char) then
                        '(kvs, r) ← members fuel depth s5; Some ((k, v) :: kvs, r)
                      else if decide (c'' = "}"%char) then Some ([(k, v)], s5)
                      else None
                  end
                else None
            end
          else None
      end
  end
with elements (fuel : nat) (depth : N) (s : string) : option (list json * string) :=
  match fuel with
  | O => None
  | S fuel =>
      '(v, s1) ← value fuel depth s;
      match skip_ws s1 with
      | EmptyString => None
      | String c s2 =>
          if decide (c = ","%char) then '(vs, r) ← elements fuel depth s2; Some (v :: vs, r)
          else if decide (c = "]"%char) then Some ([v], s2)
          else None
      end
  end.

(** Enough for any input, by [value_fuel] below. *)
Definition enough (s : string) : nat := S (2 * String.length s).

(** A whole document: one value and nothing but blanks after it. *)
Definition Parse (s : string) : option json :=
  '(v, r) ← value (enough s) 0 s;
  if decide (skip_ws r = "") then Some v else None.

(** ** Reading: into Go values *)

(** [strconv.ParseUint(lit, 10, 64)] of a number's literal. *)
Fixpoint digits_value (acc : Z) (s : string) : option Z :=
  match s with
  | EmptyString => Some acc
  | String a s' =>
      if is_digit a then digits_value (10 * acc + Z.of_N (N_of_ascii a - 48)) s' else None
  end.

Definition ParseUint (lit : string) : option Z :=
  if decide (lit = "") then None
  else n ← digits_value 0 lit; if decide (n < 2 ^ 64)%Z then Some n else None.

(** [foldName]: field names match up to case folding, under which U+017F is an
    s and U+212A a k. *)
Definition upper (a : ascii) : ascii := if byte_in 97 122 a then ascii_of_N (N_of_ascii a - 32) else a.

Fixpoint foldName (s : string) : string :=
  match s with
  | EmptyString => EmptyString
  | String a s1 =>
      match s1 with
      | EmptyString => String (upper a) ""
      | String b s2 =>
          if decide (N_of_ascii a = 197 ∧ N_of_ascii b = 191)%N then String "S" (foldName s2)
          else match s2 with
          | EmptyString => String (upper a) (foldName s1)
          | String c s3 =>
              if decide (N_of_ascii a = 226 ∧ N_of_ascii b = 132 ∧ N_of_ascii c = 170)%N
              then String "K" (foldName s3)
              else String (upper a) (foldName s1)
          end
      end
  end.

Definition names (key field : string) : bool := bool_decide (foldName key = foldName field).

(** A decoder updates the Go value it is given; [None] when [Unmarshal] reports
    a type error (it keeps decoding to report the first one, so what it has
    stored by then is discarded with the error). *)
Definition decoder (T : Type) : Type := json → T → option T.

(** Into a struct: [field] stores a member, or skips an unknown key; null
    leaves a struct as it is. *)
Definition decode_struct {T} (field : string → decoder T) : decoder T := λ v t,
  match v with
  | JNull => Some t
  | JObj kvs => foldl (λ ot kv, t ← ot; field kv.1 kv.2 t) (Some t) kvs
  | _ => None
  end.

(** Into a pointer: null sets it to nil, anything else decodes into what it
    points to, a fresh zero value if it is nil. *)
Definition decode_pointer {T} (zero : T) (d : decoder T) : decoder (option T) := λ v p,
  match v with
  | JNull => Some None
  | _ => t ← d v (default zero p); Some (Some t)
  end.

Definition decode_uint64 : decoder Z := λ v n,
  match v with
  | JNull => Some n
  | JNum lit => ParseUint lit
  | _ => None
  end.

(** ** Writing *)

(** The text [encodeState.string] writes for an ASCII byte, HTML characters
    escaped. *)
Definition escape_ascii (a : ascii) : string :=
  let n := N_of_ascii a in
  let short c := String backslash (String c "") in
  if decide (a = dquote ∨ a = backslash) then short a
  else if decide (n = 8)%N then short "b"%char
  else if decide (n = 12)%N then short "f"%char
  else if decide (n = 10)%N then short "n"%char
  else if decide (n = 13)%N then short "r"%char
  else if decide (n = 9)%N then short "t"%char
  else if decide (n < 32 ∨ a = "<"%char ∨ a = ">"%char ∨ a = "&"%char)%N then
    String backslash ("u00" +:+ String (hexdigit (n / 16)) (String (hexdigit (n mod 16)) ""))
  else String a "".

(** U+2028 and U+2029 are escaped too. *)
Definition line_separator : string := utf8 8232.
Definition paragraph_separator : string := utf8 8233.

Definition escape_rune (r : option string) : string :=
  match r with
  | None => String backslash "ufffd"
  | Some (String a "") => escape_ascii a
  | Some s =>
      if decide (s = line_separator) then String backslash "u2028"
      else if decide (s = paragraph_separator) then String backslash "u2029"
      else s
  end.

Definition encode_string (s : string) : string :=
  String dquote (concat_str (escape_rune <$> runes s) +:+ String dquote "").

(** [join "," xs]. *)
Fixpoint join (xs : list string) : string :=
  match xs with
  | [] => ""
  | [x] => x
  | x :: xs => x +:+ String ","%char (join xs)
  end.

Fixpoint encode (v : json) : string :=
  match v with
  | JNull => "null"
  | JBool true => "true"
  | JBool false => "false"
  | JNum lit => lit
  | JStr s => encode_string s
  | JArr vs => String "["%char (join (map encode vs) +:+ "]")
  | JObj kvs =>
      String "{"%char (join (map (λ kv, encode_string kv.1 +:+ String colon (encode kv.2)) kvs) +:+ "}")
  end.

(** An int64 is written in decimal. *)
Definition int_lit (z : Z) : string := pretty z.

(** ** Lemmas: every parser consumes its input *)

Lemma length_app_string s t : String.length (s +:+ t) = String.length s + String.length t.
Proof. induction s as [|a s IH]; autorewrite with go; simpl; [done|]. by rewrite IH. Qed.

Lemma skip_ws_length s : String.length (skip_ws s) <= String.length s.
Proof. induction s as [|a s IH]; simpl; [done|]. destruct (is_ws a); simpl; lia. Qed.

Lemma CutPrefix_length s p r : CutPrefix s p = Some r → String.length r <= String.length s.
Proof. intros ->%CutPrefix_Some. rewrite length_app_string. lia. Qed.

Lemma lex_string_length s cs r : lex_string s = Some (cs, r) → String.length r < String.length s.
Proof.
  enough (∀ n s cs r, String.length s <= n → lex_string s = Some (cs, r) → String.length r < String.length s)
    by eauto.
  clear s cs r. intros n. induction n as [|n IH]; intros [|c s] cs r Hn; simpl in *; try done; try lia.
  assert (∀ (f : list strchar → list strchar) s' r',
            String.length s' <= n → ('(cs, r) ← lex_string s'; Some (f cs, r)) = Some (cs, r') →
            String.length r' < String.length s') as Hrec.
  { intros f s' r' Hs. destruct (lex_string s') as [[cs' r'']|] eqn:E; [|done].
    intros [= _ <-]. by apply IH in E. }
  destruct (decide (c = dquote)); [intros [= _ <-]; lia|].
  destruct (decide (c = backslash)) as [_|_].
  - destruct s as [|e s]; [done|]. simpl in Hn. destruct (decide (e = "u"%char)).
    + destruct s as [|h1 [|h2 [|h3 [|h4 s]]]]; try done. destruct (hex4 h1 h2 h3 h4) as [u|]; [|done].
      simpl in *. intros H. apply (Hrec (cons (U16 u))) in H; lia.
    + destruct (unescape e) as [b|]; [|done]. simpl. intros H. apply (Hrec (cons (Byte b))) in H; lia.
  - destruct (byte_in 0 31 c); [done|]. intros H. apply (Hrec (cons (Byte c))) in H; lia.
Qed.

Lemma string_lit_length s t r : string_lit s = Some (t, r) → String.length r < String.length s.
Proof.
  unfold string_lit. destruct (lex_string s) as [[cs r']|] eqn:E; intros; simplify_eq/=.
  by eapply lex_string_length.
Qed.

Lemma digits_app s ds r : digits s = (ds, r) → s = (ds +:+ r)%string.
Proof.
  revert ds r. induction s as [|a s IH]; simpl; intros ds r; [by intros [= <- <-]|].
  destruct (is_digit a); [|by intros [= <- <-]].
  destruct (digits s) as [ds' r']. intros [= <- <-]. autorewrite with go. f_equal. by apply IH.
Qed.

Lemma digits1_length s ds r : digits1 s = Some (ds, r) → String.length r < String.length s.
Proof.
  unfold digits1. destruct (digits s) as [[|a ds'] r'] eqn:E; [done|]. intros [= <- <-].
  apply digits_app in E as ->. rewrite length_app_string. simpl. lia.
Qed.

Lemma fraction_length s f r : fraction s = Some (f, r) → String.length r <= String.length s.
Proof.
  unfold fraction. destruct s as [|a s]; [by intros [= <- <-]|]. case_decide; [|by intros [= <- <-]].
  destruct (digits1 s) as [[ds r']|] eqn:E; intros; simplify_eq/=. apply digits1_length in E. lia.
Qed.

Lemma exponent_length s f r : exponent s = Some (f, r) → String.length r <= String.length s.
Proof.
  unfold exponent. destruct s as [|a s]; [by intros [= <- <-]|]. case_decide; [|by intros [= <- <-]].
  destruct s as [|b s]; [done|]. case_decide.
  - destruct (digits1 s) as [[ds r']|] eqn:E; intros; simplify_eq/=. apply digits1_length in E. lia.
  - destruct (digits1 (String b s)) as [[ds r']|] eqn:E; intros; simplify_eq/=.
    apply digits1_length in E. simpl in E. lia.
Qed.

Lemma unsigned_length s n r : unsigned s = Some (n, r) → String.length r < String.length s.
Proof.
  unfold unsigned, integer.
  destruct (match s with String a s' => _ | _ => _ end) as [[i s1]|] eqn:Ei; [|done]. simpl.
  destruct (fraction s1) as [[f s2]|] eqn:Ef; [|done]. simpl.
  destruct (exponent s2) as [[e s3]|] eqn:Ee; [|done]. simpl. intros [= <- <-].
  apply fraction_length in Ef. apply exponent_length in Ee.
  enough (String.length s1 < String.length s) by lia.
  destruct s as [|a s]; [done|]. case_decide; [simplify_eq; simpl; lia|]. by apply digits1_length in Ei.
Qed.

Lemma number_length s n r : number s = Some (n, r) → String.length r < String.length s.
Proof.
  unfold number. destruct s as [|a s]; [done|]. case_decide; [|apply unsigned_length].
  destruct (unsigned s) as [[n' r']|] eqn:E; intros; simplify_eq/=. apply unsigned_length in E. lia.
Qed.

#[local] Arguments CutPrefix : simpl never.
#[local] Arguments skip_ws : simpl never.
#[local] Arguments string_lit : simpl never.
#[local] Arguments number : simpl never.

(** Reads the length facts off the parsing equations of a goal. *)
Ltac parse_lengths :=
  repeat match goal with
  | H : string_lit _ = Some _ |- _ => apply string_lit_length in H
  | H : number _ = Some _ |- _ => apply number_length in H
  | H : CutPrefix _ _ = Some _ |- _ => apply CutPrefix_length in H
  | H : skip_ws ?s = String _ _ |- _ =>
      pose proof (skip_ws_length s); rewrite H in *; clear H
  end; simpl in *; lia.

(** One step of a parser: names the results of its calls and splits its tests. *)
Ltac parse_step :=
  match goal with
  | |- context [skip_ws ?s] => destruct (skip_ws s) as [|? ?] eqn:?; simpl
  | |- context [decide ?P] => destruct (decide P); simpl
  | |- context [(max_depth <=? ?d)%N] => destruct (max_depth <=? d)%N; simpl
  | |- context [string_lit ?s] => destruct (string_lit s) as [[? ?]|] eqn:?; simpl
  | |- context [number ?s] => destruct (number s) as [[? ?]|] eqn:?; simpl
  | |- context [CutPrefix ?s ?p] => destruct (CutPrefix s p) as [?|] eqn:?; simpl
  | |- context [value ?f ?d ?s] => destruct (value f d s) as [[? ?]|] eqn:?; simpl
  | |- context [members ?f ?d ?s] => destruct (members f d s) as [[? ?]|] eqn:?; simpl
  | |- context [elements ?f ?d ?s] => destruct (elements f d s) as [[? ?]|] eqn:?; simpl
  | |- None = Some _ → _ => discriminate
  | |- Some _ = Some _ → _ => intros [= <- <-]
  end.

Lemma parse_length fuel :
  (∀ d s v r, value fuel d s = Some (v, r) → String.length r < String.length s) ∧
  (∀ d s v r, members fuel d s = Some (v, r) → String.length r < String.length s) ∧
  (∀ d s v r, elements fuel d s = Some (v, r) → String.length r < String.length s).
Proof.
  induction fuel as [|fuel (IHv & IHm & IHe)]; [done|].
  split_and!; intros d s v r; simpl; repeat parse_step;
    repeat match goal with
    | H : value fuel _ _ = _ |- _ => apply IHv in H
    | H : members fuel _ _ = _ |- _ => apply IHm in H
    | H : elements fuel _ _ = _ |- _ => apply IHe in H
    end; parse_lengths.
Qed.

Lemma value_length fuel d s v r : value fuel d s = Some (v, r) → String.length r < String.length s.
Proof. apply parse_length. Qed.

(** Beyond the length of the input, fuel makes no difference: running out of it
    is never the reason a document is rejected. *)
Lemma parse_fuel f1 :
  (∀ f2 d s, 2 * String.length s < f1 → 2 * String.length s < f2 → value f1 d s = value f2 d s) ∧
  (∀ f2 d s, S (2 * String.length s) < f1 → S (2 * String.length s) < f2 → members f1 d s = members f2 d s) ∧
  (∀ f2 d s, S (2 * String.length s) < f1 → S (2 * String.length s) < f2 → elements f1 d s = elements f2 d s).
Proof.
  induction f1 as [|f1 (IHv & IHm & IHe)]; [split_and!; intros; lia|].
  split_and!; intros [|f2] d s H1 H2; try lia; simpl;
    repeat match goal with
    | |- context [value f1 ?d ?s] => rewrite (IHv f2 d s) by parse_lengths
    | |- context [members f1 ?d ?s] => rewrite (IHm f2 d s) by parse_lengths
    | |- context [elements f1 ?d ?s] => rewrite (IHe f2 d s) by parse_lengths
    | |- ?x = ?x => reflexivity
    | H : value _ _ _ = Some _ |- _ => apply value_length in H
    | _ => parse_step
    end.
Qed.

Lemma value_fuel f1 f2 d s :
  2 * String.length s < f1 → 2 * String.length s < f2 → value f1 d s = value f2 d s.
Proof. apply (parse_fuel f1). Qed.

(** ** Lemmas: strings through JSON *)

Lemma app_assoc_string s t u : ((s +:+ t) +:+ u)%string = (s +:+ (t +:+ u))%string.
Proof. induction s as [|a s IH]; autorewrite with go; [done|]. by rewrite IH. Qed.

Lemma app_nil_r_string s : (s +:+ "")%string = s.
Proof. induction s as [|a s IH]; autorewrite with go; [done|]. by rewrite IH. Qed.

#[local] Hint Rewrite app_assoc_string app_nil_r_string : go.

(** What [runes] yields. *)
Inductive rune_ok : option string → Prop :=
| rune_bad : rune_ok None
| rune_1 a : utf8_1 a = true → rune_ok (Some (String a ""))
| rune_2 a b :
    utf8_1 a = false → utf8_2 a b = true → rune_ok (Some (String a (String b "")))
| rune_3 a b c :
    utf8_1 a = false → utf8_2 a b = false → utf8_3 a b c = true →
    rune_ok (Some (String a (String b (String c ""))))
| rune_4 a b c d :
    utf8_1 a = false → utf8_2 a b = false → utf8_3 a b c = false → utf8_4 a b c d = true →
    rune_ok (Some (String a (String b (String c (String d ""))))).

Lemma runes_ok s : Forall rune_ok (runes s).
Proof.
  enough (∀ n s, String.length s <= n → Forall rune_ok (runes s)) by eauto.
  clear s. intros n. induction n as [|n IH]; intros [|a s1] Hn; try by (simpl in *; try lia; constructor).
  simpl in Hn. cbn [runes]. repeat case_match; subst; apply Forall_cons; split; try (by constructor);
    (constructor || apply IH); simpl in *; lia.
Qed.

Lemma runes_app r t : rune_ok (Some r) → runes (r +:+ t) = Some r :: runes t.
Proof.
  inversion_clear 1; autorewrite with go; simpl;
    repeat match goal with H : _ = _ |- _ => rewrite H; clear H end; done.
Qed.

Lemma replacement_ok : rune_ok (Some (utf8 replacement)).
Proof. by apply rune_3. Qed.

Lemma sanitize_idem s : sanitize (sanitize s) = sanitize s.
Proof.
  unfold sanitize. generalize (runes_ok s). generalize (runes s). intros rs Hrs.
  f_equal. induction Hrs as [|r rs Hr Hrs IH]; [done|].
  rewrite !fmap_cons. cbn [concat_str foldr]. destruct r as [r|]; simpl rune_bytes.
  - rewrite runes_app by done. rewrite fmap_cons. f_equal. exact IH.
  - rewrite runes_app by apply replacement_ok. rewrite fmap_cons. f_equal. exact IH.
Qed.

(** Comparisons of byte ranges. *)
Ltac byte_lia :=
  unfold cont, utf8_1, utf8_2, utf8_3, utf8_4, byte_in in *;
  rewrite ?andb_true_iff, ?orb_true_iff, ?andb_true_iff, ?andb_false_iff, ?N.leb_le, ?N.leb_gt in *; lia.

Lemma cont_high b : cont b = true → utf8_1 b = false.
Proof. byte_lia. Qed.

(** A byte past ASCII is written as it is. *)
Lemma lex_high a t :
  utf8_1 a = false →
  lex_string (String a t) = ('(cs, r) ← lex_string t; Some ([Byte a] ++ cs, r)).
Proof. intros H. destruct a as [[] [] [] [] [] [] [] []]; try discriminate H; reflexivity. Qed.

(** Reading back what was written for one rune. *)
Definition reads_back (written : string) (bytes : string) : Prop :=
  ∃ cs0, (∀ t, lex_string (written +:+ t) = ('(cs, r) ← lex_string t; Some (cs0 ++ cs, r))) ∧
         ∀ cs, text (cs0 ++ cs) = (bytes +:+ text cs)%string.

Lemma reads_back_nil : reads_back "" "".
Proof. exists []. split; [|done]. intros t. autorewrite with go. by destruct (lex_string t) as [[]|]. Qed.

Lemma reads_back_app w1 b1 w2 b2 :
  reads_back w1 b1 → reads_back w2 b2 → reads_back (w1 +:+ w2) (b1 +:+ b2).
Proof.
  intros (c1 & H1 & T1) (c2 & H2 & T2). exists (c1 ++ c2). split.
  - intros t. autorewrite with go. rewrite H1, H2. destruct (lex_string t) as [[cs r]|]; simpl; [|done].
    by rewrite <-app_assoc.
  - intros cs. autorewrite with go. by rewrite <-app_assoc, T1, T2.
Qed.

Lemma reads_back_high a : utf8_1 a = false → reads_back (String a "") (String a "").
Proof.
  intros H. exists [Byte a]. split; [|done]. intros t. autorewrite with go. by apply lex_high.
Qed.

Lemma reads_back_ascii a : utf8_1 a = true → reads_back (escape_ascii a) (String a "").
Proof.
  intros H.
  exists [if decide (N_of_ascii a < 32 ∧ unescape (ascii_of_N 0) = None ∧
                     N_of_ascii a ∉ [8; 9; 10; 12; 13] ∨ a ∈ ["<"%char; ">"%char; "&"%char])%N
          then U16 (N_of_ascii a) else Byte a].
  destruct a as [[] [] [] [] [] [] [] []]; try discriminate H; split; intros; reflexivity.
Qed.

Lemma reads_back_rune r : rune_ok r → reads_back (escape_rune r) (rune_bytes r).
Proof.
  assert (∀ s : string, (∃ a, s = String a "" ∧ utf8_1 a = true) ∨ reads_back s s →
    reads_back (escape_rune (Some s)) s) as Hraw.
  { intros s [(a & -> & Ha)|Hs]; [by apply reads_back_ascii|].
    destruct s as [|a [|b s]].
    - apply reads_back_nil.
    - destruct (utf8_1 a) eqn:Ha; [by apply reads_back_ascii|].
      destruct a as [[] [] [] [] [] [] [] []]; try discriminate Ha; exact Hs.
    - unfold escape_rune. case_decide as E; [|case_decide as E'].
      + exists [U16 8232]. split; [reflexivity|]. rewrite E. reflexivity.
      + exists [U16 8233]. split; [reflexivity|]. rewrite E'. reflexivity.
      + done. }
  assert (∀ a s, utf8_1 a = false → reads_back s s → reads_back (String a s) (String a s)) as Hcons.
  { intros a s Ha Hs. exact (reads_back_app _ _ _ _ (reads_back_high a Ha) Hs). }
  inversion_clear 1 as [|a Ha|a b Ha H2|a b c Ha _ H3|a b c d Ha _ _ H4].
  - exists [U16 replacement]. split; reflexivity.
  - apply Hraw. left. eauto.
  - apply Hraw. right. unfold utf8_2 in H2.
    apply andb_true_iff in H2 as [_ Hb%cont_high].
    repeat apply Hcons; try done. apply reads_back_nil.
  - apply Hraw. right. apply andb_true_iff in H3 as [Hb Hc%cont_high].
    repeat apply Hcons; try done; [|apply reads_back_nil].
    clear - Hb. byte_lia.
  - apply Hraw. right. apply andb_true_iff in H4 as [[Hb Hc%cont_high]%andb_true_iff Hd%cont_high].
    repeat apply Hcons; try done; [|apply reads_back_nil].
    clear - Hb. byte_lia.
Qed.

Lemma string_lit_encode s rest :
  string_lit (concat_str (escape_rune <$> runes s) +:+ String dquote rest) = Some (sanitize s, rest).
Proof.
  assert (reads_back (concat_str (escape_rune <$> runes s)) (sanitize s)) as (cs0 & Hlex & Htext).
  { unfold sanitize. induction (runes_ok s) as [|r rs Hr Hrs IH]; [apply reads_back_nil|].
    rewrite !fmap_cons. apply reads_back_app; [by apply reads_back_rune|exact IH]. }
  unfold string_lit. rewrite Hlex. simpl. rewrite Htext. simpl. autorewrite with go.
  by rewrite sanitize_idem.
Qed.

(** ** Lemmas: documents *)

Lemma json_rect_nested (P : json → Prop) :
  P JNull → (∀ b, P (JBool b)) → (∀ l, P (JNum l)) → (∀ s, P (JStr s)) →
  (∀ vs, Forall P vs → P (JArr vs)) → (∀ kvs, Forall (λ kv, P kv.2) kvs → P (JObj kvs)) →
  ∀ v, P v.
Proof.
  intros Hn Hb Hl Hs Ha Ho. fix IH 1. intros [|b|l|s|vs|kvs]; [exact Hn|exact (Hb b)|exact (Hl l)|exact (Hs s)|..].
  - apply Ha. induction vs as [|v vs IHvs]; constructor; [apply IH|exact IHvs].
  - apply Ho. induction kvs as [|[k v] kvs IHkvs]; constructor; [apply IH|exact IHkvs].
Qed.

(** How deep a document nests. *)
Fixpoint nesting (v : json) : N :=
  match v with
  | JArr vs => 1 + foldr N.max 0 (map nesting vs)
  | JObj kvs => 1 + foldr N.max 0 (map (λ kv, nesting kv.2) kvs)
  | _ => 0
  end%N.

(** Every number is a literal of the grammar. *)
Fixpoint numbers_ok (v : json) : bool :=
  match v with
  | JNum lit => bool_decide (number lit = Some (lit, ""))
  | JArr vs => forallb numbers_ok vs
  | JObj kvs => forallb (λ kv, numbers_ok kv.2) kvs
  | _ => true
  end.

(** Every string made valid UTF-8. *)
Fixpoint sanitize_json (v : json) : json :=
  match v with
  | JStr s => JStr (sanitize s)
  | JArr vs => JArr (map sanitize_json vs)
  | JObj kvs => JObj (map (λ kv, (sanitize kv.1, sanitize_json kv.2)) kvs)
  | _ => v
  end.

(** What may follow a number. *)
Definition delimited (s : string) : bool :=
  match s with
  | EmptyString => true
  | String a _ => negb (is_digit a || bool_decide (a ∈ ["."%char; "e"%char; "E"%char]))
  end.

Lemma delimited_digits rest : delimited rest = true → digits rest = ("", rest).
Proof. destruct rest as [|a rest]; simpl; [done|]. by destruct (is_digit a). Qed.

Lemma digits_rest s ds r rest :
  delimited rest = true → digits s = (ds, r) → digits (s +:+ rest) = (ds, (r +:+ rest)%string).
Proof.
  intros Hd. revert ds r. induction s as [|a s IH]; intros ds r.
  - intros [= <- <-]. by apply delimited_digits.
  - autorewrite with go. simpl. destruct (is_digit a); [|by intros [= <- <-]].
    destruct (digits s) as [ds' r'] eqn:E. intros [= <- <-]. by rewrite (IH ds' r').
Qed.

Lemma digits1_rest s ds r rest :
  delimited rest = true → digits1 s = Some (ds, r) → digits1 (s +:+ rest) = Some (ds, (r +:+ rest)%string).
Proof.
  intros Hd. unfold digits1. destruct (digits s) as [ds' r'] eqn:E.
  rewrite (digits_rest s ds' r' rest Hd E). destruct ds'; [done|]. by intros [= <- <-].
Qed.

Lemma delimited_not rest a : delimited (String a rest) = true → a ≠ "."%char ∧ a ≠ "e"%char ∧ a ≠ "E"%char.
Proof.
  simpl. intros H. apply negb_true_iff, orb_false_iff in H as [_ H%bool_decide_eq_false].
  rewrite !not_elem_of_cons in H. tauto.
Qed.

Lemma fraction_rest s f r rest :
  delimited rest = true → fraction s = Some (f, r) → fraction (s +:+ rest) = Some (f, (r +:+ rest)%string).
Proof.
  intros Hd. destruct s as [|a s].
  - intros [= <- <-]. autorewrite with go. destruct rest as [|a rest]; [done|]. apply delimited_not in Hd as (Ha & _ & _).
    simpl. by rewrite decide_False.
  - autorewrite with go. simpl. case_decide; [|by intros [= <- <-]].
    destruct (digits1 s) as [[ds r']|] eqn:E; [|done]. intros [= <- <-].
    by rewrite (digits1_rest s ds r' rest).
Qed.

Lemma exponent_rest s f r rest :
  delimited rest = true → exponent s = Some (f, r) → exponent (s +:+ rest) = Some (f, (r +:+ rest)%string).
Proof.
  intros Hd. destruct s as [|a s].
  - intros [= <- <-]. autorewrite with go. destruct rest as [|a rest]; [done|]. apply delimited_not in Hd as (_ & He & HE).
    simpl. by rewrite decide_False by tauto.
  - autorewrite with go. simpl. case_decide; [|by intros [= <- <-]].
    destruct s as [|b s]; [done|]. autorewrite with go. case_decide.
    + destruct (digits1 s) as [[ds r']|] eqn:E; [|done]. intros [= <- <-].
      by rewrite (digits1_rest s ds r' rest).
    + destruct (digits1 (String b s)) as [[ds r']|] eqn:E; [|done]. intros [= <- <-].
      by rewrite (digits1_rest (String b s) ds r' rest Hd E : digits1 (String b (s +:+ rest)) = _).
Qed.

Lemma unsigned_rest s n r rest :
  delimited rest = true → unsigned s = Some (n, r) → unsigned (s +:+ rest) = Some (n, (r +:+ rest)%string).
Proof.
  intros Hd. unfold unsigned. destruct (integer s) as [[i s1]|] eqn:Ei; [|done]. simpl.
  assert (integer (s +:+ rest) = Some (i, (s1 +:+ rest)%string)) as ->.
  { destruct s as [|a s]; [done|]. autorewrite with go. simpl in Ei |- *. case_decide; [by simplify_eq|].
    exact (digits1_rest (String a s) i s1 rest Hd Ei). }
  destruct (fraction s1) as [[f s2]|] eqn:Ef; [|done]. simpl.
  rewrite (fraction_rest s1 f s2 rest Hd Ef).
  destruct (exponent s2) as [[e s3]|] eqn:Ee; [|done]. simpl.
  rewrite (exponent_rest s2 e s3 rest Hd Ee). simpl. by intros [= <- <-].
Qed.

Lemma number_rest lit rest :
  delimited rest = true → number lit = Some (lit, "") → number (lit +:+ rest) = Some (lit, rest).
Proof.
  intros Hd. unfold number. destruct lit as [|a s]; [done|]. autorewrite with go. case_decide.
  - destruct (unsigned s) as [[n r]|] eqn:E; [|done]. simpl. intros [= -> ->].
    by rewrite (unsigned_rest s s "" rest Hd E).
  - intros H'. exact (unsigned_rest (String a s) _ _ rest Hd H').
Qed.

Lemma number_head lit : number lit = Some (lit, "") → ∃ a s, lit = String a s ∧ (a = "-"%char ∨ is_digit a = true).
Proof.
  unfold number. destruct lit as [|a s]; [done|]. intros H. exists a, s. split; [done|].
  case_decide; [by left|]. right. unfold unsigned in H. simpl in H.
  case_decide; [by subst|]. unfold digits1 in H. simpl in H. by destruct (is_digit a).
Qed.

Lemma value_number f d a s :
  a = "-"%char ∨ is_digit a = true →
  value (S f) d (String a s) = ('(lit, r) ← number (String a s); Some (JNum lit, r)).
Proof.
  intros [-> |H]; [reflexivity|].
  destruct a as [[] [] [] [] [] [] [] []]; try discriminate H; reflexivity.
Qed.

(** A document's first byte: no blank and no closing bracket. *)
Definition opens (s : string) : bool :=
  match s with
  | String a _ => negb (is_ws a || bool_decide (a ∈ ["]"%char; "}"%char]))
  | EmptyString => false
  end.

Lemma encode_opens v : numbers_ok v = true → opens (encode v) = true.
Proof.
  destruct v as [|[]|l|s|vs|kvs]; try reflexivity. simpl. intros H%bool_decide_eq_true.
  apply number_head in H as (a & s & -> & [-> |Ha]); [reflexivity|].
  destruct a as [[] [] [] [] [] [] [] []]; try discriminate Ha; reflexivity.
Qed.

Lemma opens_app s t : opens s = true → opens (s +:+ t) = true.
Proof. by destruct s. Qed.

Lemma opens_cons s :
  opens s = true → ∃ a s', s = String a s' ∧ skip_ws s = String a s' ∧ a ≠ "]"%char ∧ a ≠ "}"%char.
Proof.
  destruct s as [|a s]; [done|]. simpl. intros [Hw Ha%bool_decide_eq_false]%negb_true_iff%orb_false_iff.
  exists a, s. rewrite !not_elem_of_cons in Ha. unfold skip_ws. rewrite Hw. tauto.
Qed.

(** [v] is read back from its text, in any context and at any depth that has
    room for it. *)
Definition round_trips (v : json) : Prop :=
  ∀ d rest, (d + nesting v <= max_depth)%N → delimited rest = true →
  ∃ f0, ∀ f, f0 <= f → value f d (encode v +:+ rest) = Some (sanitize_json v, rest).

Lemma elements_round_trip d vs rest :
  Forall round_trips vs → vs ≠ [] →
  (d + foldr N.max 0 (map nesting vs) <= max_depth)%N →
  ∃ f0, ∀ f, f0 <= f →
    elements f d (join (map encode vs) +:+ String "]"%char rest) = Some (map sanitize_json vs, rest).
Proof.
  intros Hvs. induction Hvs as [|v vs Hv Hvs IH]; [done|]. intros _ Hd. simpl in Hd.
  destruct vs as [|v' vs].
  - destruct (Hv d (String "]"%char rest)) as (f0 & Hf); [lia|done|].
    exists (S f0). intros [|f] Hle; [lia|]. cbn [elements map join]. rewrite Hf by lia. reflexivity.
  - destruct IH as (f1 & Hf1); [done|simpl in *; lia|].
    set (tail := join (map encode (v' :: vs))) in *.
    destruct (Hv d (String ","%char (tail +:+ String "]"%char rest))) as (f0 & Hf); [lia|done|].
    exists (S (f0 + f1)). intros [|f] Hle; [lia|].
    change (join (map encode (v :: v' :: vs))) with (encode v +:+ String ","%char tail)%string.
    autorewrite with go. cbn [elements]. rewrite Hf by lia. simpl. unfold skip_ws. simpl.
    rewrite Hf1 by lia. reflexivity.
Qed.

Lemma members_round_trip d kvs rest :
  Forall (λ kv, round_trips kv.2) kvs → kvs ≠ [] →
  (d + foldr N.max 0 (map (λ kv, nesting kv.2) kvs) <= max_depth)%N →
  ∃ f0, ∀ f, f0 <= f →
    members f d (join (map (λ kv, encode_string kv.1 +:+ String colon (encode kv.2)) kvs)
                 +:+ String "}"%char rest) =
      Some (map (λ kv, (sanitize kv.1, sanitize_json kv.2)) kvs, rest).
Proof.
  intros Hkvs. induction Hkvs as [|[k v] kvs Hv Hkvs IH]; [done|]. intros _ Hd. simpl in Hd, Hv.
  assert (∀ f t, members (S f) d (encode_string k +:+ String colon t) =
    match value f d t with
    | Some (v, s4) =>
        match skip_ws s4 with
        | EmptyString => None
        | String c'' s5 =>
            if decide (c'' = ","%char) then
              '(kvs, r) ← members f d s5; Some ((sanitize k, v) :: kvs, r)
            else if decide (c'' = "}"%char) then Some ([(sanitize k, v)], s5)
            else None
        end
    | None => None
    end) as Hstep.
  { intros f t. unfold encode_string. autorewrite with go. cbn [members]. unfold skip_ws at 1.
    change (is_ws dquote) with false. cbn iota. rewrite decide_True by done.
    rewrite string_lit_encode. reflexivity. }
  destruct kvs as [|kv' kvs].
  - destruct (Hv d (String "}"%char rest)) as (f0 & Hf); [lia|done|].
    exists (S f0). intros [|f] Hle; [lia|]. cbn [map join fst snd]. autorewrite with go. cbn [map fst snd].
    rewrite Hstep, Hf by lia. reflexivity.
  - destruct IH as (f1 & Hf1); [done|simpl in *; lia|].
    set (tail := join (map _ (kv' :: kvs))) in *.
    destruct (Hv d (String ","%char (tail +:+ String "}"%char rest))) as (f0 & Hf); [lia|done|].
    exists (S (f0 + f1)). intros [|f] Hle; [lia|].
    change (join (map _ ((k, v) :: kv' :: kvs)))
      with ((encode_string k +:+ String colon (encode v)) +:+ String ","%char tail)%string.
    autorewrite with go. rewrite Hstep, Hf by lia. simpl. unfold skip_ws. simpl.
    rewrite Hf1 by lia. reflexivity.
Qed.

Lemma Forall_forallb {A} (f : A → bool) (P : A → Prop) xs :
  Forall (λ x, f x = true → P x) xs → forallb f xs = true → Forall P xs.
Proof. induction 1 as [|x xs Hx _ IH]; simpl; [done|]. intros [? ?]%andb_true_iff. auto. Qed.

Lemma array_round_trips vs :
  numbers_ok (JArr vs) = true → Forall round_trips vs → round_trips (JArr vs).
Proof.
  intros Hok Hvs d rest Hd Hrest. simpl in Hok, Hd. destruct vs as [|v vs].
  { exists 1. intros [|f] Hf; [lia|]. simpl. destruct (N.leb_spec max_depth d); [lia|reflexivity]. }
  destruct (elements_round_trip (d + 1) (v :: vs) rest Hvs) as (f0 & Hf0); [done|simpl in *; lia|].
  exists (S f0). intros [|f] Hf; [lia|]. specialize (Hf0 f ltac:(lia)).
  assert (opens (join (map encode (v :: vs)) +:+ String "]"%char rest) = true) as Hopen.
  { apply opens_app. simpl in Hok. apply andb_true_iff in Hok as [Hok _].
    destruct vs; simpl; [|apply opens_app]; by apply encode_opens. }
  apply opens_cons in Hopen as (a & s & Heq & Hs & Ha & _).
  cbn [encode]. rewrite Heq in Hf0, Hs. autorewrite with go. rewrite Heq.
  cbn [value]. change (skip_ws (String "["%char ?x)) with (String "["%char x). cbn iota.
  rewrite decide_False, decide_True by done. destruct (N.leb_spec max_depth d); [lia|].
  rewrite Hs. rewrite decide_False by done. rewrite Hf0. reflexivity.
Qed.

Lemma object_round_trips kvs : Forall (λ kv, round_trips kv.2) kvs → round_trips (JObj kvs).
Proof.
  intros Hvs d rest Hd Hrest. simpl in Hd. destruct kvs as [|kv kvs].
  { exists 1. intros [|f] Hf; [lia|]. simpl. destruct (N.leb_spec max_depth d); [lia|reflexivity]. }
  destruct (members_round_trip (d + 1) (kv :: kvs) rest Hvs) as (f0 & Hf0); [done|simpl in *; lia|].
  exists (S f0). intros [|f] Hf; [lia|]. specialize (Hf0 f ltac:(lia)).
  assert (opens (join (map (λ kv, encode_string kv.1 +:+ String colon (encode kv.2)) (kv :: kvs))
                 +:+ String "}"%char rest) = true) as Hopen by (by destruct kvs).
  apply opens_cons in Hopen as (a & s & Heq & Hs & _ & Ha).
  cbn [encode]. rewrite Heq in Hf0, Hs. autorewrite with go. rewrite Heq.
  cbn [value]. change (skip_ws (String "{"%char ?x)) with (String "{"%char x). cbn iota.
  rewrite decide_True by done. destruct (N.leb_spec max_depth d); [lia|].
  rewrite Hs. rewrite decide_False by done. rewrite Hf0. reflexivity.
Qed.

Lemma document_round_trips v : numbers_ok v = true → round_trips v.
Proof.
  induction v as [|b|l|s|vs IH|kvs IH] using json_rect_nested; intros Hok.
  - intros d rest _ _. exists 1. intros [|f] Hf; [lia|reflexivity].
  - intros d rest _ _. exists 1. intros [|f] Hf; [lia|by destruct b].
  - intros d rest _ Hrest. simpl in Hok. apply bool_decide_eq_true in Hok.
    destruct (number_head l Hok) as (a & t & Hl & Ha).
    exists 1. intros [|f] Hf; [lia|]. simpl encode. rewrite Hl. autorewrite with go.
    rewrite value_number by done. rewrite <-app_cons_string, <-Hl, number_rest by done. reflexivity.
  - intros d rest _ _. exists 1. intros [|f] Hf; [lia|]. simpl encode. unfold encode_string.
    autorewrite with go. cbn [value]. change (skip_ws (String dquote ?x)) with (String dquote x). cbn iota.
    do 2 (rewrite decide_False by done). rewrite decide_True by done.
    rewrite string_lit_encode. reflexivity.
  - apply array_round_trips; [done|]. exact (Forall_forallb _ _ _ IH Hok).
  - apply object_round_trips. exact (Forall_forallb _ _ _ IH Hok).
Qed.

(** [Unmarshal] reads what [Marshal] wrote, blanks after it ignored. *)
Lemma Parse_encode_ws v rest :
  numbers_ok v = true → (nesting v <= max_depth)%N → delimited rest = true → skip_ws rest = "" →
  Parse (encode v +:+ rest) = Some (sanitize_json v).
Proof.
  intros Hok Hn Hd Hws. destruct (document_round_trips v Hok 0%N rest ltac:(lia) Hd) as (f0 & Hf0).
  unfold Parse, enough.
  rewrite (value_fuel _ (S (2 * String.length (encode v +:+ rest)) + f0)) by lia.
  rewrite Hf0 by lia. cbn [mbind option_bind]. by rewrite Hws.
Qed.

Lemma Parse_encode v :
  numbers_ok v = true → (nesting v <= max_depth)%N → Parse (encode v) = Some (sanitize_json v).
Proof.
  intros Hok Hn. rewrite <-(app_nil_r_string (encode v)). by apply Parse_encode_ws.
Qed.

(** The literals [Marshal] writes for integers. *)
Lemma digits_value_app acc s t :
  digits_value acc (s +:+ t) = (n ← digits_value acc s; digits_value n t).
Proof.
  revert acc. induction s as [|a s IH]; intros acc; autorewrite with go; simpl; [done|].
  destruct (is_digit a); [apply IH|done].
Qed.

(** An object's members that decode into a field, in order. *)
Definition members_of (field : string) (kvs : list (string * json)) : list (string * json) :=
  filter (λ kv, names kv.1 field = true) kvs.

Lemma pretty_char_digit n : (n < 10)%N →
  is_digit (pretty_N_char n) = true ∧ (N_of_ascii (pretty_N_char n) - 48 = n)%N ∧
  (n ≠ 0%N → pretty_N_char n ≠ "0"%char).
Proof.
  intros Hn. assert (n ∈ [0; 1; 2; 3; 4; 5; 6; 7; 8; 9]%N) as Hin by (rewrite !elem_of_cons; lia).
  repeat (apply elem_of_cons in Hin as [->|Hin]; [by split_and!|]). by apply not_elem_of_nil in Hin.
Qed.

Lemma digits_value_pretty n s : digits_value 0 (pretty_N_go n s) = digits_value (Z.of_N n) s.
Proof.
  revert s. induction (N.lt_wf_0 n) as [n _ IH]. intros s.
  destruct (decide (n = 0)%N) as [->|Hn]; [by rewrite pretty_N_go_0|].
  rewrite pretty_N_go_step by lia. rewrite IH by (apply N.div_lt; lia). simpl.
  destruct (pretty_char_digit (n mod 10)) as (-> & -> & _); [apply N.mod_lt; lia|].
  f_equal. pose proof (N.div_mod n 10). lia.
Qed.

Lemma ParseUint_int_lit n : (0 <= n < 2 ^ 64)%Z → ParseUint (int_lit n) = Some n.
Proof.
  intros Hn. assert (∃ m, n = Z.of_N m) as [m ->] by (exists (Z.to_N n); lia).
  assert (int_lit (Z.of_N m) = if decide (m = 0)%N then "0" else pretty_N_go m "") as ->.
  { by destruct m. }
  case_decide as Hm; [by subst|]. unfold ParseUint. rewrite digits_value_pretty. simpl.
  rewrite decide_False; [by rewrite decide_True by lia|].
  intros H. pose proof (digits_value_pretty m "") as Hv. rewrite H in Hv. simpl in Hv. injection Hv. lia.
Qed.

Lemma digits_pretty n s : digits s = (s, "") → digits (pretty_N_go n s) = (pretty_N_go n s, "").
Proof.
  revert s. induction (N.lt_wf_0 n) as [n _ IH]. intros s Hs.
  destruct (decide (n = 0)%N) as [->|Hn]; [by rewrite pretty_N_go_0|].
  rewrite pretty_N_go_step by lia. apply IH; [apply N.div_lt; lia|]. simpl.
  destruct (pretty_char_digit (n mod 10)) as (-> & _ & _); [apply N.mod_lt; lia|]. by rewrite Hs.
Qed.

Lemma head_pretty n s : n ≠ 0%N → ∃ a t, pretty_N_go n s = String a t ∧ a ≠ "0"%char ∧ is_digit a = true.
Proof.
  revert s. induction (N.lt_wf_0 n) as [n _ IH]. intros s Hn. rewrite pretty_N_go_step by lia.
  destruct (decide (n / 10 = 0)%N) as [Hd|Hd].
  - rewrite Hd, pretty_N_go_0. pose proof (N.div_mod n 10) as Hdm.
    destruct (pretty_char_digit (n mod 10)) as (H1 & _ & H3); [apply N.mod_lt; lia|].
    eexists _, _. split; [done|]. split; [apply H3; lia|done].
  - apply IH; [apply N.div_lt; lia|done].
Qed.

Lemma number_int_lit z : number (int_lit z) = Some (int_lit z, "").
Proof.
  assert (∀ p, unsigned (pretty_N_go (Npos p) "") = Some (pretty_N_go (Npos p) "", "")) as Hp.
  { intros p. pose proof (digits_pretty (Npos p) "" eq_refl) as Hd.
    destruct (head_pretty (Npos p) "") as (a & t & Heq & Ha & _); [done|]. rewrite Heq in *.
    unfold unsigned, integer, digits1. rewrite decide_False by done. rewrite Hd. simpl.
    by rewrite app_nil_r_string. }
  destruct z as [|p|p]; [reflexivity| |].
  - change (int_lit (Z.pos p)) with (pretty_N_go (Npos p) ""). unfold number.
    specialize (Hp p). destruct (head_pretty (Npos p) "") as (a & t & Heq & _ & Ha); [done|]. rewrite Heq in *.
    rewrite decide_False; [done|]. by intros ->.
  - change (int_lit (Z.neg p)) with (String "-"%char (pretty_N_go (Npos p) "")). unfold number.
    rewrite decide_True by done. by rewrite Hp.
Qed.

Lemma foldl_bind_None {A T} (d : A → T → option T) (xs : list A) :
  foldl (λ ot x, t ← ot; d x t) None xs = None.
Proof. induction xs as [|x xs IH]; [done|exact IH]. Qed.

Lemma foldl_bind_cons {A T} (d : A → T → option T) x (xs : list A) t :
  foldl (λ ot x, t ← ot; d x t) (Some t) (x :: xs) = (t' ← d x t; foldl (λ ot x, t ← ot; d x t) (Some t') xs).
Proof. simpl. destruct (d x t); [done|]. apply foldl_bind_None. Qed.

Lemma decode_struct_cons {T} (field : string → decoder T) k v kvs t :
  decode_struct field (JObj ((k, v) :: kvs)) t = (t' ← field k v t; decode_struct field (JObj kvs) t').
Proof. exact (foldl_bind_cons (λ kv, field kv.1 kv.2) (k, v) kvs t). Qed.

(** A struct is filled by the members that name its field, in order; the rest
    are skipped. *)
Lemma decode_struct_field {T} (field : string) (store : decoder T) kvs t :
  decode_struct (λ k v t, if names k field then store v t else Some t) (JObj kvs) t =
    foldl (λ ot kv, t ← ot; store kv.2 t) (Some t) (members_of field kvs).
Proof.
  revert t. induction kvs as [|[k v] kvs IH]; intros t; [done|].
  rewrite decode_struct_cons. unfold members_of. destruct (names k field) eqn:E.
  - rewrite filter_cons_True by done. rewrite (foldl_bind_cons (λ kv, store kv.2)). simpl.
    destruct (store v t) as [t'|]; simpl; [apply IH|done].
  - rewrite filter_cons_False by (simpl; congruence). apply IH.
Qed.

(** ** Lemmas: one line

    [Marshal] never writes a newline: a document is one line of text. *)

Definition newline : ascii := ascii_of_N 10.
Definition one_line (s : string) : Prop := HasByte s newline = false.

Lemma one_line_app s t : one_line s → one_line t → one_line (s +:+ t).
Proof. unfold one_line. rewrite HasByte_app. by intros -> ->. Qed.

Lemma one_line_cons a s : a ≠ newline → one_line s → one_line (String a s).
Proof. unfold one_line. simpl. intros ? ->. by rewrite decide_False. Qed.

Lemma digit_not_newline a : is_digit a = true → a ≠ newline.
Proof. by intros H ->. Qed.

Lemma digits_one_line s ds r : digits s = (ds, r) → one_line ds.
Proof.
  revert ds r. induction s as [|a s IH]; intros ds r; simpl; [by intros [= <- _]|].
  destruct (is_digit a) eqn:Ha; [|by intros [= <- _]].
  destruct (digits s) as [ds' r'] eqn:E. intros [= <- _].
  apply one_line_cons; [by apply digit_not_newline|by eapply IH].
Qed.

Lemma digits1_one_line s ds r : digits1 s = Some (ds, r) → one_line ds.
Proof.
  unfold digits1. destruct (digits s) as [[|a ds'] r'] eqn:E; [done|]. intros [= <- _].
  by eapply digits_one_line.
Qed.

Lemma unsigned_one_line s n r : unsigned s = Some (n, r) → one_line n.
Proof.
  unfold unsigned. destruct (integer s) as [[i s1]|] eqn:Ei; [|done]. simpl.
  destruct (fraction s1) as [[f s2]|] eqn:Ef; [|done]. simpl.
  destruct (exponent s2) as [[e s3]|] eqn:Ee; [|done]. simpl. intros [= <- _].
  repeat apply one_line_app.
  - unfold integer in Ei. destruct s as [|a s]; [done|]. case_decide; [by simplify_eq|].
    by eapply digits1_one_line.
  - unfold fraction in Ef. destruct s1 as [|a s1]; [by simplify_eq|]. case_decide; [|by simplify_eq].
    destruct (digits1 s1) as [[ds r']|] eqn:E; simplify_eq/=.
    apply one_line_cons; [done|by eapply digits1_one_line].
  - unfold exponent in Ee. destruct s2 as [|a s2]; [by simplify_eq|].
    case_decide as Ha; [|by simplify_eq]. assert (a ≠ newline) by (by destruct Ha as [-> | ->]).
    destruct s2 as [|b s2]; [done|]. case_decide as Hb.
    + destruct (digits1 s2) as [[ds r']|] eqn:E; simplify_eq/=.
      do 2 (apply one_line_cons; [first [done|by destruct Hb as [-> | ->]]|]). by eapply digits1_one_line.
    + destruct (digits1 (String b s2)) as [[ds r']|] eqn:E; simplify_eq/=.
      apply one_line_cons; [done|by eapply digits1_one_line].
Qed.

Lemma number_one_line s n r : number s = Some (n, r) → one_line n.
Proof.
  unfold number. destruct s as [|a s]; [done|]. case_decide; [|apply unsigned_one_line].
  destruct (unsigned s) as [[n' r']|] eqn:E; intros; simplify_eq/=.
  apply one_line_cons; [done|by eapply unsigned_one_line].
Qed.

Lemma high_not_newline a : utf8_1 a = false → a ≠ newline.
Proof. by intros H ->. Qed.

Lemma escape_one_line r : rune_ok r → one_line (escape_rune r).
Proof.
  assert (∀ s, one_line s → (∃ a b s', s = String a (String b s')) → one_line (escape_rune (Some s))) as Hlong.
  { intros s Hs (a & b & s' & ->). unfold escape_rune. repeat case_decide; done. }
  inversion_clear 1 as [|a Ha|a b Ha H2|a b c Ha _ H3|a b c d Ha _ _ H4].
  - reflexivity.
  - destruct a as [[] [] [] [] [] [] [] []]; try discriminate Ha; reflexivity.
  - apply Hlong; [|eauto]. apply andb_true_iff in H2 as [_ Hb%cont_high].
    repeat (apply one_line_cons; [by apply high_not_newline|]). done.
  - apply Hlong; [|eauto]. apply andb_true_iff in H3 as [Hb Hc%cont_high].
    assert (utf8_1 b = false) by (clear - Hb; byte_lia).
    repeat (apply one_line_cons; [by apply high_not_newline|]). done.
  - apply Hlong; [|eauto]. apply andb_true_iff in H4 as [[Hb Hc%cont_high]%andb_true_iff Hd%cont_high].
    assert (utf8_1 b = false) by (clear - Hb; byte_lia).
    repeat (apply one_line_cons; [by apply high_not_newline|]). done.
Qed.

Lemma encode_string_one_line s : one_line (encode_string s).
Proof.
  apply one_line_cons; [done|]. apply one_line_app; [|reflexivity].
  induction (runes_ok s) as [|r rs Hr _ IH]; [done|]. rewrite fmap_cons.
  apply one_line_app; [by apply escape_one_line|exact IH].
Qed.

Lemma join_one_line xs : Forall one_line xs → one_line (join xs).
Proof.
  induction 1 as [|x xs Hx Hxs IH]; [done|]. destruct xs as [|y xs]; [done|].
  apply one_line_app; [done|]. apply one_line_cons; [done|exact IH].
Qed.

Lemma encode_one_line v : numbers_ok v = true → one_line (encode v).
Proof.
  induction v as [|b|l|s|vs IH|kvs IH] using json_rect_nested; intros Hok.
  - reflexivity.
  - by destruct b.
  - simpl in Hok. apply bool_decide_eq_true in Hok. by eapply number_one_line.
  - apply encode_string_one_line.
  - apply one_line_cons; [done|]. apply one_line_app; [|reflexivity]. apply join_one_line.
    pose proof (Forall_forallb _ _ _ IH Hok) as H. by apply Forall_fmap.
  - apply one_line_cons; [done|]. apply one_line_app; [|reflexivity]. apply join_one_line.
    pose proof (Forall_forallb _ _ _ IH Hok) as H. apply Forall_fmap.
    eapply Forall_impl; [exact H|]. intros kv Hkv. simpl.
    apply one_line_app; [apply encode_string_one_line|]. by apply one_line_cons.
Qed.
