(* ===== verification/Events.v ===== *)
(** * Observable effects

    What the program does to the outside while it runs: log lines, updates of
    its Prometheus metrics, and requests to the API server and the kubelets.
    Stateful operations return the list of their effects in program order. *)

From S2P Require Import Prelude.
From S2P Require Import GoErrors.

(** An argument of a log line. *)
Inductive value (X : Type) : Type :=
| VErr (e : error X)
| VDuration (d : Duration)
| VInt (z : Z).
Arguments VErr {X} e.
Arguments VDuration {X} d.
Arguments VInt {X} z.

(** A request for an optional signal. *)
Inductive request : Type :=
| ListNodeMetrics
| ListPodMetrics
| KubeletGet (url : string)
| ProxyGet (node : string).

Inductive event (X : Type) : Type :=
| Logf (format : string) (args : list (value X))
| CounterInc (metric : string) (labels : list string)
| HistogramObserve (metric : string) (d : Duration)
| GaugeAdd (metric : string) (delta : Z)
| GaugeSet (metric : string) (labels : list string) (v : Z)
| Request (r : request).
Arguments Logf {X} format args.
Arguments CounterInc {X} metric labels.
Arguments HistogramObserve {X} metric d.
Arguments GaugeAdd {X} metric delta.
Arguments GaugeSet {X} metric labels v.
Arguments Request {X} r.

Section events.
Context {X : Type}.
Implicit Types (evs : list (event X)).

(** The requests of a trace, in order. *)
Definition requests evs : list request :=
  omap (λ ev, match ev with Request r => Some r | _ => None end) evs.

(** The log formats of a trace, in order. *)
Definition logs evs : list string :=
  omap (λ ev, match ev with Logf fmt _ => Some fmt | _ => None end) evs.

(** The label values a counter was incremented with, in order. *)
Definition counter_incs (metric : string) evs : list (list string) :=
  omap (λ ev, match ev with
              | CounterInc m ls => if decide (m = metric) then Some ls else None
              | _ => None
              end) evs.

(** How much a gauge moved. *)
Definition gauge_delta (metric : string) evs : Z :=
  sumZ (omap (λ ev, match ev with
                    | GaugeAdd m d => if decide (m = metric) then Some d else None
                    | _ => None
                    end) evs).

Lemma requests_app evs evs' : requests (evs ++ evs') = requests evs ++ requests evs'.
Proof. apply omap_app. Qed.

Lemma requests_Request (rs : list request) : requests (Request <$> rs) = rs.
Proof. induction rs as [|r rs IH]; [done|]. exact (f_equal (cons r) IH). Qed.

Lemma logs_app evs evs' : logs (evs ++ evs') = logs evs ++ logs evs'.
Proof. apply omap_app. Qed.

Lemma counter_incs_app m evs evs' :
  counter_incs m (evs ++ evs') = counter_incs m evs ++ counter_incs m evs'.
Proof. apply omap_app. Qed.

Lemma counter_incs_Request m (rs : list request) : counter_incs m (Request <$> rs) = [].
Proof. induction rs as [|r rs IH]; [done|exact IH]. Qed.

Lemma gauge_delta_app m evs evs' :
  gauge_delta m (evs ++ evs') = (gauge_delta m evs + gauge_delta m evs')%Z.
Proof. unfold gauge_delta. by rewrite omap_app, sumZ_app. Qed.
End events.

#[export] Hint Rewrite @requests_app @requests_Request @logs_app @counter_incs_app @counter_incs_Request @gauge_delta_app : go.
