(* ===== verification/Metrics.v ===== *)
(** * kshows' own metrics

    src/internal/metrics/metrics.go.  The Prometheus client is not under
    src/: a metric variable is its declaration, and an update of a counter, histogram or gauge is an effect of
    [Events.event] on the metric variable's name.  The snapshot collector's
    [Collect] is a function of the snapshot [latest] returns. *)

From S2P Require Import Prelude.
From S2P Require Import GoErrors.
From S2P Require Import Events.
From S2P Require Import Model.

(** The label values: signal names and outcomes. *)
Definition SignalMetrics : string := "metrics".
Definition SignalDisk : string := "disk".
Definition ResultSuccess : string := "success".
Definition ResultAbsent : string := "absent".
Definition ResultError : string := "error".

(** ** Declarations

    The package's metric variables.  Durations of buckets are in
    nanoseconds. *)

Definition namespace : string := "kshows".

Inductive metric_kind := GaugeVec | Histogram | CounterVec | Gauge.

#[export] Instance metric_kind_eq_dec : EqDecision metric_kind.
Proof. solve_decision. Defined.

Record metric_decl := {
  m_var : string;
  m_kind : metric_kind;
  m_name : string;
  m_labels : list string;
  m_buckets : list Duration;
}.

Definition buildInfo : metric_decl := {|
  m_var := "buildInfo"; m_kind := GaugeVec; m_name := "build_info"; m_labels := ["version"]; m_buckets := [] |}.

Definition pollDuration : metric_decl := {|
  m_var := "pollDuration"; m_kind := Histogram; m_name := "poll_duration_seconds"; m_labels := [];
  m_buckets := (λ ms, ms * 1000000)%Z <$> [50; 100; 250; 500; 1000; 2500; 5000; 10000; 15000]%Z |}.

Definition pollTotal : metric_decl := {|
  m_var := "pollTotal"; m_kind := CounterVec; m_name := "poll_total"; m_labels := ["result"]; m_buckets := [] |}.

Definition signalTotal : metric_decl := {|
  m_var := "signalTotal"; m_kind := CounterVec; m_name := "signal_requests_total";
  m_labels := ["signal"; "result"]; m_buckets := [] |}.

Definition streamClients : metric_decl := {|
  m_var := "streamClients"; m_kind := Gauge; m_name := "stream_clients"; m_labels := []; m_buckets := [] |}.

(** What [init] registers, next to the client library's own two
    collectors. *)
Definition registered : list metric_decl := [buildInfo; pollDuration; pollTotal; signalTotal; streamClients].

(** The fully qualified name: namespace and name joined by an underscore. *)
Definition fq_name (d : metric_decl) : string := namespace +:+ "_" +:+ m_name d.

(** The values a label takes; the version is the build's. *)
Definition label_value (label v : string) : Prop :=
  if decide (label = "result") then v ∈ [ResultSuccess; ResultAbsent; ResultError]
  else if decide (label = "signal") then v ∈ [SignalMetrics; SignalDisk]
  else True.

#[export] Instance label_value_dec label v : Decision (label_value label v).
Proof. unfold label_value. repeat case_decide; apply _. Defined.

(** An update the client library accepts: of a registered metric of the right
    kind, with one value per label ([WithLabelValues] panics otherwise), each
    among the label's values. *)
Definition update_ok (var : string) (kind : metric_kind) (labels : list string) : Prop :=
  Exists (λ d, m_var d = var ∧ m_kind d = kind ∧ Forall2 label_value (m_labels d) labels) registered.

#[export] Instance update_ok_dec var kind labels : Decision (update_ok var kind labels).
Proof. apply _. Defined.

Definition well_typed {X} (ev : event X) : Prop :=
  match ev with
  | CounterInc var labels => update_ok var CounterVec labels
  | HistogramObserve var _ => update_ok var Histogram []
  | GaugeAdd var _ => update_ok var Gauge []
  | GaugeSet var labels _ => update_ok var GaugeVec labels
  | Logf _ _ | Request _ => True
  end.

Section metrics.
Context {X : Type}.

Definition SetVersion (version : string) : list (event X) :=
  [GaugeSet "buildInfo" [version] 1].

(** [pollDuration.Observe(d.Seconds())] is recorded in nanoseconds. *)
Definition ObservePoll (d : Duration) (err : option (error X)) : list (event X) :=
  let result := match err with None => ResultSuccess | Some _ => ResultError end in
  [HistogramObserve "pollDuration" d; CounterInc "pollTotal" [result]].

Definition RecordSignal (signal result : string) : list (event X) :=
  [CounterInc "signalTotal" [signal; result]].

Definition StreamConnected : list (event X) := [GaugeAdd "streamClients" 1].
Definition StreamDisconnected : list (event X) := [GaugeAdd "streamClients" (-1)].
End metrics.

(** ** The snapshot collector *)

Inductive desc := nodes_desc | pods_desc | timestamp_desc | capability_desc.

#[export] Instance desc_eq_dec : EqDecision desc.
Proof. solve_decision. Defined.

(** [NewDesc]'s fully qualified name. *)
Definition desc_name (d : desc) : string :=
  match d with
  | nodes_desc => "kshows_snapshot_nodes"
  | pods_desc => "kshows_snapshot_pods"
  | timestamp_desc => "kshows_snapshot_timestamp_seconds"
  | capability_desc => "kshows_capability"
  end.

(** [MustNewConstMetric]: a gauge sample.  Its float64 value is kept as the
    integer it is converted from. *)
Record sample := Sample { s_desc : desc; s_value : Z; s_labels : list string }.

Definition Describe : list desc := [nodes_desc; pods_desc; capability_desc; timestamp_desc].

Definition boolValue (b : bool) : Z := if b then 1 else 0.

(** [t.Unix()]: seconds since 1970, rounded down; a Go zero Time is 62135596800
    seconds before. *)
Definition unixEpochSeconds : Z := 62135596800.
Definition Unix (t : Time) : Z := (t / Second - unixEpochSeconds)%Z.

(** [pods := 0; for _, n := range snap.Nodes { pods += len(n.Pods) }]. *)
Definition count_pods (ns : list Node) : Z :=
  sum64 ((λ n, Z.of_nat (length (node_pods n))) <$> ns).

Definition Collect (latest : option Snapshot) : list sample :=
  match latest with
  | None => []
  | Some snap =>
      [Sample nodes_desc (Z.of_nat (length (SnapNodes snap))) [];
       Sample pods_desc (count_pods (SnapNodes snap)) [];
       Sample timestamp_desc (Unix (GeneratedAt snap)) [];
       Sample capability_desc (boolValue (CapMetrics (SnapCapabilities snap))) [SignalMetrics];
       Sample capability_desc (boolValue (CapDisk (SnapCapabilities snap))) [SignalDisk]]
  end.

(** ** The registry

    The Prometheus registry is not under src/.  [owner r] is the collector
    that holds the snapshot descriptors in [r]; documented: registering a
    collector fails when another one holds its descriptors ([MustRegister]
    panics then, [None] here), and [Unregister] frees them. *)
Class Registry (R : Type) := {
  MustRegister : nat → R → option R;
  Unregister : nat → R → R;
  owner : R → option nat;
}.

Class RegistryLaws (R : Type) `{!Registry R} : Prop := {
  MustRegister_free : ∀ c (r : R), owner r = None →
    ∃ r', MustRegister c r = Some r' ∧ owner r' = Some c;
  MustRegister_taken : ∀ c (r : R), is_Some (owner r) → MustRegister c r = None;
  Unregister_owner : ∀ c (r : R), owner r = Some c → owner (Unregister c r) = None;
}.

Section registry.
Context {R : Type} `{!Registry R}.

(** The package variables [Registry] and [snapCurrent] (nil before the first
    call); a snapshot collector is named by a number. *)
Definition WatchSnapshots (c : nat) (st : R * option nat) : option (R * option nat) :=
  let '(reg, snapCurrent) := st in
  let reg := match snapCurrent with Some old => Unregister old reg | None => reg end in
  reg ← MustRegister c reg;
  Some (reg, Some c).

(** A sequence of calls. *)
Definition watch_all (st : R * option nat) (cs : list nat) : option (R * option nat) :=
  foldl (λ o c, o ≫= WatchSnapshots c) (Some st) cs.

Lemma WatchSnapshots_replaces `{!RegistryLaws R} c reg cur :
  owner reg = cur →
  ∃ reg', WatchSnapshots c (reg, cur) = Some (reg', Some c) ∧ owner reg' = Some c.
Proof.
  intros <-. unfold WatchSnapshots.
  destruct (owner reg) as [old|] eqn:E.
  - destruct (MustRegister_free c (Unregister old reg)) as (r' & -> & Hr').
    { by apply Unregister_owner. }
    by exists r'.
  - destruct (MustRegister_free c reg E) as (r' & -> & Hr'). by exists r'.
Qed.
End registry.

(** ** Lemmas *)

Lemma count_pods_small ns :
  in_int64 (Z.of_nat (length (ns ≫= node_pods))) →
  count_pods ns = Z.of_nat (length (ns ≫= node_pods)).
Proof.
  intros H. unfold count_pods.
  assert (sumZ ((λ n, Z.of_nat (length (node_pods n))) <$> ns)
          = Z.of_nat (length (ns ≫= node_pods))) as E.
  { clear H. induction ns as [|n ns IH]; [done|].
    rewrite fmap_cons, bind_cons, length_app. autorewrite with go. rewrite IH. lia. }
  rewrite <-E in *. by apply sum64_small.
Qed.

(** The names the package registers, the snapshot collector's among them, are
    distinct, so no registration clashes, and the buckets increase. *)
Lemma names_distinct : NoDup ((fq_name <$> registered) ++ (desc_name <$> Describe)).
Proof. apply (bool_decide_unpack _). vm_compute. exact I. Qed.

Lemma buckets_increase : Sorted Z.lt (m_buckets pollDuration).
Proof. repeat constructor. Qed.

Lemma RecordSignal_ok {X} signal result :
  label_value "signal" signal → label_value "result" result →
  Forall well_typed (RecordSignal (X := X) signal result).
Proof.
  intros Hs Hr. apply Forall_singleton. unfold well_typed, update_ok, registered.
  do 3 apply Exists_cons_tl. apply Exists_cons_hd. split; [done|]. split; [done|].
  by apply Forall2_cons; split; [|apply Forall2_cons].
Qed.

Lemma ObservePoll_ok {X} d (err : option (error X)) : Forall well_typed (ObservePoll d err).
Proof. by destruct err; (constructor; [|constructor; [|constructor]]); apply (bool_decide_unpack _). Qed.

Lemma requests_ok {X} (rs : list request) : Forall (well_typed (X := X)) (Request <$> rs).
Proof. apply Forall_fmap, Forall_forall. done. Qed.

(** ** Properties *)

(** [Collect] emits nothing before the first snapshot, and otherwise the node
    count, the pods summed over the nodes, the snapshot's Unix time and one
    0/1 capability sample per signal; its samples are those of the
    descriptors [Describe] announces, each one described. *)
Theorem Collect_samples (snap : Snapshot) :
  in_int64 (Z.of_nat (length (SnapNodes snap ≫= node_pods))) →
  Collect None = [] ∧
  (s_value <$> Collect (Some snap)) =
    [Z.of_nat (length (SnapNodes snap)); Z.of_nat (length (SnapNodes snap ≫= node_pods));
     Unix (GeneratedAt snap);
     boolValue (CapMetrics (SnapCapabilities snap)); boolValue (CapDisk (SnapCapabilities snap))] ∧
  (∀ d, d ∈ Describe ↔ d ∈ s_desc <$> Collect (Some snap)) ∧
  NoDup ((λ s, (desc_name (s_desc s), s_labels s)) <$> Collect (Some snap)).
Proof.
  intros H. split_and!.
  - done.
  - unfold Collect. rewrite count_pods_small by done. done.
  - intros d. destruct d; split; intros _; by apply (bool_decide_unpack _).
  - by apply (bool_decide_unpack _).
Qed.

(** any number of [WatchSnapshots] calls, from the start of the program, never
    panics on a duplicate registration, and the last source registered is the
    one the registry serves. *)
Theorem WatchSnapshots_never_panics {R : Type} `{!Registry R, !RegistryLaws R} (reg : R) cs c :
  owner reg = None →
  ∃ reg', watch_all (reg, None) (cs ++ [c]) = Some (reg', Some c) ∧ owner reg' = Some c.
Proof.
  intros Hfree. unfold watch_all. rewrite foldl_app.
  assert (∃ reg' cur, foldl (λ o c, o ≫= WatchSnapshots c) (Some (reg, None)) cs = Some (reg', cur)
            ∧ owner reg' = cur) as (reg' & cur & -> & Hcur).
  { induction cs as [|c' cs IH] using rev_ind; [by exists reg, None|].
    destruct IH as (r & cur & IH & Hr). rewrite foldl_app, IH.
    destruct (WatchSnapshots_replaces c' r cur Hr) as (r' & Hw & Hr').
    exists r', (Some c'). exact (conj Hw Hr'). }
  destruct (WatchSnapshots_replaces c reg' cur Hcur) as (r' & Hw & Hr').
  exists r'. exact (conj Hw Hr').
Qed.

(** ** Witnesses *)

Module MetricsWitness.
(** A registry that is just the current owner. *)
#[local] Instance sample_registry : Registry (option nat) := {
  MustRegister c r := match r with None => Some (Some c) | Some _ => None end;
  Unregister c r := if decide (r = Some c) then None else r;
  owner r := r;
}.

#[local] Instance sample_registry_laws : RegistryLaws (option nat).
Proof.
  constructor; simpl.
  - intros c r ->. by exists (Some c).
  - intros c r [x ->]. done.
  - intros c r ->. by destruct (decide _).
Qed.

Lemma WatchSnapshots_never_panics_witness :
  ∃ reg', watch_all (None : option nat, None) ([1; 2] ++ [3]) = Some (reg', Some 3) ∧ owner reg' = Some 3.
Proof. apply (WatchSnapshots_never_panics (None : option nat) [1; 2] 3). reflexivity. Defined.

Definition snap : Snapshot := {|
  GeneratedAt := (unixEpochSeconds + 1700000000) * Second;
  SnapNodes := [];
  SnapCapabilities := {| CapMetrics := true; CapMetricsReason := "";
                         CapDisk := false; CapDiskReason := ReasonDisabled |};
|}.

Lemma Collect_samples_witness :
  (s_value <$> Collect (Some snap)) = [0; 0; 1700000000; 1; 0]%Z.
Proof.
  destruct (Collect_samples snap) as (_ & H & _).
  - split; [vm_compute; discriminate | reflexivity].
  - rewrite H. reflexivity.
Defined.
End MetricsWitness.
