(* ===== verification/MetricsSignal.v ===== *)
(** * The metrics signal

    Live CPU/RAM usage from the Metrics Server: [fetchMetrics], [noteMetrics]
    and [currentMetrics] of src/internal/collector/collector.go.  The
    collector's fields for this signal are the record [MetricsState]; only
    the poll goroutine touches them.  Each function takes the clock readings
    and API answers it consumes as arguments and returns the new state and
    the effects it had. *)

From S2P Require Import Prelude.
From S2P Require Import GoErrors.
From S2P Require Import Events.
From S2P Require Import Model.
From S2P Require Import KubeApi.
From S2P Require Import Capability.
From S2P Require Import Metrics.

(** How long a signal stays parked after a 403. *)
Definition forbiddenRetry : Duration := (10 * Minute)%Z.

(** The maps are Go maps, nil read as empty. *)
Record MetricsState := {
  metricsUp : bool;
  metricsReason : string;
  metricsFailures : Z;
  metricsRetryAt : Time; (* zero unless parked after a 403 *)
  lastPodUsage : gmap string Resources;
  lastNodeUsage : gmap string Resources;
}.

(** The fields as [New] sets them: optimistic, nothing fetched yet. *)
Definition metrics0 : MetricsState := {|
  metricsUp := true;
  metricsReason := "";
  metricsFailures := 0;
  metricsRetryAt := zeroTime;
  lastPodUsage := ∅;
  lastNodeUsage := ∅;
|}.

(** What [currentMetrics] hands to the snapshot. *)
Record UsageView := {
  podUsage : gmap string Resources;
  nodeUsage : gmap string Resources;
  metricsOK : bool;
  metricsWhy : string;
}.

Section metrics_signal.
Context {X : Type} `{!KubeErrors X} {Q : Type} `{!Quantity Q}.

(** The answers of the two list calls: the items and the error, one of which
    counts. *)
Record MetricsApi := {
  NodeMetricses : list (NodeMetrics Q) * option (error X);
  PodMetricses : list (PodMetrics Q) * option (error X);
}.

(** [nodeUsage[nm.Name] = model.Resources{...}]. *)
Definition node_usage (nm : NodeMetrics Q) : Resources := {|
  CPUMillis := MilliValue (ListCpu (NMUsage nm));
  MemBytes := Value (ListMemory (NMUsage nm));
|}.

(** The loop over a pod's containers. *)
Definition pod_usage (pm : PodMetrics Q) : Resources :=
  foldl (λ u cm, {| CPUMillis := add64 (CPUMillis u) (MilliValue (ListCpu cm));
                    MemBytes := add64 (MemBytes u) (Value (ListMemory cm)) |})
        zeroResources (PMContainers pm).

Definition pod_key (ns name : string) : string := ns +:+ "/" +:+ name.

Definition fetchMetrics (api : MetricsApi) :
    gmap string Resources * gmap string Resources * option (error X) * list (event X) :=
  match NodeMetricses api with
  | (_, Some err) => (∅, ∅, Some err, [Request ListNodeMetrics])
  | (nodeMetrics, None) =>
      let nodeUsage := foldl (λ m nm, <[NMName nm := node_usage nm]> m) ∅ nodeMetrics in
      match PodMetricses api with
      | (_, Some err) => (∅, nodeUsage, Some err, [Request ListNodeMetrics; Request ListPodMetrics])
      | (podMetrics, None) =>
          let podUsage :=
            foldl (λ m pm, <[pod_key (PMNamespace pm) (PMName pm) := pod_usage pm]> m) ∅ podMetrics in
          (podUsage, nodeUsage, None, [Request ListNodeMetrics; Request ListPodMetrics])
      end
  end.

Definition metricsAbsent (err : error X) : bool := IsNotFound err || IsNoMatchError err.

(** The four values every path of [noteMetrics] and [currentMetrics] but the
    disabled one returns. *)
Definition metrics_view (c : MetricsState) : UsageView := {|
  podUsage := lastPodUsage c;
  nodeUsage := lastNodeUsage c;
  metricsOK := metricsUp c;
  metricsWhy := metricsReason c;
|}.

(** [now] is the reading of [time.Now] in the forbidden case. *)
Definition noteMetrics (now : Time) (podUsage nodeUsage : gmap string Resources)
    (err : option (error X)) (c : MetricsState) : MetricsState * list (event X) :=
  match err with
  | None =>
      ({| metricsUp := true;
          metricsReason := "";
          metricsFailures := 0;
          metricsRetryAt := metricsRetryAt c;
          lastPodUsage := podUsage;
          lastNodeUsage := nodeUsage |},
       RecordSignal SignalMetrics ResultSuccess ++
       (if metricsUp c then [] else [Logf "metrics capability restored" []]))
  | Some e =>
      if IsForbidden e then
        ({| metricsUp := false;
            metricsReason := ReasonForbidden;
            metricsFailures := 0;
            metricsRetryAt := (now + forbiddenRetry)%Z;
            lastPodUsage := ∅;
            lastNodeUsage := ∅ |},
         RecordSignal SignalMetrics ResultAbsent ++
         (if decide (metricsReason c = ReasonForbidden) then [] else
          [Logf "metrics.k8s.io is forbidden: showing requests/limits only; asking again every %s (grant get,list on metrics.k8s.io nodes and pods, or run with --metrics-server=false to stop asking)"
                [VDuration forbiddenRetry]]))
      else if metricsAbsent e then
        ({| metricsUp := false;
            metricsReason := ReasonAbsent;
            metricsFailures := 0;
            metricsRetryAt := metricsRetryAt c;
            lastPodUsage := ∅;
            lastNodeUsage := ∅ |},
         RecordSignal SignalMetrics ResultAbsent ++
         (if decide (metricsReason c = ReasonAbsent) then [] else
          [Logf "metrics.k8s.io not available: %v (degrading to requests/limits-only)" [VErr e]]))
      else
        let failures := add64 (metricsFailures c) 1 in
        let lost := metricsUp c && (capFailThreshold <=? failures)%Z in
        let up := metricsUp c && negb lost in
        ({| metricsUp := up;
            metricsReason := if up then metricsReason c else ReasonUnavailable;
            metricsFailures := failures;
            metricsRetryAt := metricsRetryAt c;
            lastPodUsage := if lost then ∅ else lastPodUsage c;
            lastNodeUsage := if lost then ∅ else lastNodeUsage c |},
         RecordSignal SignalMetrics ResultError ++
         (if lost then [Logf "metrics capability lost after %d consecutive failures: %v" [VInt failures; VErr e]]
          else []))
  end.

(** [now_check] is the reading compared with the retry time, [now_note] the
    later one of [noteMetrics]. *)
Definition currentMetrics (metricsEnabled : bool) (now_check now_note : Time) (api : MetricsApi)
    (c : MetricsState) : UsageView * MetricsState * list (event X) :=
  if negb metricsEnabled then
    ({| podUsage := ∅; nodeUsage := ∅; metricsOK := false; metricsWhy := ReasonDisabled |}, c, [])
  else if Before now_check (metricsRetryAt c) then
    (metrics_view c, c, [])
  else
    let '(podUsage, nodeUsage, err, evs) := fetchMetrics api in
    let '(c', evs') := noteMetrics now_note podUsage nodeUsage err c in
    (metrics_view c', c', evs ++ evs').

(** ** The signal interface *)

(** One fetch result, as [noteMetrics] receives it. *)
Record metrics_input := {
  mi_now : Time;
  mi_pod : gmap string Resources;
  mi_node : gmap string Resources;
  mi_err : option (error X);
}.

(** How the switch of [noteMetrics] classifies an error. *)
Definition metrics_outcome (err : option (error X)) : outcome :=
  match err with
  | None => Success
  | Some e => if IsForbidden e then Denied else if metricsAbsent e then NotInstalled else Transient
  end.

#[export] Instance metrics_signal : Signal MetricsState metrics_input := {
  sig_up := metricsUp;
  sig_reason := metricsReason;
  sig_failures := metricsFailures;
  sig_outcome i := metrics_outcome (mi_err i);
  sig_step i c := (noteMetrics (mi_now i) (mi_pod i) (mi_node i) (mi_err i) c).1;
}.

(** A degraded signal serves no usage. *)
Definition usage_coherent (c : MetricsState) : Prop :=
  metricsUp c = false → lastPodUsage c = ∅ ∧ lastNodeUsage c = ∅.

Definition metrics_inv (c : MetricsState) : Prop :=
  sig_ok (In := metrics_input) c ∧ usage_coherent c.

(** The result label of a fetch. *)
Definition outcome_label (o : outcome) : string :=
  match o with
  | Success => ResultSuccess
  | Denied | NotInstalled => ResultAbsent
  | Transient => ResultError
  end.

(** ** Lemmas *)

Lemma capFailThreshold_small n : (0 ≤ n < capFailThreshold)%Z → add64 n 1 = (n + 1)%Z.
Proof. unfold capFailThreshold. intros. apply add64_small. unfold in_int64. lia. Qed.

#[export] Instance metrics_signal_laws : SignalLaws MetricsState metrics_input.
Proof.
  constructor; intros [now pu nu err] c; unfold sig_ok, sig_abs; simpl;
    unfold noteMetrics, metrics_outcome; intros Hok; destruct err as [e|]; simpl;
    try (unfold capFailThreshold; naive_solver lia);
    destruct (IsForbidden e); simpl; try done;
    destruct (metricsAbsent e); simpl; try done;
    destruct (metricsUp c); simpl; try done; destruct Hok as [Hr Hf];
    rewrite capFailThreshold_small by done;
    destruct (Z.leb_spec capFailThreshold (metricsFailures c + 1)); simpl; try done.
  split; [done|lia].
Qed.

Lemma noteMetrics_inv now pu nu err c :
  metrics_inv c → metrics_inv (noteMetrics now pu nu err c).1.
Proof.
  intros [Hok Hco]. split.
  { exact (sig_step_ok {| mi_now := now; mi_pod := pu; mi_node := nu; mi_err := err |} c Hok). }
  unfold usage_coherent, noteMetrics in *.
  destruct err as [e|]; simpl; [|done].
  destruct (IsForbidden e), (metricsAbsent e), (metricsUp c) eqn:E; simpl; auto;
    destruct (capFailThreshold <=? _)%Z; simpl; auto; try discriminate.
Qed.

Lemma metrics0_inv : metrics_inv metrics0.
Proof. split; [|done]. unfold sig_ok. simpl. unfold capFailThreshold. split; [done|lia]. Qed.

(** What [currentMetrics] does, path by path. *)
Lemma currentMetrics_cases enabled t1 t2 api c :
  (enabled = false ∧
   currentMetrics enabled t1 t2 api c =
     ({| podUsage := ∅; nodeUsage := ∅; metricsOK := false; metricsWhy := ReasonDisabled |}, c, [])) ∨
  (enabled = true ∧ (t1 < metricsRetryAt c)%Z ∧
   currentMetrics enabled t1 t2 api c = (metrics_view c, c, [])) ∨
  (enabled = true ∧ (metricsRetryAt c ≤ t1)%Z ∧
   ∃ pu nu err evs, fetchMetrics api = (pu, nu, err, evs) ∧
     currentMetrics enabled t1 t2 api c =
       (metrics_view (noteMetrics t2 pu nu err c).1, (noteMetrics t2 pu nu err c).1,
        evs ++ (noteMetrics t2 pu nu err c).2)).
Proof.
  unfold currentMetrics, Before. destruct enabled; simpl; [right|by left].
  destruct (Z.ltb_spec t1 (metricsRetryAt c)); [by left|right].
  split_and!; [done|done|]. destruct (fetchMetrics api) as [[[pu nu] err] evs] eqn:E.
  exists pu, nu, err, evs. split; [done|]. by destruct (noteMetrics t2 pu nu err c).
Qed.

Lemma currentMetrics_inv enabled t1 t2 api c :
  metrics_inv c → metrics_inv (currentMetrics enabled t1 t2 api c).1.2.
Proof.
  intros Hc. destruct (currentMetrics_cases enabled t1 t2 api c)
    as [[_ ->]|[(_ & _ & ->)|(_ & _ & pu & nu & err & evs & _ & ->)]]; simpl; auto.
  by apply noteMetrics_inv.
Qed.

(** The view a poll gets is coherent on every path. *)
Definition view_ok (v : UsageView) : Prop :=
  (metricsOK v = true ↔ metricsWhy v = "") ∧
  (metricsOK v = false → podUsage v = ∅ ∧ nodeUsage v = ∅).

Lemma metrics_view_ok c : metrics_inv c → view_ok (metrics_view c).
Proof. intros [Hok Hco]. split; [exact (sig_reason_iff c Hok)|exact Hco]. Qed.

Lemma currentMetrics_view_ok enabled t1 t2 api c :
  metrics_inv c → view_ok (currentMetrics enabled t1 t2 api c).1.1.
Proof.
  intros Hc. destruct (currentMetrics_cases enabled t1 t2 api c)
    as [[_ ->]|[(_ & _ & ->)|(_ & _ & pu & nu & err & evs & _ & ->)]]; simpl.
  - split; [|done]. split; discriminate.
  - by apply metrics_view_ok.
  - by apply metrics_view_ok, noteMetrics_inv.
Qed.

(** A fetch only lists the two kinds of metrics; folding its result in asks for
    nothing. *)
Lemma currentMetrics_requests enabled t1 t2 api c :
  (∀ r, r ∈ requests (currentMetrics enabled t1 t2 api c).2 →
     enabled = true ∧ (r = ListNodeMetrics ∨ r = ListPodMetrics)) ∧
  (∀ m, m ≠ "signalTotal" → counter_incs m (currentMetrics enabled t1 t2 api c).2 = []).
Proof.
  assert (∀ now pu nu err, requests (noteMetrics now pu nu err c).2 = [] ∧
            ∀ m, m ≠ "signalTotal" → counter_incs m (noteMetrics now pu nu err c).2 = []) as Hnote.
  { intros now pu nu err. unfold noteMetrics, RecordSignal. destruct err as [e|];
      [destruct (IsForbidden e); [|destruct (metricsAbsent e)]|]; simpl;
      split; intros; repeat case_match; simpl; rewrite ?decide_False by done; done. }
  destruct (currentMetrics_cases enabled t1 t2 api c)
    as [[_ ->]|[(_ & _ & ->)|(-> & _ & pu & nu & err & evs & Hf & ->)]]; simpl.
  1,2: split; [by intros r ?%not_elem_of_nil|done].
  destruct (Hnote t2 pu nu err) as [Hn1 Hn2]. split.
  - intros r. autorewrite with go. rewrite Hn1, app_nil_r. intros Hr. split; [done|]. revert Hf Hr.
    unfold fetchMetrics. destruct (NodeMetricses api) as [nm [e|]]; [|destruct (PodMetricses api) as [pm [e|]]];
      intros [= _ _ _ <-]; simpl; set_solver.
  - intros m Hm. autorewrite with go. rewrite Hn2, app_nil_r by done. revert Hf.
    unfold fetchMetrics. destruct (NodeMetricses api) as [nm [e|]]; [|destruct (PodMetricses api) as [pm [e|]]];
      by intros [= _ _ _ <-].
Qed.

Lemma fetchMetrics_requests api :
  ∃ rest, requests (fetchMetrics api).2 = ListNodeMetrics :: rest ∧
          logs (fetchMetrics api).2 = [] ∧ counter_incs "signalTotal" (fetchMetrics api).2 = [].
Proof.
  unfold fetchMetrics. destruct (NodeMetricses api) as [nm [e|]]; [by eexists|].
  destruct (PodMetricses api) as [pm [e|]]; by eexists.
Qed.
End metrics_signal.

Lemma pod_key_inj ns1 n1 ns2 n2 :
  HasByte ns1 slash = false → HasByte ns2 slash = false →
  pod_key ns1 n1 = pod_key ns2 n2 → ns1 = ns2 ∧ n1 = n2.
Proof. apply string_split_unique. Qed.

Section keys.
Context {Q : Type} `{!Quantity Q}.
Implicit Types (pms : list (PodMetrics Q)).

Lemma NoDup_pod_key pms :
  NoDup ((λ pm, (PMNamespace pm, PMName pm)) <$> pms) →
  Forall (λ pm, HasByte (PMNamespace pm) slash = false) pms →
  NoDup ((λ pm, pod_key (PMNamespace pm) (PMName pm)) <$> pms).
Proof.
  intros Hnd Hs. induction pms as [|pm pms IH]; [constructor|].
  apply Forall_cons in Hs as [Hpm Hs]. rewrite fmap_cons in Hnd. rewrite fmap_cons.
  apply NoDup_cons in Hnd as [Hx Hnd]. apply NoDup_cons. split; [|by apply IH].
  intros (pm' & Heq & Hin)%list_elem_of_fmap. rewrite Forall_forall in Hs.
  apply pod_key_inj in Heq as [H1 H2]; [|done|by apply Hs].
  apply Hx, list_elem_of_fmap. exists pm'. by rewrite H1, H2.
Qed.

(** The container loop is the int64 sum of each component. *)
Lemma pod_usage_sum (pm : PodMetrics Q) :
  pod_usage pm =
    {| CPUMillis := wrap64 (sumZ ((λ u, MilliValue (ListCpu u)) <$> PMContainers pm));
       MemBytes := wrap64 (sumZ ((λ u, Value (ListMemory u)) <$> PMContainers pm)) |}.
Proof.
  rewrite <-!sum64_wrap. unfold pod_usage, sum64, zeroResources. generalize 0%Z at 1 3.
  generalize 0%Z. induction (PMContainers pm) as [|u us IH]; intros m c; simpl; [done|].
  by rewrite IH.
Qed.
End keys.

(** ** Properties *)

Section properties.
Context {X : Type} `{!KubeErrors X} {Q : Type} `{!Quantity Q}.
Implicit Types (api : MetricsApi (X := X) (Q := Q)).

(** A poll's inputs to the metrics signal: the two clock readings and the API. *)
Definition metrics_poll : Type := Time * Time * MetricsApi (X := X) (Q := Q).

(** The state and the effects after a sequence of polls. *)
Definition metrics_polls (enabled : bool) (c : MetricsState) (polls : list metrics_poll) :
    MetricsState * list (event X) :=
  foldl (λ '(c, evs) '(t1, t2, api),
           let '(_, c', evs') := currentMetrics enabled t1 t2 api c in (c', evs ++ evs'))
        (c, []) polls.

Lemma metrics_polls_from enabled c evs0 polls :
  foldl (λ '(c, evs) '(t1, t2, api),
           let '(_, c', evs') := currentMetrics enabled t1 t2 api c in (c', evs ++ evs'))
        (c, evs0) polls =
  ((metrics_polls enabled c polls).1, evs0 ++ (metrics_polls enabled c polls).2).
Proof.
  unfold metrics_polls. revert c evs0.
  induction polls as [|[[t1 t2] api] polls IH]; intros c evs0; simpl; [by rewrite app_nil_r|].
  destruct (currentMetrics enabled t1 t2 api c) as [[v c'] evs'].
  rewrite (IH c' (evs0 ++ evs')), (IH c' evs'). simpl. by rewrite app_assoc.
Qed.

Lemma metrics_polls_cons enabled c t1 t2 api polls :
  metrics_polls enabled c ((t1, t2, api) :: polls) =
    let '(_, c', evs) := currentMetrics enabled t1 t2 api c in
    ((metrics_polls enabled c' polls).1, evs ++ (metrics_polls enabled c' polls).2).
Proof.
  unfold metrics_polls at 1. simpl.
  destruct (currentMetrics enabled t1 t2 api c) as [[v c'] evs]. apply metrics_polls_from.
Qed.

Lemma metrics_polls_inv enabled c polls :
  metrics_inv (X := X) c → metrics_inv (X := X) (metrics_polls enabled c polls).1.
Proof.
  revert c. induction polls as [|[[t1 t2] api] polls IH]; intros c Hc; [done|].
  rewrite metrics_polls_cons. pose proof (currentMetrics_inv enabled t1 t2 api c Hc).
  destruct (currentMetrics enabled t1 t2 api c) as [[v c'] evs]. simpl in *. by apply IH.
Qed.

(** C8: the metrics capability after any history of fetch results, from the
    optimistic start of [New], is the one the closed form [verdict] reads off the
    outcomes latest first: live with the current failure streak below
    [capFailThreshold], down as forbidden or absent after a definitive answer,
    down as unavailable otherwise. *)
Theorem metrics_capability_history (ins : list (metrics_input (X := X))) :
  let c := foldl (λ c i, (noteMetrics (mi_now i) (mi_pod i) (mi_node i) (mi_err i) c).1)
                 metrics0 ins in
  (if metricsUp c then Up (metricsFailures c) else Down (metricsReason c)) =
  verdict 0 (reverse ((λ i, metrics_outcome (mi_err i)) <$> ins)).
Proof. exact (sig_run_verdict metrics0 ins (proj1 metrics0_inv) eq_refl eq_refl). Qed.

(** C3: in every poll of every run, the usage handed to the snapshot is coherent
    with the capability: a metrics signal reported down (disabled, forbidden,
    absent or unavailable) comes with empty usage maps, and the reason is empty
    exactly when the signal is reported live. *)
Theorem currentMetrics_coherent enabled polls t1 t2 api :
  let c := (metrics_polls enabled metrics0 polls).1 in
  let v := (currentMetrics enabled t1 t2 api c).1.1 in
  (metricsOK v = true ↔ metricsWhy v = "") ∧
  (metricsOK v = false → podUsage v = ∅ ∧ nodeUsage v = ∅).
Proof. apply currentMetrics_view_ok, metrics_polls_inv, metrics0_inv. Qed.

(** C10: a 403 from the Metrics Server at time [now] parks the signal: however many
    polls follow before [now + forbiddenRetry], none sends a request and the
    signal stays down as forbidden; the first poll at or after that time asks
    again. *)
Theorem metrics_403_parks now pu nu (e : error X) c polls :
  IsForbidden e = true → Forall (λ '(t1, _, _), (t1 < now + forbiddenRetry)%Z) polls →
  let c1 := (noteMetrics now pu nu (Some e) c).1 in
  metrics_polls true c1 polls = (c1, []) ∧
  metrics_view c1 = {| podUsage := ∅; nodeUsage := ∅; metricsOK := false; metricsWhy := ReasonForbidden |} ∧
  ∀ t1 t2 api, (now + forbiddenRetry <= t1)%Z →
    head (requests (currentMetrics true t1 t2 api c1).2) = Some ListNodeMetrics.
Proof.
  intros He Hpolls c1.
  assert (metricsRetryAt c1 = (now + forbiddenRetry)%Z) as Hretry.
  { unfold c1, noteMetrics. by rewrite He. }
  split_and!.
  - clearbody c1. induction Hpolls as [|[[t1 t2] api] polls Ht Hpolls IH]; [done|].
    rewrite metrics_polls_cons.
    destruct (currentMetrics_cases true t1 t2 api c1) as [[? _]|[(_ & _ & ->)|(_ & ? & _)]];
      [done| by rewrite IH | simpl in Ht; lia].
  - unfold c1, noteMetrics. by rewrite He.
  - intros t1 t2 api Ht.
    destruct (currentMetrics_cases true t1 t2 api c1)
      as [[? _]|[(_ & ? & _)|(_ & _ & pu' & nu' & err & evs & Hf & ->)]]; [done|lia|].
    destruct (fetchMetrics_requests api) as (rest & Hreq & _). rewrite Hf in Hreq.
    simpl in *. autorewrite with go. by rewrite Hreq.
Qed.

(** a transient failure of a live signal that does not complete a streak of
    [capFailThreshold] leaves everything the snapshot is built from as it was
    (the last known usage, the capability, no reason); the one that completes it
    drops the capability and the usage together, as unavailable. *)
Theorem noteMetrics_transient now pu nu (e : error X) c :
  metrics_inv (X := X) c → metricsUp c = true → metrics_outcome (Some e) = Transient →
  let c' := (noteMetrics now pu nu (Some e) c).1 in
  (metricsFailures c + 1 < capFailThreshold → metrics_view c' = metrics_view c)%Z ∧
  (metricsFailures c + 1 >= capFailThreshold →
     metrics_view c' = {| podUsage := ∅; nodeUsage := ∅; metricsOK := false; metricsWhy := ReasonUnavailable |})%Z.
Proof.
  intros [Hok _] Hup Ho. unfold sig_ok in Hok. simpl in Hok. rewrite Hup in Hok. destruct Hok as [_ Hf].
  simpl in Ho. unfold noteMetrics.
  destruct (IsForbidden e); [done|]. destruct (metricsAbsent e); [done|].
  rewrite capFailThreshold_small, Hup by done. unfold metrics_view.
  destruct (Z.leb_spec capFailThreshold (metricsFailures c + 1)); simpl; rewrite ?Hup;
    split; intros; [lia|done|done|lia].
Qed.

(** every fetch is counted exactly once, under the label of its outcome, and
    the log is kept for transitions: a fetch logs one line when it changes the
    capability or its reason and none otherwise, except that a signal already
    down turns unavailable silently. *)
Theorem noteMetrics_effects now pu nu err c :
  metrics_inv (X := X) c →
  let '(c', evs) := noteMetrics now pu nu err c in
  counter_incs "signalTotal" evs = [[SignalMetrics; outcome_label (metrics_outcome err)]] ∧
  requests evs = [] ∧
  length (logs evs) =
    (if decide ((metricsUp c', metricsReason c') = (metricsUp c, metricsReason c)) then 0
     else if metricsUp c then 1
     else match metrics_outcome err with Transient => 0 | _ => 1 end).
Proof.
  intros [Hok _]. unfold sig_ok in Hok. simpl in Hok.
  unfold noteMetrics, metrics_outcome. destruct err as [e|].
  - destruct (IsForbidden e); [|destruct (metricsAbsent e)];
      destruct (metricsUp c) eqn:Hup; destruct_and?; simpl;
      rewrite ?capFailThreshold_small by done; try destruct (Z.leb_spec capFailThreshold (metricsFailures c + 1));
      repeat case_decide; simplify_eq/=; split_and?; reasons_congruence.
  - destruct (metricsUp c) eqn:Hup; destruct_and?; simpl;
      repeat case_decide; simplify_eq/=; split_and?; reasons_congruence.
Qed.
(** C39: a successful fetch joins every metrics item under its own key: a node's
    usage under its name, a pod's under namespace/name as the int64 sum over its
    containers; keys of distinct pods never collide (a namespace holds no
    slash), and no key is invented. *)
Theorem fetchMetrics_usage (nms : list (NodeMetrics Q)) (pms : list (PodMetrics Q)) :
  NoDup (NMName <$> nms) → NoDup ((λ pm, (PMNamespace pm, PMName pm)) <$> pms) →
  Forall (λ pm, HasByte (PMNamespace pm) slash = false) pms →
  let '(pu, nu, err, _) := fetchMetrics (X := X) {| NodeMetricses := (nms, None); PodMetricses := (pms, None) |} in
  err = None ∧
  (∀ nm, nm ∈ nms → nu !! NMName nm =
     Some {| CPUMillis := MilliValue (ListCpu (NMUsage nm)); MemBytes := Value (ListMemory (NMUsage nm)) |}) ∧
  (∀ pm, pm ∈ pms → pu !! pod_key (PMNamespace pm) (PMName pm) =
     Some {| CPUMillis := wrap64 (sumZ ((λ u, MilliValue (ListCpu u)) <$> PMContainers pm));
             MemBytes := wrap64 (sumZ ((λ u, Value (ListMemory u)) <$> PMContainers pm)) |}) ∧
  (∀ k u, nu !! k = Some u → k ∈ NMName <$> nms) ∧
  (∀ k u, pu !! k = Some u → k ∈ (λ pm, pod_key (PMNamespace pm) (PMName pm)) <$> pms).
Proof.
  intros Hn Hp Hslash. unfold fetchMetrics. simpl. split_and!.
  - done.
  - intros nm Hnm. by rewrite (foldl_insert_elem NMName node_usage).
  - intros pm Hpm. rewrite <-pod_usage_sum.
    apply (foldl_insert_elem (λ pm, pod_key (PMNamespace pm) (PMName pm)) pod_usage); [|done].
    by apply NoDup_pod_key.
  - intros k u Hk. apply foldl_insert_Some in Hk as (nm & ? & <- & _).
    by apply list_elem_of_fmap_2.
  - intros k u Hk. apply (foldl_insert_Some (λ pm, pod_key (PMNamespace pm) (PMName pm))) in Hk
      as (pm & ? & <- & _). by apply (list_elem_of_fmap_2 (λ pm, pod_key (PMNamespace pm) (PMName pm))).
Qed.
End properties.

(** ** Witnesses *)

Module MetricsSignalWitness.
Import SampleErrors SampleQuantity.

Definition usage : gmap string Resources := {[ "n1" := {| CPUMillis := 1000; MemBytes := 2 |} ]}.

(** A live signal two transient failures into a streak. *)
Definition shaky : MetricsState := {|
  metricsUp := true; metricsReason := ""; metricsFailures := 2;
  metricsRetryAt := zeroTime; lastPodUsage := ∅; lastNodeUsage := usage |}.

Lemma shaky_inv : metrics_inv (X := api_error) shaky.
Proof. split; [split; [reflexivity|vm_compute; split; [discriminate|reflexivity]]|discriminate]. Qed.

Definition api : MetricsApi (X := api_error) (Q := quantity) := {|
  NodeMetricses := ([{| NMName := "n1"; NMUsage := rl 1500 4 |}], None);
  PodMetricses := ([{| PMNamespace := "default"; PMName := "p1"; PMContainers := [rl 100 10; rl 150 20] |}], None);
|}.

Lemma metrics_403_parks_witness :
  metrics_polls true (noteMetrics 1000 ∅ ∅ (Some forbidden) metrics0).1
    [(2000%Z, 2001%Z, api); (500000000000%Z, 500000000001%Z, api)] =
  ((noteMetrics 1000 ∅ ∅ (Some forbidden) metrics0).1, []).
Proof.
  apply (metrics_403_parks (Q := quantity) 1000 ∅ ∅ forbidden metrics0).
  - reflexivity.
  - repeat constructor.
Defined.

Lemma noteMetrics_transient_witness :
  metrics_view (noteMetrics 1000 ∅ ∅ (Some transient) shaky).1 =
  {| podUsage := ∅; nodeUsage := ∅; metricsOK := false; metricsWhy := ReasonUnavailable |}.
Proof.
  destruct (noteMetrics_transient 1000 ∅ ∅ transient shaky shaky_inv) as [_ H]; [reflexivity|reflexivity|].
  apply H. vm_compute. discriminate.
Defined.

Lemma noteMetrics_effects_witness :
  counter_incs "signalTotal" (noteMetrics 1000 ∅ ∅ (Some transient) shaky).2 = [[SignalMetrics; ResultError]] ∧
  length (logs (noteMetrics 1000 ∅ ∅ (Some transient) shaky).2) = 1.
Proof.
  pose proof (noteMetrics_effects 1000 ∅ ∅ (Some transient) shaky shaky_inv) as H.
  destruct (noteMetrics 1000 ∅ ∅ (Some transient) shaky) as [c' evs] eqn:E.
  destruct H as (H1 & _ & H3). split; [exact H1|].
  simpl. rewrite H3. injection E as <- _. vm_compute. reflexivity.
Defined.

Lemma fetchMetrics_usage_witness :
  let '(pu, nu, _, _) := fetchMetrics api in
  nu !! "n1" = Some {| CPUMillis := 1500; MemBytes := 4 |} ∧
  pu !! "default/p1" = Some {| CPUMillis := 250; MemBytes := 30 |}.
Proof.
  pose proof (fetchMetrics_usage (X := api_error) (NodeMetricses api).1 (PodMetricses api).1) as H.
  unfold api in *. destruct (fetchMetrics _) as [[[pu nu] err] evs].
  destruct H as (_ & H1 & H2 & _).
  - apply (bool_decide_unpack _). vm_compute. exact I.
  - apply (bool_decide_unpack _). vm_compute. exact I.
  - repeat constructor.
  - split.
    + refine (eq_trans (H1 {| NMName := "n1"; NMUsage := rl 1500 4 |} _) _); [by left|reflexivity].
    + refine (eq_trans (H2 {| PMNamespace := "default"; PMName := "p1";
                              PMContainers := [rl 100 10; rl 150 20] |} _) _); [by left|reflexivity].
Defined.
End MetricsSignalWitness.
