(* ===== verification/FanOut.v ===== *)
(** * The disk fan-out

    [fanOut] of src/internal/collector/disk.go: one goroutine per node, at
    most [diskFetchConcurrency] of them at a time, each folding its route's
    answer into shared variables under a mutex.  [step] is the interleaving
    semantics of the main goroutine and the workers; [fanOut] is the same
    computation run in a given completion order, and [fanOut_refines] relates
    the two. *)

From S2P Require Import Prelude.
From S2P Require Import GoErrors.
From S2P Require Import Model.
From S2P Require Import KubeApi.

Definition diskFetchConcurrency : nat := 8.

Section fanout.
Context {X : Type} `{!KubeErrors X} {Q : Type}.

(** What a route answers for a node during one fan-out: a disk and an error,
    the disk counting when the error is nil. *)
Definition route_answers : Type := KNode Q → Disk * option (error X).

(** The variables the workers share: [results], [anyOK], [lastErr]. *)
Record shared := {
  results : gmap string Disk;
  anyOK : bool;
  lastErr : option (error X);
}.

Definition shared0 : shared := {| results := ∅; anyOK := false; lastErr := None |}.

(** A worker's critical section. *)
Definition complete (route : route_answers) (v : shared) (node : KNode Q) : shared :=
  match route node with
  | (_, Some err) =>
      {| results := results v;
         anyOK := anyOK v;
         lastErr := if bool_decide (lastErr v = None) || IsForbidden err then Some err else lastErr v |}
  | (disk, None) =>
      {| results := <[KNodeName node := disk]> (results v);
         anyOK := true;
         lastErr := lastErr v |}
  end.

(** After [wg.Wait]. *)
Definition finish (v : shared) : gmap string Disk * option (error X) :=
  if anyOK v then (results v, None) else (results v, lastErr v).

(** The fan-out with the workers completing in the given order. *)
Definition fanOut (route : route_answers) (order : list (KNode Q)) :
    gmap string Disk * option (error X) :=
  finish (foldl (complete route) shared0 order).

(** ** Interleaving semantics *)

(** A worker calls its route, then runs its critical section, then its
    deferred calls: it frees its semaphore slot and tells the wait group. *)
Inductive phase := Routing | Completed | Released.

(** The main goroutine is at the head of [todo]: about to call [wg.Add], or
    waiting for a slot ([acquiring]); with [todo] empty it is in [wg.Wait] or
    has returned.  [completed] is a ghost: the completion order so far. *)
Record state := {
  todo : list (KNode Q);
  acquiring : bool;
  workers : list (KNode Q * phase);
  sem : nat; (* slots taken: values in the buffered channel *)
  wg : nat;
  vars : shared;
  returned : option (gmap string Disk * option (error X));
  completed : list (KNode Q);
}.

Definition init (nodes : list (KNode Q)) : state := {|
  todo := nodes; acquiring := false; workers := []; sem := 0; wg := 0;
  vars := shared0; returned := None; completed := [] |}.

Inductive step (route : route_answers) : state → state → Prop :=
| step_add n ns ws s w v done :
    step route
      {| todo := n :: ns; acquiring := false; workers := ws; sem := s; wg := w; vars := v;
         returned := None; completed := done |}
      {| todo := n :: ns; acquiring := true; workers := ws; sem := s; wg := S w; vars := v;
         returned := None; completed := done |}
| step_acquire n ns ws s w v done :
    s < diskFetchConcurrency →
    step route
      {| todo := n :: ns; acquiring := true; workers := ws; sem := s; wg := w; vars := v;
         returned := None; completed := done |}
      {| todo := ns; acquiring := false; workers := (n, Routing) :: ws; sem := S s; wg := w; vars := v;
         returned := None; completed := done |}
| step_complete ns a ws1 n ws2 s w v r done :
    step route
      {| todo := ns; acquiring := a; workers := ws1 ++ (n, Routing) :: ws2; sem := s; wg := w; vars := v;
         returned := r; completed := done |}
      {| todo := ns; acquiring := a; workers := ws1 ++ (n, Completed) :: ws2; sem := s; wg := w;
         vars := complete route v n; returned := r; completed := done ++ [n] |}
| step_release ns a ws1 n ws2 s w v r done :
    step route
      {| todo := ns; acquiring := a; workers := ws1 ++ (n, Completed) :: ws2; sem := S s; wg := w; vars := v;
         returned := r; completed := done |}
      {| todo := ns; acquiring := a; workers := ws1 ++ (n, Released) :: ws2; sem := s; wg := w; vars := v;
         returned := r; completed := done |}
| step_done ns a ws1 n ws2 s w v r done :
    step route
      {| todo := ns; acquiring := a; workers := ws1 ++ (n, Released) :: ws2; sem := s; wg := S w; vars := v;
         returned := r; completed := done |}
      {| todo := ns; acquiring := a; workers := ws1 ++ ws2; sem := s; wg := w; vars := v;
         returned := r; completed := done |}
| step_return s v done ws :
    step route
      {| todo := []; acquiring := false; workers := ws; sem := s; wg := 0; vars := v;
         returned := None; completed := done |}
      {| todo := []; acquiring := false; workers := ws; sem := s; wg := 0; vars := v;
         returned := Some (finish v); completed := done |}.

(** ** The invariant *)

(** Workers inside their route: the calls in flight. *)
Fixpoint in_flight (ws : list (KNode Q * phase)) : list (KNode Q) :=
  match ws with
  | [] => []
  | (n, Routing) :: ws => n :: in_flight ws
  | (_, _) :: ws => in_flight ws
  end.

(** Workers holding a semaphore slot. *)
Fixpoint holders (ws : list (KNode Q * phase)) : list (KNode Q) :=
  match ws with
  | [] => []
  | (_, Released) :: ws => holders ws
  | (n, _) :: ws => n :: holders ws
  end.

Record inv (route : route_answers) (nodes : list (KNode Q)) (s : state) : Prop := {
  inv_sem : sem s = length (holders (workers s));
  inv_bound : sem s <= diskFetchConcurrency;
  inv_wg : wg s = length (workers s) + (if acquiring s then 1 else 0);
  inv_acquiring : acquiring s = true → todo s ≠ [];
  inv_vars : vars s = foldl (complete route) shared0 (completed s);
  inv_nodes : completed s ++ in_flight (workers s) ++ todo s ≡ₚ nodes;
  inv_returned : ∀ r, returned s = Some r → todo s = [] ∧ workers s = [] ∧ r = finish (vars s);
}.

(** Steps left. *)
Definition phase_weight (p : phase) : nat :=
  match p with Routing => 3 | Completed => 2 | Released => 1 end.

Fixpoint workload (ws : list (KNode Q * phase)) : nat :=
  match ws with [] => 0 | (_, p) :: ws => phase_weight p + workload ws end.

Definition measure (s : state) : nat :=
  (if returned s is Some _ then 0 else 1) + 6 * length (todo s) - (if acquiring s then 1 else 0)
  + workload (workers s).

(** ** The invariant holds throughout *)

Lemma init_inv route nodes : inv route nodes (init nodes).
Proof. constructor; simpl; try done; unfold diskFetchConcurrency; lia. Qed.

Lemma in_flight_app ws1 ws2 : in_flight (ws1 ++ ws2) = in_flight ws1 ++ in_flight ws2.
Proof. induction ws1 as [|[n []] ws1 IH]; simpl; by rewrite ?IH. Qed.

Lemma holders_app ws1 ws2 : holders (ws1 ++ ws2) = holders ws1 ++ holders ws2.
Proof. induction ws1 as [|[n []] ws1 IH]; simpl; by rewrite ?IH. Qed.

Lemma in_flight_holders ws : length (in_flight ws) <= length (holders ws).
Proof. induction ws as [|[n []] ws IH]; simpl; lia. Qed.

Lemma step_inv route nodes s s' : inv route nodes s → step route s s' → inv route nodes s'.
Proof.
  intros [Hsem Hb Hwg Hacq Hv Hn Hr] Hstep. destruct Hstep; simpl in *;
    rewrite ?in_flight_app, ?holders_app, ?length_app in *; simpl in *;
    constructor; simpl; rewrite ?in_flight_app, ?holders_app, ?length_app; simpl;
    try done; try lia.
  - rewrite <-Hn. f_equiv. by rewrite Permutation_middle.
  - rewrite foldl_app. simpl. by rewrite <-Hv.
  - rewrite <-Hn, <-!app_assoc. simpl. f_equiv. by rewrite <-Permutation_middle.
  - intros r' Hr'. by destruct (Hr r' Hr') as (_ & [_ ?]%app_nil & _).
  - intros r' Hr'. by destruct (Hr r' Hr') as (_ & [_ ?]%app_nil & _).
  - intros r' Hr'. by destruct (Hr r' Hr') as (_ & [_ ?]%app_nil & _).
  - intros r [= <-]. destruct ws; [done|simpl in *; lia].
Qed.

Lemma reachable_inv route nodes s : rtc (step route) (init nodes) s → inv route nodes s.
Proof.
  intros H. eapply (rtc_invariant (step route) (inv route nodes)); eauto using step_inv, init_inv.
Qed.
(** ** Progress and termination *)

Lemma workload_app ws1 ws2 : workload (ws1 ++ ws2) = workload ws1 + workload ws2.
Proof. induction ws1 as [|[n p] ws1 IH]; simpl; lia. Qed.

Lemma step_measure route s s' :
  (acquiring s = true → todo s ≠ []) → step route s s' → measure s' < measure s.
Proof.
  intros Ha Hstep. destruct Hstep; unfold measure; simpl in *; rewrite ?workload_app; simpl; try lia;
    destruct a, ns; simpl; try lia; by destruct Ha.
Qed.

(** The number of slots taken is that of the workers that have not released. *)
Lemma holders_pos ws1 (n : KNode Q) ws2 : 0 < length (holders (ws1 ++ (n, Completed) :: ws2)).
Proof. rewrite holders_app, length_app. simpl. lia. Qed.

Lemma inv_progress route nodes s :
  inv route nodes s → returned s = None → ∃ s', step route s s'.
Proof.
  intros [Hsem Hb Hwg Hacq _ _ _] Hr. destruct s as [ns a ws sm w v r done_]; simpl in *. subst r.
  destruct ws as [|[n p] ws].
  - destruct ns as [|n ns].
    + destruct a; [by destruct Hacq|]. simpl in Hwg. subst w. eexists. apply step_return.
    + destruct a.
      * simpl in Hsem. eexists. apply step_acquire. unfold diskFetchConcurrency. lia.
      * eexists. apply step_add.
  - destruct p.
    + eexists. apply (step_complete _ _ _ []).
    + destruct sm; [pose proof (holders_pos [] n ws) as H; simpl in *; lia|].
      eexists. apply (step_release _ _ _ []).
    + destruct w; [simpl in Hwg; lia|]. eexists. apply (step_done _ _ _ []).
Qed.

Lemma inv_sn route nodes s : inv route nodes s → sn (step route) s.
Proof.
  induction s as [s IH] using (well_founded_induction (well_founded_ltof _ measure)).
  intros Hinv. constructor. intros s' Hstep. apply IH.
  - apply step_measure with route; [apply Hinv|done].
  - by apply (step_inv route nodes s).
Qed.

Lemma inv_returns route nodes s :
  inv route nodes s → ∃ s', rtc (step route) s s' ∧ is_Some (returned s').
Proof.
  intros Hinv. pose proof (inv_sn route nodes s Hinv) as Hsn. revert Hinv.
  induction Hsn as [s _ IH]. intros Hinv.
  destruct (returned s) as [r|] eqn:Hr; [exists s; by rewrite Hr|].
  destruct (inv_progress route nodes s Hinv Hr) as [s' Hs'].
  destruct (IH s' Hs') as (s'' & ? & ?); [by apply (step_inv route nodes s)|].
  exists s''. split; [by apply rtc_l with s'|done].
Qed.

(** ** What the shared variables end as *)

Definition ok (route : route_answers) (n : KNode Q) : bool := bool_decide ((route n).2 = None).

Lemma complete_cases route v n :
  (∃ d, route n = (d, None) ∧
     complete route v n = {| results := <[KNodeName n := d]> (results v); anyOK := true; lastErr := lastErr v |}) ∨
  (∃ d e, route n = (d, Some e) ∧ results (complete route v n) = results v ∧
     anyOK (complete route v n) = anyOK v ∧
     lastErr (complete route v n) =
       if bool_decide (lastErr v = None) || IsForbidden e then Some e else lastErr v).
Proof. unfold complete. destruct (route n) as [d [e|]]; [right; by eexists _, _|left; by eexists]. Qed.

(** The successes, as the sequence of map updates they are. *)
Lemma fold_results route v order :
  results (foldl (complete route) v order) =
    foldl (λ m n, <[KNodeName n := (route n).1]> m) (results v) (filter (λ n, (route n).2 = None) order).
Proof.
  revert v. induction order as [|n order IH]; intros v; simpl; [done|].
  rewrite IH. destruct (complete_cases route v n) as [(d & Hn & ->)|(d & e & Hn & -> & _)].
  - rewrite filter_cons_True by (by rewrite Hn). simpl. by rewrite Hn.
  - rewrite filter_cons_False by (by rewrite Hn). done.
Qed.

Lemma fold_anyOK route v order :
  anyOK (foldl (complete route) v order) = true ↔
    anyOK v = true ∨ ∃ n, n ∈ order ∧ (route n).2 = None.
Proof.
  revert v. induction order as [|n order IH]; intros v; simpl.
  { split; [by left|]. intros [?|(n & Hn & _)]; [done|by apply not_elem_of_nil in Hn]. }
  rewrite IH. setoid_rewrite elem_of_cons.
  destruct (complete_cases route v n) as [(d & Hn & ->)|(d & e & Hn & _ & -> & _)]; simpl; split.
  - intros _. right. exists n. rewrite Hn. auto.
  - by left.
  - intros [?|(n' & ? & ?)]; eauto 10.
  - intros [?|(n' & [->|?] & ?)]; [by left|by rewrite Hn in *|eauto].
Qed.

(** The error is one of the answers; it is a 403 as soon as one of them is. *)
Lemma fold_lastErr route order :
  let err := lastErr (foldl (complete route) shared0 order) in
  (err = None ↔ ∀ n, n ∈ order → (route n).2 = None) ∧
  (∀ e, err = Some e → ∃ n, n ∈ order ∧ (route n).2 = Some e) ∧
  (is_forbidden err = true ↔ ∃ n, n ∈ order ∧ is_forbidden (route n).2 = true).
Proof.
  simpl. induction order as [|n order IH] using rev_ind; simpl.
  { split_and!; [|done|]; split; try done.
    - intros _ n Hn. by apply not_elem_of_nil in Hn.
    - intros (n & Hn & _). by apply not_elem_of_nil in Hn. }
  rewrite foldl_app. simpl. setoid_rewrite elem_of_app. setoid_rewrite list_elem_of_singleton.
  set (v := foldl _ _ _) in *. destruct IH as (IH1 & IH2 & IH3).
  destruct (complete_cases route v n) as [(d & Hn & ->)|(d & e & Hn & _ & _ & ->)]; simpl.
  - rewrite IH1, IH3. split_and!.
    + split; [|by auto]. intros H n' [?| ->]; [auto|by rewrite Hn].
    + intros e He. destruct (IH2 e He) as (n' & ? & ?). eauto.
    + split; intros (n' & H & ?); [eauto|]. destruct H as [?| ->]; [eauto|by rewrite Hn in *].
  - destruct (bool_decide (lastErr v = None) || IsForbidden e) eqn:Hb.
    + split_and!.
      * split; [done|]. intros H. specialize (H n). rewrite Hn in H. by discriminate H; auto.
      * intros e' [= <-]. exists n. rewrite Hn. auto.
      * split; [intros He; exists n; rewrite Hn; auto|].
        intros (n' & [Hin| ->] & Hf); [|by rewrite Hn in Hf].
        apply orb_true_iff in Hb as [Hb|Hb]; [|done]. apply bool_decide_eq_true in Hb.
        rewrite (proj1 IH1 Hb n' Hin) in Hf. done.
    + apply orb_false_iff in Hb as [Hb He]. apply bool_decide_eq_false in Hb. split_and!.
      * split; [done|]. intros H. destruct Hb. apply IH1. intros n' ?. auto.
      * intros e' He'. destruct (IH2 e' He') as (n' & ? & ?). eauto.
      * rewrite IH3. split; intros (n' & H & ?); [eauto|].
        destruct H as [?| ->]; [eauto|]. rewrite Hn in *. simpl in *. congruence.
Qed.
(** What [fanOut] returns, for any completion order. *)
Lemma fanOut_cases route order :
  (∃ n, n ∈ order ∧ (route n).2 = None) ∧
    fanOut route order = (results (foldl (complete route) shared0 order), None) ∨
  (∀ n, n ∈ order → (route n).2 ≠ None) ∧
    fanOut route order = (∅, lastErr (foldl (complete route) shared0 order)).
Proof.
  unfold fanOut, finish. pose proof (fold_anyOK route shared0 order) as Hok.
  destruct (anyOK _) eqn:E.
  - left. split; [|done]. destruct (proj1 Hok eq_refl) as [?|?]; done.
  - right. assert (∀ n, n ∈ order → (route n).2 ≠ None) as Hno.
    { intros n Hn Heq. assert (false = true) as ?; [|done]. apply Hok. right. eauto. }
    split; [done|]. f_equal. rewrite fold_results.
    replace (filter (λ n, (route n).2 = None) order) with (@nil (KNode Q)); [done|].
    symmetry. by apply filter_none.
Qed.

(** ** Properties *)

(** C5: whatever the interleaving of the main goroutine and the workers, at most
    [diskFetchConcurrency] routes are being called at once, and what the fan-out
    returns is the sequential fold of the workers' critical sections over some
    order of the nodes, each node folded exactly once. *)
Theorem fanOut_refines route nodes s :
  rtc (step route) (init nodes) s →
  length (in_flight (workers s)) <= diskFetchConcurrency ∧
  ∀ r, returned s = Some r → ∃ order, order ≡ₚ nodes ∧ r = fanOut route order.
Proof.
  intros Hs. destruct (reachable_inv route nodes s Hs) as [Hsem Hb _ _ Hv Hn Hr].
  pose proof (in_flight_holders (workers s)). split; [lia|].
  intros r Hret. destruct (Hr r Hret) as (Htodo & Hws & ->). exists (completed s).
  rewrite Htodo, Hws, app_nil_r in Hn. split; [done|]. unfold fanOut. by rewrite <-Hv.
Qed.

(** C6: the fan-out always returns: it has no infinite run and no deadlock (every
    reachable state that has not returned can take a step), for any number of
    nodes and whatever the routes answer. *)
Theorem fanOut_terminates route nodes :
  sn (step route) (init nodes) ∧
  (∀ s, rtc (step route) (init nodes) s → returned s = None → ∃ s', step route s s') ∧
  (∃ s, rtc (step route) (init nodes) s ∧ is_Some (returned s)).
Proof.
  pose proof (init_inv route nodes) as Hinit. split_and!.
  - by apply inv_sn with nodes.
  - intros s Hs. by apply inv_progress with nodes, reachable_inv.
  - by apply inv_returns with nodes.
Qed.

(** C7: what a fan-out over nodes of distinct names returns does not depend on the
    order the workers complete in, up to which failure represents the others:
    every node that answered is in the map with its answer and no other node is;
    the error is nil exactly when some node answered or there was no node; the
    map is empty with an error; the error is one of the routes' own, and a 403
    exactly when no node answered and some node's failure is a 403. *)
Theorem fanOut_outcome route nodes order :
  NoDup (KNodeName <$> nodes) → order ≡ₚ nodes →
  let '(disks, err) := fanOut route order in
  (∀ n, n ∈ nodes → disks !! KNodeName n = if ok route n then Some (route n).1 else None) ∧
  (∀ k, k ∉ KNodeName <$> nodes → disks !! k = None) ∧
  (err = None ↔ nodes = [] ∨ ∃ n, n ∈ nodes ∧ (route n).2 = None) ∧
  (∀ e, err = Some e → disks = ∅ ∧ ∃ n, n ∈ nodes ∧ (route n).2 = Some e) ∧
  (is_forbidden err = true ↔
     (∀ n, n ∈ nodes → (route n).2 ≠ None) ∧ ∃ n, n ∈ nodes ∧ is_forbidden (route n).2 = true).
Proof.
  intros Hnd Hperm.
  assert (∀ n, n ∈ order ↔ n ∈ nodes) as Hmem by (intros n; by rewrite Hperm).
  destruct (fold_lastErr route order) as (He1 & He2 & He3).
  setoid_rewrite Hmem in He1. setoid_rewrite Hmem in He2. setoid_rewrite Hmem in He3.
  destruct (fanOut_cases route order) as [[(n0 & Hn0 & Hok0) ->]|[Hno ->]];
    [rewrite Hmem in Hn0|setoid_rewrite Hmem in Hno].
  - split_and!.
    + intros n Hn. rewrite fold_results. unfold ok. case_bool_decide as Hok.
      * apply (foldl_insert_elem KNodeName (λ n, (route n).1)).
        -- apply NoDup_fmap_filter. by rewrite Hperm.
        -- apply list_elem_of_filter. by rewrite Hmem.
      * rewrite foldl_insert_not_elem; [done|]. intros (n' & Heq & [Hok' Hin]%list_elem_of_filter)%list_elem_of_fmap.
        rewrite Hmem in Hin. by rewrite (NoDup_key_inj KNodeName nodes n n') in Hok.
    + intros k Hk. rewrite fold_results, foldl_insert_not_elem; [done|].
      intros (n & -> & [_ Hin]%list_elem_of_filter)%list_elem_of_fmap.
      rewrite Hmem in Hin. by apply Hk, list_elem_of_fmap_2.
    + split; [eauto|done].
    + done.
    + split; [done|]. intros [H _]. by destruct (H n0).
  - split_and!.
    + intros n Hn. rewrite lookup_empty. unfold ok. by rewrite bool_decide_eq_false_2 by auto.
    + intros k _. apply lookup_empty.
    + rewrite He1. split.
      * intros H. left. destruct nodes as [|n ns]; [done|]. destruct (Hno n); [by left|].
        apply H. by left.
      * intros [-> |(n & Hn & Hok)]; [|by destruct (Hno n)]. intros n Hn. by apply not_elem_of_nil in Hn.
    + intros e He. split; [done|]. by apply He2.
    + rewrite He3. split; [intros H; split; [exact Hno|exact H]|intros [_ H]; exact H].
Qed.
End fanout.

(** ** Witnesses *)

Module FanOutWitness.
Import SampleErrors SampleQuantity.

Definition node (name : string) : KNode quantity := {|
  KNodeName := name; KNodeLabels := ∅; KNodeAllocatable := ∅; KNodeConditions := [];
  KNodeAddresses := []; KubeletEndpointPort := 0 |}.

Definition live : Disk :=
  {| CapacityBytes := 100; UsedBytes := 40; AvailableBytes := 60; DiskIsLive := true |}.

(** "n1" answers, every other node is forbidden. *)
Definition route (n : KNode quantity) : Disk * option (error api_error) :=
  if decide (KNodeName n = "n1") then (live, None) else (zeroDisk, Some forbidden).

Definition final : state (X := api_error) (Q := quantity) := {|
  todo := []; acquiring := false; workers := []; sem := 0; wg := 0;
  vars := complete route shared0 (node "n1");
  returned := Some (finish (complete route shared0 (node "n1")));
  completed := [node "n1"] |}.

Lemma final_reachable : rtc (step route) (init [node "n1"]) final.
Proof.
  eapply rtc_l; [apply step_add|]. eapply rtc_l; [apply step_acquire; unfold diskFetchConcurrency; lia|].
  eapply rtc_l; [apply (step_complete _ _ _ [])|]. eapply rtc_l; [apply (step_release _ _ _ [])|].
  eapply rtc_l; [apply (step_done _ _ _ [])|]. eapply rtc_l; [apply step_return|]. apply rtc_refl.
Qed.

Lemma fanOut_refines_witness :
  ∃ order, order ≡ₚ [node "n1"] ∧
    finish (complete route shared0 (node "n1")) = fanOut route order.
Proof. exact (proj2 (fanOut_refines route [node "n1"] final final_reachable) _ eq_refl). Defined.

Lemma fanOut_outcome_witness :
  let '(disks, err) := fanOut route [node "n2"; node "n1"] in
  disks !! "n1" = Some live ∧ disks !! "n2" = None ∧ err = None.
Proof.
  assert (NoDup (KNodeName <$> [node "n1"; node "n2"])) as Hnd
    by (apply (bool_decide_unpack _); vm_compute; exact I).
  pose proof (fanOut_outcome route [node "n1"; node "n2"] [node "n2"; node "n1"] Hnd
                (perm_swap _ _ _)) as H.
  destruct (fanOut route _) as [disks err]. destruct H as (H1 & _ & H3 & _). split_and!.
  - exact (H1 (node "n1") (list_elem_of_here _ _)).
  - exact (H1 (node "n2") (list_elem_of_further _ _ _ (list_elem_of_here _ _))).
  - apply H3. right. exists (node "n1"). split; [apply list_elem_of_here|reflexivity].
Defined.
End FanOutWitness.
