(* ===== verification/DiskSignal.v ===== *)
(** * The disk signal

    Live node disk from the kubelet Summary API: [fetchDisk] of
    src/internal/collector/disk.go, which picks the route, and [currentDisk]
    of collector.go, which caches, rate-limits and classifies.  A route's
    answers, the requests it sends and the order its fan-out completes in are
    the environment's ([diskRouteFunc]); FanOut shows that every interleaving
    of a fan-out is [fanOut] in some order. *)

From S2P Require Import Prelude.
From S2P Require Import GoErrors.
From S2P Require Import Events.
From S2P Require Import Model.
From S2P Require Import KubeApi.
From S2P Require Import Capability.
From S2P Require Import Metrics.
From S2P Require Import MetricsSignal.
From S2P Require Import FanOut.

Definition NodeDiskAuto : string := "auto".
Definition NodeDiskKubelet : string := "kubelet".
Definition NodeDiskProxy : string := "proxy".
Definition NodeDiskOff : string := "off".

(** How often the fan-out runs. *)
Definition diskInterval : Duration := (60 * Second)%Z.

Record DiskState := {
  diskByNode : gmap string Disk;
  diskLive : bool;
  diskReason : string;
  diskFailures : Z;
  lastDisk : Time;
  diskRoute : string; (* the route auto mode settled on, empty until one answers *)
}.

(** The fields as [New] leaves them. *)
Definition disk0 : DiskState := {|
  diskByNode := ∅;
  diskLive := true;
  diskReason := "";
  diskFailures := 0;
  lastDisk := zeroTime;
  diskRoute := "";
|}.

(** What [currentDisk] returns. *)
Record DiskView := {
  diskOf : gmap string Disk;
  diskOK : bool;
  diskWhy : string;
}.

Section disk_signal.
Context {X : Type} `{!KubeErrors X} {Q : Type}.
Implicit Types (nodes : list (KNode Q)).

(** One fan-out over a route, as the environment plays it. *)
Record diskRouteFunc := {
  answers : route_answers (X := X) (Q := Q);
  sends : KNode Q → list request;
  completion : list (KNode Q) → list (KNode Q);
}.

Definition run_fanOut (route : diskRouteFunc) nodes :
    gmap string Disk * option (error X) * list (event X) :=
  (fanOut (answers route) (completion route nodes), Request <$> (nodes ≫= sends route)).

(** The two errors of a failed probe in one, wrapping the one that decides how
    it is classified. *)
Definition probe_error (kubeletErr proxyErr : error X) : error X :=
  if IsForbidden proxyErr then
    wrapError ("kubelet: " +:+ Error kubeletErr +:+ "; proxy: " +:+ Error proxyErr) proxyErr
  else if IsForbidden kubeletErr then
    wrapError ("proxy: " +:+ Error proxyErr +:+ "; kubelet: " +:+ Error kubeletErr) kubeletErr
  else
    wrapError ("kubelet: " +:+ Error kubeletErr +:+ "; proxy: " +:+ Error proxyErr) proxyErr.

(** Returns the disks, the error, the new [diskRoute] and the effects. *)
Definition fetchDisk (mode route : string) (kubeletDisk proxyDisk : diskRouteFunc) nodes :
    gmap string Disk * option (error X) * string * list (event X) :=
  if decide (mode = NodeDiskKubelet) then
    let '(disk, err, evs) := run_fanOut kubeletDisk nodes in (disk, err, route, evs)
  else if decide (mode = NodeDiskProxy) then
    let '(disk, err, evs) := run_fanOut proxyDisk nodes in (disk, err, route, evs)
  else if decide (route = NodeDiskKubelet ∨ route = NodeDiskProxy) then
    let r := if decide (route = NodeDiskProxy) then proxyDisk else kubeletDisk in
    let '(disk, err, evs) := run_fanOut r nodes in
    (disk, err, if is_forbidden err then "" else route, evs)
  else
    match run_fanOut kubeletDisk nodes with
    | (disk, None, evs) =>
        (disk, None, NodeDiskKubelet,
         evs ++ [Logf "node disk: reading each kubelet directly (nodes/stats)" []])
    | (_, Some kubeletErr, evs) =>
        match run_fanOut proxyDisk nodes with
        | (disk, None, evs') =>
            (disk, None, NodeDiskProxy,
             evs ++ evs' ++ [Logf "node disk: kubelet not reachable directly (%v); using the API server proxy (nodes/proxy)"
                                  [VErr kubeletErr]])
        | (disk, Some proxyErr, evs') =>
            (disk, Some (probe_error kubeletErr proxyErr), route, evs ++ evs')
        end
    end.

Definition disk_view (c : DiskState) : DiskView := {|
  diskOf := diskByNode c;
  diskOK := diskLive c;
  diskWhy := diskReason c;
|}.

(** The part of [currentDisk] that folds a fetch result in, under the lock;
    [now] is the reading it stamps the fetch with. *)
Definition noteDisk (now : Time) (disk : gmap string Disk) (err : option (error X)) (c : DiskState) :
    DiskState * list (event X) :=
  match err with
  | None =>
      ({| diskByNode := disk;
          diskLive := true;
          diskReason := "";
          diskFailures := 0;
          lastDisk := now;
          diskRoute := diskRoute c |},
       RecordSignal SignalDisk ResultSuccess ++
       (if diskLive c then [] else [Logf "disk capability restored" []]))
  | Some e =>
      if IsForbidden e then
        ({| diskByNode := disk;
            diskLive := false;
            diskReason := ReasonForbidden;
            diskFailures := 0;
            lastDisk := now;
            diskRoute := diskRoute c |},
         RecordSignal SignalDisk ResultAbsent ++
         (if decide (diskReason c = ReasonForbidden) then [] else
          [Logf "node disk is forbidden (%v): disk shows capacity only; asking again every %s (grant get on nodes/stats for live usage, or run with --node-disk=off to stop asking)"
                [VErr e; VDuration forbiddenRetry]]))
      else
        let failures := add64 (diskFailures c) 1 in
        let lost := diskLive c && (capFailThreshold <=? failures)%Z in
        let live := diskLive c && negb lost in
        ({| diskByNode := if lost then ∅ else diskByNode c;
            diskLive := live;
            diskReason := if live then diskReason c else ReasonUnavailable;
            diskFailures := failures;
            lastDisk := now;
            diskRoute := diskRoute c |},
         RecordSignal SignalDisk ResultError ++
         (if lost then [Logf "disk capability lost after %d consecutive refresh failures: %v"
                             [VInt failures; VErr e]]
          else []))
  end.

Definition set_route (r : string) (c : DiskState) : DiskState := {|
  diskByNode := diskByNode c;
  diskLive := diskLive c;
  diskReason := diskReason c;
  diskFailures := diskFailures c;
  lastDisk := lastDisk c;
  diskRoute := r;
|}.

(** How long the cache stays fresh. *)
Definition disk_wait (c : DiskState) : Duration :=
  if decide (diskReason c = ReasonForbidden) then forbiddenRetry else diskInterval.

(** [now_check] is the reading [time.Since] takes, [now_done] the one after the
    fetch. *)
Definition currentDisk (mode : string) (now_check now_done : Time)
    (kubeletDisk proxyDisk : diskRouteFunc) nodes (c : DiskState) :
    DiskView * DiskState * list (event X) :=
  if decide (mode = NodeDiskOff) then
    ({| diskOf := ∅; diskOK := false; diskWhy := ReasonDisabled |}, c, [])
  else if (Since now_check (lastDisk c) <? disk_wait c)%Z then
    (disk_view c, c, [])
  else
    let '(disk, err, route, evs) := fetchDisk mode (diskRoute c) kubeletDisk proxyDisk nodes in
    let '(c', evs') := noteDisk now_done disk err (set_route route c) in
    (disk_view c', c', evs ++ evs').

(** ** The signal interface *)

Record disk_input := {
  di_now : Time;
  di_disk : gmap string Disk;
  di_err : option (error X);
}.

(** [currentDisk] has no absent case: a 404 is one more transient failure. *)
Definition disk_outcome (err : option (error X)) : outcome :=
  match err with
  | None => Success
  | Some e => if IsForbidden e then Denied else Transient
  end.

#[export] Instance disk_signal : Signal DiskState disk_input := {
  sig_up := diskLive;
  sig_reason := diskReason;
  sig_failures := diskFailures;
  sig_outcome i := disk_outcome (di_err i);
  sig_step i c := (noteDisk (di_now i) (di_disk i) (di_err i) c).1;
}.

Definition disk_coherent (c : DiskState) : Prop := diskLive c = false → diskByNode c = ∅.

Definition disk_inv (c : DiskState) : Prop := sig_ok (In := disk_input) c ∧ disk_coherent c.

(** ** Lemmas: the hysteresis *)

#[export] Instance disk_signal_laws : SignalLaws DiskState disk_input.
Proof.
  constructor; intros [now disk err] c; unfold sig_ok, sig_abs; simpl;
    unfold noteDisk, disk_outcome; intros Hok; destruct err as [e|]; simpl;
    try (unfold capFailThreshold; intuition lia);
    destruct (IsForbidden e); simpl; try done;
    destruct (diskLive c); simpl; try done; destruct Hok as [Hr Hf];
    rewrite capFailThreshold_small by done;
    destruct (Z.leb_spec capFailThreshold (diskFailures c + 1)); simpl; try done.
  split; [done|lia].
Qed.

Lemma disk0_inv : disk_inv disk0.
Proof. split; [|done]. unfold sig_ok. simpl. unfold capFailThreshold. split; [done|lia]. Qed.

Lemma noteDisk_inv now disk err c :
  disk_inv c → (err ≠ None → disk = ∅) → disk_inv (noteDisk now disk err c).1.
Proof.
  intros [Hok Hco] Hdisk. split.
  { exact (sig_step_ok {| di_now := now; di_disk := disk; di_err := err |} c Hok). }
  unfold disk_coherent, noteDisk in *. destruct err as [e|]; simpl; [|done].
  destruct (IsForbidden e); simpl; [by rewrite Hdisk|].
  destruct (diskLive c) eqn:E; simpl; auto.
  destruct (capFailThreshold <=? _)%Z; simpl; auto; discriminate.
Qed.

Lemma noteDisk_lastDisk now disk err c : lastDisk (noteDisk now disk err c).1 = now.
Proof. unfold noteDisk. destruct err as [e|]; [|done]. by destruct (IsForbidden e). Qed.

(** ** Lemmas: the routes *)

Lemma run_fanOut_error route nodes disk err evs :
  run_fanOut route nodes = (disk, err, evs) → err ≠ None → disk = ∅.
Proof.
  unfold run_fanOut. destruct (fanOut_cases (answers route) (completion route nodes)) as [[_ ->]|[_ ->]].
  - intros [= _ <- _] ?. done.
  - intros [= <- _ _] _. done.
Qed.

Lemma fetchDisk_error_empty mode route kd pd nodes disk err route' evs :
  fetchDisk mode route kd pd nodes = (disk, err, route', evs) → err ≠ None → disk = ∅.
Proof.
  unfold fetchDisk.
  destruct (run_fanOut kd nodes) as [[dk ek] evk] eqn:Ek.
  destruct (run_fanOut pd nodes) as [[dp ep] evp] eqn:Ep.
  pose proof (run_fanOut_error _ _ _ _ _ Ek) as Hk. pose proof (run_fanOut_error _ _ _ _ _ Ep) as Hp.
  destruct (decide (mode = NodeDiskKubelet)); [intros [= <- <- _ _]; exact Hk|].
  destruct (decide (mode = NodeDiskProxy)); [intros [= <- <- _ _]; exact Hp|].
  destruct (decide (_ ∨ _)).
  - destruct (decide (route = NodeDiskProxy)); rewrite ?Ek, ?Ep; intros [= <- <- _ _]; done.
  - destruct ek as [ke|]; [|intros [= _ <- _ _]; done].
    destruct ep as [pe|]; intros [= <- <- _ _]; [|done]. intros _. by apply Hp.
Qed.

Lemma is_forbidden_probe_error `{!KubeErrorsLaws X} ke pe :
  IsForbidden (probe_error ke pe) = IsForbidden ke || IsForbidden pe.
Proof.
  unfold probe_error. destruct (IsForbidden pe) eqn:Hp; [|destruct (IsForbidden ke) eqn:Hk];
    rewrite IsForbidden_wrap, ?Hp, ?Hk; simpl; by rewrite ?orb_true_r.
Qed.

(** What [currentDisk] does, path by path. *)
Lemma currentDisk_cases mode t1 t2 kd pd nodes c :
  (mode = NodeDiskOff ∧
   currentDisk mode t1 t2 kd pd nodes c =
     ({| diskOf := ∅; diskOK := false; diskWhy := ReasonDisabled |}, c, [])) ∨
  (mode ≠ NodeDiskOff ∧ (Since t1 (lastDisk c) < disk_wait c)%Z ∧
   currentDisk mode t1 t2 kd pd nodes c = (disk_view c, c, [])) ∨
  (mode ≠ NodeDiskOff ∧ (disk_wait c <= Since t1 (lastDisk c))%Z ∧
   ∃ disk err route evs, fetchDisk mode (diskRoute c) kd pd nodes = (disk, err, route, evs) ∧
     currentDisk mode t1 t2 kd pd nodes c =
       (disk_view (noteDisk t2 disk err (set_route route c)).1, (noteDisk t2 disk err (set_route route c)).1,
        evs ++ (noteDisk t2 disk err (set_route route c)).2)).
Proof.
  unfold currentDisk. case_decide; [by left|right].
  destruct (Z.ltb_spec (Since t1 (lastDisk c)) (disk_wait c)); [by left|right].
  split_and!; [done|done|].
  destruct (fetchDisk mode (diskRoute c) kd pd nodes) as [[[disk err] route] evs] eqn:E.
  exists disk, err, route, evs. split; [done|]. by destruct (noteDisk t2 disk err _).
Qed.

Lemma currentDisk_inv mode t1 t2 kd pd nodes c :
  disk_inv c → disk_inv (currentDisk mode t1 t2 kd pd nodes c).1.2.
Proof.
  intros Hc. destruct (currentDisk_cases mode t1 t2 kd pd nodes c)
    as [[_ ->]|[(_ & _ & ->)|(_ & _ & disk & err & route & evs & Hf & ->)]]; simpl; auto.
  apply noteDisk_inv; [done|]. by eapply fetchDisk_error_empty.
Qed.

(** Every request of a refresh is one a route sends for a node, over a route
    the mode allows. *)
Lemma fetchDisk_requests mode route kd pd nodes :
  (∀ r, r ∈ requests (fetchDisk mode route kd pd nodes).2 →
     mode ≠ NodeDiskProxy ∧ r ∈ nodes ≫= sends kd ∨ mode ≠ NodeDiskKubelet ∧ r ∈ nodes ≫= sends pd) ∧
  (∀ m, counter_incs m (fetchDisk mode route kd pd nodes).2 = []).
Proof.
  unfold fetchDisk, run_fanOut. case_decide as Hk; [|case_decide as Hp; [|case_decide as Hr]]; subst; simpl.
  - destruct (fanOut _ _). simpl. autorewrite with go. split; [by left|]. intros m. by autorewrite with go.
  - destruct (fanOut _ _). simpl. autorewrite with go. split; [by right|]. intros m. by autorewrite with go.
  - destruct (decide (route = NodeDiskProxy)); destruct (fanOut _ _); simpl; autorewrite with go;
      (split; [by auto|]; intros m; by autorewrite with go).
  - destruct (fanOut (answers kd) _) as [d [e|]]; [destruct (fanOut (answers pd) _) as [d' [e'|]]|]; simpl;
      autorewrite with go; simpl; rewrite ?app_nil_r;
      (split; [intros r; rewrite ?elem_of_app; tauto|]; intros m; autorewrite with go; done).
Qed.

(** Every fetch asks for all nodes over a route. *)
Lemma fetchDisk_asks mode route kd pd nodes :
  ∃ r, r ∈ [kd; pd] ∧ (nodes ≫= sends r) ⊆ requests (fetchDisk mode route kd pd nodes).2.
Proof.
  assert (∀ r, nodes ≫= sends r ⊆ requests (run_fanOut r nodes).2) as Hrun.
  { intros r. unfold run_fanOut. simpl. by rewrite requests_Request. }
  unfold fetchDisk. repeat case_decide; [exists kd|exists pd|exists pd|exists kd|exists kd]; (split; [repeat constructor|]).
  1,4: generalize (Hrun kd); by destruct (run_fanOut kd _) as [[d e] evs].
  1,2: generalize (Hrun pd); by destruct (run_fanOut pd _) as [[d e] evs].
  generalize (Hrun kd). destruct (run_fanOut kd _) as [[d [e|]] evs];
    [|simpl; rewrite requests_app; intros; by apply list_subseteq_app_l].
  destruct (run_fanOut pd _) as [[d' [e'|]] evs']; simpl; rewrite ?requests_app; intros;
    by apply list_subseteq_app_l.
Qed.

Lemma noteDisk_requests now disk err c : requests (noteDisk now disk err c).2 = [].
Proof.
  unfold noteDisk. destruct err as [e|]; [|by destruct (diskLive c)].
  destruct (IsForbidden e); [by destruct (decide _)|]. by destruct (diskLive c && _).
Qed.

Lemma currentDisk_requests mode t1 t2 kd pd nodes c :
  (∀ r, r ∈ requests (currentDisk mode t1 t2 kd pd nodes c).2 → mode ≠ NodeDiskOff ∧
     (mode ≠ NodeDiskProxy ∧ r ∈ nodes ≫= sends kd ∨ mode ≠ NodeDiskKubelet ∧ r ∈ nodes ≫= sends pd)) ∧
  (∀ m, m ≠ "signalTotal" → counter_incs m (currentDisk mode t1 t2 kd pd nodes c).2 = []).
Proof.
  assert (∀ now disk err c', requests (noteDisk now disk err c').2 = [] ∧
            ∀ m, m ≠ "signalTotal" → counter_incs m (noteDisk now disk err c').2 = []) as Hnote.
  { intros now disk err c'. unfold noteDisk, RecordSignal. destruct err as [e|];
      [destruct (IsForbidden e)|]; simpl;
      split; intros; repeat case_match; simpl; rewrite ?decide_False by done; done. }
  destruct (currentDisk_cases mode t1 t2 kd pd nodes c)
    as [[_ ->]|[(_ & _ & ->)|(Hoff & _ & disk & err & route & evs & Hf & ->)]]; simpl.
  1,2: split; [by intros r ?%not_elem_of_nil|done].
  destruct (fetchDisk_requests mode (diskRoute c) kd pd nodes) as [H1 H2]. rewrite Hf in H1, H2.
  destruct (Hnote t2 disk err (set_route route c)) as [Hn1 Hn2]. split.
  - intros r. autorewrite with go. rewrite Hn1, app_nil_r. intros Hr. split; [done|]. by apply H1.
  - intros m Hm. autorewrite with go. by rewrite Hn2, app_nil_r.
Qed.

Definition disk_view_ok (v : DiskView) : Prop :=
  (diskOK v = true ↔ diskWhy v = "") ∧ (diskOK v = false → diskOf v = ∅).

Lemma disk_view_inv c : disk_inv c → disk_view_ok (disk_view c).
Proof. intros [Hok Hco]. split; [exact (sig_reason_iff c Hok)|exact Hco]. Qed.

Lemma currentDisk_view_ok mode t1 t2 kd pd nodes c :
  disk_inv c → disk_view_ok (currentDisk mode t1 t2 kd pd nodes c).1.1.
Proof.
  intros Hc. destruct (currentDisk_cases mode t1 t2 kd pd nodes c)
    as [[_ ->]|[(_ & _ & ->)|(_ & _ & disk & err & route & evs & Hf & ->)]]; simpl.
  - split; [|done]. split; discriminate.
  - by apply disk_view_inv.
  - apply disk_view_inv, noteDisk_inv; [done|]. by eapply fetchDisk_error_empty.
Qed.
End disk_signal.

(** ** Properties *)

Section properties.
Context {X : Type} `{!KubeErrors X} {Q : Type}.
Implicit Types (nodes : list (KNode Q)) (kd pd : diskRouteFunc (X := X) (Q := Q)).

(** A poll's inputs to the disk signal. *)
Record disk_poll := {
  dp_check : Time;
  dp_done : Time;
  dp_kubelet : diskRouteFunc (X := X) (Q := Q);
  dp_proxy : diskRouteFunc (X := X) (Q := Q);
  dp_nodes : list (KNode Q);
}.

Definition poll_disk (mode : string) (c : DiskState) (p : disk_poll) :
    DiskView * DiskState * list (event X) :=
  currentDisk mode (dp_check p) (dp_done p) (dp_kubelet p) (dp_proxy p) (dp_nodes p) c.

(** The state and the effects after a sequence of polls. *)
Fixpoint disk_polls (mode : string) (c : DiskState) (polls : list disk_poll) :
    DiskState * list (event X) :=
  match polls with
  | [] => (c, [])
  | p :: polls =>
      let '(_, c', evs) := poll_disk mode c p in
      let '(c'', evs') := disk_polls mode c' polls in
      (c'', evs ++ evs')
  end.

Lemma disk_polls_inv mode c polls : disk_inv (X := X) c → disk_inv (X := X) (disk_polls mode c polls).1.
Proof.
  revert c. induction polls as [|p polls IH]; intros c Hc; simpl; [done|].
  pose proof (currentDisk_inv mode (dp_check p) (dp_done p) (dp_kubelet p) (dp_proxy p) (dp_nodes p) c Hc) as Hp.
  unfold poll_disk. destruct (currentDisk _ _ _ _ _ _ _) as [[v c'] evs]. simpl in Hp.
  specialize (IH c' Hp). by destruct (disk_polls mode c' polls).
Qed.

(** The wait a fetch result imposes on the next one. *)
Definition retry_after (err : option (error X)) : Duration :=
  if is_forbidden err then forbiddenRetry else diskInterval.

Lemma noteDisk_wait now disk err c :
  disk_inv (X := X) c → disk_wait (noteDisk now disk err c).1 = retry_after err.
Proof.
  intros [Hok _]. unfold sig_ok in Hok. simpl in Hok.
  unfold disk_wait, retry_after, noteDisk. destruct err as [e|]; simpl; [|done].
  destruct (IsForbidden e); simpl; [done|].
  destruct (diskLive c && negb _) eqn:E; simpl; [|done].
  apply andb_true_iff in E as [Hl _]. rewrite Hl in Hok. by rewrite (proj1 Hok).
Qed.

Lemma retry_after_range err : (- 2 ^ 63 < retry_after err <= 2 ^ 63 - 1)%Z.
Proof. unfold retry_after. destruct (is_forbidden err); vm_compute; split; done. Qed.

(** The polls before and after the retry time of a fetch. *)
Lemma poll_disk_fresh mode now disk err c p :
  disk_inv (X := X) c → mode ≠ NodeDiskOff → (dp_check p < now + retry_after err)%Z →
  let c' := (noteDisk now disk err c).1 in
  poll_disk mode c' p = (disk_view c', c', []).
Proof.
  intros Hc Hmode Hp c'. pose proof (noteDisk_wait now disk err c Hc) as Hwait. fold c' in Hwait.
  pose proof (noteDisk_lastDisk now disk err c) as Hlast. fold c' in Hlast.
  pose proof (retry_after_range err) as Hrange. unfold poll_disk.
  destruct (currentDisk_cases mode (dp_check p) (dp_done p) (dp_kubelet p) (dp_proxy p) (dp_nodes p) c')
    as [[? _]|[(_ & _ & ->)|(_ & Ht & _)]]; [done|done|].
  rewrite Hwait, Hlast in Ht. apply Z.nlt_ge in Ht. destruct Ht. by apply Since_lt.
Qed.

Lemma poll_disk_due mode now disk err c p :
  disk_inv (X := X) c → mode ≠ NodeDiskOff → (now + retry_after err <= dp_check p)%Z →
  let c' := (noteDisk now disk err c).1 in
  let '(disk', err', route', evs) :=
    fetchDisk mode (diskRoute c') (dp_kubelet p) (dp_proxy p) (dp_nodes p) in
  let noted := noteDisk (dp_done p) disk' err' (set_route route' c') in
  poll_disk mode c' p = (disk_view noted.1, noted.1, evs ++ noted.2).
Proof.
  intros Hc Hmode Hp c'. pose proof (noteDisk_wait now disk err c Hc) as Hwait. fold c' in Hwait.
  pose proof (noteDisk_lastDisk now disk err c) as Hlast. fold c' in Hlast.
  pose proof (retry_after_range err) as Hrange. unfold poll_disk.
  destruct (currentDisk_cases mode (dp_check p) (dp_done p) (dp_kubelet p) (dp_proxy p) (dp_nodes p) c')
    as [[? _]|[(_ & Ht & _)|(_ & _ & d & e & r & evs & -> & ->)]]; [done| |done].
  rewrite Hwait, Hlast in Ht. apply Since_lt in Ht; [lia|done].
Qed.

(** C9: the disk capability after any history of fetch results, from the optimistic
    start of [New], is the one the closed form [verdict] reads off the outcomes
    latest first: the same state machine the metrics signal implements, with
    every failure but a 403 counted as transient. *)
Theorem disk_capability_history (ins : list (disk_input (X := X))) :
  let c := foldl (λ c i, (noteDisk (di_now i) (di_disk i) (di_err i) c).1) disk0 ins in
  (if diskLive c then Up (diskFailures c) else Down (diskReason c)) =
  verdict 0 (reverse ((λ i, disk_outcome (di_err i)) <$> ins)).
Proof. exact (sig_run_verdict disk0 ins (proj1 disk0_inv) eq_refl eq_refl). Qed.

(** C4: in every poll of every run, in every mode, the disk data handed to the
    snapshot is coherent with the capability: a disk signal reported down comes
    with no per-node data, so no stale live figure is served next to it, and the
    reason is empty exactly when the signal is reported live. *)
Theorem currentDisk_coherent mode polls p :
  let c := (disk_polls mode disk0 polls).1 in
  let v := (poll_disk mode c p).1.1 in
  (diskOK v = true ↔ diskWhy v = "") ∧ (diskOK v = false → diskOf v = ∅).
Proof. apply currentDisk_view_ok, disk_polls_inv, disk0_inv. Qed.

(** C11: after a disk fetch that ended at time [now], every poll that checks the clock
    before [now] plus [diskInterval] ([forbiddenRetry] when the fetch ended in a
    403) sends no request and logs nothing, leaves the state as it is and
    returns the cached data, which is the fetched data when the fetch
    succeeded, with the capability the fetch left.  The first poll at or after that
    time sends the requests of a fan-out over one of the routes for all its
    nodes, folds their result into the state, stamped with its own clock, and
    returns the view of that state. *)
Theorem currentDisk_rate_limit mode now disk err c polls :
  disk_inv (X := X) c → mode ≠ NodeDiskOff →
  Forall (λ p, (dp_check p < now + retry_after err)%Z) polls →
  let c' := (noteDisk now disk err c).1 in
  disk_polls mode c' polls = (c', []) ∧
  (∀ p, p ∈ polls → poll_disk mode c' p =
     ({| diskOf := diskByNode c'; diskOK := diskLive c'; diskWhy := diskReason c' |}, c', [])) ∧
  (err = None → diskByNode c' = disk ∧ diskLive c' = true ∧ diskReason c' = "") ∧
  ∀ p, (now + retry_after err <= dp_check p)%Z →
    let '(disk', err', route', evs) :=
      fetchDisk mode (diskRoute c') (dp_kubelet p) (dp_proxy p) (dp_nodes p) in
    let c'' := (noteDisk (dp_done p) disk' err' (set_route route' c')).1 in
    (poll_disk mode c' p).1 =
      ({| diskOf := diskByNode c''; diskOK := diskLive c''; diskWhy := diskReason c'' |}, c'') ∧
    lastDisk c'' = dp_done p ∧
    requests (poll_disk mode c' p).2 = requests evs ∧
    ∃ r, r ∈ [dp_kubelet p; dp_proxy p] ∧ (dp_nodes p ≫= sends r) ⊆ requests evs.
Proof.
  intros Hc Hmode Hpolls c'.
  assert (∀ p, (dp_check p < now + retry_after err)%Z → poll_disk mode c' p = (disk_view c', c', [])) as Hfresh.
  { intros p Hp. by apply poll_disk_fresh. }
  split_and!.
  - clearbody c'. induction Hpolls as [|p polls Hp Hpolls IH]; [done|]. simpl. by rewrite (Hfresh p Hp), IH.
  - intros p Hp. rewrite Forall_forall in Hpolls. by apply Hfresh, Hpolls.
  - by intros ->.
  - intros p Hp. pose proof (poll_disk_due mode now disk err c p Hc Hmode Hp) as H. cbv zeta in H. fold c' in H.
    pose proof (fetchDisk_asks mode (diskRoute c') (dp_kubelet p) (dp_proxy p) (dp_nodes p)) as Hasks.
    destruct (fetchDisk _ _ _ _ _) as [[[disk' err'] route'] evs].
    rewrite H. simpl.
    split_and!; [done|apply noteDisk_lastDisk| |exact Hasks].
    by rewrite requests_app, noteDisk_requests, app_nil_r.
Qed.

(** C21: auto mode with no settled route probes the kubelets first and the proxy only
    when they all fail: it succeeds when one of the two fan-outs does, settles on
    that route, and otherwise keeps none; the combined error is a 403, so that
    the signal is parked, exactly when one of the two errors is. *)
Theorem fetchDisk_probe `{!KubeErrorsLaws X} kd pd nodes :
  let k := fanOut (answers kd) (completion kd nodes) in
  let p := fanOut (answers pd) (completion pd nodes) in
  let '(disk, err, route, evs) := fetchDisk NodeDiskAuto "" kd pd nodes in
  disk = (if k.2 is Some _ then p.1 else k.1) ∧
  (err = None ↔ k.2 = None ∨ p.2 = None) ∧
  route = (if k.2 is Some _ then if p.2 is Some _ then "" else NodeDiskProxy else NodeDiskKubelet) ∧
  (is_forbidden err = true ↔
     k.2 ≠ None ∧ p.2 ≠ None ∧ (is_forbidden k.2 = true ∨ is_forbidden p.2 = true)) ∧
  requests evs = (nodes ≫= sends kd) ++ (if k.2 is Some _ then nodes ≫= sends pd else []).
Proof.
  unfold fetchDisk, run_fanOut. simpl.
  destruct (fanOut (answers kd) _) as [dk [ke|]] eqn:Ek; simpl.
  - destruct (fanOut (answers pd) _) as [dp [pe|]] eqn:Ep; simpl; autorewrite with go; simpl.
    + rewrite is_forbidden_probe_error, orb_true_iff. split_and!; try done.
      * split; [done|]. by intros [?|?].
      * split; [intros H; split_and!; [done|done|exact H]|by intros (_ & _ & H)].
    + rewrite app_nil_r. split_and!; try done.
      * split; [by right|done].
      * split; [done|]. by intros (_ & ? & _).
  - autorewrite with go. simpl. split_and!; try done.
    + split; [by left|done].
    + split; [done|]. by intros (? & _).
Qed.

(** A fetch that does not probe. *)
Lemma fetchDisk_settled kd pd nodes mode route :
  mode = NodeDiskKubelet ∨ mode = NodeDiskProxy ∨
    (mode = NodeDiskAuto ∧ (route = NodeDiskKubelet ∨ route = NodeDiskProxy)) →
  let used := if decide (mode = NodeDiskProxy ∨ (mode = NodeDiskAuto ∧ route = NodeDiskProxy)) then pd else kd in
  let '(disk, err, route', evs) := fetchDisk mode route kd pd nodes in
  (disk, err) = fanOut (answers used) (completion used nodes) ∧
  evs = Request <$> (nodes ≫= sends used) ∧
  route' = (if decide (mode = NodeDiskAuto ∧ is_forbidden err = true) then "" else route).
Proof.
  intros [-> |[-> |[-> Hr]]]; unfold fetchDisk, run_fanOut; simpl.
  - by destruct (fanOut _ _).
  - by destruct (fanOut _ _).
  - destruct Hr as [-> | ->]; simpl; destruct (fanOut _ _) as [d e]; simpl;
      destruct (is_forbidden e); done.
Qed.

(** C22: outside a probe a fetch uses one route and sends nothing over the other:
    the configured one in the kubelet and proxy modes, the settled one in auto
    mode. Its result is that route's fan-out, and the settled route is given up
    exactly on a 403. *)
Theorem fetchDisk_one_route kd pd nodes mode route :
  mode = NodeDiskKubelet ∨ mode = NodeDiskProxy ∨
    (mode = NodeDiskAuto ∧ (route = NodeDiskKubelet ∨ route = NodeDiskProxy)) →
  let used := if decide (mode = NodeDiskProxy ∨ (mode = NodeDiskAuto ∧ route = NodeDiskProxy)) then pd else kd in
  let '(disk, err, route', evs) := fetchDisk mode route kd pd nodes in
  (disk, err) = fanOut (answers used) (completion used nodes) ∧
  evs = Request <$> (nodes ≫= sends used) ∧
  route' = (if decide (mode = NodeDiskAuto ∧ is_forbidden err = true) then "" else route).
Proof. apply fetchDisk_settled. Qed.

(** the optimistic start: on its very first poll the signal is reported live
    with no data although no kubelet has answered, when every route fails
    transiently on every node, and likewise when the node list is empty. *)
Theorem disk_live_without_answer kd pd nodes mode t1 t2 :
  mode = NodeDiskKubelet ∨ mode = NodeDiskProxy → (diskInterval <= t1)%Z →
  (∀ r, r ∈ [kd; pd] → completion r nodes ≡ₚ nodes) →
  (∀ r n, r ∈ [kd; pd] → n ∈ nodes →
     (answers r n).2 ≠ None ∧ is_forbidden (answers r n).2 = false) →
  disk_view disk0 = {| diskOf := ∅; diskOK := true; diskWhy := "" |} ∧
  (currentDisk mode t1 t2 kd pd nodes disk0).1.1 = {| diskOf := ∅; diskOK := true; diskWhy := "" |}.
Proof.
  intros Hmode Ht Hperm Hfail. split; [done|].
  destruct (currentDisk_cases mode t1 t2 kd pd nodes disk0)
    as [[-> _]|[(_ & Hw & _)|(_ & _ & d & e & r & evs & Hf & ->)]].
  - destruct Hmode; done.
  - apply Since_lt in Hw; [|by vm_compute]. simpl in Hw. unfold zeroTime, disk_wait, diskInterval in *.
    simpl in Hw. lia.
  - pose proof (fetchDisk_settled kd pd nodes mode "") as Hone. cbv zeta in Hone.
    change (diskRoute disk0) with "" in Hf. rewrite Hf in Hone.
    destruct Hone as (Hfan & _ & _); [tauto|]. clear Hf.
    set (used := if decide _ then pd else kd) in *.
    assert (used ∈ [kd; pd]) as Hused.
    { unfold used. destruct (decide _); [right; left|left]. }
    destruct (fold_lastErr (answers used) (completion used nodes)) as (He1 & He2 & He3).
    destruct (fanOut_cases (answers used) (completion used nodes)) as [[(n & Hn & Hok) _]|[_ Hcase]].
    { rewrite (Hperm used Hused) in Hn. by destruct (Hfail used n Hused Hn). }
    rewrite Hcase in Hfan. injection Hfan as -> ->.
    assert (is_forbidden (lastErr (foldl (complete (answers used)) shared0 (completion used nodes))) = false) as Hnf.
    { apply not_true_iff_false. rewrite He3. intros (n & Hn & Hfb). rewrite (Hperm used Hused) in Hn.
      destruct (Hfail used n Hused Hn) as [_ Hnf]. congruence. }
    destruct (lastErr _) as [e|]; [|done]. simpl in Hnf. unfold noteDisk. by rewrite Hnf.
Qed.
End properties.

(** ** Witnesses *)

Module DiskSignalWitness.
Import SampleErrors SampleQuantity FanOutWitness.

Definition route_of (a : route_answers (X := api_error) (Q := quantity)) (mk : string → request) :
    diskRouteFunc (X := api_error) (Q := quantity) :=
  {| answers := a; sends n := [mk (KNodeName n)]; completion := reverse |}.

(** A kubelet route that answers for "n1", one that is unreachable, and a proxy
    that is forbidden. *)
Definition kubelet_ok := route_of route KubeletGet.
Definition kubelet_down := route_of (λ _, (zeroDisk, Some unreachable)) KubeletGet.
Definition proxy_denied := route_of (λ _, (zeroDisk, Some forbidden)) ProxyGet.

Definition nodes := [node "n1"; node "n2"].

Definition poll_at (t : Time) : disk_poll (X := api_error) (Q := quantity) :=
  {| dp_check := t; dp_done := t + 1; dp_kubelet := kubelet_ok; dp_proxy := proxy_denied; dp_nodes := nodes |}.

Lemma currentDisk_rate_limit_witness :
  let c' := (noteDisk 0 ∅ (Some forbidden) disk0).1 in
  disk_polls NodeDiskAuto c' [poll_at 60000000000; poll_at 599999999999] = (c', []) ∧
  (poll_disk NodeDiskAuto c' (poll_at 599999999999)).1.1 =
    {| diskOf := ∅; diskOK := false; diskWhy := ReasonForbidden |} ∧
  lastDisk (poll_disk NodeDiskAuto c' (poll_at 600000000000)).1.2 = 600000000001%Z ∧
  requests (poll_disk NodeDiskAuto c' (poll_at 600000000000)).2 = [KubeletGet "n1"; KubeletGet "n2"].
Proof.
  destruct (currentDisk_rate_limit NodeDiskAuto 0 ∅ (Some forbidden) disk0
              [poll_at 60000000000; poll_at 599999999999] disk0_inv) as (H1 & H2 & _ & H3).
  - discriminate.
  - repeat constructor.
  - specialize (H3 (poll_at 600000000000) ltac:(vm_compute; discriminate)).
    destruct (fetchDisk _ _ _ _ _) as [[[d e] r] evs] eqn:Hf. destruct H3 as (H3 & H4 & H5 & _).
    cbv zeta. split_and!; [exact H1| | |].
    + rewrite H2; [reflexivity|]. right. left.
    + rewrite H3. exact H4.
    + rewrite H5. change evs with (d, e, r, evs).2. rewrite <- Hf. reflexivity.
Defined.

Lemma fetchDisk_probe_witness :
  let '(disk, err, route, evs) := fetchDisk NodeDiskAuto "" kubelet_down proxy_denied nodes in
  disk = ∅ ∧ is_forbidden err = true ∧ route = "" ∧
  requests evs = [KubeletGet "n1"; KubeletGet "n2"; ProxyGet "n1"; ProxyGet "n2"].
Proof.
  pose proof (fetchDisk_probe kubelet_down proxy_denied nodes) as H. cbv zeta in H.
  destruct (fetchDisk NodeDiskAuto "" kubelet_down proxy_denied nodes) as [[[disk err] route] evs].
  destruct H as (-> & _ & -> & H4 & ->). split_and!; try reflexivity.
  apply H4. split_and!; [discriminate|discriminate|by right].
Defined.

Lemma fetchDisk_one_route_witness :
  requests (fetchDisk NodeDiskAuto NodeDiskProxy kubelet_ok proxy_denied nodes).2 = [ProxyGet "n1"; ProxyGet "n2"] ∧
  (fetchDisk NodeDiskAuto NodeDiskProxy kubelet_ok proxy_denied nodes).1.2 = "".
Proof.
  pose proof (fetchDisk_one_route kubelet_ok proxy_denied nodes NodeDiskAuto NodeDiskProxy) as H.
  destruct (fetchDisk _ _ _ _ _) as [[[disk err] route] evs]. destruct H as (H1 & -> & ->).
  - right. right. split; [reflexivity|]. right. reflexivity.
  - split; [reflexivity|]. simpl in *. injection H1 as -> ->. reflexivity.
Defined.

Lemma disk_live_without_answer_witness :
  (currentDisk NodeDiskKubelet 60000000000 60000000001 kubelet_down kubelet_down nodes disk0).1.1 =
    {| diskOf := ∅; diskOK := true; diskWhy := "" |}.
Proof.
  apply (disk_live_without_answer kubelet_down kubelet_down nodes NodeDiskKubelet).
  - left. reflexivity.
  - vm_compute. discriminate.
  - intros r Hr. assert (r = kubelet_down) as -> by (apply elem_of_cons in Hr as [?|?%list_elem_of_singleton]; done).
    apply reverse_Permutation.
  - intros r n Hr _. assert (r = kubelet_down) as -> by (apply elem_of_cons in Hr as [?|?%list_elem_of_singleton]; done).
    split; [discriminate|reflexivity].
Defined.
End DiskSignalWitness.
