(* ===== verification/Kubelet.v ===== *)
(** * Reading one node's disk

    The two routes of src/internal/collector/disk.go to a kubelet's Summary
    API: [fetchKubeletDisk], [fetchProxyDisk], [parseSummary] and their
    helpers.  HTTP and the API server are the environment's: an answer is an
    input of the call.  encoding/json is the reader of file Json. *)

From S2P Require Import Prelude.
From S2P Require Import GoErrors.
From S2P Require Import Model.
From S2P Require Import KubeApi.
From S2P Require Import Json.
From S2P Require Import Events.
From S2P Require Import FanOut.
From S2P Require Import DiskSignal.

(** 16 << 20. *)
Definition maxSummaryBytes : N := 16777216.
Definition defaultKubeletPort : Z := 10250.

Definition StatusOK : Z := 200.
Definition StatusUnauthorized : Z := 401.
Definition StatusForbidden : Z := 403.

(** ** The summary document *)

(** [statsSummary]: its [Node.Fs] pointer, with the three pointers behind it. *)
Record FsStats := {
  FsCapacityBytes : option Z;
  FsUsedBytes : option Z;
  FsAvailableBytes : option Z;
}.

Record statsSummary := { NodeFs : option FsStats }.

Definition zeroFs : FsStats := {| FsCapacityBytes := None; FsUsedBytes := None; FsAvailableBytes := None |}.
Definition zeroSummary : statsSummary := {| NodeFs := None |}.

(** The struct's fields by their json tags. *)
Definition uint_pointer : decoder (option Z) := decode_pointer 0%Z decode_uint64.

Definition fs_field (k : string) : decoder FsStats := λ v fs,
  if names k "capacityBytes" then
    p ← uint_pointer v (FsCapacityBytes fs);
    Some {| FsCapacityBytes := p; FsUsedBytes := FsUsedBytes fs; FsAvailableBytes := FsAvailableBytes fs |}
  else if names k "usedBytes" then
    p ← uint_pointer v (FsUsedBytes fs);
    Some {| FsCapacityBytes := FsCapacityBytes fs; FsUsedBytes := p; FsAvailableBytes := FsAvailableBytes fs |}
  else if names k "availableBytes" then
    p ← uint_pointer v (FsAvailableBytes fs);
    Some {| FsCapacityBytes := FsCapacityBytes fs; FsUsedBytes := FsUsedBytes fs; FsAvailableBytes := p |}
  else Some fs.

Definition decode_fs : decoder (option FsStats) := decode_pointer zeroFs (decode_struct fs_field).

Definition decode_node : decoder (option FsStats) :=
  decode_struct (λ k v fs, if names k "fs" then decode_fs v fs else Some fs).

Definition decode_summary : decoder (option FsStats) :=
  decode_struct (λ k v fs, if names k "node" then decode_node v fs else Some fs).

(** [json.Unmarshal(raw, &summary)] from the zero summary. *)
Definition Unmarshal_summary (raw : string) : option statsSummary :=
  v ← Parse raw; fs ← decode_summary v (NodeFs zeroSummary); Some {| NodeFs := fs |}.

Section kubelet.
Context {X : Type} `{!KubeErrors X} {Q : Type}.

(** What encoding/json says about a document it rejects. *)
Context (json_error : string → string).

(** The conversion [int64(u)] of a uint64. *)
Definition parseSummary (raw : string) (nodeName : string) : Disk * option (error X) :=
  match Unmarshal_summary raw with
  | None =>
      (zeroDisk, Some (Errorf_w ("parsing stats/summary for " +:+ nodeName)
                         (Some (errorString (json_error raw)))))
  | Some summary =>
      match NodeFs summary with
      | Some {| FsCapacityBytes := Some cap; FsUsedBytes := used; FsAvailableBytes := available |} =>
          ({| CapacityBytes := wrap64 cap;
              UsedBytes := match used with Some u => wrap64 u | None => 0 end;
              AvailableBytes := match available with Some a => wrap64 a | None => 0 end;
              DiskIsLive := true |}, None)
      | _ => (zeroDisk, Some (errorString ("stats/summary for " +:+ nodeName +:+ " has no node fs stats")))
      end
  end.

(** ** Where a kubelet listens *)

(** The inner loop: the first usable address of one type. *)
Fixpoint address_of_type (typ : string) (addrs : list NodeAddress) : option string :=
  match addrs with
  | [] => None
  | a :: addrs =>
      if decide (AddrType a = typ ∧ Address a ≠ "") then Some (Address a) else address_of_type typ addrs
  end.

(** The outer loop, over the types in order of preference. *)
Fixpoint first_address (typs : list string) (addrs : list NodeAddress) : string :=
  match typs with
  | [] => ""
  | typ :: typs =>
      match address_of_type typ addrs with Some a => a | None => first_address typs addrs end
  end.

Definition kubeletAddress (node : KNode Q) : string :=
  first_address [NodeInternalIP; NodeExternalIP; NodeHostName] (KNodeAddresses node).

Definition kubeletPort (node : KNode Q) : Z :=
  if decide (KubeletEndpointPort node > 0)%Z then KubeletEndpointPort node else defaultKubeletPort.

(** [net.JoinHostPort]: a host with a colon is an IPv6 literal. *)
Definition JoinHostPort (host port : string) : string :=
  if HasByte host colon then "[" +:+ host +:+ "]:" +:+ port else host +:+ ":" +:+ port.

Definition summary_url (addr : string) (node : KNode Q) : string :=
  "https://" +:+ JoinHostPort addr (pretty (kubeletPort node)) +:+ "/stats/summary".

(** ** The routes *)

(** What a GET meets: a URL that does not parse, no response, or a status and
    a body, whose stream ends after the bytes given, in an error if there is
    one. *)
Inductive http_answer :=
| BadURL (err : error X)
| NoResponse (err : error X)
| Response (status : Z) (body : string) (read_err : option (error X)).

(** Whether [n] bytes can be read before the stream ends. *)
Fixpoint fills (n : N) (s : string) : bool :=
  match s with
  | EmptyString => (n =? 0)%N
  | String _ s' => if (n =? 0)%N then true else fills (N.pred n) s'
  end.

(** [io.ReadAll(io.LimitReader(body, n))]: the reader reports the end of the
    stream once [n] bytes were read, before it meets an error that comes
    later. *)
Definition ReadAll_limited (n : N) (body : string) (read_err : option (error X)) :
    string * option (error X) :=
  (limit_bytes n body, if fills n body then None else read_err).

(** The [http.Client] is only asked whether it is there: it is [None] when it
    could not be built, for the reason in [kubeletHTTPErr].  Returns the disk,
    the error and the requests sent. *)
Definition fetchKubeletDisk (kubeletHTTP : option (string → http_answer)) (kubeletHTTPErr : option (error X))
    (node : KNode Q) : Disk * option (error X) * list request :=
  match kubeletHTTP with
  | None => (zeroDisk, Some (Errorf_w "no client for direct kubelet access" kubeletHTTPErr), [])
  | Some Do =>
      let addr := kubeletAddress node in
      if decide (addr = "") then
        (zeroDisk, Some (errorString ("node " +:+ KNodeName node +:+ " reports no address")), [])
      else
        let url := summary_url addr node in
        match Do url with
        | BadURL err => (zeroDisk, Some err, [])
        | NoResponse err => (zeroDisk, Some err, [KubeletGet url])
        | Response status body read_err =>
            let '(raw, err) := ReadAll_limited maxSummaryBytes body read_err in
            let '(disk, err) :=
              match err with
              | Some err =>
                  (zeroDisk, Some (Errorf_w ("reading stats/summary from " +:+ KNodeName node) (Some err)))
              | None =>
                  if decide (status = StatusOK) then parseSummary raw (KNodeName node)
                  else if decide (status = StatusUnauthorized ∨ status = StatusForbidden) then
                    (zeroDisk, Some (foreign (NewForbidden "nodes/stats" (KNodeName node)
                                                (errorString ("kubelet answered " +:+ pretty status)))))
                  else
                    (zeroDisk, Some (errorString ("kubelet on " +:+ KNodeName node +:+ " answered " +:+ pretty status)))
              end in
            (disk, err, [KubeletGet url])
        end
  end.

(** [Raw] of the API server's answer to nodes/{name}/proxy/stats/summary. *)
Definition fetchProxyDisk (proxy : string → string * option (error X)) (node : KNode Q) :
    Disk * option (error X) * list request :=
  match proxy (KNodeName node) with
  | (_, Some err) => (zeroDisk, Some err, [ProxyGet (KNodeName node)])
  | (raw, None) => (parseSummary raw (KNodeName node), [ProxyGet (KNodeName node)])
  end.

(** The routes of the collector, for [DiskSignal.fetchDisk]: the environment
    also picks the order the fan-out completes in. *)
Definition kubeletDisk kubeletHTTP kubeletHTTPErr (completion : list (KNode Q) → list (KNode Q)) :
    diskRouteFunc (X := X) (Q := Q) := {|
  answers node := (fetchKubeletDisk kubeletHTTP kubeletHTTPErr node).1;
  sends node := (fetchKubeletDisk kubeletHTTP kubeletHTTPErr node).2;
  completion := completion |}.

Definition proxyDisk proxy (completion : list (KNode Q) → list (KNode Q)) :
    diskRouteFunc (X := X) (Q := Q) := {|
  answers node := (fetchProxyDisk proxy node).1;
  sends node := (fetchProxyDisk proxy node).2;
  completion := completion |}.
End kubelet.

(** ** The client

    [rest.Config] is a library type: the fields [newKubeletClient] sets, and
    the rest of it (credentials, host) as an opaque [Cred].  [TransportFor]
    is the library's too; it returns a transport [RT]. *)
Record RestConfig (Cred : Type) := {
  ServerName : string;
  Insecure : bool;
  CAFile : string;
  CAData : string;
  Credentials : Cred;
}.
Arguments ServerName {Cred} _.
Arguments Insecure {Cred} _.
Arguments CAFile {Cred} _.
Arguments CAData {Cred} _.
Arguments Credentials {Cred} _.

Record HTTPClient (RT : Type) := { Transport : RT; Timeout : Duration }.
Arguments Transport {RT} _.
Arguments Timeout {RT} _.

Definition newKubeletClient {X Cred RT : Type}
    (TransportFor : RestConfig Cred → RT * option (error X)) (cfg : option (RestConfig Cred)) (insecureTLS : bool) :
    option (HTTPClient RT) * option (error X) :=
  match cfg with
  | None => (None, Some (errorString "no API client configuration"))
  | Some cfg =>
      let cfg := {| ServerName := "";
                    Insecure := if insecureTLS then true else Insecure cfg;
                    CAFile := if insecureTLS then "" else CAFile cfg;
                    CAData := if insecureTLS then "" else CAData cfg;
                    Credentials := Credentials cfg |} in
      match TransportFor cfg with
      | (_, Some err) => (None, Some err)
      | (rt, None) => (Some {| Transport := rt; Timeout := 10 * Second |}, None)
      end
  end.

(** ** Lemmas *)

(** One field on its own: its members decoded in order. *)
Definition run_field (ms : list (string * json)) (p : option Z) : option (option Z) :=
  foldl (λ op kv, p ← op; uint_pointer kv.2 p) (Some p) ms.

Lemma run_field_cons kv ms p : run_field (kv :: ms) p = (p' ← uint_pointer kv.2 p; run_field ms p').
Proof. apply (foldl_bind_cons (λ kv, uint_pointer kv.2)). Qed.

Lemma names_once k f g : foldName f ≠ foldName g → names k f = true → names k g = false.
Proof.
  unfold names. intros Hne H%bool_decide_eq_true. apply bool_decide_eq_false. congruence.
Qed.

#[local] Arguments decode_struct : simpl never.

(** The fields of a struct do not interfere. *)
Lemma decode_fs_fields kvs fs :
  decode_struct fs_field (JObj kvs) fs =
    (c ← run_field (members_of "capacityBytes" kvs) (FsCapacityBytes fs);
     u ← run_field (members_of "usedBytes" kvs) (FsUsedBytes fs);
     a ← run_field (members_of "availableBytes" kvs) (FsAvailableBytes fs);
     Some {| FsCapacityBytes := c; FsUsedBytes := u; FsAvailableBytes := a |}).
Proof.
  revert fs. induction kvs as [|[k v] kvs IH]; intros fs; [by destruct fs|].
  rewrite decode_struct_cons. unfold members_of.
  pose proof (names_once k "capacityBytes" "usedBytes" ltac:(discriminate)) as H12.
  pose proof (names_once k "capacityBytes" "availableBytes" ltac:(discriminate)) as H13.
  pose proof (names_once k "usedBytes" "availableBytes" ltac:(discriminate)) as H23.
  rewrite !filter_cons. unfold fs_field at 2. simpl.
  destruct (names k "capacityBytes") eqn:E1;
    [rewrite H12, H13 by done|destruct (names k "usedBytes") eqn:E2;
      [rewrite H23 by done|destruct (names k "availableBytes") eqn:E3]]; simpl;
    rewrite ?run_field_cons; simpl;
    try (destruct (uint_pointer v _) as [p|]; simpl; [|by repeat destruct (run_field _ _)]);
    (etrans; [apply IH|reflexivity]).
Qed.

(** How a field of [statsSummary] is carried by an object: absent, or once, as
    a uint64. *)
Definition carries (field : string) (kvs : list (string * json)) (n : option Z) : Prop :=
  match n with
  | None => members_of field kvs = []
  | Some n => (0 <= n < 2 ^ 64)%Z ∧ ∃ k, members_of field kvs = [(k, JNum (int_lit n))]
  end.

Lemma run_field_carries field kvs n :
  carries field kvs n → run_field (members_of field kvs) None = Some n.
Proof.
  destruct n as [n|]; simpl; [|by intros ->].
  intros [Hn [k ->]]. rewrite run_field_cons. unfold uint_pointer, decode_pointer, decode_uint64.
  simpl. by rewrite ParseUint_int_lit.
Qed.

Lemma decode_summary_object kvs nkvs fkvs kn kf c u a :
  members_of "node" kvs = [(kn, JObj nkvs)] → members_of "fs" nkvs = [(kf, JObj fkvs)] →
  carries "capacityBytes" fkvs c → carries "usedBytes" fkvs u → carries "availableBytes" fkvs a →
  decode_summary (JObj kvs) None =
    Some (Some {| FsCapacityBytes := c; FsUsedBytes := u; FsAvailableBytes := a |}).
Proof.
  intros Hn Hf Hc Hu Ha. unfold decode_summary. rewrite (decode_struct_field "node"), Hn. simpl foldl.
  unfold decode_node. rewrite (decode_struct_field "fs"), Hf. simpl foldl.
  change (decode_fs (JObj fkvs) None)
    with (fs ← decode_struct fs_field (JObj fkvs) zeroFs; Some (Some fs)).
  rewrite decode_fs_fields. unfold zeroFs. cbn [FsCapacityBytes FsUsedBytes FsAvailableBytes].
  by rewrite (run_field_carries "capacityBytes" fkvs c), (run_field_carries "usedBytes" fkvs u),
    (run_field_carries "availableBytes" fkvs a).
Qed.

Lemma fills_length n s : fills n s = bool_decide (N.to_nat n <= String.length s).
Proof.
  revert n. induction s as [|a s IH]; intros n; simpl.
  - destruct (N.eqb_spec n 0); case_bool_decide; lia.
  - destruct (N.eqb_spec n 0); [case_bool_decide; lia|]. rewrite IH. apply bool_decide_ext. lia.
Qed.

Section addresses.
Implicit Types (addrs : list NodeAddress).

Lemma address_of_type_Some typ addrs a :
  address_of_type typ addrs = Some a → a ≠ "" ∧ {| AddrType := typ; Address := a |} ∈ addrs.
Proof.
  induction addrs as [|[t b] addrs IH]; [done|]. simpl. case_decide as H.
  - destruct H as [-> H]. intros [= <-]. split; [done|by left].
  - intros Ha. destruct (IH Ha) as [? ?]. split; [done|by right].
Qed.

Lemma address_of_type_None typ addrs :
  address_of_type typ addrs = None → ∀ x, x ∈ addrs → AddrType x = typ → Address x = "".
Proof.
  induction addrs as [|y addrs IH]; [by intros _ x ?%not_elem_of_nil|]. simpl. case_decide as H; [done|].
  intros Hn x [->|Hx]%elem_of_cons Ht; [|by apply IH]. destruct (decide (Address y = "")); [done|].
  by destruct H.
Qed.
End addresses.

Section sends.
Context {X : Type} `{!KubeErrors X} {Q : Type}.
Implicit Types (node : KNode Q).

Lemma kubeletDisk_sends json_error client kerr completion node r :
  r ∈ sends (kubeletDisk (X := X) json_error client kerr completion) node →
  r = KubeletGet (summary_url (kubeletAddress node) node).
Proof.
  unfold kubeletDisk. cbn [sends]. unfold fetchKubeletDisk.
  destruct client as [Do|]; [|by intros ?%not_elem_of_nil]. cbv zeta.
  case_decide; [by intros ?%not_elem_of_nil|].
  destruct (Do _); [by intros ?%not_elem_of_nil|by intros ?%list_elem_of_singleton|].
  destruct (ReadAll_limited _ _ _) as [raw err].
  destruct (match err with Some _ => _ | None => _ end). by intros ?%list_elem_of_singleton.
Qed.

Lemma proxyDisk_sends json_error proxy completion node r :
  r ∈ sends (proxyDisk (X := X) json_error proxy completion) node → r = ProxyGet (KNodeName node).
Proof.
  simpl. unfold fetchProxyDisk. destruct (proxy _) as [raw [e|]]; by intros ?%list_elem_of_singleton.
Qed.
End sends.

(** ** Lemmas: any answer *)

Section answers.
Context {X : Type} `{!KubeErrors X}.
Context (json_error : string → string).

(** Whatever bytes a kubelet sends: a live disk with int64 figures, or the zero
    disk and an error that is not taken for a 403. *)
Lemma parseSummary_answers `{!KubeErrorsLaws X} raw name :
  let '(disk, err) := parseSummary (X := X) json_error raw name in
  match err with
  | None => DiskIsLive disk = true ∧ in_int64 (CapacityBytes disk) ∧ in_int64 (UsedBytes disk) ∧
            in_int64 (AvailableBytes disk)
  | Some e => disk = zeroDisk ∧ IsForbidden e = false
  end.
Proof.
  assert (in_int64 0) as H0 by (unfold in_int64; lia).
  unfold parseSummary. destruct (Unmarshal_summary raw) as [[[[[c|] u a]|]]|]; simpl.
  - split_and!; [done|apply wrap64_range|destruct u|destruct a]; done || apply wrap64_range.
  - by autorewrite with go.
  - by autorewrite with go.
  - by autorewrite with go.
Qed.
End answers.

(** ** Properties *)

Section properties.
Context {X : Type} `{!KubeErrors X} {Q : Type}.
Context (json_error : string → string).
Implicit Types (node : KNode Q).

(** C29: [parseSummary] reads the node filesystem out of a summary, wherever its
    fields stand in the document and whatever else it holds: the uint64 figures
    as int64 (exact below 2^63), absent ones as 0; without a capacity it is an
    error and no disk. *)
Theorem parseSummary_reads raw name kvs nkvs fkvs kn kf c u a :
  Parse raw = Some (JObj kvs) →
  members_of "node" kvs = [(kn, JObj nkvs)] → members_of "fs" nkvs = [(kf, JObj fkvs)] →
  carries "capacityBytes" fkvs c → carries "usedBytes" fkvs u → carries "availableBytes" fkvs a →
  parseSummary (X := X) json_error raw name =
    match c with
    | Some c => ({| CapacityBytes := wrap64 c; UsedBytes := wrap64 (default 0%Z u);
                    AvailableBytes := wrap64 (default 0%Z a); DiskIsLive := true |}, None)
    | None => (zeroDisk, Some (errorString ("stats/summary for " +:+ name +:+ " has no node fs stats")))
    end.
Proof.
  intros Hp Hn Hf Hc Hu Ha. unfold parseSummary, Unmarshal_summary. rewrite Hp.
  cbn [mbind option_bind NodeFs zeroSummary].
  rewrite (decode_summary_object kvs nkvs fkvs kn kf c u a) by done.
  destruct c, u, a; done.
Qed.

(** C30: how a kubelet's answer is classified: only a 200 is parsed, a 401 or 403
    is the forbidden error that parks the signal, any other status is a
    transient failure, and so is a body that breaks off before the bound,
    whatever its status. *)
Theorem fetchKubeletDisk_status `{!KubeErrorsLaws X} Do kerr node status body read_err :
  kubeletAddress node ≠ "" →
  Do (summary_url (kubeletAddress node) node) = Response status body read_err →
  (∀ e, read_err = Some e → IsForbidden e = false) →
  let '(disk, err, sent) := fetchKubeletDisk (X := X) json_error (Some Do) kerr node in
  let broken := if bool_decide (N.to_nat maxSummaryBytes <= String.length body) then false
                else bool_decide (read_err ≠ None) in
  sent = [KubeletGet (summary_url (kubeletAddress node) node)] ∧
  (is_forbidden err = true ↔ broken = false ∧ (status = 401 ∨ status = 403)%Z) ∧
  (broken = true → err ≠ None) ∧
  (broken = false → status = 200%Z →
     (disk, err) = parseSummary json_error (limit_bytes maxSummaryBytes body) (KNodeName node)) ∧
  (status ≠ 200%Z → err ≠ None ∧ disk = zeroDisk).
Proof.
  intros Haddr Hdo Hread. unfold fetchKubeletDisk. rewrite decide_False by done. rewrite Hdo.
  unfold ReadAll_limited. rewrite fills_length. generalize maxSummaryBytes as limit. intros limit.
  pose proof (parseSummary_answers json_error (limit_bytes limit body) (KNodeName node)) as Hp.
  assert (∀ e : error X, IsForbidden (Errorf_w ("reading stats/summary from " +:+ KNodeName node) (Some e))
                         = IsForbidden e) as Hwrap by (intros; apply IsForbidden_wrap).
  destruct (bool_decide (N.to_nat limit <= String.length body)) eqn:E; clear E;
    [|destruct read_err as [e|]; [specialize (Hread e eq_refl)|]]; cbv zeta beta iota.
  2: { rewrite bool_decide_eq_true_2 by done. split_and!; try done.
       - rewrite (Hwrap e : is_forbidden (Some _) = _), Hread. split; [done|]. by intros [? _]. }
  2: rewrite bool_decide_eq_false_2 by tauto.
  all: unfold StatusOK, StatusUnauthorized, StatusForbidden.
  all: destruct (decide (status = 200)%Z) as [->|];
    [|destruct (decide (status = 401 ∨ status = 403)%Z) as [Hf|Hf]].
  all: try (destruct (parseSummary json_error _ _) as [d [e'|]]; [destruct Hp as [-> Hp]|]).
  all: split_and!; simpl; try done; rewrite ?IsForbidden_new, ?IsForbidden_text, ?Hp; split; try done; lia.
Qed.

(** the kubelet is asked at the address the API server would use: the first
    usable one of the best type there is (InternalIP, then ExternalIP, then
    Hostname), over one GET to it on the reported port, or 10250; a node without
    a usable address, and a collector without a client, ask nothing and report an
    error. *)
Theorem kubeletAddress_preference Do kerr node :
  let prefs := [NodeInternalIP; NodeExternalIP; NodeHostName] in
  let addr := kubeletAddress node in
  let usable typ x := AddrType x = typ ∧ Address x ≠ "" in
  (addr = "" ↔ ∀ typ x, typ ∈ prefs → x ∈ KNodeAddresses node → ¬ usable typ x) ∧
  (addr ≠ "" → ∃ i typ, prefs !! i = Some typ ∧ {| AddrType := typ; Address := addr |} ∈ KNodeAddresses node ∧
     ∀ j typ' x, j < i → prefs !! j = Some typ' → x ∈ KNodeAddresses node → ¬ usable typ' x) ∧
  (let '(_, err, sent) := fetchKubeletDisk (X := X) json_error (Some Do) kerr node in
   if decide (addr = "") then err ≠ None ∧ sent = []
   else sent ∈ [[]; [KubeletGet (summary_url addr node)]]) ∧
  (let '(_, err, sent) := fetchKubeletDisk (X := X) json_error None kerr node in err ≠ None ∧ sent = []).
Proof.
  intros prefs addr usable.
  assert (∀ typ, address_of_type typ (KNodeAddresses node) = None →
            ∀ x, x ∈ KNodeAddresses node → ¬ usable typ x) as Hnone.
  { intros typ Hn x Hx [Ht Ha]. by destruct Ha, (address_of_type_None typ _ Hn x Hx Ht). }
  assert ((∀ typ x, typ ∈ prefs → x ∈ KNodeAddresses node → ¬ usable typ x) ∧ addr = "" ∨
          addr ≠ "" ∧ ∃ i typ, prefs !! i = Some typ ∧ {| AddrType := typ; Address := addr |} ∈ KNodeAddresses node ∧
            ∀ j typ' x, j < i → prefs !! j = Some typ' → x ∈ KNodeAddresses node → ¬ usable typ' x) as Hcases.
  { unfold addr, kubeletAddress. simpl.
    destruct (address_of_type NodeInternalIP _) as [a|] eqn:E1; [|
      destruct (address_of_type NodeExternalIP _) as [a|] eqn:E2; [|
        destruct (address_of_type NodeHostName _) as [a|] eqn:E3]].
    - apply address_of_type_Some in E1 as [? ?]. right. split; [done|]. exists 0, NodeInternalIP.
      split_and!; [done|done|lia].
    - apply address_of_type_Some in E2 as [? ?]. right. split; [done|]. exists 1, NodeExternalIP.
      split_and!; [done|done|]. intros [|j] typ' x Hj Hp; [|lia].
      injection Hp as <-. by apply Hnone.
    - apply address_of_type_Some in E3 as [? ?]. right. split; [done|]. exists 2, NodeHostName.
      split_and!; [done|done|]. intros [|[|j]] typ' x Hj Hp; [| |lia];
        injection Hp as <-; by apply Hnone.
    - left. split; [|done]. intros typ x [->|[->|[->|[]%not_elem_of_nil]%elem_of_cons]%elem_of_cons]%elem_of_cons Hx;
        by apply Hnone. }
  split_and!.
  - destruct Hcases as [[H ->]|[Ha (i & typ & Hi & Hin & _)]]; [done|]. split; [done|].
    intros H. exfalso. refine (H typ _ _ Hin (conj eq_refl Ha)). by eapply list_elem_of_lookup_2.
  - by destruct Hcases as [[_ ->]|[_ H]].
  - unfold fetchKubeletDisk. fold addr. case_decide; [done|].
    destruct (Do _); [by left|by right; left|]. destruct (ReadAll_limited _ _ _) as [raw err].
    destruct (match err with Some _ => _ | None => _ end). by right; left.
  - done.
Qed.
End properties.

(** ** Witnesses *)

Module KubeletWitness.
Import SampleErrors SampleQuantity.

Definition n1 : KNode quantity := {|
  KNodeName := "n1"; KNodeLabels := ∅; KNodeAllocatable := ∅; KNodeConditions := [];
  KNodeAddresses := [{| AddrType := "Hostname"; Address := "n1.local" |};
                     {| AddrType := "InternalIP"; Address := "fd00::1" |}];
  KubeletEndpointPort := 0 |}.

(** A document written with single quotes. *)
Fixpoint quoted (s : string) : string :=
  match s with
  | EmptyString => EmptyString
  | String a s' => String (if decide (Ascii.N_of_ascii a = 39)%N then dquote else a) (quoted s')
  end.

Definition summary : string :=
  quoted "{'node':{'nodeName':'n1','fs':{'capacityBytes':100,'usedBytes':40}},'pods':[]}".

Definition syntax_error (raw : string) : string := "invalid character".

Lemma parseSummary_reads_witness :
  parseSummary (X := api_error) syntax_error summary "n1" =
    ({| CapacityBytes := 100; UsedBytes := 40; AvailableBytes := 0; DiskIsLive := true |}, None).
Proof.
  pose proof (parseSummary_reads (X := api_error) syntax_error summary "n1"
    [("node", JObj [("nodeName", JStr "n1"); ("fs", JObj [("capacityBytes", JNum "100"); ("usedBytes", JNum "40")])]);
     ("pods", JArr [])]
    [("nodeName", JStr "n1"); ("fs", JObj [("capacityBytes", JNum "100"); ("usedBytes", JNum "40")])]
    [("capacityBytes", JNum "100"); ("usedBytes", JNum "40")] "node" "fs" (Some 100%Z) (Some 40%Z) None) as H.
  refine (eq_trans (H _ _ _ _ _ _) _); try (vm_compute; reflexivity).
  - split; [lia|]. exists "capacityBytes". vm_compute. reflexivity.
  - split; [lia|]. exists "usedBytes". vm_compute. reflexivity.
Defined.

Lemma fetchKubeletDisk_status_witness :
  is_forbidden (fetchKubeletDisk (X := api_error) syntax_error
    (Some (λ url, if decide (url = "https://[fd00::1]:10250/stats/summary")
                  then Response 401 "Unauthorized" None else NoResponse transient)) None n1).1.2 = true.
Proof.
  pose proof (fetchKubeletDisk_status (X := api_error) syntax_error
    (λ url, if decide (url = "https://[fd00::1]:10250/stats/summary")
            then Response 401 "Unauthorized" None else NoResponse transient) None n1 401 "Unauthorized" None) as H.
  destruct (fetchKubeletDisk _ _ _ _) as [[disk err] sent]. cbv beta iota zeta in H. cbn [fst snd].
  destruct H as (_ & H & _).
  - vm_compute. discriminate.
  - reflexivity.
  - discriminate.
  - apply H. split; [|left; reflexivity].
    generalize (bool_decide (N.to_nat maxSummaryBytes <= String.length "Unauthorized")).
    intros [|]; reflexivity.
Defined.
End KubeletWitness.
