(* ===== verification/Wire.v ===== *)
(** * The wire format

    The JSON text of a snapshot: the json tags of src/internal/model/model.go
    as [json.Marshal] follows them, on the encoder of file Json, and a reader
    of the format that shows the text loses nothing. *)

From Stdlib Require Import Ascii.
From S2P Require Import Prelude.
From S2P Require Import Model.
From S2P Require Import Json.

(** ** Times

    [Time.MarshalJSON]: RFC 3339 with the fraction's trailing zeros cut, an
    error outside the years 0 to 9999.  All times are in UTC. *)

Definition nanosPerDay : Z := (86400 * Second)%Z.

(** Year, month and day of a day number counted from 1 March of year 0
    (proleptic Gregorian calendar). *)
Definition civil (days : Z) : Z * Z * Z :=
  (let era := days / 146097 in
   let doe := days mod 146097 in
   let yoe := (doe - doe / 1460 + doe / 36524 - doe / 146096) / 365 in
   let doy := doe - (365 * yoe + yoe / 4 - yoe / 100) in
   let mp := (5 * doy + 2) / 153 in
   let month := if mp <? 10 then mp + 3 else mp - 9 in
   (yoe + era * 400 + (if month <=? 2 then 1 else 0), month, doy - (153 * mp + 2) / 5 + 1))%Z.

(** 1 January of year 1 is day 306. *)
Definition date (t : Time) : Z * Z * Z := civil (t / nanosPerDay + 306).

(** At least [width] digits. *)
Definition padded (width : nat) (n : Z) : string :=
  let s := int_lit n in
  (concat_str (replicate (width - String.length s) "0") +:+ s)%string.

(** The fraction of a second, nine digits without trailing zeros. *)
Fixpoint trim (fuel : nat) (n : Z) : string :=
  match fuel with
  | O => ""
  | S fuel => if (n mod 10 =? 0)%Z then trim fuel (n / 10) else padded (S fuel) n
  end.

Definition fraction_text (nanos : Z) : string :=
  if (nanos =? 0)%Z then "" else ("." +:+ trim 9 nanos)%string.

Definition rfc3339 (t : Time) : string :=
  let '(year, month, day) := date t in
  let rest := (t mod nanosPerDay)%Z in
  let secs := (rest / Second)%Z in
  (padded 4 year +:+ "-" +:+ padded 2 month +:+ "-" +:+ padded 2 day +:+ "T" +:+
   padded 2 (secs / 3600) +:+ ":" +:+ padded 2 (secs / 60 mod 60) +:+ ":" +:+ padded 2 (secs mod 60) +:+
   fraction_text (rest mod Second) +:+ "Z")%string.

Definition marshal_time (t : Time) : option json :=
  let '(year, _, _) := date t in
  if decide (0 <= year <= 9999)%Z then Some (JStr (rfc3339 t)) else None.

(** ** Structs

    In the order of their fields; [omitempty] drops an empty string or
    slice. *)

Definition jint (z : Z) : json := JNum (int_lit z).

Definition omitempty_string (key s : string) : list (string * json) :=
  if decide (s = "") then [] else [(key, JStr s)].

Definition json_of_resources (r : Resources) : json :=
  JObj [("cpuMillis", jint (CPUMillis r)); ("memBytes", jint (MemBytes r))].

Definition json_of_allocatable (a : Allocatable) : json :=
  JObj [("cpuMillis", jint (AllocCPUMillis a)); ("memBytes", jint (AllocMemBytes a));
        ("diskBytes", jint (AllocDiskBytes a)); ("pods", jint (AllocPods a))].

Definition json_of_disk (d : Disk) : json :=
  JObj [("capacityBytes", jint (CapacityBytes d)); ("usedBytes", jint (UsedBytes d));
        ("availableBytes", jint (AvailableBytes d)); ("live", JBool (DiskIsLive d))].

Definition json_of_pod (p : Pod) : json :=
  JObj [("uid", JStr (PodUID p)); ("name", JStr (PodName p)); ("namespace", JStr (PodNamespace p));
        ("requests", json_of_resources (PodRequests p)); ("limits", json_of_resources (PodLimits p));
        ("usage", json_of_resources (PodUsage p)); ("hasUsage", JBool (PodHasUsage p))].

(** A nil slice is null. *)
Definition json_of_pods (ps : option (list Pod)) : json :=
  match ps with None => JNull | Some ps => JArr (json_of_pod <$> ps) end.

Definition json_of_node (n : Node) : json :=
  JObj ([("name", JStr (NodeName n)); ("ready", JBool (NodeIsReady n))] ++
        (if decide (NodeRoles n = []) then [] else [("roles", JArr (JStr <$> NodeRoles n))]) ++
        [("allocatable", json_of_allocatable (NodeAllocatable n));
         ("usage", json_of_resources (NodeUsage n)); ("hasUsage", JBool (NodeHasUsage n));
         ("disk", json_of_disk (NodeDisk n)); ("pods", json_of_pods (NodePods n))]).

Definition json_of_capabilities (c : Capabilities) : json :=
  JObj ([("metrics", JBool (CapMetrics c))] ++ omitempty_string "metricsReason" (CapMetricsReason c) ++
        [("disk", JBool (CapDisk c))] ++ omitempty_string "diskReason" (CapDiskReason c)).

Definition json_of_snapshot (generated : json) (s : Snapshot) : json :=
  JObj [("generatedAt", generated); ("nodes", JArr (json_of_node <$> SnapNodes s));
        ("capabilities", json_of_capabilities (SnapCapabilities s))].

(** [json.Marshal(snap)]; it fails on the time alone. *)
Definition Marshal (s : Snapshot) : option string :=
  t ← marshal_time (GeneratedAt s); Some (encode (json_of_snapshot t s)).

(** ** A reader of the format *)

(** The member of that name, null when there is none. *)
Fixpoint member (key : string) (kvs : list (string * json)) : json :=
  match kvs with
  | [] => JNull
  | (k, v) :: kvs => if String.eqb k key then v else member key kvs
  end.

(** An integer of any size. *)
Definition read_int (v : json) : option Z :=
  match v with
  | JNum (String a s) =>
      if decide (a = "-"%char) then Z.opp <$> digits_value 0 s else digits_value 0 (String a s)
  | _ => None
  end.
Definition read_string (v : json) : option string := match v with JStr s => Some s | _ => None end.
Definition read_bool (v : json) : option bool := match v with JBool b => Some b | _ => None end.

(** A field [omitempty] may have dropped. *)
Definition read_reason (v : json) : option string := match v with JNull => Some "" | _ => read_string v end.

Definition read_list {A} (read : json → option A) (v : json) : option (list A) :=
  match v with JArr vs => mapM read vs | _ => None end.

Definition read_resources (v : json) : option Resources :=
  match v with
  | JObj kvs =>
      c ← read_int (member "cpuMillis" kvs); m ← read_int (member "memBytes" kvs);
      Some {| CPUMillis := c; MemBytes := m |}
  | _ => None
  end.

Definition read_allocatable (v : json) : option Allocatable :=
  match v with
  | JObj kvs =>
      c ← read_int (member "cpuMillis" kvs); m ← read_int (member "memBytes" kvs);
      d ← read_int (member "diskBytes" kvs); p ← read_int (member "pods" kvs);
      Some {| AllocCPUMillis := c; AllocMemBytes := m; AllocDiskBytes := d; AllocPods := p |}
  | _ => None
  end.

Definition read_disk (v : json) : option Disk :=
  match v with
  | JObj kvs =>
      c ← read_int (member "capacityBytes" kvs); u ← read_int (member "usedBytes" kvs);
      a ← read_int (member "availableBytes" kvs); l ← read_bool (member "live" kvs);
      Some {| CapacityBytes := c; UsedBytes := u; AvailableBytes := a; DiskIsLive := l |}
  | _ => None
  end.

Definition read_pod (v : json) : option Pod :=
  match v with
  | JObj kvs =>
      uid ← read_string (member "uid" kvs); name ← read_string (member "name" kvs);
      ns ← read_string (member "namespace" kvs); req ← read_resources (member "requests" kvs);
      lim ← read_resources (member "limits" kvs); use ← read_resources (member "usage" kvs);
      has ← read_bool (member "hasUsage" kvs);
      Some {| PodUID := uid; PodName := name; PodNamespace := ns; PodRequests := req; PodLimits := lim;
              PodUsage := use; PodHasUsage := has |}
  | _ => None
  end.

Definition read_pods (v : json) : option (option (list Pod)) :=
  match v with JNull => Some None | _ => Some <$> read_list read_pod v end.

Definition read_roles (v : json) : option (list string) :=
  match v with JNull => Some [] | _ => read_list read_string v end.

Definition read_node (v : json) : option Node :=
  match v with
  | JObj kvs =>
      name ← read_string (member "name" kvs); ready ← read_bool (member "ready" kvs);
      roles ← read_roles (member "roles" kvs); alloc ← read_allocatable (member "allocatable" kvs);
      use ← read_resources (member "usage" kvs); has ← read_bool (member "hasUsage" kvs);
      disk ← read_disk (member "disk" kvs); pods ← read_pods (member "pods" kvs);
      Some {| NodeName := name; NodeIsReady := ready; NodeRoles := roles; NodeAllocatable := alloc;
              NodeUsage := use; NodeHasUsage := has; NodeDisk := disk; NodePods := pods |}
  | _ => None
  end.

Definition read_capabilities (v : json) : option Capabilities :=
  match v with
  | JObj kvs =>
      m ← read_bool (member "metrics" kvs); mr ← read_reason (member "metricsReason" kvs);
      d ← read_bool (member "disk" kvs); dr ← read_reason (member "diskReason" kvs);
      Some {| CapMetrics := m; CapMetricsReason := mr; CapDisk := d; CapDiskReason := dr |}
  | _ => None
  end.

(** The generation time is read as text. *)
Definition read_snapshot (text : string) : option (string * list Node * Capabilities) :=
  v ← Parse text;
  match v with
  | JObj kvs =>
      t ← read_string (member "generatedAt" kvs); ns ← read_list read_node (member "nodes" kvs);
      c ← read_capabilities (member "capabilities" kvs);
      Some (t, ns, c)
  | _ => None
  end.

(** ** Lemmas *)

Lemma jint_ok z : numbers_ok (jint z) = true.
Proof. simpl. apply bool_decide_eq_true, number_int_lit. Qed.

#[local] Hint Resolve jint_ok : go.

(** A document without numbers out of the grammar, at most [d] deep. *)
Definition small (d : N) (v : json) : Prop := numbers_ok v = true ∧ (nesting v <= d)%N.

Lemma small_weaken d d' v : small d v → (d <= d')%N → small d' v.
Proof. unfold small. intros [? ?] ?. split; [done|lia]. Qed.

Lemma small_int d z : small d (jint z).
Proof. split; [apply jint_ok|]. simpl. lia. Qed.

Lemma small_atom d v : match v with JNull | JBool _ | JStr _ => True | _ => False end → small d v.
Proof. destruct v; try done; intros _; split; simpl; done || lia. Qed.

Lemma small_array d vs : Forall (small d) vs → small (1 + d) (JArr vs).
Proof.
  intros H. split; simpl.
  - apply forallb_forall. intros v Hv. apply list_elem_of_In in Hv. rewrite Forall_forall in H. by apply H.
  - enough (foldr N.max 0 (map nesting vs) <= d)%N by lia.
    induction H as [|v vs [_ Hv] _ IH]; simpl; lia.
Qed.

Lemma small_object d kvs : Forall (λ kv, small d kv.2) kvs → small (1 + d) (JObj kvs).
Proof.
  intros H. split; simpl.
  - apply forallb_forall. intros kv Hkv. apply list_elem_of_In in Hkv. rewrite Forall_forall in H. by apply H.
  - enough (foldr N.max 0 (map (λ kv, nesting kv.2) kvs) <= d)%N by lia.
    induction H as [|kv kvs [_ Hv] _ IH]; simpl; lia.
Qed.

(** Objects with a fixed list of members. *)
Ltac small_members :=
  repeat (apply Forall_cons; split; simpl); try apply Forall_nil_2;
  first [apply small_int | by apply small_atom | idtac].

Lemma small_resources r : small 1 (json_of_resources r).
Proof. apply (small_object 0). small_members. Qed.

Lemma small_pod p : small 2 (json_of_pod p).
Proof. apply (small_object 1). small_members; apply small_resources. Qed.

Lemma small_pods ps : small 3 (json_of_pods ps).
Proof.
  destruct ps as [ps|]; [|by apply small_atom]. apply (small_array 2), Forall_fmap, Forall_true. apply small_pod.
Qed.

Lemma small_allocatable a : small 1 (json_of_allocatable a).
Proof. apply (small_object 0). small_members. Qed.

Lemma small_disk d : small 1 (json_of_disk d).
Proof. apply (small_object 0). small_members. Qed.

Lemma small_node n : small 4 (json_of_node n).
Proof.
  apply (small_object 3). apply Forall_app. split; [small_members|]. apply Forall_app. split.
  - case_decide; [done|]. small_members. apply (small_weaken 1); [|done].
    apply (small_array 0), Forall_fmap, Forall_true. intros. by apply small_atom.
  - small_members; [| | |apply small_pods]; (eapply small_weaken; [|by apply (N.leb_le 1 3)]).
    + apply small_allocatable.
    + apply small_resources.
    + apply small_disk.
Qed.

Lemma small_capabilities c : small 1 (json_of_capabilities c).
Proof.
  apply (small_object 0). unfold omitempty_string.
  repeat (apply Forall_app; split); try case_decide; small_members.
Qed.

Lemma small_snapshot g s : small 0 g → small 6 (json_of_snapshot g s).
Proof.
  intros Hg. apply (small_object 5). small_members.
  - by apply (small_weaken 0).
  - apply (small_array 4), Forall_fmap, Forall_true. apply small_node.
  - by eapply small_weaken; [apply small_capabilities|].
Qed.

(** A string JSON carries unchanged. *)
Definition valid_text (s : string) : Prop := sanitize s = s.

Record pod_text (p : Pod) : Prop := {
  uid_text : valid_text (PodUID p);
  pod_name_text : valid_text (PodName p);
  namespace_text : valid_text (PodNamespace p);
}.

Record node_text (n : Node) : Prop := {
  node_name_text : valid_text (NodeName n);
  roles_text : Forall valid_text (NodeRoles n);
  pods_text : Forall pod_text (node_pods n);
}.

(** Every string of a snapshot is valid UTF-8. *)
Record snapshot_text (s : Snapshot) : Prop := {
  nodes_text : Forall node_text (SnapNodes s);
  metrics_reason_text : valid_text (CapMetricsReason (SnapCapabilities s));
  disk_reason_text : valid_text (CapDiskReason (SnapCapabilities s));
}.

(** [sanitize_json] leaves the documents of a valid snapshot alone. *)
Lemma map_fmap_id {A} (f : json → json) (g : A → json) (xs : list A) :
  Forall (λ x, f (g x) = g x) xs → map f (g <$> xs) = g <$> xs.
Proof. induction 1 as [|x xs Hx _ IH]; [done|]. rewrite fmap_cons. simpl. by rewrite Hx, IH. Qed.

Lemma sanitize_resources r : sanitize_json (json_of_resources r) = json_of_resources r.
Proof. reflexivity. Qed.

Lemma sanitize_pod p : pod_text p → sanitize_json (json_of_pod p) = json_of_pod p.
Proof.
  intros [Hu Hn Hs]. unfold valid_text in *. unfold json_of_pod. simpl. rewrite Hu, Hn, Hs. reflexivity.
Qed.

Lemma sanitize_node n : node_text n → sanitize_json (json_of_node n) = json_of_node n.
Proof.
  intros [Hn Hr Hp]. unfold valid_text in *.
  assert (sanitize_json (json_of_pods (NodePods n)) = json_of_pods (NodePods n)) as Hps.
  { unfold node_pods in Hp. destruct (NodePods n) as [ps|]; [|done]. simpl in Hp |- *. f_equal.
    apply map_fmap_id. eapply Forall_impl; [exact Hp|]. apply sanitize_pod. }
  assert (sanitize_json (JArr (JStr <$> NodeRoles n)) = JArr (JStr <$> NodeRoles n)) as Hrs.
  { simpl. f_equal. apply map_fmap_id. eapply Forall_impl; [exact Hr|]. intros r E. simpl. by rewrite E. }
  unfold json_of_node. cbn [sanitize_json]. f_equal. rewrite !map_app.
  case_decide; cbn [map fst snd]; rewrite ?Hps, ?Hrs; simpl; rewrite Hn; reflexivity.
Qed.

Lemma sanitize_capabilities c :
  valid_text (CapMetricsReason c) → valid_text (CapDiskReason c) →
  sanitize_json (json_of_capabilities c) = json_of_capabilities c.
Proof.
  intros Hm Hd. unfold valid_text in *. unfold json_of_capabilities, omitempty_string. cbn [sanitize_json].
  f_equal. rewrite !map_app. repeat case_decide; cbn [map fst snd sanitize_json]; rewrite ?Hm, ?Hd; reflexivity.
Qed.

Lemma sanitize_snapshot g s :
  sanitize_json g = g → snapshot_text s →
  sanitize_json (json_of_snapshot g s) = json_of_snapshot g s.
Proof.
  intros Hg [Hn Hm Hd]. unfold json_of_snapshot. cbn [sanitize_json map fst snd].
  rewrite Hg, sanitize_capabilities by done. rewrite map_fmap_id; [reflexivity|].
  eapply Forall_impl; [exact Hn|]. apply sanitize_node.
Qed.

(** ** Lemmas: reading back *)

Lemma read_int_jint z : read_int (jint z) = Some z.
Proof.
  assert (∀ p, digits_value 0 (pretty_N_go (Npos p) "") = Some (Zpos p)) as Hp.
  { intros p. by rewrite digits_value_pretty. }
  destruct z as [|p|p]; [reflexivity| |].
  - change (jint (Z.pos p)) with (JNum (pretty_N_go (Npos p) "")). specialize (Hp p).
    destruct (head_pretty (Npos p) "") as (a & t & Heq & _ & Ha); [done|]. rewrite Heq in *.
    unfold read_int. rewrite decide_False; [done|]. by intros ->.
  - change (jint (Z.neg p)) with (JNum (String "-"%char (pretty_N_go (Npos p) ""))).
    unfold read_int. rewrite decide_True by done. by rewrite Hp.
Qed.

Lemma mapM_read {A} (read : json → option A) (write : A → json) (xs : list A) :
  (∀ x, read (write x) = Some x) → mapM read (write <$> xs) = Some xs.
Proof. intros H. induction xs as [|x xs IH]; [done|]. rewrite fmap_cons. simpl. by rewrite H, IH. Qed.

#[local] Arguments jint : simpl never.
#[local] Arguments read_int : simpl never.

Lemma read_resources_json r : read_resources (json_of_resources r) = Some r.
Proof. unfold read_resources. simpl. rewrite !read_int_jint. simpl. by destruct r. Qed.

Lemma read_allocatable_json a : read_allocatable (json_of_allocatable a) = Some a.
Proof. unfold read_allocatable. simpl. rewrite !read_int_jint. simpl. by destruct a. Qed.

Lemma read_disk_json d : read_disk (json_of_disk d) = Some d.
Proof. unfold read_disk. simpl. rewrite !read_int_jint. simpl. by destruct d. Qed.

#[local] Arguments json_of_resources : simpl never.
#[local] Arguments read_resources : simpl never.
#[local] Arguments read_allocatable : simpl never.
#[local] Arguments read_disk : simpl never.
#[local] Arguments json_of_allocatable : simpl never.
#[local] Arguments json_of_disk : simpl never.

Lemma read_pod_json p : read_pod (json_of_pod p) = Some p.
Proof. unfold read_pod. simpl. rewrite !read_resources_json. simpl. by destruct p. Qed.

Lemma read_pods_json ps : read_pods (json_of_pods ps) = Some ps.
Proof.
  destruct ps as [ps|]; [|done]. simpl. by rewrite (mapM_read read_pod json_of_pod ps read_pod_json).
Qed.

#[local] Arguments json_of_pods : simpl never.
#[local] Arguments read_pods : simpl never.

Lemma read_node_json n : read_node (json_of_node n) = Some n.
Proof.
  unfold read_node, json_of_node.
  assert (∀ rs, rs = NodeRoles n →
    read_roles (member "roles" ([("name", JStr (NodeName n)); ("ready", JBool (NodeIsReady n))] ++
        (if decide (rs = []) then [] else [("roles", JArr (JStr <$> rs))]) ++
        [("allocatable", json_of_allocatable (NodeAllocatable n));
         ("usage", json_of_resources (NodeUsage n)); ("hasUsage", JBool (NodeHasUsage n));
         ("disk", json_of_disk (NodeDisk n)); ("pods", json_of_pods (NodePods n))])) = Some rs) as Hroles.
  { intros rs _. case_decide as E; [by rewrite E|]. simpl.
    by rewrite (mapM_read read_string JStr rs (λ _, eq_refl)). }
  rewrite (Hroles (NodeRoles n) eq_refl).
  case_decide as E; simpl; rewrite read_resources_json, read_allocatable_json, read_disk_json, read_pods_json;
    simpl; by destruct n.
Qed.

Lemma read_capabilities_json c : read_capabilities (json_of_capabilities c) = Some c.
Proof.
  destruct c as [m mr d dr]. unfold read_capabilities, json_of_capabilities, omitempty_string. simpl.
  destruct (decide (mr = "")) as [->|]; destruct (decide (dr = "")) as [->|]; reflexivity.
Qed.

Lemma Parse_Marshal s text :
  Marshal s = Some text →
  ∃ g, marshal_time (GeneratedAt s) = Some g ∧ text = encode (json_of_snapshot g s) ∧
       Parse text = Some (sanitize_json (json_of_snapshot g s)).
Proof.
  unfold Marshal. destruct (marshal_time (GeneratedAt s)) as [g|] eqn:Eg; [|done].
  cbn [mbind option_bind]. intros H. apply (inj Some) in H as <-.
  exists g. split_and!; [done|done|].
  assert (small 0 g) as Hg.
  { unfold marshal_time in Eg. destruct (date _) as [[y m] d]. case_decide; simplify_eq.
    by apply small_atom. }
  destruct (small_snapshot g s Hg). apply Parse_encode; [done|]. unfold max_depth. lia.
Qed.

(** ** Lemmas: ASCII text *)

Fixpoint all_ascii (s : string) : bool :=
  match s with EmptyString => true | String a s' => utf8_1 a && all_ascii s' end.

Lemma all_ascii_valid s : all_ascii s = true → valid_text s.
Proof.
  unfold valid_text. induction s as [|a s IH]; simpl; [done|]. intros [Ha Hs]%andb_true_iff.
  unfold sanitize. cbn [runes]. rewrite Ha. rewrite fmap_cons.
  change (String a (sanitize s) = String a s). by rewrite IH.
Qed.

Lemma all_ascii_app s t : all_ascii (s +:+ t) = all_ascii s && all_ascii t.
Proof.
  induction s as [|a s IH]; autorewrite with go; simpl; [done|]. by rewrite IH, andb_assoc.
Qed.

Lemma all_ascii_digits s : digits s = (s, "") → all_ascii s = true.
Proof.
  induction s as [|a s IH]; [done|]. cbn [digits all_ascii].
  destruct (is_digit a) eqn:Ha; [|done]. destruct (digits s) as [ds r]. intros [= -> ->].
  rewrite IH by done. rewrite andb_true_r. destruct a as [[] [] [] [] [] [] [] []]; by try discriminate Ha.
Qed.

Lemma all_ascii_int z : all_ascii (int_lit z) = true.
Proof.
  destruct z as [|p|p]; [done| |].
  - apply all_ascii_digits. by apply (digits_pretty (Npos p) "").
  - change (int_lit (Z.neg p)) with (String "-"%char (pretty_N_go (Npos p) "")). simpl.
    apply all_ascii_digits. by apply (digits_pretty (Npos p) "").
Qed.

Lemma all_ascii_padded w n : all_ascii (padded w n) = true.
Proof.
  unfold padded. rewrite all_ascii_app, all_ascii_int, andb_true_r.
  induction (w - _) as [|k IH]; [done|]. simpl replicate.
  change (concat_str (?x :: ?xs)) with (x +:+ concat_str xs)%string. by rewrite all_ascii_app, IH.
Qed.

Lemma all_ascii_trim fuel n : all_ascii (trim fuel n) = true.
Proof.
  revert n. induction fuel as [|fuel IH]; intros n; [done|]. cbn [trim].
  destruct (_ =? _)%Z; [apply IH|apply all_ascii_padded].
Qed.

Lemma rfc3339_text t : valid_text (rfc3339 t).
Proof.
  apply all_ascii_valid. unfold rfc3339. destruct (date t) as [[y m] d].
  rewrite !all_ascii_app, !all_ascii_padded. unfold fraction_text.
  destruct (_ =? _)%Z; [done|]. by rewrite all_ascii_app, all_ascii_trim.
Qed.
