(* ===== verification/Snapshot.v ===== *)
(** * Snapshot assembly

    The pure part of [pollOnce] in src/internal/collector/collector.go: from
    the cached nodes and pods and the two signals' views to a
    [model.Snapshot]; [nodeReady] and [nodeRoles]. *)

From S2P Require Import Prelude.
From S2P Require Import Model.
From S2P Require Import KubeApi.
From S2P Require Import Resources.
From S2P Require Import MetricsSignal.
From S2P Require Import DiskSignal.

Definition role_prefix : string := "node-role.kubernetes.io/".

(** The role a label names, if it names one. *)
Definition label_role (label : string) : option string :=
  match CutPrefix label role_prefix with
  | Some role => if decide (role = "") then None else Some role
  | None => None
  end.

Section snapshot.
Context {Q : Type} `{!Quantity Q}.
Implicit Types (n : KNode Q) (p : KPod Q) (nodes : list (KNode Q)) (pods : list (KPod Q)).

Fixpoint ready_condition (conds : list NodeCondition) : bool :=
  match conds with
  | [] => false
  | cond :: conds =>
      if decide (CondType cond = ConditionNodeReady) then bool_decide (CondStatus cond = ConditionTrue)
      else ready_condition conds
  end.

Definition nodeReady n : bool := ready_condition (KNodeConditions n).

(** The loop over the label map in a given iteration order (Go's is
    unspecified), then [sort.Strings]. *)
Definition roles_in_order (labels : list (string * string)) : list string :=
  sort_by id (omap label_role labels.*1).

Definition nodeRoles n : list string := roles_in_order (map_to_list (KNodeLabels n)).

(** The pods the snapshot skips: unscheduled or terminal. *)
Definition skipped p : bool :=
  bool_decide (SpecNodeName (KPodSpec p) = "" ∨ KPodPhase p = PodSucceeded ∨ KPodPhase p = PodFailed).

Definition model_pod (podUsage : gmap string Resources) p : Pod :=
  let '(requests, limits) := effectiveResources (KPodSpec p) in
  {| PodUID := KPodUID p;
     PodName := KPodName p;
     PodNamespace := KPodNamespace p;
     PodRequests := requests;
     PodLimits := limits;
     PodUsage := default zeroResources (podUsage !! pod_key (KPodNamespace p) (KPodName p));
     PodHasUsage := bool_decide (is_Some (podUsage !! pod_key (KPodNamespace p) (KPodName p))) |}.

(** [m[key] = append(m[key], x)]. *)
Definition map_append (m : gmap string (list Pod)) (key : string) (x : Pod) : gmap string (list Pod) :=
  <[key := default [] (m !! key) ++ [x]]> m.

Definition group_step (podUsage : gmap string Resources) (m : gmap string (list Pod)) p :
    gmap string (list Pod) :=
  if skipped p then m else map_append m (SpecNodeName (KPodSpec p)) (model_pod podUsage p).

Definition podsByNode (podUsage : gmap string Resources) pods : gmap string (list Pod) :=
  foldl (group_step podUsage) ∅ pods.

Definition node_allocatable n : Allocatable := {|
  AllocCPUMillis := MilliValue (ListCpu (KNodeAllocatable n));
  AllocMemBytes := Value (ListMemory (KNodeAllocatable n));
  AllocDiskBytes := quantityValue (KNodeAllocatable n) ResourceEphemeralStorage;
  AllocPods := quantityValue (KNodeAllocatable n) ResourcePods;
|}.

(** The body of the loop over the nodes. *)
Definition model_node (uv : UsageView) (dv : DiskView) (byNode : gmap string (list Pod)) n : Node :=
  let alloc := node_allocatable n in
  {| NodeName := KNodeName n;
     NodeIsReady := nodeReady n;
     NodeRoles := nodeRoles n;
     NodeAllocatable := alloc;
     NodeUsage := default zeroResources (nodeUsage uv !! KNodeName n);
     NodeHasUsage := bool_decide (is_Some (nodeUsage uv !! KNodeName n));
     NodeDisk := match diskOf dv !! KNodeName n with
                 | Some d => d
                 | None => {| CapacityBytes := AllocDiskBytes alloc; UsedBytes := 0;
                              AvailableBytes := 0; DiskIsLive := false |}
                 end;
     NodePods := sort_by PodUID <$> (byNode !! KNodeName n) |}.

Definition assemble (now : Time) nodes pods (uv : UsageView) (dv : DiskView) : Snapshot := {|
  GeneratedAt := now;
  SnapNodes := sort_by NodeName (model_node uv dv (podsByNode (podUsage uv) pods) <$> nodes);
  SnapCapabilities := {|
    CapMetrics := metricsOK uv;
    CapMetricsReason := metricsWhy uv;
    CapDisk := diskOK dv;
    CapDiskReason := diskWhy dv;
  |};
|}.

(** ** The specification *)

(** The pods that belong on a node. *)
Definition pods_on (name : string) pods : list (KPod Q) :=
  filter (λ p, skipped p = false ∧ SpecNodeName (KPodSpec p) = name) pods.

(** ** Lemmas *)

Lemma podsByNode_from podUsage m pods name :
  foldl (group_step podUsage) m pods !! name =
    (if decide (pods_on name pods = []) then m !! name
     else Some (default [] (m !! name) ++ (model_pod podUsage <$> pods_on name pods))).
Proof.
  revert m. induction pods as [|p pods IH]; intros m; [done|].
  cbn [foldl]. rewrite IH. clear IH. unfold group_step, map_append.
  destruct (skipped p) eqn:Hs.
  { unfold pods_on. by rewrite !filter_cons_False by (intros [? _]; congruence). }
  destruct (decide (SpecNodeName (KPodSpec p) = name)) as [<-|Hne].
  - rewrite lookup_insert_eq. unfold pods_on.
    rewrite !filter_cons_True by done. fold (pods_on (SpecNodeName (KPodSpec p)) pods).
    rewrite fmap_cons. destruct (decide (pods_on _ pods = [])) as [->|]; simpl; [done|].
    by rewrite <-app_assoc.
  - rewrite lookup_insert_ne by done. unfold pods_on.
    by rewrite !filter_cons_False by tauto.
Qed.

Lemma podsByNode_lookup podUsage pods name :
  podsByNode podUsage pods !! name =
    if decide (pods_on name pods = []) then None else Some (model_pod podUsage <$> pods_on name pods).
Proof. unfold podsByNode. by rewrite podsByNode_from. Qed.

Lemma node_pods_model uv dv pods n :
  node_pods (model_node uv dv (podsByNode (podUsage uv) pods) n) ≡ₚ
    model_pod (podUsage uv) <$> pods_on (KNodeName n) pods.
Proof.
  unfold node_pods. simpl. rewrite podsByNode_lookup. case_decide as H; simpl; [by rewrite H|].
  apply sort_by_perm.
Qed.

Lemma snap_nodes_perm now nodes pods uv dv :
  SnapNodes (assemble now nodes pods uv dv) ≡ₚ
    model_node uv dv (podsByNode (podUsage uv) pods) <$> nodes.
Proof. apply sort_by_perm. Qed.

Lemma fmap_model_pod_uid podUsage pods : PodUID <$> (model_pod podUsage <$> pods) = KPodUID <$> pods.
Proof.
  rewrite <-list_fmap_compose. apply list_fmap_ext. intros i p _. simpl. unfold model_pod.
  by destruct (effectiveResources _).
Qed.

Lemma fmap_model_node_name uv dv byNode nodes :
  NodeName <$> (model_node uv dv byNode <$> nodes) = KNodeName <$> nodes.
Proof. by rewrite <-list_fmap_compose. Qed.

Lemma pods_on_Permutation name pods pods' : pods ≡ₚ pods' → pods_on name pods ≡ₚ pods_on name pods'.
Proof. unfold pods_on. by intros ->. Qed.

Lemma model_node_Permutation uv dv pods pods' n :
  NoDup (KPodUID <$> pods) → pods ≡ₚ pods' →
  model_node uv dv (podsByNode (podUsage uv) pods) n = model_node uv dv (podsByNode (podUsage uv) pods') n.
Proof.
  intros Hnd Hp. unfold model_node. f_equal. rewrite !podsByNode_lookup.
  pose proof (pods_on_Permutation (KNodeName n) pods pods' Hp) as Hon.
  destruct (decide (pods_on (KNodeName n) pods = [])) as [H|H].
  - rewrite H in Hon. apply Permutation_nil_l in Hon. by rewrite decide_True by done.
  - rewrite decide_False; [|intros H'; rewrite H' in Hon; by apply H, Permutation_nil_r].
    simpl. f_equal. apply sort_by_Permutation; [|by rewrite Hon].
    rewrite fmap_model_pod_uid. by apply NoDup_fmap_filter.
Qed.

Lemma label_role_Some label role :
  label_role label = Some role ↔ label = (role_prefix +:+ role)%string ∧ role ≠ "".
Proof.
  unfold label_role. destruct (CutPrefix label role_prefix) as [r|] eqn:E.
  - apply CutPrefix_Some in E as ->. case_decide as Hr.
    + split; [done|]. intros [Heq ?]. by apply (inj (String.append role_prefix)) in Heq; subst.
    + split; [by intros [= <-]|]. intros [Heq _]. f_equal. by apply (inj (String.append role_prefix)).
  - split; [done|]. intros [-> _].
    assert (CutPrefix (role_prefix +:+ role) role_prefix = Some role) by by apply CutPrefix_Some.
    congruence.
Qed.

Lemma NoDup_roles (labels : list string) : NoDup labels → NoDup (omap label_role labels).
Proof.
  induction labels as [|l ls IH]; [constructor|]. intros [Hl Hnd]%NoDup_cons.
  simpl. destruct (label_role l) as [r|] eqn:E; [|auto]. apply NoDup_cons. split; [|auto].
  intros (l' & Hl' & Hr)%list_elem_of_omap. apply label_role_Some in E as [-> _].
  apply label_role_Some in Hr as [-> _]. done.
Qed.
Lemma filter_disjoint_or {A} (P1 P2 P : A → Prop)
    `{!∀ x, Decision (P1 x), !∀ x, Decision (P2 x), !∀ x, Decision (P x)} (xs : list A) :
  (∀ x, P x ↔ P1 x ∨ P2 x) → (∀ x, P1 x → ¬ P2 x) →
  filter P xs ≡ₚ filter P1 xs ++ filter P2 xs.
Proof.
  intros Hor Hdis. induction xs as [|x xs IH]; [done|]. specialize (Hor x). specialize (Hdis x).
  destruct (decide (P1 x)); [|destruct (decide (P2 x))].
  - rewrite (filter_cons_True P), (filter_cons_True P1), (filter_cons_False P2), IH by tauto. done.
  - rewrite (filter_cons_True P), (filter_cons_False P1), (filter_cons_True P2), IH by tauto.
    apply Permutation_middle.
  - by rewrite (filter_cons_False P), (filter_cons_False P1), (filter_cons_False P2), IH by tauto.
Qed.

(** The pods that belong on some node of a list. *)
Definition pods_of_nodes nodes pods : list (KPod Q) :=
  filter (λ p, skipped p = false ∧ SpecNodeName (KPodSpec p) ∈ KNodeName <$> nodes) pods.

Lemma pods_of_nodes_bind nodes pods :
  NoDup (KNodeName <$> nodes) →
  (nodes ≫= λ n, pods_on (KNodeName n) pods) ≡ₚ pods_of_nodes nodes pods.
Proof.
  induction nodes as [|n nodes IH]; intros Hnd.
  { unfold pods_of_nodes. rewrite filter_none; [done|]. intros p _ [_ H]. by apply not_elem_of_nil in H. }
  rewrite fmap_cons in Hnd. apply NoDup_cons in Hnd as [Hn Hnd].
  rewrite bind_cons, IH by done. symmetry. apply filter_disjoint_or.
  - intros p. rewrite fmap_cons, elem_of_cons. tauto.
  - intros p [_ Hp] [_ Hp']. apply Hn. by rewrite <-Hp.
Qed.

(** A view that is down leaves its dimension blank in every node. *)
Lemma assemble_no_usage now nodes pods uv dv mn :
  podUsage uv = ∅ → nodeUsage uv = ∅ → mn ∈ SnapNodes (assemble now nodes pods uv dv) →
  NodeHasUsage mn = false ∧ NodeUsage mn = zeroResources ∧
  ∀ mp, mp ∈ node_pods mn → PodHasUsage mp = false ∧ PodUsage mp = zeroResources.
Proof.
  intros Hpu Hnu Hmn. rewrite snap_nodes_perm in Hmn. apply list_elem_of_fmap in Hmn as (n & -> & Hn).
  split_and!; [by simpl; rewrite Hnu|by simpl; rewrite Hnu|].
  intros mp Hmp. rewrite node_pods_model, Hpu in Hmp.
  apply list_elem_of_fmap in Hmp as (p & -> & _). unfold model_pod. by destruct (effectiveResources _).
Qed.

Lemma assemble_no_disk now nodes pods uv dv mn :
  diskOf dv = ∅ → mn ∈ SnapNodes (assemble now nodes pods uv dv) →
  NodeDisk mn = {| CapacityBytes := AllocDiskBytes (NodeAllocatable mn); UsedBytes := 0;
                   AvailableBytes := 0; DiskIsLive := false |}.
Proof.
  intros Hd Hmn. rewrite snap_nodes_perm in Hmn. apply list_elem_of_fmap in Hmn as (n & -> & Hn).
  simpl. by rewrite Hd.
Qed.
End snapshot.

(** ** Properties *)

Section properties.
Context {Q : Type} `{!Quantity Q}.
Implicit Types (n : KNode Q) (p : KPod Q) (nodes : list (KNode Q)) (pods : list (KPod Q)).

(** C24: the snapshot lists exactly the cached nodes, sorted by name, and each of
    them holds exactly the scheduled, non-terminal pods bound to it (each
    translated by [model_pod]), sorted by UID; its pod slice is nil, not empty,
    when there is none. *)
Theorem assemble_nodes now nodes pods uv dv :
  let snap := assemble now nodes pods uv dv in
  Sorted (key_le NodeName) (SnapNodes snap) ∧
  NodeName <$> SnapNodes snap ≡ₚ KNodeName <$> nodes ∧
  ∀ mn, mn ∈ SnapNodes snap →
    node_pods mn ≡ₚ model_pod (podUsage uv) <$> pods_on (NodeName mn) pods ∧
    Sorted (key_le PodUID) (node_pods mn) ∧
    (NodePods mn = None ↔ pods_on (NodeName mn) pods = []).
Proof.
  intros snap. split_and!.
  - apply sort_by_sorted.
  - unfold snap. rewrite snap_nodes_perm. by rewrite fmap_model_node_name.
  - intros mn Hmn. unfold snap in Hmn. rewrite snap_nodes_perm in Hmn.
    apply list_elem_of_fmap in Hmn as (n & -> & Hn). split_and!.
    + apply node_pods_model.
    + unfold node_pods. simpl. rewrite podsByNode_lookup. case_decide; simpl; [constructor|].
      apply sort_by_sorted.
    + simpl. rewrite podsByNode_lookup. by case_decide.
Qed.

(** C23: conservation: over the whole snapshot, every scheduled, non-terminal pod
    bound to a cached node appears exactly once, and nothing else appears. *)
Theorem assemble_conserves_pods now nodes pods uv dv :
  NoDup (KNodeName <$> nodes) →
  (SnapNodes (assemble now nodes pods uv dv) ≫= node_pods) ≡ₚ
    model_pod (podUsage uv) <$> pods_of_nodes nodes pods.
Proof.
  intros Hnd. rewrite snap_nodes_perm. rewrite <-pods_of_nodes_bind by done. clear Hnd.
  induction nodes as [|n nodes IH]; [done|].
  rewrite fmap_cons, !bind_cons, fmap_app, IH. f_equiv. apply node_pods_model.
Qed.

(** C25: the snapshot does not depend on the order the caches list nodes and pods in
    (names and UIDs being distinct), so two polls of an unchanged cluster draw the
    same picture. *)
Theorem assemble_deterministic now nodes nodes' pods pods' uv dv :
  NoDup (KNodeName <$> nodes) → NoDup (KPodUID <$> pods) →
  nodes ≡ₚ nodes' → pods ≡ₚ pods' →
  assemble now nodes pods uv dv = assemble now nodes' pods' uv dv.
Proof.
  intros Hn Hu Hnodes Hpods. unfold assemble. f_equal.
  rewrite <-(list_fmap_ext (model_node uv dv (podsByNode (podUsage uv) pods))
               (model_node uv dv (podsByNode (podUsage uv) pods')) nodes').
  - apply sort_by_Permutation; [by rewrite fmap_model_node_name|by rewrite Hnodes].
  - intros i n _. by apply model_node_Permutation.
Qed.

(** a degraded dimension is never faked: with the metrics view down no node and
    no pod of the snapshot carries usage, and with the disk view down every node
    shows the capacity-only fallback, its allocatable ephemeral storage with
    nothing used and not live. *)
Theorem assemble_degrades now nodes pods uv dv :
  view_ok uv → disk_view_ok dv →
  let snap := assemble now nodes pods uv dv in
  (CapMetrics (SnapCapabilities snap) = false →
   ∀ mn, mn ∈ SnapNodes snap → NodeHasUsage mn = false ∧ NodeUsage mn = zeroResources ∧
     ∀ mp, mp ∈ node_pods mn → PodHasUsage mp = false ∧ PodUsage mp = zeroResources) ∧
  (CapDisk (SnapCapabilities snap) = false →
   ∀ mn, mn ∈ SnapNodes snap → NodeDisk mn =
     {| CapacityBytes := AllocDiskBytes (NodeAllocatable mn); UsedBytes := 0;
        AvailableBytes := 0; DiskIsLive := false |}).
Proof.
  intros [_ Hu] [_ Hd] snap. split; intros Hcap mn Hmn.
  - destruct (Hu Hcap). by eapply assemble_no_usage.
  - eapply assemble_no_disk; [|done]. by apply Hd.
Qed.

(** a node's roles are the non-empty suffixes of its role labels, sorted and
    without repetition, in whatever order the label map is iterated. *)
Theorem nodeRoles_spec n labels :
  labels ≡ₚ map_to_list (KNodeLabels n) →
  roles_in_order labels = nodeRoles n ∧
  Sorted (key_le id) (nodeRoles n) ∧ NoDup (nodeRoles n) ∧
  ∀ role, role ∈ nodeRoles n ↔
    role ≠ "" ∧ is_Some (KNodeLabels n !! (role_prefix +:+ role)%string).
Proof.
  intros Hl. assert (NoDup (omap label_role (map_to_list (KNodeLabels n)).*1)) as Hnd.
  { apply NoDup_roles, NoDup_fst_map_to_list. }
  split_and!.
  - unfold nodeRoles, roles_in_order. symmetry. apply sort_by_Permutation; [by rewrite list_fmap_id|].
    by rewrite Hl.
  - apply sort_by_sorted.
  - unfold nodeRoles, roles_in_order. by rewrite sort_by_perm.
  - intros role. unfold nodeRoles, roles_in_order. rewrite sort_by_perm, list_elem_of_omap. split.
    + intros (l & Hin & [-> Hr]%label_role_Some). split; [done|].
      apply list_elem_of_fmap in Hin as ([k v] & -> & Hkv). apply elem_of_map_to_list in Hkv. eauto.
    + intros [Hr [v Hv]]. exists (role_prefix +:+ role)%string. split.
      * apply list_elem_of_fmap. exists ((role_prefix +:+ role)%string, v).
        split; [done|]. by apply elem_of_map_to_list.
      * by apply label_role_Some.
Qed.

(** a node is ready when the first of its conditions of type Ready has status
    True, whatever other conditions come before or after it. *)
Theorem nodeReady_first n before cond after :
  KNodeConditions n = before ++ cond :: after →
  Forall (λ c, CondType c ≠ ConditionNodeReady) before → CondType cond = ConditionNodeReady →
  nodeReady n = bool_decide (CondStatus cond = ConditionTrue).
Proof.
  unfold nodeReady. intros -> Hb Hc. induction Hb as [|c cs Hne Hcs IH]; simpl.
  - by rewrite decide_True.
  - by rewrite decide_False.
Qed.
End properties.

(** ** Witnesses *)

Module SnapshotWitness.
Import SampleQuantity.

Definition worker : KNode quantity := {|
  KNodeName := "node-b";
  KNodeLabels := {[ "node-role.kubernetes.io/worker" := ""; "node-role.kubernetes.io/app" := "";
                    "node-role.kubernetes.io/" := ""; "kubernetes.io/hostname" := "node-b" ]};
  KNodeAllocatable := <[ResourceEphemeralStorage := whole 100]> (<[ResourcePods := whole 110]> (rl 4000 16));
  KNodeConditions := [{| CondType := "MemoryPressure"; CondStatus := "False" |};
                      {| CondType := "Ready"; CondStatus := "True" |}];
  KNodeAddresses := []; KubeletEndpointPort := 0 |}.

Definition idle : KNode quantity := {|
  KNodeName := "node-a"; KNodeLabels := ∅; KNodeAllocatable := ∅; KNodeConditions := [];
  KNodeAddresses := []; KubeletEndpointPort := 0 |}.

Definition pod (name uid node phase : string) : KPod quantity := {|
  KPodUID := uid; KPodName := name; KPodNamespace := "default"; KPodPhase := phase;
  KPodSpec := {| SpecNodeName := node; Containers := []; InitContainers := [] |} |}.

Definition pods : list (KPod quantity) :=
  [pod "p1" "uid-b" "node-b" PodRunning; pod "p0" "uid-a" "node-b" "Pending";
   pod "done" "uid-c" "node-b" PodSucceeded; pod "free" "uid-e" "" PodRunning].

Definition uv : UsageView := {| podUsage := ∅; nodeUsage := ∅; metricsOK := false; metricsWhy := "absent" |}.
Definition dv : DiskView := {| diskOf := ∅; diskOK := false; diskWhy := "disabled" |}.

Lemma nodes_nodup : NoDup (KNodeName <$> [worker; idle]).
Proof. apply (bool_decide_unpack _). vm_compute. exact I. Qed.

Lemma pods_nodup : NoDup (KPodUID <$> pods).
Proof. apply (bool_decide_unpack _). vm_compute. exact I. Qed.

Lemma assemble_conserves_pods_witness :
  length (SnapNodes (assemble 0 [worker; idle] pods uv dv) ≫= node_pods) = 2.
Proof.
  pose proof (assemble_conserves_pods 0 [worker; idle] pods uv dv nodes_nodup) as H.
  apply Permutation_length in H. rewrite H. vm_compute. reflexivity.
Defined.

Lemma assemble_deterministic_witness :
  assemble 0 [worker; idle] pods uv dv = assemble 0 [idle; worker] (reverse pods) uv dv ∧
  (NodeName <$> SnapNodes (assemble 0 [worker; idle] pods uv dv)) = ["node-a"; "node-b"].
Proof.
  split; [|vm_compute; reflexivity].
  apply (assemble_deterministic 0 [worker; idle] [idle; worker] pods (reverse pods) uv dv nodes_nodup pods_nodup).
  - apply perm_swap.
  - symmetry. apply reverse_Permutation.
Defined.

Lemma assemble_degrades_witness :
  Forall (λ mn, NodeHasUsage mn = false ∧ DiskIsLive (NodeDisk mn) = false)
    (SnapNodes (assemble 0 [worker; idle] pods uv dv)).
Proof.
  destruct (assemble_degrades 0 [worker; idle] pods uv dv) as [H1 H2].
  - split; [split; discriminate|intros _; split; reflexivity].
  - split; [split; discriminate|intros _; reflexivity].
  - apply Forall_forall. intros mn Hmn. split; [exact (proj1 (H1 eq_refl mn Hmn))|].
    rewrite (H2 eq_refl mn Hmn). reflexivity.
Defined.

Lemma nodeRoles_spec_witness : nodeRoles worker = ["app"; "worker"] ∧ "app" ∈ nodeRoles worker.
Proof.
  destruct (nodeRoles_spec worker (map_to_list (KNodeLabels worker))) as (_ & _ & _ & H); [reflexivity|].
  split; [vm_compute; reflexivity|]. apply H. split; [discriminate|].
  eexists. vm_compute. reflexivity.
Defined.

Lemma nodeReady_first_witness : nodeReady worker = true.
Proof.
  rewrite (nodeReady_first worker [{| CondType := "MemoryPressure"; CondStatus := "False" |}]
             {| CondType := "Ready"; CondStatus := "True" |} []); [reflexivity|reflexivity| |reflexivity].
  repeat constructor. discriminate.
Defined.
End SnapshotWitness.
