(* ===== verification/PubSub.v ===== *)
(** * Publish and subscribe

    [Latest], [Subscribe] and [publish] of src/internal/collector/collector.go.
    Every operation runs under the collector's mutex and is one atomic
    transition here; a channel is a number and its buffer a list.  Snapshots
    are passed by pointer, so the payload is an abstract type [A] of
    pointers. *)

From S2P Require Import Prelude.

(** The capacity of a subscriber's channel. *)
Definition chan_cap : nat := 1.

Record pubsub (A : Type) := PubSub {
  latest : option A;
  subs : gset nat;
  bufs : gmap nat (list A); (* every channel made so far *)
  next : nat;               (* the next channel *)
}.
Arguments PubSub {A} _ _ _ _.
Arguments latest {A} _.
Arguments subs {A} _.
Arguments bufs {A} _.
Arguments next {A} _.

Section pubsub.
Context {A : Type}.
Implicit Types (st : pubsub A) (ch : nat) (x : A).

(** As [New] makes it. *)
Definition pubsub0 : pubsub A := PubSub None ∅ ∅ 0.

Definition Latest st : option A := latest st.

(** Returns the new channel; its cancel function is [cancel] on it. *)
Definition Subscribe st : nat * pubsub A :=
  (next st, PubSub (latest st) ({[next st]} ∪ subs st) (<[next st := []]> (bufs st)) (S (next st))).

Definition cancel ch st : pubsub A := PubSub (latest st) (subs st ∖ {[ch]}) (bufs st) (next st).

(** [select { case ch <- snap: default: }]. *)
Definition try_send x (b : gmap nat (list A)) ch : gmap nat (list A) :=
  match b !! ch with
  | Some buf => if decide (length buf < chan_cap) then <[ch := buf ++ [x]]> b else b
  | None => b
  end.

(** [publish], the map of subscribers iterated in the given order. *)
Definition publish_in_order (order : list nat) x st : pubsub A :=
  PubSub (Some x) (subs st) (foldl (try_send x) (bufs st) order) (next st).

Definition publish x st : pubsub A := publish_in_order (elements (subs st)) x st.

(** A receive [x := <-ch]; [None] while it blocks. *)
Definition recv ch st : option (A * pubsub A) :=
  match bufs st !! ch with
  | Some (x :: buf) => Some (x, PubSub (latest st) (subs st) (<[ch := buf]> (bufs st)) (next st))
  | _ => None
  end.

(** ** Interleavings

    Any sequence of operations by the poll goroutine and the subscribers. *)
Inductive op :=
| OpPublish (x : A)
| OpSubscribe
| OpCancel (ch : nat)
| OpRecv (ch : nat).

(** A receive that would block leaves the state as it is. *)
Definition exec st (o : op) : pubsub A :=
  match o with
  | OpPublish x => publish x st
  | OpSubscribe => (Subscribe st).2
  | OpCancel ch => cancel ch st
  | OpRecv ch => match recv ch st with Some (_, st') => st' | None => st end
  end.

Definition run st (ops : list op) : pubsub A := foldl exec st ops.

(** What the receives on [ch] returned, in order. *)
Fixpoint received ch st (ops : list op) : list A :=
  match ops with
  | [] => []
  | o :: ops =>
      match o with
      | OpRecv ch' =>
          if decide (ch' = ch) then
            match recv ch st with
            | Some (x, st') => x :: received ch st' ops
            | None => received ch st ops
            end
          else received ch (exec st o) ops
      | _ => received ch (exec st o) ops
      end
  end.

Definition published (ops : list op) : list A :=
  omap (λ o, match o with OpPublish x => Some x | _ => None end) ops.

Definition buffered ch st : list A := default [] (bufs st !! ch).

(** ** The invariant *)

Record pubsub_ok st : Prop := {
  ok_cap : ∀ ch buf, bufs st !! ch = Some buf → length buf <= chan_cap;
  ok_subs : ∀ ch, ch ∈ subs st → is_Some (bufs st !! ch);
  ok_next : ∀ ch, is_Some (bufs st !! ch) ↔ ch < next st;
}.

(** ** Lemmas *)

(** What [try_send] does to a buffer. *)
Definition offer x (buf : list A) : list A :=
  if decide (length buf < chan_cap) then buf ++ [x] else buf.

Lemma try_send_lookup x b ch ch' :
  try_send x b ch !! ch' = (if decide (ch = ch') then offer x <$> b !! ch' else b !! ch').
Proof.
  unfold try_send, offer. destruct (decide (ch = ch')) as [->|Hne].
  - destruct (b !! ch') as [buf|] eqn:E; simpl; [|done].
    case_decide; [by rewrite lookup_insert_eq|done].
  - destruct (b !! ch) as [buf|]; [|done]. case_decide; [by rewrite lookup_insert_ne|done].
Qed.

Lemma sends_lookup x order b ch :
  NoDup order →
  foldl (try_send x) b order !! ch = (if decide (ch ∈ order) then offer x <$> b !! ch else b !! ch).
Proof.
  revert b. induction order as [|ch' order IH]; intros b Hnd; [done|].
  apply NoDup_cons in Hnd as [Hin Hnd]. cbn [foldl]. rewrite IH by done. rewrite !try_send_lookup.
  destruct (decide (ch' = ch)) as [->|Hne].
  - rewrite decide_False by done. by rewrite decide_True by left.
  - destruct (decide (ch ∈ order)).
    + by rewrite decide_True by (by right).
    + rewrite decide_False; [done|]. by rewrite not_elem_of_cons.
Qed.

Lemma publish_lookup x st ch :
  bufs (publish x st) !! ch = (if decide (ch ∈ subs st) then offer x <$> bufs st !! ch else bufs st !! ch).
Proof.
  unfold publish, publish_in_order. simpl. rewrite sends_lookup by apply NoDup_elements.
  by apply decide_ext, elem_of_elements.
Qed.

Lemma offer_length x buf : length buf <= chan_cap → length (offer x buf) <= chan_cap.
Proof. unfold offer. case_decide; [rewrite length_app; simpl; lia|done]. Qed.

Lemma pubsub0_ok : pubsub_ok pubsub0.
Proof.
  constructor; simpl; [done|set_solver|]. intros ch. rewrite lookup_empty.
  split; [intros [? ?]; done|lia].
Qed.

Lemma exec_ok st o : pubsub_ok st → pubsub_ok (exec st o).
Proof.
  intros [Hc Hs Hn]. destruct o as [x| |ch|ch]; simpl.
  - constructor.
    + intros ch buf. rewrite publish_lookup. case_decide; [|apply Hc].
      destruct (bufs st !! ch) as [b|] eqn:E; simpl; intros [= <-]. apply offer_length; eauto.
    + intros ch Hch. rewrite publish_lookup. specialize (Hs ch Hch). case_decide; [|done].
      by apply fmap_is_Some.
    + intros ch. rewrite publish_lookup. simpl. rewrite <-Hn. case_decide; [|done]. by apply fmap_is_Some.
  - constructor; simpl.
    + intros ch buf. rewrite lookup_insert. case_decide; [|apply Hc]. intros [= <-]. simpl. lia.
    + intros ch. rewrite elem_of_union, elem_of_singleton, lookup_insert.
      case_decide; [eauto|]. intros [?|?]; [congruence|by apply Hs].
    + intros ch. rewrite lookup_insert. case_decide; subst.
      * split; [lia|eauto].
      * rewrite Hn. lia.
  - constructor; simpl; [done| |done]. intros ch'. rewrite elem_of_difference. intros [? _]. by apply Hs.
  - unfold recv. destruct (bufs st !! ch) as [[|x buf]|] eqn:E; try by constructor.
    constructor; simpl.
    + intros ch' buf'. rewrite lookup_insert. case_decide; [|apply Hc].
      intros [= <-]. apply Hc in E. simpl in E. lia.
    + intros ch' Hch'. rewrite lookup_insert. case_decide; eauto.
    + intros ch'. rewrite lookup_insert, <-Hn. case_decide; subst; [rewrite E|]; naive_solver.
Qed.

Lemma run_ok st ops : pubsub_ok st → pubsub_ok (run st ops).
Proof. revert st. induction ops as [|o ops IH]; intros st H; [done|]. by apply IH, exec_ok. Qed.
End pubsub.

(** ** What a subscriber receives *)

Section delivery.
Context {A : Type}.
Implicit Types (st : pubsub A) (ch : nat) (x : A) (ops : list (op (A := A))).

Lemma buffered_publish x st ch :
  pubsub_ok st →
  buffered ch (publish x st) = if decide (ch ∈ subs st) then offer x (buffered ch st) else buffered ch st.
Proof.
  intros Hok. unfold buffered. rewrite publish_lookup. case_decide as Hin; [|done].
  destruct (ok_subs st Hok ch Hin) as [buf ->]. done.
Qed.

Lemma offer_sublist x buf : sublist (offer x buf) (buf ++ [x]).
Proof. unfold offer. case_decide; [done|]. by apply sublist_inserts_r. Qed.

Lemma buffered_publish_sublist x st ch :
  pubsub_ok st → sublist (buffered ch (publish x st)) (buffered ch st ++ [x]).
Proof.
  intros Hok. rewrite buffered_publish by done. case_decide; [apply offer_sublist|].
  by apply sublist_inserts_r.
Qed.

Lemma buffered_subscribe st ch : ch < next st → buffered ch (Subscribe st).2 = buffered ch st.
Proof. intros Hch. unfold buffered. simpl. by rewrite lookup_insert_ne by lia. Qed.

Lemma buffered_cancel st ch ch' : buffered ch (cancel ch' st) = buffered ch st.
Proof. done. Qed.

Lemma recv_Some st ch x st' :
  recv ch st = Some (x, st') →
  buffered ch st = x :: buffered ch st' ∧ (∀ ch', ch' ≠ ch → buffered ch' st' = buffered ch' st) ∧
  latest st' = latest st ∧ subs st' = subs st ∧ next st' = next st.
Proof.
  unfold recv, buffered. destruct (bufs st !! ch) as [[|y buf]|] eqn:E; try discriminate.
  intros [= <- <-]. simpl. rewrite lookup_insert_eq. split_and!; try done.
  intros ch' Hne. by rewrite lookup_insert_ne.
Qed.

Lemma recv_None st ch : recv ch st = None → buffered ch st = [].
Proof. unfold recv, buffered. by destruct (bufs st !! ch) as [[|y buf]|]. Qed.

Lemma exec_next st o : next st <= next (exec st o).
Proof.
  destruct o as [x| |ch|ch]; simpl; try lia.
  destruct (recv ch st) as [[y st']|] eqn:E; [|done]. apply recv_Some in E as (_ & _ & _ & _ & ->). done.
Qed.

Lemma exec_other_buffered st o ch :
  pubsub_ok st → ch < next st → o ≠ OpRecv ch →
  sublist (buffered ch (exec st o)) (buffered ch st ++ published [o]).
Proof.
  intros Hok Hch Ho. destruct o as [x| |ch'|ch'].
  - by apply buffered_publish_sublist.
  - rewrite app_nil_r. by rewrite (buffered_subscribe st ch Hch : buffered ch (exec st OpSubscribe) = _).
  - simpl. by rewrite buffered_cancel, app_nil_r.
  - simpl. rewrite app_nil_r. destruct (recv ch' st) as [[y st']|] eqn:E; [|done].
    apply recv_Some in E as (_ & H & _). rewrite H; [done|congruence].
Qed.

Lemma published_cons o ops : published (o :: ops) = published [o] ++ published ops.
Proof. by destruct o. Qed.

Lemma published_app ops ops' : published (ops ++ ops') = published ops ++ published ops'.
Proof. apply omap_app. Qed.

Lemma run_cons st o ops : run st (o :: ops) = run (exec st o) ops.
Proof. done. Qed.

Lemma run_app st ops ops' : run st (ops ++ ops') = run (run st ops) ops'.
Proof. apply foldl_app. Qed.

Lemma received_other st o ops ch : o ≠ OpRecv ch → received ch st (o :: ops) = received ch (exec st o) ops.
Proof. intros Ho. destruct o as [x| |ch'|ch']; simpl; try done. rewrite decide_False; [done|congruence]. Qed.

Lemma received_recv st ops ch :
  received ch st (OpRecv ch :: ops) =
    match recv ch st with
    | Some (x, st') => x :: received ch st' ops
    | None => received ch st ops
    end.
Proof. simpl. by rewrite decide_True. Qed.

Lemma received_app st ops ops' ch :
  received ch st (ops ++ ops') = received ch st ops ++ received ch (run st ops) ops'.
Proof.
  revert st. induction ops as [|o ops IH]; intros st; [done|]. cbn [app]. rewrite run_cons.
  destruct o as [x| |ch'|ch']; simpl; rewrite ?IH; try done.
  case_decide as E; [subst ch'|done]. destruct (recv ch st) as [[x st']|]; simpl; by rewrite ?IH.
Qed.

Lemma op_recv_dec (o : op (A := A)) ch : {o = OpRecv ch} + {o ≠ OpRecv ch}.
Proof.
  destruct o as [x| |ch'|ch']; try (right; discriminate).
  destruct (decide (ch' = ch)) as [->|]; [by left|right; congruence].
Qed.

Lemma exec_subs st o ch : ch < next st → o ≠ OpCancel ch → ch ∈ subs (exec st o) ↔ ch ∈ subs st.
Proof.
  intros Hch Ho. destruct o as [x| |ch'|ch']; simpl; [done| | |].
  - rewrite elem_of_union, elem_of_singleton. split; [intros [?|?]; [lia|done]|by right].
  - rewrite elem_of_difference, elem_of_singleton. split; [by intros [? _]|].
    intros Hin. split; [done|]. intros ->. done.
  - destruct (recv ch' st) as [[y st']|] eqn:E; [|done]. by apply recv_Some in E as (_ & _ & _ & -> & _).
Qed.

Lemma run_subs st ops ch :
  OpCancel ch ∉ ops → ch ∈ subs st → ch < next st → ch ∈ subs (run st ops) ∧ ch < next (run st ops).
Proof.
  revert st. induction ops as [|o ops IH]; intros st Hc Hin Hn; [done|].
  apply not_elem_of_cons in Hc as [Ho Hc]. pose proof (exec_next st o).
  apply IH; [done|apply exec_subs; [done|by apply not_eq_sym|done]|lia].
Qed.

(** The receives of [ch] and what is left in its buffer, against what was in
    the buffer and what was published since. *)
Lemma received_sublist st ops ch :
  pubsub_ok st → ch < next st →
  sublist (received ch st ops ++ buffered ch (run st ops)) (buffered ch st ++ published ops).
Proof.
  revert st. induction ops as [|o ops IH]; intros st Hok Hch.
  { simpl. by rewrite app_nil_r. }
  pose proof (exec_ok st o Hok) as Hok'. pose proof (exec_next st o) as Hn.
  specialize (IH (exec st o) Hok' ltac:(lia)). rewrite published_cons.
  destruct (op_recv_dec o ch) as [->|Ho].
  - rewrite received_recv. simpl in *. destruct (recv ch st) as [[x st']|] eqn:E; [|done].
    apply recv_Some in E as (-> & _). simpl. by apply sublist_skip.
  - rewrite received_other by done. etrans; [exact IH|]. rewrite app_assoc.
    apply sublist_app; [by apply exec_other_buffered|done].
Qed.

Lemma received_cancelled st ops ch :
  pubsub_ok st → ch < next st → ch ∉ subs st →
  received ch st ops ++ buffered ch (run st ops) = buffered ch st.
Proof.
  revert st. induction ops as [|o ops IH]; intros st Hok Hch Hin; [done|].
  pose proof (exec_ok st o Hok) as Hok'. pose proof (exec_next st o) as Hn.
  assert (ch ∉ subs (exec st o)) as Hin'.
  { destruct o as [x| |ch'|ch']; simpl; [done| | |].
    - apply not_elem_of_union. split; [|done]. rewrite not_elem_of_singleton. lia.
    - set_solver.
    - destruct (recv ch' st) as [[y st']|] eqn:E; [|done]. by apply recv_Some in E as (_ & _ & _ & -> & _). }
  specialize (IH (exec st o) Hok' ltac:(lia) Hin').
  destruct (op_recv_dec o ch) as [->|Ho].
  - rewrite received_recv. simpl in *. destruct (recv ch st) as [[x st']|] eqn:E; [|done].
    apply recv_Some in E as (-> & _). simpl. by f_equal.
  - rewrite received_other, run_cons, IH by done. destruct o as [x| |ch'|ch'].
    + simpl. rewrite buffered_publish by done. by rewrite decide_False.
    + by apply buffered_subscribe.
    + apply buffered_cancel.
    + simpl. destruct (recv ch' st) as [[y st']|] eqn:E; [|done].
      apply recv_Some in E as (_ & H & _). apply H. congruence.
Qed.

(** An operation puts nothing in a buffer but what it publishes. *)
Lemma exec_buffered st o ch x :
  pubsub_ok st → x ∈ buffered ch (exec st o) → x ∈ buffered ch st ∨ o = OpPublish x.
Proof.
  intros Hok. destruct o as [y| |ch'|ch'].
  - intros Hx. apply (elem_of_submseteq _ (buffered ch st ++ [y])) in Hx.
    2: { by apply sublist_submseteq, buffered_publish_sublist. }
    apply elem_of_app in Hx as [Hx|Hx%list_elem_of_singleton]; [by left|right; congruence].
  - unfold buffered. simpl. rewrite lookup_insert. case_decide; [|by left].
    intros Hx. by apply not_elem_of_nil in Hx.
  - by left.
  - simpl. destruct (recv ch' st) as [[y st']|] eqn:E; [|by left].
    apply recv_Some in E as (E & Ho & _). intros Hx. left.
    destruct (decide (ch = ch')) as [->|Hne]; [rewrite E; by right|by rewrite <-Ho].
Qed.

Lemma exec_latest st o : latest (exec st o) = match o with OpPublish x => Some x | _ => latest st end.
Proof.
  destruct o as [x| |ch|ch]; try done. simpl.
  destruct (recv ch st) as [[y st']|] eqn:E; [|done]. by apply recv_Some in E as (_ & _ & -> & _).
Qed.

(** The state as a function of its fields. *)
Lemma pubsub_eq st st' :
  latest st = latest st' → subs st = subs st' → bufs st = bufs st' → next st = next st' → st = st'.
Proof. destruct st, st'. simpl. congruence. Qed.

Lemma latest_run st ops :
  latest (run st ops) = match last (published ops) with Some y => Some y | None => latest st end.
Proof.
  revert st. induction ops as [|o ops IH]; intros st; [done|].
  rewrite run_cons, IH, published_cons.
  rewrite last_app. destruct (last (published ops)); [done|].
  destruct o as [y| |ch|ch]; simpl; try done.
  destruct (recv ch st) as [[y st']|] eqn:E; [|done]. by apply recv_Some in E as (_ & _ & -> & _).
Qed.

(** While a subscriber does not receive, its buffer keeps the first snapshot
    that found room. *)
Lemma buffered_idle st ops ch :
  pubsub_ok st → ch ∈ subs st → OpRecv ch ∉ ops → OpCancel ch ∉ ops → ch < next st →
  buffered ch (run st ops) =
    match buffered ch st with [] => match published ops with [] => [] | x :: _ => [x] end | old => old end.
Proof.
  revert st. induction ops as [|o ops IH]; intros st Hok Hin Hr Hc Hch.
  { simpl. by destruct (buffered ch st). }
  apply not_elem_of_cons in Hr as [Ho Hr]. apply not_elem_of_cons in Hc as [Ho' Hc].
  pose proof (exec_next st o) as Hn.
  assert (ch ∈ subs (exec st o)) as Hin'.
  { destruct o as [x| |ch'|ch']; simpl; [done|set_solver|set_solver|].
    destruct (recv ch' st) as [[y st']|] eqn:E; [|done]. by apply recv_Some in E as (_ & _ & _ & -> & _). }
  rewrite run_cons, IH, published_cons; [|by apply exec_ok|done|done|done|lia].
  destruct o as [x| |ch'|ch'].
  - simpl. rewrite buffered_publish, decide_True by done. unfold offer.
    destruct (buffered ch st) as [|y buf]; [done|]. rewrite decide_False; [done|]. simpl. unfold chan_cap. lia.
  - rewrite (buffered_subscribe st ch Hch : buffered ch (exec st OpSubscribe) = _). done.
  - done.
  - simpl. destruct (recv ch' st) as [[y st']|] eqn:E; [|done].
    apply recv_Some in E as (_ & H & _). rewrite H; [done|congruence].
Qed.
End delivery.

(** ** Properties *)

Section properties.
Context {A : Type}.
Implicit Types (st : pubsub A) (ch : nat) (x : A) (ops : list (op (A := A))).

(** C27: [publish] never blocks and makes the snapshot the latest one; every
    subscriber with room has it queued, every full one keeps what it had, and
    nobody else is touched, whatever the order the subscriber map is iterated
    in. *)
Theorem publish_any_order st order x :
  pubsub_ok st → order ≡ₚ elements (subs st) →
  let st' := publish_in_order order x st in
  st' = publish x st ∧ Latest st' = Some x ∧ subs st' = subs st ∧
  ∀ ch, buffered ch st' =
    if decide (ch ∈ subs st) then match buffered ch st with [] => [x] | old => old end
    else buffered ch st.
Proof.
  intros Hok Ho st'. assert (st' = publish x st) as E.
  { unfold st', publish, publish_in_order. apply pubsub_eq; try done. simpl. apply map_eq. intros ch.
    rewrite !sends_lookup by (rewrite ?Ho; apply NoDup_elements).
    apply decide_ext. by rewrite Ho. }
  split_and!; [done|done|done|]. intros ch. rewrite E, buffered_publish by done.
  case_decide; [|done]. unfold offer. destruct (buffered ch st) as [|y buf]; [done|].
  rewrite decide_False; [done|]. simpl. unfold chan_cap. lia.
Qed.

(** C26: whatever the interleaving of publishes, subscriptions, cancellations and
    receives, a subscriber receives a subsequence of the snapshots published
    since it subscribed: in order, none twice, none invented; at most one is
    waiting for it. *)
Theorem subscriber_stream st ops :
  pubsub_ok st →
  let '(ch, st1) := Subscribe st in
  sublist (received ch st1 ops ++ buffered ch (run st1 ops)) (published ops) ∧
  length (buffered ch (run st1 ops)) <= chan_cap.
Proof.
  intros Hok. simpl. set (st1 := PubSub _ _ _ _).
  assert (pubsub_ok st1) as Hok1 by exact (exec_ok st OpSubscribe Hok). split.
  - assert (buffered (next st) st1 = []) as Hb by (unfold buffered; simpl; by rewrite lookup_insert_eq).
    pose proof (received_sublist st1 ops (next st) Hok1) as H. rewrite Hb in H. apply H. simpl. lia.
  - unfold buffered. destruct (bufs _ !! _) as [buf|] eqn:E; simpl; [|lia].
    by apply (ok_cap _ (run_ok st1 ops Hok1) _ _ E).
Qed.

(** after its cancel function ran, a subscriber gets at most what was already
    waiting for it, in every later interleaving. *)
Theorem cancel_stops st ops ch :
  pubsub_ok st → ch < next st →
  received ch (cancel ch st) ops ++ buffered ch (run (cancel ch st) ops) = buffered ch st.
Proof.
  intros Hok Hch. rewrite received_cancelled; [done|exact (exec_ok st (OpCancel ch) Hok)|done|].
  simpl. set_solver.
Qed.

(** C28: a slow subscriber never stalls the poll loop: while it does not receive,
    the first snapshot published after it drained its channel is the one kept
    and the later ones are skipped; the next publish after it receives is
    delivered. *)
Theorem slow_subscriber_skips st ch x xs y :
  pubsub_ok st → ch ∈ subs st → buffered ch st = [] →
  let ops := [OpPublish x] ++ (OpPublish <$> xs) ++ [OpRecv ch; OpPublish y; OpRecv ch] in
  received ch st ops = [x; y] ∧ latest (run st ops) = Some y.
Proof.
  intros Hok Hin Hb ops. split; [|unfold ops; rewrite latest_run; unfold published;
    by rewrite app_assoc, omap_app, last_app].
  unfold ops. simpl.
  assert (buffered ch (publish x st) = [x]) as Hx by (rewrite buffered_publish, Hb, decide_True by done; done).
  pose proof (exec_ok st (OpPublish x) Hok) as Hok'. simpl in Hok'.
  assert (ch ∈ subs (publish x st)) as Hin' by done.
  generalize dependent (publish x st). clear st Hok Hin Hb. induction xs as [|z xs IH]; intros st Hx Hok Hin.
  - rewrite fmap_nil, app_nil_l, received_recv. destruct (recv ch st) as [[x' st']|] eqn:E.
    2: { apply recv_None in E. congruence. }
    pose proof (exec_ok st (OpRecv ch) Hok) as Hok'. simpl in Hok'. rewrite E in Hok'.
    apply recv_Some in E as (E & _ & _ & Hs & _). rewrite Hx in E. injection E as <- E. f_equal.
    rewrite received_other, received_recv by done. simpl exec.
    assert (buffered ch (publish y st') = [y]) as Hy.
    { rewrite buffered_publish by done. by rewrite Hs, decide_True, <-E. }
    destruct (recv ch (publish y st')) as [[y' st'']|] eqn:E'.
    2: { apply recv_None in E'. congruence. }
    apply recv_Some in E' as (E' & _). rewrite Hy in E'. injection E' as <- _. done.
  - rewrite fmap_cons, <-app_comm_cons, received_other by done. apply IH.
    + simpl. rewrite buffered_publish, decide_True, Hx by done. done.
    + exact (exec_ok st (OpPublish z) Hok).
    + done.
Qed.
End properties.

(** ** Witnesses *)

Module PubSubWitness.
(** Two subscribers, the first with a snapshot waiting. *)
Definition two : pubsub nat := run pubsub0 [OpSubscribe; OpPublish 7; OpSubscribe].

Lemma two_ok : pubsub_ok two.
Proof. apply run_ok, pubsub0_ok. Qed.

Lemma publish_any_order_witness :
  publish_in_order [1; 0] 8 two = publish 8 two ∧
  buffered 0 (publish_in_order [1; 0] 8 two) = [7] ∧ buffered 1 (publish_in_order [1; 0] 8 two) = [8].
Proof.
  destruct (publish_any_order two [1; 0] 8 two_ok) as (H1 & _ & _ & H2).
  - vm_compute. first [reflexivity | apply perm_swap].
  - split; [exact H1|]. split; [rewrite (H2 0)|rewrite (H2 1)]; vm_compute; reflexivity.
Defined.

Lemma subscriber_stream_witness :
  sublist (received 2 (Subscribe two).2 [OpPublish 8; OpPublish 9; OpRecv 2; OpPublish 10] ++ [10]) [8; 9; 10] ∧
  received 2 (Subscribe two).2 [OpPublish 8; OpPublish 9; OpRecv 2; OpPublish 10] = [8].
Proof.
  split; [|vm_compute; reflexivity].
  exact (proj1 (subscriber_stream two [OpPublish 8; OpPublish 9; OpRecv 2; OpPublish 10] two_ok)).
Defined.

Lemma cancel_stops_witness :
  received 0 (cancel 0 two) [OpPublish 8; OpRecv 0; OpPublish 9; OpRecv 0] ++
    buffered 0 (run (cancel 0 two) [OpPublish 8; OpRecv 0; OpPublish 9; OpRecv 0]) = [7].
Proof. apply (cancel_stops two _ 0 two_ok). vm_compute. lia. Defined.

Lemma slow_subscriber_skips_witness :
  received 1 two [OpPublish 8; OpPublish 9; OpPublish 10; OpRecv 1; OpPublish 11; OpRecv 1] = [8; 11].
Proof.
  apply (slow_subscriber_skips two 1 8 [9; 10] 11 two_ok).
  - apply (bool_decide_unpack _). vm_compute. exact I.
  - vm_compute. reflexivity.
Defined.
End PubSubWitness.
