(* ===== verification/Source.v ===== *)
(** * Sources of snapshots

    The interface [Source] of src/internal/collector/collector.go: what the
    HTTP server consumes, [Latest] and [Subscribe], and what it may rely on.
    A snapshot is published by pointer: [snap_ptr] pairs a fresh address with
    the contents, which nothing changes after.  The class [Source] is a source
    together with the goroutine that feeds it; [SourceLaws] is its contract:
    every tick publishes one new, coherent snapshot or none.  Collector and
    Mock are its instances, Server its client. *)

From S2P Require Import Prelude.
From S2P Require Import Model.
From S2P Require Import PubSub.

(** A [*model.Snapshot]. *)
Record snap_ptr := { address : nat; deref : Snapshot }.

(** A snapshot somebody can still get hold of. *)
Definition visible (st : pubsub snap_ptr) (p : snap_ptr) : Prop :=
  latest st = Some p ∨ ∃ ch, p ∈ buffered ch st.

(** What a snapshot promises its reader. *)
Record coherent (snap : Snapshot) : Prop := {
  metrics_reason : CapMetrics (SnapCapabilities snap) = true ↔ CapMetricsReason (SnapCapabilities snap) = "";
  disk_reason : CapDisk (SnapCapabilities snap) = true ↔ CapDiskReason (SnapCapabilities snap) = "";
  metrics_absent : CapMetrics (SnapCapabilities snap) = false →
    ∀ mn, mn ∈ SnapNodes snap → NodeHasUsage mn = false ∧ NodeUsage mn = zeroResources ∧
      ∀ mp, mp ∈ node_pods mn → PodHasUsage mp = false ∧ PodUsage mp = zeroResources;
  disk_absent : CapDisk (SnapCapabilities snap) = false →
    ∀ mn, mn ∈ SnapNodes snap → NodeDisk mn =
      {| CapacityBytes := AllocDiskBytes (NodeAllocatable mn); UsedBytes := 0;
         AvailableBytes := 0; DiskIsLive := false |};
  nodes_sorted : Sorted (key_le NodeName) (SnapNodes snap);
}.

(** [publish] of a newly allocated snapshot, the [n]-th. *)
Definition publish_fresh (snap : Snapshot) (n : nat) (st : pubsub snap_ptr) : pubsub snap_ptr :=
  publish {| address := n; deref := snap |} st.

(** What holds of a source that has allocated [n] snapshots. *)
Record source_inv (st : pubsub snap_ptr) (n : nat) : Prop := {
  src_pub : pubsub_ok st;
  src_visible : ∀ p, visible st p → coherent (deref p) ∧ address p < n;
  src_address : ∀ p p', visible st p → visible st p' → address p = address p' → p = p';
}.

(** ** The interface

    [tick] is one round of the goroutine that feeds the source, [client] a
    call of a reader ([Latest] reads [latest (view s)]). *)
Class Source (St Ev : Type) := {
  view : St → pubsub snap_ptr;
  allocs : St → nat;
  tick : St → Ev → St;
  client : op (A := snap_ptr) → St → St;
}.

Class SourceLaws (St Ev : Type) `{!Source St Ev} := {
  source_ok : St → Prop;
  ok_view : ∀ s, source_ok s → source_inv (view s) (allocs s);
  tick_ok : ∀ s e, source_ok s → source_ok (tick s e) ∧
    (view (tick s e) = view s ∧ allocs (tick s e) = allocs s ∨
     ∃ snap, coherent snap ∧ view (tick s e) = publish_fresh snap (allocs s) (view s) ∧
             allocs (tick s e) = S (allocs s));
  client_ok : ∀ s o, (∀ p, o ≠ OpPublish p) → source_ok s →
    source_ok (client o s) ∧ view (client o s) = exec (view s) o ∧ allocs (client o s) = allocs s;
}.

(** ** Lemmas *)

Section lemmas.
Implicit Types (st : pubsub snap_ptr) (p : snap_ptr) (n : nat).

Lemma source_inv0 : source_inv pubsub0 0.
Proof.
  assert (∀ p, ¬ visible pubsub0 p) as Hno.
  { intros p [?|[ch Hp]]; [done|]. unfold buffered in Hp. simpl in Hp. by apply not_elem_of_nil in Hp. }
  constructor; [apply pubsub0_ok|..].
  - intros p Hp. by apply Hno in Hp.
  - intros p p' Hp. by apply Hno in Hp.
Qed.

Lemma visible_publish_fresh snap n st p :
  pubsub_ok st → visible (publish_fresh snap n st) p →
  p = {| address := n; deref := snap |} ∨ visible st p.
Proof.
  intros Hok [Hp|[ch Hp]].
  - left. unfold publish_fresh in Hp. simpl in Hp. congruence.
  - apply (exec_buffered _ (OpPublish _)) in Hp as [Hp|[= Hp]]; [right; by right; exists ch|by left|done].
Qed.

Lemma publish_fresh_inv snap n st : source_inv st n → coherent snap → source_inv (publish_fresh snap n st) (S n).
Proof.
  intros [Hp Hv Ha] Hsnap. constructor.
  - exact (exec_ok _ (OpPublish _) Hp).
  - intros p [->|H]%visible_publish_fresh; [simpl; split; [done|lia]| |done].
    destruct (Hv p H). split; [done|lia].
  - intros p p' [->|H]%visible_publish_fresh [->|H']%visible_publish_fresh; simpl; try done.
    + intros Heq. destruct (Hv p' H') as [_ Hlt]. rewrite <-Heq in Hlt. lia.
    + intros Heq. destruct (Hv p H) as [_ Hlt]. rewrite Heq in Hlt. lia.
    + by apply Ha.
Qed.

(** A reader makes nothing visible that was not. *)
Lemma visible_client o st p :
  (∀ p, o ≠ OpPublish p) → pubsub_ok st → visible (exec st o) p → visible st p.
Proof.
  intros Ho Hok [Hl|[ch Hin]].
  - left. rewrite exec_latest in Hl. destruct o; try done. by destruct (Ho x).
  - right. exists ch. apply exec_buffered in Hin as [?|?]; [done| |done]. by destruct (Ho p).
Qed.

Lemma client_source_inv o st n : (∀ p, o ≠ OpPublish p) → source_inv st n → source_inv (exec st o) n.
Proof.
  intros Ho [Hp Hv Ha]. constructor; [by apply exec_ok|..].
  - intros p Hvp. by eapply Hv, visible_client.
  - intros p p' Hvp Hvp'. by apply Ha; eapply visible_client.
Qed.

Lemma visible_latest st p : Latest st = Some p → visible st p.
Proof. by left. Qed.

Lemma visible_recv st ch p st' : recv ch st = Some (p, st') → visible st p.
Proof. intros (E & _)%recv_Some. right. exists ch. rewrite E. left. Qed.
End lemmas.
