(* ===== verification/Mock.v ===== *)
(** * The mock source

    src/internal/collector/mock.go: the simulated cluster behind [--mock].
    It draws from math/rand (Rand), computes with float64 (Float64) and
    publishes like the collector (PubSub, Source).  The nodes and pods its
    goroutine changes are the state of a tick; a snapshot copies the values
    out of them.  Where the language leaves the compiler the choice to fuse a
    multiplication with an addition, [fused] makes it, one choice per place of
    the source, and every theorem holds for all of them. *)

From S2P Require Import Prelude.
From S2P Require Import Float64.
From S2P Require Import Rand.
From S2P Require Import Model.
From S2P Require Import Json.
From S2P Require Import Wire.
From S2P Require Import PubSub.
From S2P Require Import Source.

(** ** Data *)

Record mockPod := {
  uid : string;
  name : string;
  ns : string;
  req : Resources;
  lim : Resources;
  cpuFrac : float64;
  memFrac : float64;
}.

Record mockNode := {
  node_name : string;
  roles : list string;
  alloc : Allocatable;
  diskUsed : float64; (* fraction of capacity *)
  pods : list mockPod;
}.

Record mockNamespace := {
  ns_name : string;
  weight : Z;
  cpuBase : Z; (* millicores *)
  memBase : Z; (* bytes *)
}.

Definition mockNamespaces : list mockNamespace := [
  {| ns_name := "prod"; weight := 5; cpuBase := 500; memBase := Z.shiftl 768 20 |};
  {| ns_name := "staging"; weight := 3; cpuBase := 250; memBase := Z.shiftl 384 20 |};
  {| ns_name := "ingress"; weight := 1; cpuBase := 200; memBase := Z.shiftl 256 20 |};
  {| ns_name := "monitoring"; weight := 2; cpuBase := 300; memBase := Z.shiftl 1 30 |};
  {| ns_name := "kube-system"; weight := 3; cpuBase := 100; memBase := Z.shiftl 192 20 |};
  {| ns_name := "batch"; weight := 2; cpuBase := 800; memBase := Z.shiftl 512 20 |};
  {| ns_name := "data"; weight := 2; cpuBase := 1000; memBase := Z.shiftl 2 30 |}
].

(** [mockNamespaces[i]]; [Intn] keeps the index in range. *)
Definition namespace_at (i : Z) : mockNamespace :=
  nth (Z.to_nat i) mockNamespaces {| ns_name := ""; weight := 0; cpuBase := 0; memBase := 0 |}.

Record shape := { shape_cpu : Z; shape_mem : Z; shape_disk : Z }.

Definition shapes : list shape :=
  let gib n := Z.shiftl n 30 in [
  {| shape_cpu := 8000; shape_mem := gib 32; shape_disk := gib 200 |};
  {| shape_cpu := 8000; shape_mem := gib 32; shape_disk := gib 200 |};
  {| shape_cpu := 16000; shape_mem := gib 64; shape_disk := gib 400 |};
  {| shape_cpu := 16000; shape_mem := gib 64; shape_disk := gib 400 |};
  {| shape_cpu := 4000; shape_mem := gib 16; shape_disk := gib 100 |};
  {| shape_cpu := 4000; shape_mem := gib 16; shape_disk := gib 100 |};
  {| shape_cpu := 4000; shape_mem := gib 8; shape_disk := gib 100 |}
]%Z.

Definition targetFills : list float64 :=
  [lit 55 100; lit 90 100; lit 45 100; lit 70 100; lit 85 100; lit 30 100; lit 60 100].

(** The float64 constants of the source. *)
Definition f0_01 := lit 1 100.
Definition f0_04 := lit 4 100.
Definition f0_05 := lit 5 100.
Definition f0_1 := lit 1 10.
Definition f0_12 := lit 12 100.
Definition f0_15 := lit 15 100.
Definition f0_2 := lit 2 10.
Definition f0_25 := lit 25 100.
Definition f0_4 := lit 4 10.
Definition f0_495 := lit 495 1000.
Definition f0_5 := lit 5 10.
Definition f0_6 := lit 6 10.
Definition f0_75 := lit 75 100.
Definition f0_85 := lit 85 100.
Definition f0_97 := lit 97 100.
Definition f1_1 := lit 11 10.
Definition f1_3 := lit 13 10.
Definition f1_5 := lit 15 10.
Definition f1_6 := lit 16 10.

(** The places where the source has [a + b*c]. *)
Inductive place := InitDisk | Jitter | InitCPU | InitMem | Burst | DriftDisk | DriftCPU | DriftMem.

Definition clamp (v lo hi : float64) : float64 := fmin hi (fmax lo v).

Section mock.
Context (Int63 : nat → Z) (fused : place → bool).

(** ** Building the cluster *)

Definition pod_kinds : list string := ["api"; "worker"; "web"; "cache"; "agent"; "job"].

(** The body of the loop from [jitter] on, with the counter already
    increased. *)
Definition make_pod (space : mockNamespace) (id : Z) : Rand mockPod :=
  f ← Float64 Int63;
  let jitter := fmuladd (fused Jitter) f f1_5 f0_5 in
  let request := {| CPUMillis := to_int (fmul (of_int (cpuBase space)) jitter);
                    MemBytes := to_int (fmul (of_int (memBase space)) jitter) |} in
  k ← Intn Int63 6;
  f1 ← Float64 Int63;
  f2 ← Float64 Int63;
  hot ← Intn Int63 12;
  cpu ← (if (hot =? 0)%Z
         then f3 ← Float64 Int63; mret (fmuladd (fused Burst) f3 f0_4 f1_1)
         else mret (fmuladd (fused InitCPU) f1 f0_75 f0_15));
  mret {|
    uid := "mock-uid-" +:+ padded 4 id;
    name := ns_name space +:+ "-" +:+ nth (Z.to_nat k) pod_kinds "" +:+ "-" +:+ padded 5 id;
    ns := ns_name space;
    req := request;
    lim := {| CPUMillis := wrap64 (CPUMillis request * 2); MemBytes := wrap64 (MemBytes request * 2) |};
    cpuFrac := cpu;
    memFrac := fmuladd (fused InitMem) f2 f0_85 f0_25;
  |}.

(** [for usedCPU < target]. *)
Fixpoint fill_loop (rounds : nat) (target id usedCPU : Z) (acc : list mockPod) : Rand (Z * list mockPod) :=
  match rounds with
  | O => λ _ _, None
  | S rounds =>
      if (usedCPU <? target)%Z then
        i ← Intn Int63 7;
        r ← Intn Int63 10;
        if (weight (namespace_at i) + 3 <? r)%Z then fill_loop rounds target id usedCPU acc
        else
          p ← make_pod (namespace_at i) (add64 id 1);
          fill_loop rounds target (add64 id 1) (add64 usedCPU (CPUMillis (req p))) (acc ++ [p])
      else mret (id, acc)
  end.

Definition fill (target id : Z) : Rand (Z * list mockPod) :=
  λ fuel pos, fill_loop fuel target id 0 [] fuel pos.

Definition fill_target (i : nat) (s : shape) : Z := to_int (fmul (of_int (shape_cpu s)) (nth i targetFills 0%Z)).

Definition build_node (i : nat) (s : shape) (id : Z) : Rand (Z * mockNode) :=
  f ← Float64 Int63;
  '(id, ps) ← fill (fill_target i s) id;
  mret (id, {|
    node_name := "node-" +:+ padded 2 (Z.of_nat i + 1);
    roles := if decide (i = 0) then ["control-plane"] else [];
    alloc := {| AllocCPUMillis := shape_cpu s; AllocMemBytes := shape_mem s;
                AllocDiskBytes := shape_disk s; AllocPods := 110 |};
    diskUsed := fmuladd (fused InitDisk) f f0_6 f0_2;
    pods := ps;
  |}).

Fixpoint build_from (i : nat) (ss : list shape) (id : Z) : Rand (list mockNode) :=
  match ss with
  | [] => mret []
  | s :: ss =>
      '(id, n) ← build_node i s id;
      rest ← build_from (S i) ss id;
      mret (n :: rest)
  end.

Definition build : Rand (list mockNode) := build_from 0 shapes 0.

(** ** Drift *)

Fixpoint mapM_rand {A B} (f : A → Rand B) (xs : list A) : Rand (list B) :=
  match xs with
  | [] => mret []
  | x :: xs => y ← f x; ys ← mapM_rand f xs; mret (y :: ys)
  end.

Definition drift_pod (p : mockPod) : Rand mockPod :=
  f1 ← Float64 Int63;
  f2 ← Float64 Int63;
  mret {|
    uid := uid p; name := name p; ns := ns p; req := req p; lim := lim p;
    cpuFrac := clamp (fmuladd (fused DriftCPU) (fsub f1 f0_5) f0_12 (cpuFrac p)) f0_05 f1_6;
    memFrac := clamp (fmuladd (fused DriftMem) (fsub f2 f0_5) f0_04 (memFrac p)) f0_1 f1_3;
  |}.

Definition drift_node (n : mockNode) : Rand mockNode :=
  f ← Float64 Int63;
  ps ← mapM_rand drift_pod (pods n);
  mret {|
    node_name := node_name n; roles := roles n; alloc := alloc n;
    diskUsed := clamp (fmuladd (fused DriftDisk) (fsub f f0_495) f0_01 (diskUsed n)) f0_05 f0_97;
    pods := ps;
  |}.

Definition drift (nodes : list mockNode) : Rand (list mockNode) := mapM_rand drift_node nodes.

(** ** The snapshot *)

Definition mock_usage (p : mockPod) : Resources := {|
  CPUMillis := to_int (fmul (of_int (CPUMillis (req p))) (cpuFrac p));
  MemBytes := to_int (fmul (of_int (MemBytes (req p))) (memFrac p));
|}.

Definition mock_pod (p : mockPod) : Pod := {|
  PodUID := uid p; PodName := name p; PodNamespace := ns p;
  PodRequests := req p; PodLimits := lim p; PodUsage := mock_usage p; PodHasUsage := true;
|}.

(** One round of the loop over a node's pods. *)
Definition snapshot_step (mn : Node) (p : mockPod) : Node :=
  let usage := mock_usage p in {|
  NodeName := NodeName mn; NodeIsReady := NodeIsReady mn; NodeRoles := NodeRoles mn;
  NodeAllocatable := NodeAllocatable mn;
  NodeUsage := {| CPUMillis := add64 (CPUMillis (NodeUsage mn)) (CPUMillis usage);
                  MemBytes := add64 (MemBytes (NodeUsage mn)) (MemBytes usage) |};
  NodeHasUsage := true;
  NodeDisk := NodeDisk mn;
  NodePods := Some (node_pods mn ++ [mock_pod p]);
|}.

Definition mock_node (n : mockNode) : Node :=
  let capacity := AllocDiskBytes (alloc n) in
  foldl snapshot_step {|
    NodeName := node_name n; NodeIsReady := true; NodeRoles := roles n;
    NodeAllocatable := alloc n;
    NodeUsage := zeroResources; NodeHasUsage := false;
    NodeDisk := {| CapacityBytes := capacity;
                   UsedBytes := to_int (fmul (of_int capacity) (diskUsed n));
                   AvailableBytes := to_int (fmul (of_int capacity) (fsub one (diskUsed n)));
                   DiskIsLive := true |};
    NodePods := None;
  |} (pods n).

Definition snapshot (now : Time) (nodes : list mockNode) : Snapshot := {|
  GeneratedAt := now;
  SnapNodes := mock_node <$> nodes;
  SnapCapabilities := {| CapMetrics := true; CapMetricsReason := ""; CapDisk := true; CapDiskReason := "" |};
|}.

(** ** The source *)

Record Mock := {
  mock_nodes : list mockNode;
  mock_rng : nat;            (* position of [rng] *)
  mock_pub : pubsub snap_ptr; (* [latest] and [subs] *)
  mock_allocated : nat;
}.

Definition NewMock (now : Time) (fuel : nat) : option Mock :=
  '(nodes, pos) ← build fuel 0;
  Some {| mock_nodes := nodes; mock_rng := pos;
          mock_pub := PubSub (Some {| address := 0; deref := snapshot now nodes |}) ∅ ∅ 0;
          mock_allocated := 1 |}.

(** [case <-ticker.C] of [Run]. *)
Definition mock_tick (now : Time) (fuel : nat) (m : Mock) : option Mock :=
  '(nodes, pos) ← drift (mock_nodes m) fuel (mock_rng m);
  Some {| mock_nodes := nodes; mock_rng := pos;
          mock_pub := publish_fresh (snapshot now nodes) (mock_allocated m) (mock_pub m);
          mock_allocated := S (mock_allocated m) |}.

(** [Run] with a context that ends after the ticks given; it returns nil. *)
Fixpoint mock_Run (ticks : list Time) (fuel : nat) (m : Mock) : option Mock :=
  match ticks with
  | [] => Some m
  | now :: ticks => m ← mock_tick now fuel m; mock_Run ticks fuel m
  end.

(** A reader's call. *)
Definition mock_client (o : op (A := snap_ptr)) (m : Mock) : Mock := {|
  mock_nodes := mock_nodes m; mock_rng := mock_rng m;
  mock_pub := exec (mock_pub m) o; mock_allocated := mock_allocated m;
|}.
End mock.
