(* ===== verification/MockCluster.v ===== *)
(** * The simulated cluster: invariants

    What holds of the mock source's nodes and pods whatever its generator
    draws: the ranges of the fractions, of the requests and of the usage the
    snapshots show, the identities, and that building and drifting return.
    [pod_ok] and [node_ok] are the invariants, [cluster_ok] that of the whole
    list of nodes. *)

From S2P Require Import Prelude.
From S2P Require Import Float64.
From S2P Require Import Rand.
From S2P Require Import Model.
From S2P Require Import Json.
From S2P Require Import Wire.
From S2P Require Import PubSub.
From S2P Require Import Source.
From S2P Require Import Mock.

Local Open Scope Z_scope.

Definition f2_0 : float64 := 2 * one.

(** ** The invariant of a pod *)

Definition cpu_range (c : Z) : Prop := 50 ≤ c ≤ 2000.
Definition mem_range (b : Z) : Prop := 96 * 2 ^ 20 ≤ b ≤ 2 ^ 32.
Definition cpuFrac_range (f : float64) : Prop := f0_05 ≤ f ≤ f1_6.
Definition memFrac_range (f : float64) : Prop := f0_1 ≤ f ≤ f1_3.
Definition diskUsed_range (f : float64) : Prop := f0_05 ≤ f ≤ f0_97.

Record pod_ok (p : mockPod) : Prop := {
  req_cpu : cpu_range (CPUMillis (req p));
  req_mem : mem_range (MemBytes (req p));
  lim_double : lim p = {| CPUMillis := 2 * CPUMillis (req p); MemBytes := 2 * MemBytes (req p) |};
  cpuFrac_ok : cpuFrac_range (cpuFrac p);
  memFrac_ok : memFrac_range (memFrac p);
}.

(** ** Floating point *)

(** A fraction drawn from an interval: [a + f*b] for [f] in [0, 1) lies
    between its values at 0 and 1. *)
Lemma drawn_between fused f b a lo hi :
  0 ≤ b → 0 ≤ f < one →
  lo ≤ fmuladd fused 0 b a → fmuladd fused one b a ≤ hi →
  lo ≤ fmuladd fused f b a ≤ hi.
Proof.
  intros Hb Hf Hlo Hhi. split.
  - etrans; [exact Hlo|]. apply fmuladd_mono; lia.
  - etrans; [|exact Hhi]. apply fmuladd_mono; lia.
Qed.

Lemma clamp_between v lo hi : lo ≤ hi → lo ≤ clamp v lo hi ≤ hi.
Proof. unfold clamp, fmin, fmax. lia. Qed.

(** Truncation of a product whose factors lie in intervals. *)
Lemma product_between i x lo hi :
  0 ≤ of_int i → 0 ≤ lo → lo ≤ x ≤ hi →
  to_int (fmul (of_int i) lo) ≤ to_int (fmul (of_int i) x) ≤ to_int (fmul (of_int i) hi).
Proof.
  intros Hi Hlo [H1 H2].
  assert (∀ y, 0 ≤ y → 0 ≤ fmul (of_int i) y) as Hpos.
  { intros y Hy. rewrite fmul_frac. apply round_frac_nonneg; [exact one_pos|nia]. }
  split; (apply to_int_mono; [apply Hpos; lia|apply fmul_mono; lia]).
Qed.

Lemma of_int_nonneg i : 0 ≤ i → 0 ≤ of_int i.
Proof. intros. rewrite of_int_frac. apply round_frac_nonneg; [done|]. pose proof one_pos. nia. Qed.

(** Comparisons of the constants of the source, by evaluation. *)
Ltac float_compute := apply Z.leb_le; vm_compute; reflexivity.

Ltac drawn fused Hf :=
  intros Hf; unfold cpuFrac_range, memFrac_range, diskUsed_range; destruct fused; (apply drawn_between; [|exact Hf|..]; float_compute).

Section ranges.
Implicit Types (fused : bool) (f : float64).

Lemma jitter_range fused f : 0 ≤ f < one → f0_5 ≤ fmuladd fused f f1_5 f0_5 ≤ f2_0.
Proof. drawn fused Hf. Qed.

Lemma initCPU_range fused f : 0 ≤ f < one → cpuFrac_range (fmuladd fused f f0_75 f0_15).
Proof. drawn fused Hf. Qed.

Lemma burst_range fused f : 0 ≤ f < one → cpuFrac_range (fmuladd fused f f0_4 f1_1).
Proof. drawn fused Hf. Qed.

Lemma initMem_range fused f : 0 ≤ f < one → memFrac_range (fmuladd fused f f0_85 f0_25).
Proof. drawn fused Hf. Qed.

Lemma initDisk_range fused f : 0 ≤ f < one → diskUsed_range (fmuladd fused f f0_6 f0_2).
Proof. drawn fused Hf. Qed.

Lemma clamp_cpu v : cpuFrac_range (clamp v f0_05 f1_6).
Proof. unfold cpuFrac_range, memFrac_range, diskUsed_range. apply clamp_between. float_compute. Qed.

Lemma clamp_mem v : memFrac_range (clamp v f0_1 f1_3).
Proof. unfold cpuFrac_range, memFrac_range, diskUsed_range. apply clamp_between. float_compute. Qed.

Lemma clamp_disk v : diskUsed_range (clamp v f0_05 f0_97).
Proof. unfold cpuFrac_range, memFrac_range, diskUsed_range. apply clamp_between. float_compute. Qed.

Lemma f0_5_nonneg : 0 ≤ f0_5.
Proof. float_compute. Qed.
End ranges.

Lemma namespaces_ok :
  Forall (λ s, 0 ≤ cpuBase s ∧ 0 ≤ memBase s ∧
    50 ≤ to_int (fmul (of_int (cpuBase s)) f0_5) ∧ to_int (fmul (of_int (cpuBase s)) f2_0) ≤ 2000 ∧
    96 * 2 ^ 20 ≤ to_int (fmul (of_int (memBase s)) f0_5) ∧
    to_int (fmul (of_int (memBase s)) f2_0) ≤ 2 ^ 32) mockNamespaces.
Proof. apply (bool_decide_unpack _). vm_compute. exact I. Qed.

Lemma namespace_at_in i : 0 ≤ i < 7 → namespace_at i ∈ mockNamespaces.
Proof.
  intros Hi. unfold namespace_at. apply list_elem_of_In, nth_In. simpl. lia.
Qed.

(** ** Building *)

Definition uid_text (id : Z) : string := "mock-uid-" +:+ padded 4 id.

(** The CPU a node's pods request. *)
Definition requested (ps : list mockPod) : Z := sumZ ((λ p, CPUMillis (req p)) <$> ps).

(** The pods the loop adds after the [id0]-th, the last of them the
    [id]-th. *)
Record numbered (id0 id : Z) (ps : list mockPod) : Prop := {
  numbered_ok : Forall pod_ok ps;
  numbered_last : id = id0 + Z.of_nat (length ps);
  numbered_uids : uid <$> ps = uid_text <$> seqZ (id0 + 1) (Z.of_nat (length ps));
}.

Lemma numbered_nil id : numbered id id [].
Proof. constructor; [constructor|simpl; lia|done]. Qed.

Lemma numbered_snoc id0 id ps p :
  numbered id0 id ps → pod_ok p → uid p = uid_text (id + 1) → numbered id0 (id + 1) (ps ++ [p]).
Proof.
  intros [Hok -> Hu] Hp Hid. constructor.
  - apply Forall_app. by split; [|apply Forall_singleton].
  - rewrite length_app. simpl. lia.
  - rewrite length_app, fmap_app, Hu. simpl. rewrite Nat2Z.inj_add, seqZ_app, fmap_app by lia. f_equal.
    simpl. rewrite Hid. f_equal. f_equal. lia.
Qed.

Lemma requested_snoc ps p : requested (ps ++ [p]) = requested ps + CPUMillis (req p).
Proof. unfold requested. rewrite fmap_app. autorewrite with go. simpl. lia. Qed.

Lemma requested_lower ps : Forall pod_ok ps → 50 * Z.of_nat (length ps) ≤ requested ps.
Proof.
  unfold requested. induction 1 as [|p ps Hp _ IH]; [done|]. rewrite fmap_cons. autorewrite with go. simpl length.
  pose proof (req_cpu p Hp). unfold cpu_range in *. lia.
Qed.

Section build.
Context (Int63 : nat → Z) `{!Int63Laws Int63} (fused : place → bool).

(** The identity a pod keeps. *)
Definition made_from (space : mockNamespace) (id : Z) (p : mockPod) : Prop :=
  uid p = uid_text id ∧ ns p = ns_name space.

Lemma make_pod_ensures space id :
  space ∈ mockNamespaces →
  ensures (make_pod Int63 fused space id) (λ p, pod_ok p ∧ made_from space id p).
Proof.
  intros Hin. pose proof (proj1 (Forall_forall _ _) namespaces_ok space Hin) as (Hc & Hm & C1 & C2 & M1 & M2).
  eapply ensures_bind; [by apply Float64_ensures|]. intros f Hf.
  eapply ensures_bind; [by apply Intn_ensures|]. intros k _.
  eapply ensures_bind; [by apply Float64_ensures|]. intros f1 Hf1.
  eapply ensures_bind; [by apply Float64_ensures|]. intros f2 Hf2.
  eapply ensures_bind; [by apply Intn_ensures|]. intros hot _.
  eapply (ensures_bind _ _ cpuFrac_range).
  { case_match; [|by apply ensures_ret, initCPU_range].
    eapply ensures_bind; [by apply Float64_ensures|]. intros f3 Hf3. by apply ensures_ret, burst_range. }
  intros cpu Hcpu. apply ensures_ret. split; [|done].
  pose proof (jitter_range (fused Jitter) f Hf) as Hj.
  pose proof (product_between _ _ _ _ (of_int_nonneg _ Hc) f0_5_nonneg Hj) as Hcj.
  pose proof (product_between _ _ _ _ (of_int_nonneg _ Hm) f0_5_nonneg Hj) as Hmj.
  constructor; cbn [req lim cpuFrac memFrac CPUMillis MemBytes].
  - unfold cpu_range. lia.
  - unfold mem_range. lia.
  - f_equal; rewrite wrap64_small; unfold in_int64; lia.
  - exact Hcpu.
  - by apply initMem_range.
Qed.

(** Filling a node stops at the first pod that reaches the target. *)
Definition filled (target id0 : Z) (r : Z * list mockPod) : Prop :=
  numbered id0 r.1 r.2 ∧ target ≤ requested r.2 < target + 2000.

Lemma fill_loop_ensures rounds target id0 id acc :
  0 ≤ id0 ≤ 2 ^ 40 → 0 ≤ target ≤ 2 ^ 40 →
  numbered id0 id acc → requested acc < target + 2000 →
  ensures (fill_loop Int63 fused rounds target id (requested acc) acc) (filled target id0).
Proof.
  intros Hid0 Ht. revert id acc. induction rounds as [|rounds IH]; intros id acc Hn Hr; [by intros fuel pos x pos'|].
  cbn [fill_loop]. destruct (Z.ltb_spec (requested acc) target) as [Hlt|Hge].
  2: { apply ensures_ret. split; [done|]. simpl. lia. }
  eapply ensures_bind; [by apply Intn_ensures|]. intros i Hi.
  eapply ensures_bind; [by apply Intn_ensures|]. intros r _.
  case_match; [by apply IH|].
  eapply ensures_bind; [apply make_pod_ensures; by apply namespace_at_in|]. intros p (Hp & Hu & _).
  pose proof (req_cpu p Hp) as Hcpu. unfold cpu_range in Hcpu.
  pose proof (requested_lower acc (numbered_ok _ _ _ Hn)) as Hlen.
  rewrite (add64_small id 1) in * by (rewrite (numbered_last _ _ _ Hn); unfold in_int64; lia).
  rewrite (add64_small (requested acc)) by (unfold in_int64; lia). rewrite <-requested_snoc.
  apply IH; [by apply numbered_snoc|]. rewrite requested_snoc. lia.
Qed.

Lemma fill_ensures target id :
  0 ≤ id ≤ 2 ^ 40 → 0 ≤ target ≤ 2 ^ 40 → ensures (fill Int63 fused target id) (filled target id).
Proof.
  intros Hid Ht fuel pos r pos' E. revert E. unfold fill.
  apply (fill_loop_ensures fuel target id id []); [done|done|apply numbered_nil|]. unfold requested. simpl. lia.
Qed.
End build.

(** ** The invariant of the cluster *)

(** The node built from the [i]-th shape. *)
Record node_ok (i : nat) (s : shape) (n : mockNode) : Prop := {
  ok_name : node_name n = "node-" +:+ padded 2 (Z.of_nat i + 1);
  ok_roles : roles n = if decide (i = 0%nat) then ["control-plane"] else [];
  ok_alloc : alloc n = {| AllocCPUMillis := shape_cpu s; AllocMemBytes := shape_mem s;
                          AllocDiskBytes := shape_disk s; AllocPods := 110 |};
  ok_disk : diskUsed_range (diskUsed n);
  ok_pods : Forall pod_ok (pods n);
  ok_fill : fill_target i s ≤ requested (pods n) < fill_target i s + 2000;
}.

(** The nodes of the shapes [ss], the first of them the [i]-th, their pods
    numbered from the [id]-th on. *)
Fixpoint nodes_ok (i : nat) (ss : list shape) (id : Z) (nodes : list mockNode) : Prop :=
  match ss, nodes with
  | [], [] => True
  | s :: ss, n :: nodes =>
      node_ok i s n ∧ uid <$> pods n = uid_text <$> seqZ (id + 1) (Z.of_nat (length (pods n))) ∧
      nodes_ok (S i) ss (id + Z.of_nat (length (pods n))) nodes
  | _, _ => False
  end.

Definition cluster_ok : list mockNode → Prop := nodes_ok 0 shapes 0.

(** What a drift does not touch. *)
Record same_pod (p p' : mockPod) : Prop := {
  same_uid : uid p' = uid p;
  same_pod_name : name p' = name p;
  same_ns : ns p' = ns p;
  same_req : req p' = req p;
  same_lim : lim p' = lim p;
}.

Record same_node (n n' : mockNode) : Prop := {
  same_node_name : node_name n' = node_name n;
  same_roles : roles n' = roles n;
  same_alloc : alloc n' = alloc n;
  same_pods : Forall2 same_pod (pods n) (pods n');
}.

Definition fill_ok (i : nat) (ss : list shape) : Prop :=
  ∀ k s, ss !! k = Some s → 0 < fill_target (i + k) s ≤ 16000.

Lemma fill_ok_cons i s ss : fill_ok i (s :: ss) → 0 < fill_target i s ≤ 16000 ∧ fill_ok (S i) ss.
Proof.
  intros H. split.
  - rewrite <-(Nat.add_0_r i). by apply H.
  - intros k s' Hk. replace (S i + k)%nat with (i + S k)%nat by lia. by apply H.
Qed.

Lemma shapes_fill_ok : fill_ok 0 shapes.
Proof.
  assert (Forall (λ '(k, s), 0 < fill_target k s ≤ 16000) (imap pair shapes)) as H.
  { apply (bool_decide_unpack _). vm_compute. exact I. }
  intros k s Hk. rewrite Forall_lookup in H. apply (H k (k, s)). by rewrite list_lookup_imap, Hk.
Qed.

Section steps.
Context (Int63 : nat → Z) `{!Int63Laws Int63} (fused : place → bool).

Lemma build_from_ensures i ss id :
  fill_ok i ss → 0 ≤ id → id + 400 * Z.of_nat (length ss) ≤ 2 ^ 40 →
  ensures (build_from Int63 fused i ss id) (nodes_ok i ss id).
Proof.
  revert i id. induction ss as [|s ss IH]; intros i id Hf Hid Hlen; [by apply ensures_ret|].
  apply fill_ok_cons in Hf as [Ht Hf]. simpl length in Hlen. cbn [build_from].
  eapply (ensures_bind _ _ (λ r, node_ok i s r.2 ∧ r.1 = id + Z.of_nat (length (pods r.2)) ∧
    uid <$> pods r.2 = uid_text <$> seqZ (id + 1) (Z.of_nat (length (pods r.2))))).
  { eapply ensures_bind; [by apply Float64_ensures|]. intros f Hfl.
    eapply ensures_bind; [apply fill_ensures; [done|lia|lia]|]. intros [id' ps] [[Hok Hlast Hu] Hr].
    apply ensures_ret. split; [|split; [exact Hlast|exact Hu]]. constructor; cbn [snd node_name roles alloc diskUsed pods].
    - reflexivity.
    - reflexivity.
    - reflexivity.
    - apply initDisk_range, Hfl.
    - exact Hok.
    - exact Hr. }
  intros [id' n] (Hn & Hid' & Hu). cbn [fst snd] in Hn, Hid', Hu. subst id'.
  eapply ensures_bind; [apply IH; [done|lia|]|intros nodes Hnodes; by apply ensures_ret].
  pose proof (requested_lower (pods n) (ok_pods _ _ _ Hn)). pose proof (ok_fill _ _ _ Hn). lia.
Qed.

Lemma build_ensures : ensures (build Int63 fused) cluster_ok.
Proof. apply build_from_ensures; [apply shapes_fill_ok|lia|simpl; lia]. Qed.

Lemma mapM_rand_ensures {A B} (f : A → Rand B) (R : A → B → Prop) xs :
  (∀ x, x ∈ xs → ensures (f x) (R x)) → ensures (mapM_rand f xs) (Forall2 R xs).
Proof.
  induction xs as [|x xs IH]; intros Hf; [by apply ensures_ret|]. cbn [mapM_rand].
  eapply ensures_bind; [apply Hf; left|]. intros y Hy.
  eapply ensures_bind; [apply IH; intros z Hz; apply Hf; by right|]. intros ys Hys.
  apply ensures_ret. by constructor.
Qed.

Lemma drift_pod_ensures p :
  ensures (drift_pod Int63 fused p) (λ p', (pod_ok p → pod_ok p') ∧ same_pod p p').
Proof.
  eapply ensures_bind; [by apply Float64_ensures|]. intros f1 _.
  eapply ensures_bind; [by apply Float64_ensures|]. intros f2 _. apply ensures_ret.
  split; [|done]. intros [Hc Hm Hl _ _]. constructor; [done|done|done|apply clamp_cpu|apply clamp_mem].
Qed.

Lemma drift_node_ensures n :
  ensures (drift_node Int63 fused n)
    (λ n', same_node n n' ∧ diskUsed_range (diskUsed n') ∧ (Forall pod_ok (pods n) → Forall pod_ok (pods n'))).
Proof.
  eapply ensures_bind; [by apply Float64_ensures|]. intros f _.
  eapply ensures_bind; [apply mapM_rand_ensures; intros p _; apply drift_pod_ensures|].
  intros ps Hps. apply ensures_ret. split_and!.
  - constructor; simpl; [done|done|done|]. eapply Forall2_impl; [exact Hps|]. by intros p p' [_ ?].
  - apply clamp_disk.
  - simpl. induction Hps as [|p p' l l' [Hp _] _ IH]; intros Hok; [done|].
    apply Forall_cons in Hok as [Hok1 Hok2]. constructor; auto.
Qed.

Lemma same_pods_keep ps ps' :
  Forall2 same_pod ps ps' → uid <$> ps' = uid <$> ps ∧ requested ps' = requested ps ∧ length ps' = length ps.
Proof.
  unfold requested. induction 1 as [|p p' ps ps' Hp _ (IHu & IHr & IHl)]; [done|].
  rewrite !fmap_cons. autorewrite with go. destruct Hp as [-> _ _ -> _]. rewrite IHu, IHr. simpl. by rewrite IHl.
Qed.

Lemma drift_ensures nodes :
  cluster_ok nodes → ensures (drift Int63 fused nodes) (λ nodes', cluster_ok nodes' ∧ Forall2 same_node nodes nodes').
Proof.
  intros Hok. eapply ensures_weaken; [apply mapM_rand_ensures; intros n _; apply drift_node_ensures|].
  intros nodes' Hall. split; [|eapply Forall2_impl; [exact Hall|]; by intros n n' [? _]].
  unfold cluster_ok in *. revert Hok. generalize shapes, 0%nat, 0. 
  induction Hall as [|n n' nodes nodes' (Hs & Hd & Hp) _ IH]; intros ss i id; [done|].
  destruct ss as [|s ss]; [done|]. intros (Hn & Hu & Hrest).
  destruct (same_pods_keep _ _ (same_pods _ _ Hs)) as (Eu & Er & El). simpl. rewrite El, Eu.
  split_and!; [|done|by apply IH]. destruct Hn as [H1 H2 H3 H4 H5 H6]. destruct Hs as [S1 S2 S3 _].
  constructor; [congruence|congruence|congruence|done|by apply Hp|by rewrite Er].
Qed.
End steps.
