(* ===== verification/MockSnapshot.v ===== *)
(** * The mock source: its snapshots

    The snapshots of the simulated cluster in closed form: their numbers, with
    the rounding errors they carry, and their identities.  [simulated] is what
    a reader may rely on, and [cluster_simulated] shows it of every cluster
    that satisfies the invariant of MockCluster. *)

From S2P Require Import Prelude.
From S2P Require Import Float64.
From S2P Require Import Rand.
From S2P Require Import Model.
From S2P Require Import Json.
From S2P Require Import Wire.
From S2P Require Import PubSub.
From S2P Require Import Source.
From S2P Require Import Mock.
From S2P Require Import MockCluster.

Local Open Scope Z_scope.

(** ** Products of an integer with a fraction *)

(** [c] is the float64 of [n / d], up to one rounding. *)
Definition near (c n d : Z) : Prop := 2 ^ 53 * Z.abs (d * c - n * one) ≤ n * one.

Lemma of_int_small i : 0 ≤ i ≤ 2 ^ 53 → of_int i = i * one.
Proof.
  intros Hi. pose proof (of_int_exact i 0 ltac:(lia)) as H. rewrite Z.pow_0_r, !Z.mul_1_r in H.
  apply H. lia.
Qed.

Lemma fmul_int_error i c :
  1 ≤ i ≤ 2 ^ 53 → 2 ^ 52 ≤ c → 2 ^ 53 * Z.abs (fmul (of_int i) c - i * c) ≤ i * c.
Proof.
  intros Hi Hc. rewrite of_int_small by lia. pose proof one_pos as Ho.
  pose proof (fmul_error (i * one) c) as He. set (P := fmul _ _) in *. clearbody P.
  revert He Ho. generalize one. intros u He Hu.
  assert (0 ≤ i * u * c) as Hpos by (apply Z.mul_nonneg_nonneg; lia).
  rewrite (Z.abs_eq (i * u * c)) in He by done.
  assert (2 ^ 52 * u ≤ i * u * c) as Hbig.
  { rewrite Z.mul_comm, (Z.mul_comm i u), <-Z.mul_assoc. apply Z.mul_le_mono_nonneg_l; [lia|]. nia. }
  specialize (He Hbig). replace (P * u - i * u * c) with (u * (P - i * c)) in He by lia.
  rewrite Z.abs_mul, (Z.abs_eq u) in He by lia.
  apply (Z.mul_le_mono_pos_l _ _ u); [done|]. lia.
Qed.

(** [int64(float64(i) * c)] is [i*n/d] rounded down, but for the case that the
    rounding errors straddle an integer. *)
Lemma scaled_bounds i c n d :
  1 ≤ i ≤ 2 ^ 41 → 0 < n ≤ 2 ^ 10 → 0 < d → near c n d → 2 ^ 52 ≤ c →
  d * to_int (fmul (of_int i) c) ≤ n * i ≤ d * (to_int (fmul (of_int i) c) + 1).
Proof.
  intros Hi Hn Hd Hc Hbig. pose proof (fmul_int_error i c ltac:(lia) Hbig) as He.
  assert (0 ≤ fmul (of_int i) c) as Hp.
  { rewrite fmul_frac. apply round_frac_nonneg; [exact one_pos|].
    apply Z.mul_nonneg_nonneg; [apply of_int_nonneg; lia|lia]. }
  pose proof (to_int_bounds _ Hp) as HT. pose proof one_pos as Hu. unfold near in Hc. clear Hp.
  set (P := fmul _ _) in *. set (T := to_int P) in *. clearbody T P. revert Hc HT Hu. generalize one.
  intros u Hc HT Hu.
  assert (i * n ≤ 2 ^ 51) as Hin by nia.
  (* the two errors, scaled to the denominator *)
  assert (2 ^ 53 * (d * P) ≤ (2 ^ 53 + 1) * (i * (d * c))) as H1 by nia.
  assert ((2 ^ 53 - 1) * (i * (d * c)) ≤ 2 ^ 53 * (d * P)) as H2 by nia.
  assert (2 ^ 53 * (i * (d * c)) ≤ (2 ^ 53 + 1) * (i * n * u)) as H3 by nia.
  assert ((2 ^ 53 - 1) * (i * n * u) ≤ 2 ^ 53 * (i * (d * c))) as H4 by nia.
  assert (d * T * u ≤ d * P < d * (T + 1) * u) as H5 by nia.
  set (K := i * (d * c)) in *. set (D := d * P) in *. set (t := d * T) in *.
  replace (d * (T + 1)) with (t + d) in * by lia. set (m := i * n) in *. replace (n * i) with m by lia.
  clearbody K D t m. clear He HT Hc.
  assert (2 ^ 106 * (t * u) ≤ (2 ^ 53 + 1) * (2 ^ 53 + 1) * (m * u)) as H6 by lia.
  assert ((2 ^ 53 - 1) * (2 ^ 53 - 1) * (m * u) < 2 ^ 106 * ((t + d) * u)) as H7 by lia.
  assert (2 ^ 106 * t ≤ (2 ^ 53 + 1) * (2 ^ 53 + 1) * m) as H8 by nia.
  assert ((2 ^ 53 - 1) * (2 ^ 53 - 1) * m < 2 ^ 106 * (t + d)) as H9 by nia.
  lia.
Qed.

(** The used and the available part of a disk add up to its capacity, but for
    the two truncations. *)
Lemma disk_parts cap x :
  1 ≤ cap ≤ 2 ^ 40 → 2 ^ 52 ≤ x → x ≤ one - 2 ^ 52 →
  let used := to_int (fmul (of_int cap) x) in
  let available := to_int (fmul (of_int cap) (fsub one x)) in
  0 ≤ used ∧ 0 ≤ available ∧ cap - 2 ≤ used + available ≤ cap.
Proof.
  intros Hcap Hx Hx'. cbv zeta.
  pose proof (fsub_error one x ltac:(lia)) as Hs. rewrite (Z.abs_eq (one - x)) in Hs by lia.
  pose proof (fmul_int_error cap x ltac:(lia) Hx) as H1.
  assert (2 ^ 51 ≤ fsub one x) as Hy0 by lia.
  assert (2 ^ 52 ≤ fsub one x) as Hy.
  { rewrite fsub_frac. apply round_frac_ge; [done| |lia]. by exists 1, 52. }
  pose proof (fmul_int_error cap (fsub one x) ltac:(lia) Hy) as H2.
  assert (∀ z, 0 ≤ z → 0 ≤ fmul (of_int cap) z) as Hpos.
  { intros z Hz. rewrite fmul_frac. apply round_frac_nonneg; [exact one_pos|].
    apply Z.mul_nonneg_nonneg; [apply of_int_nonneg; lia|lia]. }
  pose proof (to_int_bounds _ (Hpos x ltac:(lia))) as T1.
  pose proof (to_int_bounds _ (Hpos (fsub one x) ltac:(lia))) as T2.
  pose proof (Hpos x ltac:(lia)) as P1. pose proof (Hpos (fsub one x) ltac:(lia)) as P2.
  set (A := fmul _ x) in *. set (B := fmul _ (fsub one x)) in *. set (y := fsub one x) in *.
  set (a := to_int A) in *. set (b := to_int B) in *. pose proof one_pos as Hu. clear Hpos Hy0.
  clearbody a b A B y. revert Hs H1 H2 T1 T2 Hu Hx'. generalize one. intros u Hs H1 H2 T1 T2 Hu Hx'.
  assert (2 ^ 53 * Z.abs (cap * y - cap * (u - x)) ≤ cap * u) as H3 by nia.
  assert (cap * y ≤ 2 * (cap * u)) as H4 by nia.
  assert (cap * x ≤ cap * u) as H5 by nia.
  assert (2 ^ 53 * Z.abs (A + B - cap * u) ≤ 4 * (cap * u)) as H6 by lia.
  assert (cap * u ≤ 2 ^ 40 * u) as H7 by (apply Z.mul_le_mono_nonneg_r; lia).
  assert (- u < A + B - cap * u < u) as H8 by lia. clear Hs H1 H2 H3 H4 H5 H6 H7 Hx Hx'.
  assert (0 < (a + 1) * u ∧ 0 < (b + 1) * u) as [Ha Hb] by lia.
  apply Z.lt_0_mul in Ha, Hb.
  assert ((a + b) * u < (cap + 1) * u) as Hup by lia. apply Z.mul_lt_mono_pos_r in Hup; [|done].
  assert ((cap - 1) * u < (a + b + 2) * u) as Hlo by lia. apply Z.mul_lt_mono_pos_r in Hlo; [|done].
  lia.
Qed.

(** ** The snapshot in closed form *)

Lemma snapshot_steps mn ps :
  let mn' := foldl snapshot_step mn ps in
  NodeName mn' = NodeName mn ∧ NodeIsReady mn' = NodeIsReady mn ∧ NodeRoles mn' = NodeRoles mn ∧
  NodeAllocatable mn' = NodeAllocatable mn ∧ NodeDisk mn' = NodeDisk mn ∧
  CPUMillis (NodeUsage mn') = foldl add64 (CPUMillis (NodeUsage mn)) ((λ p, CPUMillis (mock_usage p)) <$> ps) ∧
  MemBytes (NodeUsage mn') = foldl add64 (MemBytes (NodeUsage mn)) ((λ p, MemBytes (mock_usage p)) <$> ps) ∧
  NodeHasUsage mn' = (if decide (ps = []) then NodeHasUsage mn else true) ∧
  node_pods mn' = node_pods mn ++ (mock_pod <$> ps).
Proof.
  revert mn. induction ps as [|p ps IH]; intros mn; [by rewrite app_nil_r|].
  destruct (IH (snapshot_step mn p)) as (H1 & H2 & H3 & H4 & H5 & H6 & H7 & H8 & H9).
  cbn zeta. cbn [foldl]. rewrite H1, H2, H3, H4, H5, H6, H7, H8, H9. rewrite (decide_False (P := p :: ps = [])) by done.
  change (node_pods (snapshot_step mn p)) with (node_pods mn ++ [mock_pod p]). rewrite <-app_assoc.
  split_and!; try done.
  by destruct (decide (ps = [])).
Qed.

(** What a simulated pod shows: usage between 5% and 160% of the CPU request,
    between 10% and 130% of the memory request, rounded down. *)
Record pod_shows (p : Pod) : Prop := {
  shows_usage : PodHasUsage p = true;
  shows_cpu_request : 50 ≤ CPUMillis (PodRequests p) ≤ 2000;
  shows_mem_request : 96 * 2 ^ 20 ≤ MemBytes (PodRequests p) ≤ 2 ^ 32;
  shows_limits : PodLimits p = {| CPUMillis := 2 * CPUMillis (PodRequests p); MemBytes := 2 * MemBytes (PodRequests p) |};
  shows_cpu : 5 * CPUMillis (PodRequests p) ≤ 100 * (CPUMillis (PodUsage p) + 1) ∧
              100 * CPUMillis (PodUsage p) ≤ 160 * CPUMillis (PodRequests p);
  shows_mem : 10 * MemBytes (PodRequests p) ≤ 100 * (MemBytes (PodUsage p) + 1) ∧
              100 * MemBytes (PodUsage p) ≤ 130 * MemBytes (PodRequests p);
  shows_nonneg : 0 ≤ CPUMillis (PodUsage p) ∧ 0 ≤ MemBytes (PodUsage p);
}.

(** What a simulated node shows. *)
Record node_shows (n : Node) : Prop := {
  shows_ready : NodeIsReady n = true;
  shows_node_usage : NodeHasUsage n = true;
  shows_pods : NodePods n ≠ None ∧ node_pods n ≠ [];
  shows_each : Forall pod_shows (node_pods n);
  shows_cpu_sum : CPUMillis (NodeUsage n) = sumZ ((λ p, CPUMillis (PodUsage p)) <$> node_pods n);
  shows_mem_sum : MemBytes (NodeUsage n) = sumZ ((λ p, MemBytes (PodUsage p)) <$> node_pods n);
  shows_disk : let d := NodeDisk n in
    DiskIsLive d = true ∧ CapacityBytes d = AllocDiskBytes (NodeAllocatable n) ∧
    0 ≤ UsedBytes d ∧ 0 ≤ AvailableBytes d ∧
    CapacityBytes d - 2 ≤ UsedBytes d + AvailableBytes d ≤ CapacityBytes d;
}.

Lemma near_constants :
  near f0_05 5 100 ∧ near f1_6 160 100 ∧ near f0_1 10 100 ∧ near f1_3 130 100 ∧
  2 ^ 52 ≤ f0_05 ∧ 2 ^ 52 ≤ f1_6 ∧ 2 ^ 52 ≤ f0_1 ∧ 2 ^ 52 ≤ f1_3 ∧ f0_97 ≤ one - 2 ^ 52.
Proof. split_and!; try (unfold near); float_compute. Qed.

(** A usage between two percentages of a request. *)
Lemma usage_between i x lo hi n1 n2 :
  1 ≤ i ≤ 2 ^ 41 → 0 < n1 ≤ 2 ^ 10 → 0 < n2 ≤ 2 ^ 10 → near lo n1 100 → near hi n2 100 →
  2 ^ 52 ≤ lo → 2 ^ 52 ≤ hi → lo ≤ x ≤ hi →
  let u := to_int (fmul (of_int i) x) in
  0 ≤ u ∧ n1 * i ≤ 100 * (u + 1) ∧ 100 * u ≤ n2 * i.
Proof.
  intros Hi Hn1 Hn2 Hlo Hhi Hb1 Hb2 Hx u.
  pose proof (product_between i x lo hi (of_int_nonneg i ltac:(lia)) ltac:(lia) Hx) as Hp. fold u in Hp.
  pose proof (scaled_bounds i lo n1 100 Hi Hn1 ltac:(lia) Hlo Hb1).
  pose proof (scaled_bounds i hi n2 100 Hi Hn2 ltac:(lia) Hhi Hb2). split; [|lia].
  unfold u. rewrite to_int_nonneg; [apply Z.div_pos; [|exact one_pos]|];
    (rewrite fmul_frac; apply round_frac_nonneg; [exact one_pos|];
     apply Z.mul_nonneg_nonneg; [apply of_int_nonneg; lia|lia]).
Qed.

Lemma mock_pod_shows p : pod_ok p → pod_shows (mock_pod p).
Proof.
  intros [Hc Hm Hl Hcf Hmf]. unfold cpu_range, mem_range, cpuFrac_range, memFrac_range in *.
  destruct near_constants as (N1 & N2 & N3 & N4 & B1 & B2 & B3 & B4 & _).
  pose proof (usage_between (CPUMillis (req p)) (cpuFrac p) f0_05 f1_6 5 160
    ltac:(lia) ltac:(lia) ltac:(lia) N1 N2 B1 B2 Hcf) as (U1 & U2 & U3).
  pose proof (usage_between (MemBytes (req p)) (memFrac p) f0_1 f1_3 10 130
    ltac:(lia) ltac:(lia) ltac:(lia) N3 N4 B3 B4 Hmf) as (V1 & V2 & V3).
  constructor; [reflexivity|exact Hc|exact Hm|exact Hl|..]; cbn [mock_pod PodUsage PodRequests mock_usage CPUMillis MemBytes]; lia.
Qed.

(** The total usage of a node fits an int64 with room to spare. *)
Lemma usage_sums ps :
  Forall pod_shows (mock_pod <$> ps) →
  0 ≤ sumZ ((λ p, CPUMillis (mock_usage p)) <$> ps) ≤ 2 ^ 33 * Z.of_nat (length ps) ∧
  0 ≤ sumZ ((λ p, MemBytes (mock_usage p)) <$> ps) ≤ 2 ^ 33 * Z.of_nat (length ps).
Proof.
  induction ps as [|p ps IH]; intros Hall; [done|].
  rewrite fmap_cons in Hall. apply Forall_cons in Hall as [Hp Hall]. specialize (IH Hall).
  rewrite !fmap_cons. autorewrite with go. destruct Hp as [_ Hc Hm _ Uc Um Un].
  cbn [mock_pod PodUsage PodRequests] in *. simpl length. rewrite Nat2Z.inj_succ. lia.
Qed.

Lemma mock_node_fields n :
  let mn := mock_node n in
  NodeName mn = node_name n ∧ NodeIsReady mn = true ∧ NodeRoles mn = roles n ∧ NodeAllocatable mn = alloc n ∧
  NodeDisk mn = {| CapacityBytes := AllocDiskBytes (alloc n);
                   UsedBytes := to_int (fmul (of_int (AllocDiskBytes (alloc n))) (diskUsed n));
                   AvailableBytes := to_int (fmul (of_int (AllocDiskBytes (alloc n))) (fsub one (diskUsed n)));
                   DiskIsLive := true |} ∧
  CPUMillis (NodeUsage mn) = sum64 ((λ p, CPUMillis (mock_usage p)) <$> pods n) ∧
  MemBytes (NodeUsage mn) = sum64 ((λ p, MemBytes (mock_usage p)) <$> pods n) ∧
  NodeHasUsage mn = (if decide (pods n = []) then false else true) ∧
  node_pods mn = mock_pod <$> pods n.
Proof. exact (snapshot_steps _ (pods n)). Qed.

Lemma shapes_disk_ok : Forall (λ s, 1 ≤ shape_disk s ≤ 2 ^ 40) shapes.
Proof. apply (bool_decide_unpack _). vm_compute. exact I. Qed.

Lemma mock_node_shows i s n :
  node_ok i s n → 0 < fill_target i s ≤ 16000 → 1 ≤ shape_disk s ≤ 2 ^ 40 → node_shows (mock_node n).
Proof.
  intros [_ _ Ha Hd Hp Hf] Ht Hs. destruct (mock_node_fields n) as (_ & E1 & _ & E2 & E3 & E4 & E5 & E6 & E7).
  assert (Forall pod_shows (mock_pod <$> pods n)) as Hshow.
  { apply Forall_fmap. eapply Forall_impl; [exact Hp|]. apply mock_pod_shows. }
  assert (pods n ≠ []) as Hne.
  { intros E. rewrite E in Hf. unfold requested in Hf. simpl in Hf. lia. }
  pose proof (requested_lower _ Hp) as Hlen.
  destruct (usage_sums _ Hshow) as [S1 S2]. unfold diskUsed_range in Hd.
  destruct near_constants as (_ & _ & _ & _ & B1 & _ & _ & _ & B2).
  constructor; rewrite ?E7.
  - exact E1.
  - by rewrite E6, decide_False.
  - split; [intros E; unfold node_pods in E7; rewrite E in E7; simpl in E7|intros E7'];
      destruct (pods n); done.
  - exact Hshow.
  - rewrite E4, <-list_fmap_compose, sum64_small; [done|]. unfold in_int64. lia.
  - rewrite E5, <-list_fmap_compose, sum64_small; [done|]. unfold in_int64. lia.
  - cbv zeta. rewrite E2, E3. cbn [DiskIsLive CapacityBytes UsedBytes AvailableBytes]. rewrite Ha. cbn [AllocDiskBytes].
    pose proof (disk_parts (shape_disk s) (diskUsed n) Hs ltac:(lia) ltac:(lia)) as H. cbv zeta in H. tauto.
Qed.

(** ** Identities *)

(** Two different numbers print differently, padded or not. *)
Lemma padded_value w n : 0 ≤ n < 2 ^ 64 → digits_value 0 (padded w n) = Some n.
Proof.
  intros Hn. unfold padded. assert (digits_value 0 (int_lit n) = Some n) as H.
  { pose proof (ParseUint_int_lit n Hn) as H. unfold ParseUint in H. destruct (decide _); [done|].
    destruct (digits_value 0 (int_lit n)) as [v|]; simpl in H; [|done]. by destruct (decide _). }
  induction (w - String.length (int_lit n))%nat as [|k IH]; [exact H|exact IH].
Qed.

Lemma uid_text_inj a b : 0 ≤ a < 2 ^ 64 → 0 ≤ b < 2 ^ 64 → uid_text a = uid_text b → a = b.
Proof.
  intros Ha Hb E. unfold uid_text in E. autorewrite with go in E. injection E as E.
  apply (f_equal (digits_value 0)) in E. rewrite !padded_value in E by done. congruence.
Qed.

Lemma uids_NoDup n : (Z.of_nat n < 2 ^ 63) → NoDup (uid_text <$> seqZ 1 (Z.of_nat n)).
Proof.
  intros Hn. apply NoDup_fmap_2_strong; [|apply NoDup_seqZ].
  intros a b Ha%elem_of_seqZ Hb%elem_of_seqZ. apply uid_text_inj; lia.
Qed.

(** All the pods of a list of nodes, by UID. *)
Definition all_uids (ns : list Node) : list string := ns ≫= λ n, PodUID <$> node_pods n.

Lemma nodes_ok_uids i ss id nodes :
  nodes_ok i ss id nodes →
  all_uids (mock_node <$> nodes) = uid_text <$> seqZ (id + 1) (Z.of_nat (length (nodes ≫= pods))).
Proof.
  revert i id ss. induction nodes as [|n nodes IH]; intros i id [|s ss]; try done. intros (_ & Hu & Hrest).
  unfold all_uids. rewrite fmap_cons, !bind_cons. fold (all_uids (mock_node <$> nodes)). rewrite (IH _ _ _ Hrest).
  destruct (mock_node_fields n) as (_ & _ & _ & _ & _ & _ & _ & _ & ->). rewrite <-list_fmap_compose.
  change (PodUID ∘ mock_pod) with uid. rewrite Hu, length_app, Nat2Z.inj_add, seqZ_app, fmap_app by lia.
  do 3 f_equal. lia.
Qed.

Lemma nodes_ok_count i ss id nodes :
  fill_ok i ss → nodes_ok i ss id nodes →
  Z.of_nat (length (nodes ≫= pods)) ≤ 400 * Z.of_nat (length ss) ∧ Forall (λ n, ∃ i s, node_ok i s n ∧
    0 < fill_target i s ≤ 16000 ∧ s ∈ ss) nodes.
Proof.
  revert i id ss. induction nodes as [|n nodes IH]; intros i id [|s ss] Hf; try done. intros (Hn & _ & Hrest).
  apply fill_ok_cons in Hf as [Ht Hf]. destruct (IH _ _ _ Hf Hrest) as [IH1 IH2].
  pose proof (requested_lower _ (ok_pods _ _ _ Hn)). pose proof (ok_fill _ _ _ Hn). split.
  - rewrite bind_cons, length_app. simpl length. lia.
  - constructor; [exists i, s; split_and!; [done|lia|lia|left]|]. eapply Forall_impl; [exact IH2|].
    intros n' (i' & s' & ? & ? & ?). exists i', s'. split_and!; [done|lia|lia|by right].
Qed.

(** What a snapshot of the simulated cluster promises. *)
Record simulated (snap : Snapshot) : Prop := {
  sim_capabilities : SnapCapabilities snap =
    {| CapMetrics := true; CapMetricsReason := ""; CapDisk := true; CapDiskReason := "" |};
  sim_names : NodeName <$> SnapNodes snap =
    ["node-01"; "node-02"; "node-03"; "node-04"; "node-05"; "node-06"; "node-07"];
  sim_nodes : Forall node_shows (SnapNodes snap);
  sim_uids : NoDup (all_uids (SnapNodes snap));
  sim_fill : Forall2 (λ t n, t ≤ sumZ ((λ p, CPUMillis (PodRequests p)) <$> node_pods n) < t + 2000)
    [4400; 7200; 7200; 11200; 3400; 1200; 2400] (SnapNodes snap);
}.

Lemma cluster_names nodes :
  cluster_ok nodes → NodeName <$> (mock_node <$> nodes) =
    ["node-01"; "node-02"; "node-03"; "node-04"; "node-05"; "node-06"; "node-07"].
Proof.
  intros Hok. transitivity (node_name <$> nodes).
  { rewrite <-list_fmap_compose. apply list_fmap_ext. intros i n _. apply mock_node_fields. }
  unfold cluster_ok, shapes in Hok.
  do 7 (destruct nodes as [|? nodes]; [done|]; destruct Hok as ([? _ _ _ _ _] & _ & Hok)).
  destruct nodes; [|done]. rewrite !fmap_cons.
  repeat match goal with H : node_name _ = _ |- _ => rewrite H; clear H end. vm_compute. reflexivity.
Qed.

(** The targets of the source, truncated. *)
Lemma fill_targets : imap fill_target shapes = [4400; 7200; 7200; 11200; 3400; 1200; 2400].
Proof. vm_compute. reflexivity. Qed.

Lemma nodes_fill i ss id nodes :
  nodes_ok i ss id nodes →
  Forall2 (λ t n, t ≤ sumZ ((λ p, CPUMillis (PodRequests p)) <$> node_pods n) < t + 2000)
    (imap (λ k, fill_target (i + k)) ss) (mock_node <$> nodes).
Proof.
  revert i id ss. induction nodes as [|n nodes IH]; intros i id [|s ss]; try done. intros (Hn & _ & Hrest).
  rewrite imap_cons, fmap_cons. constructor.
  - rewrite Nat.add_0_r. destruct (mock_node_fields n) as (_ & _ & _ & _ & _ & _ & _ & _ & ->).
    rewrite <-list_fmap_compose. exact (ok_fill _ _ _ Hn).
  - rewrite (imap_ext _ (λ k, fill_target (S i + k))); [by eapply IH|].
    intros k x _. simpl. f_equal. lia.
Qed.

Lemma cluster_fill nodes :
  cluster_ok nodes →
  Forall2 (λ t n, t ≤ sumZ ((λ p, CPUMillis (PodRequests p)) <$> node_pods n) < t + 2000)
    [4400; 7200; 7200; 11200; 3400; 1200; 2400] (mock_node <$> nodes).
Proof. rewrite <-fill_targets. exact (nodes_fill 0 shapes 0 nodes). Qed.

Lemma cluster_simulated now nodes : cluster_ok nodes → simulated (snapshot now nodes).
Proof.
  intros Hok. destruct (nodes_ok_count 0 shapes 0 nodes shapes_fill_ok Hok) as [Hcount Hall].
  constructor; cbn [snapshot SnapCapabilities SnapNodes].
  - reflexivity.
  - by apply cluster_names.
  - apply Forall_fmap. eapply Forall_impl; [exact Hall|]. intros n (i & s & Hn & Ht & Hs).
    eapply mock_node_shows; [exact Hn|exact Ht|]. pose proof shapes_disk_ok as Hd. rewrite Forall_forall in Hd. by apply Hd.
  - rewrite (nodes_ok_uids _ _ _ _ Hok). apply uids_NoDup. simpl in Hcount. lia.
  - by apply cluster_fill.
Qed.

Lemma simulated_coherent snap : simulated snap → coherent snap.
Proof.
  intros [Hc Hn _ _ _]. constructor; rewrite ?Hc; try done.
  destruct (SnapNodes snap) as [|n1 [|n2 [|n3 [|n4 [|n5 [|n6 [|n7 [|n8 l]]]]]]]]; try done.
  injection Hn as E1 E2 E3 E4 E5 E6 E7.
  repeat constructor; unfold key_le; rewrite ?E1, ?E2, ?E3, ?E4, ?E5, ?E6, ?E7; by apply (bool_decide_unpack _).
Qed.

(** What the user interface keys its rendering by, and all else that does not
    change. *)
Definition identity (snap : Snapshot) :=
  (λ n, (NodeName n, NodeIsReady n, NodeRoles n, NodeAllocatable n,
         (λ p, (PodUID p, PodName p, PodNamespace p, PodRequests p, PodLimits p)) <$> node_pods n)) <$> SnapNodes snap.

Lemma same_nodes_identity now now' nodes nodes' :
  Forall2 same_node nodes nodes' → identity (snapshot now' nodes') = identity (snapshot now nodes).
Proof.
  unfold identity. cbn [snapshot SnapNodes]. induction 1 as [|n n' nodes nodes' [E1 E2 E3 Hp] _ IH]; [done|].
  rewrite !fmap_cons. f_equal; [clear IH|exact IH].
  destruct (mock_node_fields n) as (-> & -> & -> & -> & _ & _ & _ & _ & ->).
  destruct (mock_node_fields n') as (-> & -> & -> & -> & _ & _ & _ & _ & ->).
  rewrite E1, E2, E3. f_equal. rewrite <-!list_fmap_compose.
  induction Hp as [|p p' ps ps' [F1 F2 F3 F4 F5] _ IH]; [done|]. rewrite !fmap_cons, IH. f_equal.
  cbn. by rewrite F1, F2, F3, F4, F5.
Qed.
