(* ===== verification/MockTermination.v ===== *)
(** * The mock source: termination

    Nothing bounds how long a rejection loop may draw.  [build] and [drift]
    return when the generator is fair: again and again it returns two values
    in a row that no loop of theirs rejects. *)

From S2P Require Import Prelude.
From S2P Require Import Float64.
From S2P Require Import Rand.
From S2P Require Import Model.
From S2P Require Import Mock.
From S2P Require Import MockCluster.

Section termination.
Local Open Scope nat_scope.
Context (Int63 : nat → Z) `{!Int63Laws Int63} (fused : place → bool).

(** A value that every [Intn] and [Float64] of the file takes at once, and
    that makes the namespace draw of [build] accept any namespace. *)
Definition lucky (v : Z) : Prop :=
  Forall (λ n, Intn_rejects n v = false) [6; 7; 10; 12]%Z ∧ Float64_rejects v = false ∧ (Intn_value 10 v ≤ 4)%Z.

Definition fair : Prop := ∀ pos, ∃ w, pos ≤ w ∧ lucky (Int63 w) ∧ lucky (Int63 (S w)).

Context (Hfair : fair).

(** Whatever the position, the computation returns. *)
Definition total {A} (m : Rand A) : Prop := ∀ pos, returns m pos (λ _ _, True).

Lemma total_ret {A} (x : A) : total (mret x).
Proof. intros pos. by apply returns_ret. Qed.

Lemma total_bind {A B} (m : Rand A) (k : A → Rand B) (R : A → Prop) :
  total m → ensures m R → (∀ x, R x → total (k x)) → total (m ≫= k).
Proof.
  intros Hm HR Hk pos. apply returns_bind. eapply returns_weaken; [apply returns_ensures; [exact HR|apply Hm]|].
  intros x p [Hx _]. by apply Hk.
Qed.

Lemma total_bind' {A B} (m : Rand A) (k : A → Rand B) : total m → (∀ x, total (k x)) → total (m ≫= k).
Proof. intros Hm Hk. by apply (total_bind m k (λ _, True)); [|intros ? ? ? ? ?|]. Qed.

Lemma Intn_window n pos w :
  pos ≤ w → Intn_rejects n (Int63 w) = false →
  returns (Intn Int63 n) pos (λ v p, pos < p ≤ S w ∧ v = Intn_value n (Int63 (pred p))).
Proof.
  intros Hle Hw. apply returns_bind. eapply returns_weaken; [by apply (redraw_returns Int63 _ pos w)|].
  intros v p [Hp ->]. by apply returns_ret.
Qed.

Lemma lucky_Intn n v : n ∈ [6; 7; 10; 12]%Z → lucky v → Intn_rejects n v = false.
Proof. intros Hn (Hv & _). rewrite Forall_forall in Hv. by apply Hv. Qed.

Lemma Intn_total n : n ∈ [6; 7; 10; 12]%Z → total (Intn Int63 n).
Proof.
  intros Hn pos. destruct (Hfair pos) as (w & Hle & Hw & _).
  eapply returns_weaken; [apply (Intn_window n pos w Hle)|done]. by apply lucky_Intn.
Qed.

Lemma Float64_total : total (Float64 Int63).
Proof.
  intros pos. destruct (Hfair pos) as (w & Hle & (_ & Hw & _) & _). apply returns_bind.
  eapply returns_weaken; [by apply (redraw_returns Int63 _ pos w)|]. intros v p _. by apply returns_ret.
Qed.

Ltac drawing := first [apply Float64_total | apply Intn_total; apply (bool_decide_unpack _); exact I].

Lemma make_pod_total space id : total (make_pod Int63 fused space id).
Proof.
  apply total_bind'; [drawing|intros f]. apply total_bind'; [drawing|intros k].
  apply total_bind'; [drawing|intros f1]. apply total_bind'; [drawing|intros f2].
  apply total_bind'; [drawing|intros hot]. apply total_bind'; [|intros cpu; apply total_ret].
  case_match; [|apply total_ret]. apply total_bind'; [drawing|intros f3; apply total_ret].
Qed.

Lemma mapM_rand_total {A B} (f : A → Rand B) xs : (∀ x, total (f x)) → total (mapM_rand f xs).
Proof.
  intros Hf. induction xs as [|x xs IH]; [apply total_ret|]. cbn [mapM_rand].
  apply total_bind'; [apply Hf|intros y]. apply total_bind'; [exact IH|intros ys; apply total_ret].
Qed.

Lemma drift_total nodes : total (drift Int63 fused nodes).
Proof.
  apply mapM_rand_total. intros n. apply total_bind'; [drawing|intros f].
  apply total_bind'; [|intros ps; apply total_ret]. apply mapM_rand_total. intros p.
  apply total_bind'; [drawing|intros f1]. apply total_bind'; [drawing|intros f2; apply total_ret].
Qed.

(** The loop of [build] with enough rounds and enough fuel. *)
Definition loops (target id used : Z) (acc : list mockPod) (pos : nat) : Prop :=
  ∃ r p enough, ∀ rounds fuel, enough ≤ rounds → enough ≤ fuel →
    fill_loop Int63 fused rounds target id used acc fuel pos = Some (r, p).

(** One round, from what its draws return. *)
Lemma loops_step target id used acc pos w :
  (used < target)%Z → pos ≤ w → lucky (Int63 w) → lucky (Int63 (S w)) →
  (∀ pos', pos < pos' ≤ w → loops target id used acc pos') →
  (∀ p pos', (50 ≤ CPUMillis (req p) ≤ 2000)%Z →
     loops target (add64 id 1) (add64 used (CPUMillis (req p))) (acc ++ [p]) pos') →
  loops target id used acc pos.
Proof.
  intros Hlt Hle Hw Hw' Hreject Haccept.
  destruct (returns_ensures _ _ _ _ (Intn_ensures Int63 7 ltac:(lia))
              (Intn_window 7 pos w Hle (lucky_Intn 7 _ ltac:(set_solver) Hw)))
    as (i & p1 & n1 & (Hi & [Hp1 _]) & E1).
  assert (∃ w2, p1 ≤ w2 ∧ w2 ≤ S w ∧ w ≤ w2 ∧ lucky (Int63 w2)) as (w2 & Hw2 & Hw2' & Hw2'' & Hl).
  { destruct (decide (p1 ≤ w)); [exists w|exists (S w)]; split_and!; try done; lia. }
  destruct (Intn_window 10 p1 w2 Hw2 (lucky_Intn 10 _ ltac:(set_solver) Hl)) as (r & p2 & n2 & [Hp2 Hr] & E2).
  destruct (Z.ltb_spec (weight (namespace_at i) + 3) r) as [Hrej|Hacc].
  - assert (p2 ≤ w) as Hp2w.
    { assert (Forall (λ s, (1 ≤ weight s)%Z) mockNamespaces) as Hweights by by apply (bool_decide_unpack _).
      rewrite Forall_forall in Hweights. pose proof (Hweights _ (namespace_at_in i Hi)) as Hge. cbv beta in Hge.
      destruct (decide (p2 ≤ w)); [done|]. assert (pred p2 = w ∨ pred p2 = S w) as Hor by lia.
      assert (Intn_value 10 (Int63 (pred p2)) ≤ 4)%Z by (destruct Hor as [-> | ->]; [apply Hw|apply Hw']). lia. }
    destruct (Hreject p2 ltac:(lia)) as (res & p & n & E). exists res, p, (S (Nat.max n1 (Nat.max n2 n))).
    intros [|rounds] fuel Hrounds Hfuel; [lia|]. cbn [fill_loop]. rewrite (proj2 (Z.ltb_lt _ _) Hlt).
    unfold mbind, Rand_bind. rewrite E1 by lia. rewrite E2 by lia. rewrite (proj2 (Z.ltb_lt _ _) Hrej).
    apply E; lia.
  - destruct (returns_ensures _ _ _ _ (make_pod_ensures Int63 fused (namespace_at i) (add64 id 1) (namespace_at_in i Hi))
                (make_pod_total (namespace_at i) (add64 id 1) p2)) as (q & p3 & n3 & [[Hq _] _] & E3).
    destruct (Haccept q p3 (req_cpu q Hq)) as (res & p & n & E). exists res, p, (S (Nat.max (Nat.max n1 n2) (Nat.max n3 n))).
    intros [|rounds] fuel Hrounds Hfuel; [lia|]. cbn [fill_loop]. rewrite (proj2 (Z.ltb_lt _ _) Hlt).
    unfold mbind, Rand_bind. rewrite E1 by lia. rewrite E2 by lia. rewrite (proj2 (Z.ltb_ge _ _) Hacc).
    rewrite E3 by lia. apply E; lia.
Qed.

Lemma loops_total k target id used acc pos :
  (0 ≤ used)%Z → (target ≤ 2 ^ 40)%Z → (target - used ≤ 50 * Z.of_nat k)%Z → loops target id used acc pos.
Proof.
  intros Hused Ht. revert id used acc pos Hused. induction k as [|k IHk]; intros id used acc pos Hused Hk.
  { exists (id, acc), pos, 1. intros [|rounds] fuel Hr Hf; [lia|]. cbn [fill_loop].
    by rewrite (proj2 (Z.ltb_ge used target)) by lia. }
  destruct (decide (used < target)%Z) as [Hlt|Hge].
  2: { exists (id, acc), pos, 1. intros [|rounds] fuel Hr Hf; [lia|]. cbn [fill_loop].
       by rewrite (proj2 (Z.ltb_ge used target)) by lia. }
  destruct (Hfair pos) as (w & Hle & Hw & Hw'). remember (w - pos) as d eqn:Hd. revert pos Hle Hd.
  induction d as [d IHd] using lt_wf_ind. intros pos Hle Hd.
  apply (loops_step target id used acc pos w); try done.
  - intros pos' Hpos'. apply (IHd (w - pos')); lia.
  - intros p pos' Hp. apply IHk; rewrite add64_small by (unfold in_int64; lia); lia.
Qed.

Lemma fill_total target id : (target ≤ 2 ^ 40)%Z → total (fill Int63 fused target id).
Proof.
  intros Ht pos. destruct (loops_total (Z.to_nat target) target id 0 [] pos) as (r & p & n & E); [lia|done|lia|].
  exists r, p, n. split; [done|]. intros fuel Hf. by apply E.
Qed.

Lemma build_from_total i ss id : fill_ok i ss → total (build_from Int63 fused i ss id).
Proof.
  revert i id. induction ss as [|s ss IH]; intros i id Hf; [apply total_ret|].
  apply fill_ok_cons in Hf as [Ht Hf]. cbn [build_from]. apply total_bind'.
  - apply total_bind'; [drawing|intros f]. apply total_bind'; [apply fill_total; lia|].
    intros [id' ps]. apply total_ret.
  - intros [id' n]. apply total_bind'; [by apply IH|intros rest; apply total_ret].
Qed.

Lemma build_total : total (build Int63 fused).
Proof. apply build_from_total, shapes_fill_ok. Qed.
End termination.
