(* ===== verification/MockSource.v ===== *)
(** * The mock source among its readers

    [NewMock] and [Run] interleaved with readers ([mock_acts]), the invariant
    of that, the mock as an instance of [Source], and the properties of
    internal/collector/mock.go with their witnesses. *)

From S2P Require Import Prelude.
From S2P Require Import Float64.
From S2P Require Import Rand.
From S2P Require Import Model.
From S2P Require Import PubSub.
From S2P Require Import Source.
From S2P Require Import Mock.
From S2P Require Import MockCluster.
From S2P Require Import MockSnapshot.
From S2P Require Import MockTermination.

Section source.
Context (Int63 : nat → Z) (fused : place → bool).

(** A tick of [Run], or a reader's call. *)
Inductive mock_act :=
| MockTick (now : Time)
| MockSubscribe
| MockCancel (ch : nat)
| MockRecv (ch : nat).

Definition mock_step (fuel : nat) (m : Mock) (a : mock_act) : option Mock :=
  match a with
  | MockTick now => mock_tick Int63 fused now fuel m
  | MockSubscribe => Some (mock_client OpSubscribe m)
  | MockCancel ch => Some (mock_client (OpCancel ch) m)
  | MockRecv ch => Some (mock_client (OpRecv ch) m)
  end.

Fixpoint mock_acts (fuel : nat) (m : Mock) (l : list mock_act) : option Mock :=
  match l with
  | [] => Some m
  | a :: l => m ← mock_step fuel m a; mock_acts fuel m l
  end.

(** The invariant: everything a reader can get is a snapshot of the simulated
    cluster, and shows the same nodes and pods as the present one. *)
Record mock_inv (m : Mock) : Prop := {
  minv_cluster : cluster_ok (mock_nodes m);
  minv_source : source_inv (mock_pub m) (mock_allocated m);
  minv_latest : is_Some (Latest (mock_pub m));
  minv_visible : ∀ p, visible (mock_pub m) p →
    simulated (deref p) ∧ identity (deref p) = identity (snapshot 0 (mock_nodes m));
}.

Context `{!Int63Laws Int63}.

Lemma NewMock_inv now fuel m : NewMock Int63 fused now fuel = Some m → mock_inv m.
Proof.
  unfold NewMock. destruct (build Int63 fused fuel 0) as [[nodes pos]|] eqn:E; [|done].
  intros [= <-]. pose proof (build_ensures Int63 fused fuel 0 nodes pos E) as Hok.
  set (p0 := {| address := 0; deref := snapshot now nodes |}).
  assert (∀ p, visible (PubSub (Some p0) ∅ ∅ 0) p → p = p0) as Hvis.
  { intros p [Hp|[ch Hp]]; [by injection Hp|]. by apply not_elem_of_nil in Hp. }
  assert (simulated (snapshot now nodes)) as Hsim by by apply cluster_simulated.
  constructor; cbn [mock_nodes mock_pub mock_allocated].
  - exact Hok.
  - constructor.
    + destruct (pubsub0_ok (A := snap_ptr)). by constructor.
    + intros p ->%Hvis. split; [by apply simulated_coherent|simpl; lia].
    + by intros p p' ->%Hvis ->%Hvis.
  - by exists p0.
  - intros p ->%Hvis. by split.
Qed.

Lemma mock_tick_some now fuel m m' :
  mock_inv m → mock_tick Int63 fused now fuel m = Some m' →
  ∃ nodes, cluster_ok nodes ∧ Forall2 same_node (mock_nodes m) nodes ∧ mock_nodes m' = nodes ∧
    mock_pub m' = publish_fresh (snapshot now nodes) (mock_allocated m) (mock_pub m) ∧
    mock_allocated m' = S (mock_allocated m).
Proof.
  intros Hm. unfold mock_tick. destruct (drift Int63 fused (mock_nodes m) fuel (mock_rng m)) as [[nodes pos]|] eqn:E; [|done].
  intros [= <-]. destruct (drift_ensures Int63 fused _ (minv_cluster m Hm) _ _ _ _ E) as [Hok Hsame]. by exists nodes.
Qed.

Lemma mock_tick_inv now fuel m m' :
  mock_inv m → mock_tick Int63 fused now fuel m = Some m' →
  mock_inv m' ∧ identity (snapshot 0 (mock_nodes m')) = identity (snapshot 0 (mock_nodes m)).
Proof.
  intros Hm (nodes & Hok & Hsame & En & Ep & Ea)%mock_tick_some; [|done].
  pose proof (same_nodes_identity 0 0 _ _ Hsame) as Hid. rewrite <-En in Hid. split; [|exact Hid].
  pose proof (cluster_simulated now nodes Hok) as Hsim. constructor.
  - by rewrite En.
  - rewrite Ep, Ea. apply publish_fresh_inv; [apply Hm|by apply simulated_coherent].
  - rewrite Ep. by eexists.
  - rewrite Ep. intros p Hp. apply visible_publish_fresh in Hp as [->|Hp]; [| |apply Hm].
    + split; [exact Hsim|]. rewrite Hid. by apply same_nodes_identity.
    + destruct (minv_visible m Hm p Hp) as [H1 H2]. split; [done|]. by rewrite H2.
Qed.

Lemma mock_client_inv o m : (∀ p, o ≠ OpPublish p) → mock_inv m → mock_inv (mock_client o m).
Proof.
  intros Ho [Hc Hs Hl Hv]. constructor; cbn [mock_client mock_nodes mock_pub mock_allocated].
  - done.
  - by apply client_source_inv.
  - unfold Latest in *. rewrite exec_latest. by destruct o.
  - intros p Hp. apply Hv. eapply visible_client; [exact Ho|apply Hs|exact Hp].
Qed.

Lemma mock_step_inv fuel m a m' :
  mock_inv m → mock_step fuel m a = Some m' →
  mock_inv m' ∧ identity (snapshot 0 (mock_nodes m')) = identity (snapshot 0 (mock_nodes m)).
Proof.
  intros Hm. destruct a as [now| |ch|ch]; [by apply mock_tick_inv|..];
    (intros [= <-]; split; [by apply mock_client_inv|done]).
Qed.

Lemma mock_acts_inv fuel l m m' :
  mock_inv m → mock_acts fuel m l = Some m' →
  mock_inv m' ∧ identity (snapshot 0 (mock_nodes m')) = identity (snapshot 0 (mock_nodes m)).
Proof.
  revert m. induction l as [|a l IH]; intros m Hm; [by intros [= <-]|]. cbn [mock_acts].
  destruct (mock_step fuel m a) as [m1|] eqn:E; [|done]. simpl. intros E'.
  destruct (mock_step_inv fuel m a m1 Hm E) as [Hm1 Hid]. destruct (IH m1 Hm1 E') as [Hm' Hid'].
  split; [done|congruence].
Qed.

(** ** Termination *)

Lemma NewMock_total now :
  fair Int63 → ∃ enough m p, (∀ fuel, (enough <= fuel)%nat → NewMock Int63 fused now fuel = Some m) ∧
    mock_pub m = PubSub (Some p) ∅ ∅ 0 ∧ GeneratedAt (deref p) = now ∧ address p = 0%nat ∧
    mock_allocated m = 1%nat.
Proof.
  intros Hfair. destruct (build_total Int63 fused Hfair 0%nat) as (nodes & pos & n & _ & E).
  eexists n, _, _. split; [intros fuel Hf; unfold NewMock; by rewrite E by done|done].
Qed.

Lemma mock_tick_total now m :
  fair Int63 → ∃ enough m', ∀ fuel, (enough <= fuel)%nat → mock_tick Int63 fused now fuel m = Some m'.
Proof.
  intros Hfair. destruct (drift_total Int63 fused Hfair (mock_nodes m) (mock_rng m)) as (nodes & pos & n & _ & E).
  eexists n, _. intros fuel Hf. unfold mock_tick. by rewrite E by done.
Qed.

Lemma mock_acts_total l m :
  fair Int63 → ∃ enough m', ∀ fuel, (enough <= fuel)%nat → mock_acts fuel m l = Some m'.
Proof.
  intros Hfair. revert m. induction l as [|a l IH]; intros m; [by exists 0%nat, m|].
  assert (∃ n m', ∀ fuel, (n <= fuel)%nat → mock_step fuel m a = Some m') as (n1 & m1 & E1).
  { destruct a as [now| |ch|ch]; [by apply mock_tick_total|by eexists 0%nat, _..]. }
  destruct (IH m1) as (n2 & m2 & E2). exists (Nat.max n1 n2), m2. intros fuel Hf. cbn [mock_acts].
  rewrite E1 by lia. simpl. apply E2. lia.
Qed.

(** ** What the mock does to its subscribers

    The operation on the subscribers' state an act comes down to. *)
Definition act_op (a : mock_act) (o : op (A := snap_ptr)) : Prop :=
  match a, o with
  | MockTick now, OpPublish p => GeneratedAt (deref p) = now
  | MockSubscribe, OpSubscribe => True
  | MockCancel ch, OpCancel ch' | MockRecv ch, OpRecv ch' => ch = ch'
  | _, _ => False
  end.

Lemma mock_step_op fuel m a m' :
  mock_step fuel m a = Some m' →
  ∃ o, act_op a o ∧ mock_pub m' = exec (mock_pub m) o ∧
    address <$> published [o] = seq (mock_allocated m) (length (published [o])) ∧
    mock_allocated m' = (mock_allocated m + length (published [o]))%nat.
Proof.
  destruct a as [now| |ch|ch]; cbn [mock_step].
  - unfold mock_tick. destruct (drift _ _ _ _ _) as [[nodes pos]|]; [|done]. intros [= <-].
    exists (OpPublish {| address := mock_allocated m; deref := snapshot now nodes |}).
    split_and!; simpl; solve [done|lia].
  - intros [= <-]. exists OpSubscribe. split_and!; simpl; solve [done|lia].
  - intros [= <-]. exists (OpCancel ch). split_and!; simpl; solve [done|lia].
  - intros [= <-]. exists (OpRecv ch). split_and!; simpl; solve [done|lia].
Qed.

Lemma mock_acts_ops fuel l m m' :
  mock_acts fuel m l = Some m' →
  ∃ ops, Forall2 act_op l ops ∧ mock_pub m' = PubSub.run (mock_pub m) ops ∧
    address <$> published ops = seq (mock_allocated m) (length (published ops)).
Proof.
  revert m. induction l as [|a l IH]; intros m; [intros [= <-]; by exists []|]. cbn [mock_acts].
  destruct (mock_step fuel m a) as [m1|] eqn:E; [|done]. simpl. intros E'.
  destruct (mock_step_op fuel m a m1 E) as (o & Ho & Ep & Ea & En).
  destruct (IH m1 E') as (ops & Hops & Ep' & Ea'). exists (o :: ops).
  split_and!; [by constructor|by rewrite run_cons, <-Ep|].
  by rewrite published_cons, fmap_app, Ea, Ea', En, length_app, seq_app.
Qed.

Lemma mock_Run_acts ticks fuel m :
  mock_Run Int63 fused ticks fuel m = mock_acts fuel m (MockTick <$> ticks).
Proof.
  revert m. induction ticks as [|t ticks IH]; intros m; [done|]. cbn [mock_Run fmap list_fmap mock_acts mock_step].
  destruct (mock_tick _ _ t fuel m); [apply IH|done].
Qed.

(** ** The interface

    A tick whose fuel does not suffice is one that is still drawing. *)
Definition mock_source : Source Mock (nat * Time) := {|
  view := mock_pub;
  allocs := mock_allocated;
  tick m e := default m (mock_tick Int63 fused e.2 e.1 m);
  client := mock_client;
|}.

Definition mock_source_laws : SourceLaws Mock (nat * Time) (Source0 := mock_source).
Proof.
  refine {| source_ok := mock_inv |}; simpl.
  - intros m Hm. apply Hm.
  - intros m [fuel now] Hm. simpl. destruct (mock_tick Int63 fused now fuel m) as [m'|] eqn:E; simpl; [|split; [done|by left]].
    split; [by eapply mock_tick_inv|]. right.
    destruct (mock_tick_some now fuel m m' Hm E) as (nodes & Hok & _ & _ & -> & ->).
    exists (snapshot now nodes). split; [by apply simulated_coherent, cluster_simulated|done].
  - intros m o Ho Hm. split; [by apply mock_client_inv|done].
Defined.

(** ** Properties *)

(** C14: whatever the generator draws and however the ticks interleave with
    readers, every snapshot of the mock anyone can get is [simulated]: both
    capabilities live, the seven nodes in order and filled to their targets,
    distinct pod UIDs, no int64 overflow in the sums, limits twice the
    requests, usage within its percentages of the requests, and used plus
    available disk equal to the capacity but for the two truncations. *)
Theorem mock_snapshots now fuel m l m' p :
  NewMock Int63 fused now fuel = Some m → mock_acts fuel m l = Some m' →
  visible (mock_pub m') p → simulated (deref p).
Proof.
  intros Hm Hl Hp. eapply minv_visible; [|exact Hp]. eapply mock_acts_inv; [|exact Hl]. by eapply NewMock_inv.
Qed.

(** C15: the simulated cluster keeps its identity: any two snapshots of one mock,
    however far apart, show the same nodes with the same capacities and the
    same pods with the same UIDs, names, requests and limits, in the same
    order; only usage and disk drift. From the start there is a latest one. *)
Theorem mock_identity now fuel m l1 m1 p1 l2 m2 p2 :
  NewMock Int63 fused now fuel = Some m →
  mock_acts fuel m l1 = Some m1 → visible (mock_pub m1) p1 →
  mock_acts fuel m1 l2 = Some m2 → visible (mock_pub m2) p2 →
  identity (deref p2) = identity (deref p1) ∧ is_Some (Latest (mock_pub m)).
Proof.
  intros Hm Hl1 Hp1 Hl2 Hp2. apply NewMock_inv in Hm.
  destruct (mock_acts_inv fuel l1 m m1 Hm Hl1) as [Hm1 _].
  destruct (mock_acts_inv fuel l2 m1 m2 Hm1 Hl2) as [Hm2 Hid]. split; [|apply Hm].
  destruct (minv_visible m1 Hm1 p1 Hp1) as [_ ->]. destruct (minv_visible m2 Hm2 p2 Hp2) as [_ ->]. done.
Qed.

(** C16: with a fair generator nothing hangs: [NewMock] returns, already holding a
    snapshot made at its start, and so do [Run] over any ticks and any mix of
    ticks with readers. Each tick publishes exactly one snapshot, a new one
    made at the time of the tick, to the subscribers of that moment; each
    reader's call does to the subscribers what it says; nothing else happens
    to them, and the latest snapshot is that of the last tick. *)
Theorem mock_returns start l :
  fair Int63 → ∃ enough m0 m p0 ops, (∀ fuel, (enough <= fuel)%nat →
    NewMock Int63 fused start fuel = Some m0 ∧ mock_acts fuel m0 l = Some m ∧
    ∀ ticks, l = MockTick <$> ticks → mock_Run Int63 fused ticks fuel m0 = Some m) ∧
  mock_pub m0 = PubSub (Some p0) ∅ ∅ 0 ∧ GeneratedAt (deref p0) = start ∧
  mock_pub m = PubSub.run (mock_pub m0) ops ∧ Forall2 act_op l ops ∧
  address <$> p0 :: published ops = seq 0 (S (length (published ops))) ∧
  Latest (mock_pub m) = last (p0 :: published ops).
Proof.
  intros Hfair. destruct (NewMock_total start Hfair) as (n1 & m0 & p0 & E1 & Ep0 & Eg & Ea0 & En0).
  destruct (mock_acts_total l m0 Hfair) as (n2 & m & E2).
  destruct (mock_acts_ops _ l m0 m (E2 n2 (le_n _))) as (ops & Hops & Ep & Ea).
  exists (Nat.max n1 n2), m0, m, p0, ops. split_and!; try done.
  - intros fuel Hf. specialize (E1 fuel ltac:(lia)). specialize (E2 fuel ltac:(lia)).
    split_and!; [done..|]. intros ticks ->. by rewrite mock_Run_acts.
  - rewrite En0 in Ea. rewrite fmap_cons, Ea0, Ea. done.
  - unfold Latest. rewrite Ep, latest_run, Ep0, last_cons. by destruct (last _).
Qed.
End source.

(** ** Witnesses *)

Module MockWitness.
(** The least interesting generator: always the same value, 13/16 of the
    range, which every loop takes. *)
Definition sample (k : nat) : Z := 13 * 2 ^ 59.

#[export] Instance sample_laws : Int63Laws sample.
Proof. intros k. unfold sample. lia. Qed.

Lemma sample_fair : fair sample.
Proof.
  intros pos. exists pos. assert (lucky (13 * 2 ^ 59)) as H; [|done].
  apply (bool_decide_unpack _). vm_compute. exact I.
Qed.

Definition some_acts : list mock_act := [MockSubscribe; MockTick (3 * Second); MockRecv 0; MockTick (6 * Second)].

(** A mock of that generator, and what becomes of it. *)
Lemma some_run : ∃ fuel m m' p,
  NewMock sample (λ _, false) 0 fuel = Some m ∧ mock_acts sample (λ _, false) fuel m some_acts = Some m' ∧
  Latest (mock_pub m') = Some p.
Proof.
  destruct (NewMock_total sample (λ _, false) 0 sample_fair) as (n1 & m & _ & E1 & _).
  destruct (mock_acts_total sample (λ _, false) some_acts m sample_fair) as (n2 & m' & E2).
  pose proof (E1 (Nat.max n1 n2) ltac:(lia)) as E3. specialize (E2 (Nat.max n1 n2) ltac:(lia)).
  destruct (mock_acts_inv sample (λ _, false) _ _ _ _ (NewMock_inv sample (λ _, false) _ _ _ E3) E2) as [[_ _ [p E4] _] _].
  by exists (Nat.max n1 n2), m, m', p.
Qed.

Lemma mock_snapshots_witness : ∃ fuel m m' p,
  NewMock sample (λ _, false) 0 fuel = Some m ∧ mock_acts sample (λ _, false) fuel m some_acts = Some m' ∧
  Latest (mock_pub m') = Some p ∧ simulated (deref p).
Proof.
  destruct some_run as (fuel & m & m' & p & Em & El & Ep). exists fuel, m, m', p.
  split; [exact Em|]. split; [exact El|]. split; [exact Ep|].
  exact (mock_snapshots sample (λ _, false) 0 fuel m some_acts m' p Em El (or_introl Ep)).
Defined.

(** The snapshot it starts with, and the one after two ticks. *)
Lemma mock_identity_witness : ∃ fuel m p m' p',
  NewMock sample (λ _, false) 0 fuel = Some m ∧ Latest (mock_pub m) = Some p ∧
  mock_acts sample (λ _, false) fuel m some_acts = Some m' ∧ Latest (mock_pub m') = Some p' ∧
  identity (deref p') = identity (deref p).
Proof.
  destruct some_run as (fuel & m & m' & p' & Em & El & Ep').
  destruct (NewMock_inv sample (λ _, false) 0 fuel m Em) as [_ _ [p Ep] _].
  exists fuel, m, p, m', p'. split; [exact Em|]. split; [exact Ep|]. split; [exact El|]. split; [exact Ep'|].
  exact (proj1 (mock_identity sample (λ _, false) 0 fuel m [] m p some_acts m' p' Em eq_refl (or_introl Ep) El (or_introl Ep'))).
Defined.

(** Two ticks with a reader between them: two publishes, one at each tick. *)
Lemma mock_returns_witness :
  ∃ enough m0 m p1 p2, (∀ fuel, (enough <= fuel)%nat →
    NewMock sample (λ _, true) 0 fuel = Some m0 ∧ mock_acts sample (λ _, true) fuel m0 some_acts = Some m) ∧
  mock_pub m = PubSub.run (mock_pub m0) [OpSubscribe; OpPublish p1; OpRecv 0; OpPublish p2] ∧
  GeneratedAt (deref p1) = (3 * Second)%Z ∧ GeneratedAt (deref p2) = (6 * Second)%Z ∧
  Latest (mock_pub m) = Some p2.
Proof.
  destruct (mock_returns sample (λ _, true) 0 some_acts sample_fair)
    as (n & m0 & m & p0 & ops & Hret & _ & _ & Hpub & Hops & _ & Hlast).
  inversion Hops as [|? o1 ? ? H1 Hops1]; subst. inversion Hops1 as [|? o2 ? ? H2 Hops2]; subst.
  inversion Hops2 as [|? o3 ? ? H3 Hops3]; subst. inversion Hops3 as [|? o4 ? ? H4 Hops4]; subst.
  inversion Hops4; subst.
  destruct o1; try contradiction. destruct o2 as [p1| | |]; try contradiction.
  destruct o3; try contradiction. destruct o4 as [p2| | |]; try contradiction. simpl in H2, H3, H4. subst ch.
  exists n, m0, m, p1, p2.
  split; [intros fuel Hf; destruct (Hret fuel Hf) as (? & ? & _); by split|].
  split; [exact Hpub|]. split; [exact H2|]. split; [exact H4|]. exact Hlast.
Defined.
End MockWitness.
