(* ===== verification/Collector.v ===== *)
(** * The collector

    [New], [Run], [poll] and [pollOnce] of src/internal/collector/collector.go:
    the poll loop, from the components of the other files.  The poll goroutine
    owns the metrics and disk state and publishes through PubSub, the only
    state it shares with the rest of the program; what one poll meets (clock
    readings, cached objects, API answers) is a [PollEnv].  The collector is an
    instance of [Source]. *)

From S2P Require Import Prelude.
From S2P Require Import GoErrors.
From S2P Require Import Events.
From S2P Require Import Model.
From S2P Require Import KubeApi.
From S2P Require Import Metrics.
From S2P Require Import MetricsSignal.
From S2P Require Import DiskSignal.
From S2P Require Import Kubelet.
From S2P Require Import Snapshot.
From S2P Require Import PubSub.
From S2P Require Import Source.

Record Options := {
  PollInterval : Duration;
  MetricsServer : bool;
  OptNodeDisk : string;
  KubeletInsecureTLS : bool;
}.

Section collector.
Context {X : Type} `{!KubeErrors X} {Q : Type} `{!Quantity Q} {Cred RT : Type}.
Context (json_error : string → string).

Record Collector := {
  pollInterval : Duration;
  metricsEnabled : bool;
  diskMode : string;
  kubeletHTTP : option (HTTPClient RT);
  kubeletHTTPErr : option (error X);
  metrics : MetricsState;
  disk : DiskState;
  pub : pubsub snap_ptr;
  allocated : nat; (* snapshots allocated so far *)
}.

Definition New (TransportFor : RestConfig Cred → RT * option (error X)) (config : option (RestConfig Cred))
    (opts : Options) : Collector :=
  let mode := if decide (OptNodeDisk opts = "") then NodeDiskOff else OptNodeDisk opts in
  let '(client, err) :=
    if decide (mode = NodeDiskAuto ∨ mode = NodeDiskKubelet)
    then newKubeletClient TransportFor config (KubeletInsecureTLS opts) else (None, None) in
  {| pollInterval := PollInterval opts;
     metricsEnabled := MetricsServer opts;
     diskMode := mode;
     kubeletHTTP := client;
     kubeletHTTPErr := err;
     metrics := metrics0;
     disk := disk0;
     pub := pubsub0;
     allocated := 0 |}.

(** What one poll meets, in the order it looks. *)
Record PollEnv := {
  env_start : Time;
  env_nodes : list (KNode Q) * option (error X);
  env_pods : list (KPod Q) * option (error X);
  env_metrics_check : Time;
  env_metrics_done : Time;
  env_metrics_api : MetricsApi (X := X) (Q := Q);
  env_disk_check : Time;
  env_disk_done : Time;
  env_http : HTTPClient RT → string → http_answer (X := X);
  env_proxy : string → string * option (error X);
  env_kubelet_order : list (KNode Q) → list (KNode Q);
  env_proxy_order : list (KNode Q) → list (KNode Q);
  env_generated : Time;
  env_end : Time;
}.

Definition kubelet_route (env : PollEnv) (c : Collector) : diskRouteFunc :=
  kubeletDisk json_error (env_http env <$> kubeletHTTP c) (kubeletHTTPErr c) (env_kubelet_order env).

Definition proxy_route (env : PollEnv) : diskRouteFunc :=
  proxyDisk json_error (env_proxy env) (env_proxy_order env).

(** [c.publish(snap)] of a newly allocated snapshot. *)
Definition with_signals (m : MetricsState) (d : DiskState) (c : Collector) : Collector := {|
  pollInterval := pollInterval c;
  metricsEnabled := metricsEnabled c;
  diskMode := diskMode c;
  kubeletHTTP := kubeletHTTP c;
  kubeletHTTPErr := kubeletHTTPErr c;
  metrics := m;
  disk := d;
  pub := pub c;
  allocated := allocated c;
|}.

Definition with_pub (p : pubsub snap_ptr) (n : nat) (c : Collector) : Collector := {|
  pollInterval := pollInterval c;
  metricsEnabled := metricsEnabled c;
  diskMode := diskMode c;
  kubeletHTTP := kubeletHTTP c;
  kubeletHTTPErr := kubeletHTTPErr c;
  metrics := metrics c;
  disk := disk c;
  pub := p;
  allocated := n;
|}.

Definition publish_new (snap : Snapshot) (c : Collector) : Collector :=
  with_pub (publish_fresh snap (allocated c) (pub c)) (S (allocated c)) c.

Definition pollOnce (env : PollEnv) (c : Collector) : option (error X) * Collector * list (event X) :=
  match env_nodes env with
  | (_, Some err) => (Some (Errorf_w "listing nodes from cache" (Some err)), c, [])
  | (nodes, None) =>
      match env_pods env with
      | (_, Some err) => (Some (Errorf_w "listing pods from cache" (Some err)), c, [])
      | (pods, None) =>
          let '(usage, m, evs) :=
            currentMetrics (metricsEnabled c) (env_metrics_check env) (env_metrics_done env)
              (env_metrics_api env) (metrics c) in
          let '(diskView, d, evs') :=
            currentDisk (diskMode c) (env_disk_check env) (env_disk_done env)
              (kubelet_route env c) (proxy_route env) nodes (disk c) in
          let snap := assemble (env_generated env) nodes pods usage diskView in
          (None, publish_new snap (with_signals m d c), evs ++ evs')
      end
  end.

Definition poll (env : PollEnv) (c : Collector) : Collector * list (event X) :=
  let '(err, c', evs) := pollOnce env c in
  (c', evs ++ ObservePoll (Since (env_end env) (env_start env)) err ++
       match err with Some err => [Logf "poll failed: %v" [VErr err]] | None => [] end).

(** What [Run] logs once the caches are synced. *)
Definition startup_logs (c : Collector) : list (event X) :=
  [Logf "informer caches synced; polling every %s" [VDuration (pollInterval c)]] ++
  (if metricsEnabled c then [] else
   [Logf "live CPU/RAM usage disabled (--metrics-server=false): showing requests/limits only" []]) ++
  (if decide (diskMode c = NodeDiskOff) then
   [Logf "live node disk disabled (--node-disk=off): disk shows capacity only" []] else []) ++
  match kubeletHTTPErr c with
  | Some err => [Logf "cannot build a client for direct kubelet access: %v" [VErr err]]
  | None => []
  end.

Fixpoint polls (envs : list PollEnv) (c : Collector) : Collector * list (event X) :=
  match envs with
  | [] => (c, [])
  | env :: envs =>
      let '(c', evs) := poll env c in
      let '(c'', evs') := polls envs c' in
      (c'', evs ++ evs')
  end.

(** How [Run] ends: it returns, or [time.NewTicker] panics. *)
Inductive run_end :=
| Returned (err : option (error X))
| Panicked (msg : string).

(** [Run] with a context that ends before the caches synced (with error
    [ctxErr]), or after the ticks given. *)
Definition Run (synced : bool) (ctxErr : option (error X)) (first : PollEnv) (ticks : list PollEnv)
    (c : Collector) : run_end * Collector * list (event X) :=
  if synced then
    let '(c1, evs) := poll first c in
    if (pollInterval c <=? 0)%Z then
      (Panicked "non-positive interval for NewTicker", c1, startup_logs c ++ evs)
    else
      let '(c2, evs') := polls ticks c1 in
      (Returned None, c2, startup_logs c ++ evs ++ evs')
  else (Returned ctxErr, c, []).

(** ** The collector and its subscribers

    The poll goroutine publishes as the last step of a poll, so a poll is one
    step of the interleaving with the subscribers' calls. *)
Inductive act :=
| ActPoll (env : PollEnv)
| ActSubscribe
| ActCancel (ch : nat)
| ActRecv (ch : nat).

Definition act_step (c : Collector) (a : act) : Collector * list (event X) :=
  match a with
  | ActPoll env => poll env c
  | ActSubscribe => (with_pub (exec (pub c) OpSubscribe) (allocated c) c, [])
  | ActCancel ch => (with_pub (exec (pub c) (OpCancel ch)) (allocated c) c, [])
  | ActRecv ch => (with_pub (exec (pub c) (OpRecv ch)) (allocated c) c, [])
  end.

Fixpoint acts (c : Collector) (l : list act) : Collector * list (event X) :=
  match l with
  | [] => (c, [])
  | a :: l =>
      let '(c', evs) := act_step c a in
      let '(c'', evs') := acts c' l in
      (c'', evs ++ evs')
  end.

End collector.

(** ** Lemmas *)

Section lemmas.
Context {X : Type} `{!KubeErrors X} {Q : Type} `{!Quantity Q} {Cred RT : Type}.
Context (json_error : string → string).
Implicit Types (c : Collector (X := X) (RT := RT)) (env : PollEnv (X := X) (Q := Q) (RT := RT)).

(** A poll fails on a lister's error alone, before anything else happened, and
    otherwise publishes. *)
Lemma pollOnce_cases env c :
  (∃ err, pollOnce json_error env c = (Some err, c, []) ∧
     (is_Some (env_nodes env).2 ∨ is_Some (env_pods env).2)) ∨
  (∃ nodes pods usage m evs diskView d evs',
     env_nodes env = (nodes, None) ∧ env_pods env = (pods, None) ∧
     currentMetrics (metricsEnabled c) (env_metrics_check env) (env_metrics_done env)
       (env_metrics_api env) (metrics c) = (usage, m, evs) ∧
     currentDisk (diskMode c) (env_disk_check env) (env_disk_done env)
       (kubelet_route json_error env c) (proxy_route json_error env) nodes (disk c) = (diskView, d, evs') ∧
     pollOnce json_error env c =
       (None, publish_new (assemble (env_generated env) nodes pods usage diskView) (with_signals m d c), evs ++ evs')).
Proof.
  unfold pollOnce. destruct (env_nodes env) as [nodes [e|]]; [left; eauto 10|].
  destruct (env_pods env) as [pods [e|]]; [left; eauto 10|]. right.
  destruct (currentMetrics _ _ _ _ _) as [[usage m] evs] eqn:Em.
  destruct (currentDisk _ _ _ _ _ _ _) as [[diskView d] evs'] eqn:Ed.
  exists nodes, pods, usage, m, evs, diskView, d, evs'. done.
Qed.

Lemma assemble_coherent now (nodes : list (KNode Q)) pods uv dv :
  view_ok uv → disk_view_ok dv → coherent (assemble now nodes pods uv dv).
Proof.
  intros [Hr Hu] [Hr' Hd]. constructor; [done|done|..].
  - intros Hcap mn Hmn. destruct (Hu Hcap). by eapply assemble_no_usage.
  - intros Hcap mn Hmn. eapply assemble_no_disk; [|done]. by apply Hd.
  - apply sort_by_sorted.
Qed.

(** The invariant of the collector and of what its readers can see. *)
Record collector_inv c : Prop := {
  inv_metrics : metrics_inv (X := X) (metrics c);
  inv_disk : disk_inv (X := X) (disk c);
  inv_source : source_inv (pub c) (allocated c);
}.

Lemma New_pub TransportFor (config : option (RestConfig Cred)) opts :
  let c : Collector (X := X) (RT := RT) := New TransportFor config opts in
  pub c = pubsub0 ∧ allocated c = 0.
Proof. unfold New. by destruct (if decide _ then _ else _) as [client err]. Qed.

Lemma New_inv TransportFor (config : option (RestConfig Cred)) opts : collector_inv (New TransportFor config opts).
Proof.
  unfold New. destruct (if decide _ then _ else _) as [client err].
  constructor; [apply metrics0_inv|apply disk0_inv|apply source_inv0].
Qed.

Lemma publish_new_inv snap c : collector_inv c → coherent snap → collector_inv (publish_new snap c).
Proof. intros [Hm Hd Hs] Hsnap. constructor; [done|done|]. by apply publish_fresh_inv. Qed.

Lemma with_signals_inv m d c :
  collector_inv c → metrics_inv (X := X) m → disk_inv (X := X) d → collector_inv (with_signals m d c).
Proof. intros [Hm Hd Hs] Hm' Hd'. by constructor. Qed.

(** A poll publishes a coherent snapshot, or leaves the collector as it is. *)
Lemma pollOnce_published env c :
  collector_inv c →
  (pollOnce json_error env c).1.2 = c ∨
  ∃ snap m d, coherent snap ∧ metrics_inv (X := X) m ∧ disk_inv (X := X) d ∧
    (pollOnce json_error env c).1.2 = publish_new snap (with_signals m d c).
Proof.
  intros Hc. destruct (pollOnce_cases env c)
    as [(err & -> & _)|(nodes & pods & usage & m & evs & dv & d & evs' & _ & _ & Em & Ed & ->)]; [by left|right].
  pose proof (inv_metrics c Hc) as Hm. pose proof (inv_disk c Hc) as Hd.
  pose proof (currentMetrics_inv (metricsEnabled c) (env_metrics_check env) (env_metrics_done env)
                (env_metrics_api env) _ Hm) as Hm'.
  pose proof (currentMetrics_view_ok (metricsEnabled c) (env_metrics_check env) (env_metrics_done env)
                (env_metrics_api env) _ Hm) as Hmv.
  pose proof (currentDisk_inv (diskMode c) (env_disk_check env) (env_disk_done env)
                (kubelet_route json_error env c) (proxy_route json_error env) nodes _ Hd) as Hd'.
  pose proof (currentDisk_view_ok (diskMode c) (env_disk_check env) (env_disk_done env)
                (kubelet_route json_error env c) (proxy_route json_error env) nodes _ Hd) as Hdv.
  rewrite Em in Hm', Hmv. rewrite Ed in Hd', Hdv.
  eexists _, m, d. split; [|split; [done|split; [done|reflexivity]]]. by apply assemble_coherent.
Qed.

Lemma pollOnce_inv env c : collector_inv c → collector_inv (pollOnce json_error env c).1.2.
Proof.
  intros Hc. destruct (pollOnce_published env c Hc) as [->|(snap & m & d & Hsnap & Hm & Hd & ->)]; [done|].
  apply publish_new_inv; [by apply with_signals_inv|done].
Qed.

Lemma poll_state env c : (poll json_error env c).1 = (pollOnce json_error env c).1.2.
Proof. unfold poll. by destruct (pollOnce json_error env c) as [[err c'] evs]. Qed.

Lemma client_inv o c :
  (∀ p, o ≠ OpPublish p) → collector_inv c → collector_inv (with_pub (exec (pub c) o) (allocated c) c).
Proof. intros Ho [Hm Hd Hs]. constructor; [done|done|]. by apply client_source_inv. Qed.

Lemma act_step_inv c a : collector_inv c → collector_inv (act_step json_error c a).1.
Proof.
  intros Hc. destruct a as [env| |ch|ch].
  - simpl. rewrite poll_state. by apply pollOnce_inv.
  - by apply (client_inv OpSubscribe).
  - by apply (client_inv (OpCancel ch)).
  - by apply (client_inv (OpRecv ch)).
Qed.

Lemma acts_inv l c : collector_inv c → collector_inv (acts json_error c l).1.
Proof.
  revert c. induction l as [|a l IH]; intros c Hc; [done|]. simpl.
  pose proof (act_step_inv c a Hc) as H. destruct (act_step json_error c a) as [c' evs].
  specialize (IH c' H). by destruct (acts json_error c' l).
Qed.

(** The configuration never changes. *)
Definition same_config c c' : Prop :=
  metricsEnabled c' = metricsEnabled c ∧ diskMode c' = diskMode c.

Lemma act_step_config c a : same_config c (act_step json_error c a).1.
Proof.
  destruct a as [env| |ch|ch]; simpl; try done. rewrite poll_state.
  by destruct (pollOnce_cases env c)
    as [(err & -> & _)|(nodes & pods & usage & m & evs & dv & d & evs' & _ & _ & _ & _ & ->)].
Qed.

(** The requests a configuration allows. *)
Definition permitted (enabled : bool) (mode : string) (r : request) : Prop :=
  match r with
  | ListNodeMetrics | ListPodMetrics => enabled = true
  | KubeletGet _ => mode ≠ NodeDiskOff ∧ mode ≠ NodeDiskProxy
  | ProxyGet _ => mode ≠ NodeDiskOff ∧ mode ≠ NodeDiskKubelet
  end.

Lemma pollOnce_effects env c :
  Forall (permitted (metricsEnabled c) (diskMode c)) (requests (pollOnce json_error env c).2) ∧
  counter_incs "pollTotal" (pollOnce json_error env c).2 = [].
Proof.
  destruct (pollOnce_cases env c)
    as [(err & -> & _)|(nodes & pods & usage & m & evs & dv & d & evs' & _ & _ & Em & Ed & ->)]; [done|].
  pose proof (currentMetrics_requests (metricsEnabled c) (env_metrics_check env) (env_metrics_done env)
                (env_metrics_api env) (metrics c)) as [Hm Hmc]. rewrite Em in Hm, Hmc.
  pose proof (currentDisk_requests (diskMode c) (env_disk_check env) (env_disk_done env)
                (kubelet_route json_error env c) (proxy_route json_error env) nodes (disk c)) as [Hd Hdc].
  rewrite Ed in Hd, Hdc. simpl in *. autorewrite with go.
  rewrite Hmc, Hdc by done. split; [|done].
  apply Forall_app. split; apply Forall_forall; intros r Hr.
  - by destruct (Hm r Hr) as [? [-> | ->]].
  - destruct (Hd r Hr) as [? [[? Hs]|[? Hs]]]; apply list_elem_of_bind in Hs as (n & Hs & _).
    + by apply kubeletDisk_sends in Hs as ->.
    + by apply proxyDisk_sends in Hs as ->.
Qed.

Lemma poll_effects env c :
  requests (poll json_error env c).2 = requests (pollOnce json_error env c).2 ∧
  counter_incs "pollTotal" (poll json_error env c).2 =
    [[match (pollOnce json_error env c).1.1 with None => ResultSuccess | Some _ => ResultError end]].
Proof.
  destruct (pollOnce_effects env c) as [_ Hc]. unfold poll.
  destruct (pollOnce json_error env c) as [[err c'] evs]. simpl in *.
  autorewrite with go. rewrite Hc. by destruct err; simpl; rewrite ?app_nil_r.
Qed.

Lemma acts_permitted l c :
  Forall (permitted (metricsEnabled c) (diskMode c)) (requests (acts json_error c l).2).
Proof.
  revert c. induction l as [|a l IH]; intros c; [constructor|]. simpl.
  pose proof (act_step_config c a) as [He Hm].
  assert (Forall (permitted (metricsEnabled c) (diskMode c)) (requests (act_step json_error c a).2)) as Ha.
  { destruct a as [env| |ch|ch]; [|constructor..]. simpl. rewrite (proj1 (poll_effects env c)).
    apply pollOnce_effects. }
  destruct (act_step json_error c a) as [c' evs]. simpl in *. specialize (IH c'). rewrite He, Hm in IH.
  destruct (acts json_error c' l) as [c'' evs']. simpl in *. autorewrite with go. by apply Forall_app.
Qed.

(** The result a poll is counted under. *)
Definition poll_result env : string :=
  match (env_nodes env).2, (env_pods env).2 with None, None => ResultSuccess | _, _ => ResultError end.

Lemma poll_counted env c : counter_incs "pollTotal" (poll json_error env c).2 = [[poll_result env]].
Proof.
  rewrite (proj2 (poll_effects env c)). unfold poll_result, pollOnce.
  destruct (env_nodes env) as [nodes [e|]]; [done|]. destruct (env_pods env) as [pods [e|]]; [done|].
  simpl. destruct (currentMetrics _ _ _ _ _) as [[usage m] evs].
  by destruct (currentDisk _ _ _ _ _ _ _) as [[dv d] evs'].
Qed.

Lemma polls_counted envs c :
  counter_incs "pollTotal" (polls json_error envs c).2 = (λ env, [poll_result env]) <$> envs.
Proof.
  revert c. induction envs as [|env envs IH]; intros c; [done|]. simpl.
  pose proof (poll_counted env c) as Hc. destruct (poll json_error env c) as [c' evs]. simpl in Hc.
  specialize (IH c'). destruct (polls json_error envs c') as [c'' evs']. simpl in *.
  autorewrite with go. by rewrite Hc, IH.
Qed.
End lemmas.

(** ** The collector as a source *)

Section source.
Context {X : Type} `{!KubeErrors X} {Q : Type} `{!Quantity Q} {RT : Type}.
Context (json_error : string → string).

Definition collector_source : Source (Collector (X := X) (RT := RT)) (PollEnv (X := X) (Q := Q) (RT := RT)) := {|
  view := pub;
  allocs := allocated;
  tick c env := (poll json_error env c).1;
  client o c := with_pub (exec (pub c) o) (allocated c) c;
|}.

Definition collector_source_laws :
  SourceLaws (Collector (X := X) (RT := RT)) (PollEnv (X := X) (Q := Q) (RT := RT)) (Source0 := collector_source).
Proof.
  refine {| source_ok := collector_inv (X := X) (RT := RT) |}; simpl.
  - intros c Hc. apply inv_source, Hc.
  - intros c env Hc. rewrite poll_state. split; [by apply pollOnce_inv|].
    destruct (pollOnce_published json_error env c Hc) as [->|(snap & m & d & Hsnap & _ & _ & ->)]; [by left|right].
    by exists snap.
  - intros c o Ho Hc. split; [by apply client_inv|done].
Defined.
End source.

(** ** Properties *)

Section properties.
Context {X : Type} `{!KubeErrors X} {Q : Type} `{!Quantity Q} {Cred RT : Type}.
Context (json_error : string → string).
Context (TransportFor : RestConfig Cred → RT * option (error X)) (config : option (RestConfig Cred)).
Implicit Types (opts : Options) (env : PollEnv (X := X) (Q := Q) (RT := RT)).

(** C1: end to end: from [New], in every interleaving of polls (whatever the
    cluster answers) with subscribers coming, going and receiving, every
    snapshot anyone can get hold of is coherent: a capability's reason is empty
    exactly when it is live, a snapshot whose metrics capability is down carries
    no usage at all, one whose disk capability is down shows only capacities. *)
Theorem every_snapshot_coherent opts (l : list act) p :
  visible (pub (acts json_error (New TransportFor config opts) l).1) p → coherent (deref p).
Proof.
  intros Hp. exact (proj1 (src_visible _ _ (inv_source _ (acts_inv json_error l _ (New_inv TransportFor config opts))) p Hp)).
Qed.

(** pointer identity is a safe cache key for snapshots: in every such
    interleaving two snapshots with the same address are the same snapshot. *)
Theorem pointer_identity opts (l : list act) p p' :
  visible (pub (acts json_error (New TransportFor config opts) l).1) p →
  visible (pub (acts json_error (New TransportFor config opts) l).1) p' →
  address p = address p' → p = p'.
Proof. apply (src_address _ _ (inv_source _ (acts_inv json_error l _ (New_inv TransportFor config opts)))). Qed.

(** C12: a switched-off signal is never asked for: over every run from [New], no
    metrics request with [MetricsServer] off, none for node disk with [NodeDisk]
    off or empty, none to a kubelet in proxy mode and none through the proxy in
    kubelet mode. *)
Theorem disabled_never_requested opts (l : list act) r :
  r ∈ requests (acts json_error (New TransportFor config opts) l).2 →
  match r with
  | ListNodeMetrics | ListPodMetrics => MetricsServer opts = true
  | KubeletGet _ => OptNodeDisk opts ∉ ["" ; NodeDiskOff; NodeDiskProxy]
  | ProxyGet _ => OptNodeDisk opts ∉ ["" ; NodeDiskOff; NodeDiskKubelet]
  end.
Proof.
  intros Hr. pose proof (acts_permitted json_error l (New TransportFor config opts)) as H.
  rewrite Forall_forall in H. specialize (H r Hr). revert H. clear Hr. unfold New.
  destruct (if decide (_ ∨ _) then _ else _) as [client err]. simpl.
  destruct r; simpl; try done; rewrite !not_elem_of_cons; case_decide; try tauto; intros;
    split_and!; try tauto; apply not_elem_of_nil.
Qed.

(** C13: a poll whose listers answer publishes exactly one snapshot, a new one built
    from this poll's caches and signal views and no other, and it is the latest; a
    lister's error publishes nothing, changes nothing, asks for nothing and is
    logged. *)
Theorem poll_outcome env (c : Collector (X := X) (RT := RT)) :
  let '(err, c', evs) := pollOnce json_error env c in
  match (env_nodes env).2, (env_pods env).2 with
  | None, None =>
      err = None ∧ allocated c' = S (allocated c) ∧
      ∃ p usage diskView, pub c' = publish p (pub c) ∧ Latest (pub c') = Some p ∧
        usage = (currentMetrics (metricsEnabled c) (env_metrics_check env) (env_metrics_done env)
                   (env_metrics_api env) (metrics c)).1.1 ∧
        diskView = (currentDisk (diskMode c) (env_disk_check env) (env_disk_done env)
                      (kubelet_route json_error env c) (proxy_route json_error env)
                      (env_nodes env).1 (disk c)).1.1 ∧
        p = {| address := allocated c;
               deref := assemble (env_generated env) (env_nodes env).1 (env_pods env).1 usage diskView |}
  | _, _ =>
      is_Some err ∧ c' = c ∧ evs = [] ∧
      (poll json_error env c).1 = c ∧ logs (poll json_error env c).2 = ["poll failed: %v"]
  end.
Proof.
  unfold poll, pollOnce. destruct (env_nodes env) as [nodes [e|]]; [by split_and!|].
  destruct (env_pods env) as [pods [e|]]; [by split_and!|]. simpl.
  destruct (currentMetrics _ _ _ _ _) as [[usage m] evs].
  destruct (currentDisk _ _ _ _ _ _ _) as [[diskView d] evs']. simpl.
  split_and!; [done|done|]. by eexists _, usage, diskView.
Qed.

(** C38: [Run] does nothing until the caches are synced (it returns the context's
    error without a single request or log line); then, nothing but its startup
    lines before, it polls once at once and once per tick, each poll counted
    exactly once under its result. With a poll interval of zero or less it
    panics after the first poll instead. *)
Theorem Run_polls synced ctxErr first ticks (c : Collector (X := X) (RT := RT)) :
  let '(ended, c', evs) := Run (Q := Q) json_error synced ctxErr first ticks c in
  let done := if synced then if decide (0 < pollInterval c)%Z then first :: ticks else [first] else [] in
  (c', evs) = ((polls json_error done c).1,
               (if synced then startup_logs c else []) ++ (polls json_error done c).2) ∧
  requests (startup_logs c) = [] ∧
  counter_incs "pollTotal" evs = (λ env, [poll_result env]) <$> done ∧
  ended = (if synced then if decide (0 < pollInterval c)%Z then Returned None
                          else Panicked "non-positive interval for NewTicker"
           else Returned ctxErr).
Proof.
  assert (requests (startup_logs c) = [] ∧ counter_incs "pollTotal" (startup_logs c) = []) as [H1 H2].
  { unfold startup_logs. by repeat case_match. }
  unfold Run. destruct synced; [|done].
  pose proof (polls_counted json_error (first :: ticks) c) as Hall.
  pose proof (polls_counted json_error [first] c) as Hone. simpl in Hall, Hone.
  destruct (Z.leb_spec (pollInterval c) 0); [rewrite !decide_False by lia|rewrite !decide_True by lia]; simpl;
    destruct (poll json_error first c) as [c1 evs]; simpl in *.
  - rewrite !app_nil_r in *. split_and!; try done. rewrite counter_incs_app, H2. exact Hone.
  - destruct (polls json_error ticks c1) as [c2 evs']. simpl in *.
    split_and!; try done. rewrite counter_incs_app, H2. exact Hall.
Qed.

(** [New] builds a kubelet client exactly for the modes that may use one, and
    whenever such a mode is left without one it knows why: the error a fetch
    wraps is never nil. *)
Theorem New_kubelet_client opts :
  let c := New TransportFor config opts in
  (kubeletHTTP c ≠ None → diskMode c = NodeDiskAuto ∨ diskMode c = NodeDiskKubelet) ∧
  (diskMode c = NodeDiskAuto ∨ diskMode c = NodeDiskKubelet →
     (kubeletHTTP c = None ↔ is_Some (kubeletHTTPErr c))) ∧
  (∀ client, kubeletHTTP c = Some client → ∃ cfg, config = Some cfg ∧
     TransportFor {| ServerName := "";
                     Insecure := KubeletInsecureTLS opts || Insecure cfg;
                     CAFile := if KubeletInsecureTLS opts then "" else CAFile cfg;
                     CAData := if KubeletInsecureTLS opts then "" else CAData cfg;
                     Credentials := Credentials cfg |} = (Transport client, None)).
Proof.
  unfold New. set (mode := if decide (OptNodeDisk opts = "") then _ else _). cbv zeta.
  destruct (decide (mode = NodeDiskAuto ∨ mode = NodeDiskKubelet)) as [Hm|Hm]; [|simpl; by split_and!].
  unfold newKubeletClient. destruct config as [cfg|] eqn:Hcfg; simpl.
  - replace (if KubeletInsecureTLS opts then true else Insecure cfg) with (KubeletInsecureTLS opts || Insecure cfg)
      by by destruct (KubeletInsecureTLS opts).
    destruct (TransportFor _) as [rt [e|]] eqn:E; simpl; (split; [done|split]); try done.
    intros client [= <-]. by exists cfg.
  - done.
Qed.
End properties.

(** ** Witnesses *)

Module CollectorWitness.
Import SampleErrors SampleQuantity KubeletWitness.

Definition transport (cfg : RestConfig unit) : unit * option (error api_error) := ((), None).

Definition config : option (RestConfig unit) :=
  Some {| ServerName := "api"; Insecure := false; CAFile := "ca.crt"; CAData := ""; Credentials := () |}.

Definition web : KPod quantity := {|
  KPodUID := "u1"; KPodName := "web"; KPodNamespace := "default"; KPodPhase := PodRunning;
  KPodSpec := {| SpecNodeName := "n1"; Containers := []; InitContainers := [] |} |}.

(** A poll of a one-node cluster at time [t]: the Metrics Server answers as
    given, the kubelet answers 200. *)
Definition env (t : Time) (node_metrics : list (NodeMetrics quantity) * option (error api_error)) :
    PollEnv (X := api_error) (Q := quantity) (RT := unit) := {|
  env_start := t; env_nodes := ([n1], None); env_pods := ([web], None);
  env_metrics_check := t; env_metrics_done := t;
  env_metrics_api := {| NodeMetricses := node_metrics; PodMetricses := ([], None) |};
  env_disk_check := t; env_disk_done := t;
  env_http := λ _ _, Response 200 summary None;
  env_proxy := λ _, ("", Some forbidden);
  env_kubelet_order := id; env_proxy_order := id;
  env_generated := t; env_end := t |}.

Definition opts (metrics : bool) (mode : string) : Options := {|
  PollInterval := 15 * Second; MetricsServer := metrics; OptNodeDisk := mode; KubeletInsecureTLS := false |}.

(** A subscriber, a poll that meets a 403, and one that does not ask again. *)
Definition trace : list act :=
  [ActSubscribe; ActPoll (env (60 * Second) ([], Some forbidden));
   ActPoll (env (75 * Second) ([{| NMName := "n1"; NMUsage := rl 100 1 |}], None))].

Definition start := New transport config (opts true NodeDiskAuto).
Definition final := (acts syntax_error start trace).1.

Definition no_snapshot : Snapshot := {|
  GeneratedAt := zeroTime; SnapNodes := [];
  SnapCapabilities := {| CapMetrics := true; CapMetricsReason := ""; CapDisk := true; CapDiskReason := "" |} |}.

Definition first_snapshot : Snapshot := default no_snapshot (deref <$> head (buffered 0 (pub final))).

Lemma every_snapshot_coherent_witness :
  coherent first_snapshot ∧
  SnapCapabilities first_snapshot =
    {| CapMetrics := false; CapMetricsReason := ReasonForbidden; CapDisk := true; CapDiskReason := "" |} ∧
  (NodeDisk <$> SnapNodes first_snapshot) =
    [{| CapacityBytes := 100; UsedBytes := 40; AvailableBytes := 0; DiskIsLive := true |}].
Proof.
  split; [|split; vm_compute; reflexivity].
  apply (every_snapshot_coherent syntax_error transport config (opts true NodeDiskAuto) trace
           {| address := 0; deref := first_snapshot |}).
  right. exists 0. vm_compute. left.
Defined.

Lemma pointer_identity_witness :
  ∃ p p', visible (pub final) p ∧ visible (pub final) p' ∧ address p ≠ address p' ∧ (address p = address p → p = p).
Proof.
  eexists {| address := 0; deref := first_snapshot |}, {| address := 1; deref := _ |}.
  assert (visible (pub final) {| address := 0; deref := first_snapshot |}) as Hv.
  { right. exists 0. vm_compute. left. }
  split; [exact Hv|]. split; [left; vm_compute; reflexivity|]. split; [discriminate|].
  exact (pointer_identity syntax_error transport config (opts true NodeDiskAuto) trace _ _ Hv Hv).
Defined.

Lemma disabled_never_requested_witness :
  requests (acts syntax_error (New transport config (opts false NodeDiskKubelet)) trace).2 =
    [KubeletGet "https://[fd00::1]:10250/stats/summary"] ∧
  NodeDiskKubelet ∉ ["" ; NodeDiskOff; NodeDiskProxy].
Proof.
  assert (requests (acts syntax_error (New transport config (opts false NodeDiskKubelet)) trace).2 =
    [KubeletGet "https://[fd00::1]:10250/stats/summary"]) as E by (vm_compute; reflexivity).
  split; [exact E|].
  apply (disabled_never_requested syntax_error transport config (opts false NodeDiskKubelet) trace
           (KubeletGet "https://[fd00::1]:10250/stats/summary")).
  rewrite E. left.
Defined.
End CollectorWitness.
