(* ===== verification/Server.v ===== *)
(** * The HTTP server

    src/internal/server/server.go: the marshal cache, the JSON handlers and
    the event stream.  net/http is the environment's: a handler is a function
    of the request's fields it reads, the snapshot its source has, and how
    its writes end, to the response and the effects.  [source.Latest] is an
    argument and the stream's channel a list of arrivals; Stream runs the same
    handler over the shared state. *)

From Stdlib Require Import Ascii.
From S2P Require Import Prelude.
From S2P Require Import GoErrors.
From S2P Require Import Events.
From S2P Require Import Model.
From S2P Require Import Json.
From S2P Require Import Metrics.
From S2P Require Import Wire.
From S2P Require Import PubSub.
From S2P Require Import Source.

(** ** The marshal cache *)

(** [snap] is a pointer, compared by its address; nil is [None]. *)
Record marshalCache := {
  cached_snap : option nat;
  cached_data : option string;
}.

Definition cache0 : marshalCache := {| cached_snap := None; cached_data := None |}.

(** [json.Marshal], logged: the text ([None] for an error) and the snapshot the
    call encoded. *)
Definition json_Marshal (snap : snap_ptr) : option string * list snap_ptr := (Marshal (deref snap), [snap]).

(** Returns the data ([None] for an error), the new cache, and the snapshots
    [json.Marshal] was called on. *)
Definition bytes (snap : snap_ptr) (c : marshalCache) : option string * marshalCache * list snap_ptr :=
  match if decide (cached_snap c = Some (address snap)) then cached_data c else None with
  | Some data => (Some data, c, [])
  | None =>
      match json_Marshal snap with
      | (None, calls) => (None, c, calls)
      | (Some data, calls) =>
          (Some data, {| cached_snap := Some (address snap); cached_data := Some data |}, calls)
      end
  end.

(** [New]: registers the source with the metrics and starts with an empty
    cache; [None] when the registration panics. *)
Definition NewServer {R : Type} `{!Registry R} (source : nat) (st : R * option nat) :
    option (marshalCache * (R * option nat)) :=
  st ← WatchSnapshots source st; Some (cache0, st).

(** ** Responses *)

Record response := {
  status : Z;
  headers : list (string * string);
  body : string;
}.

Definition nl : string := String newline "".

(** [http.Error]. *)
Definition http_Error (msg : string) (code : Z) : response := {|
  status := code;
  headers := [("Content-Type", "text/plain; charset=utf-8"); ("X-Content-Type-Options", "nosniff")];
  body := (msg +:+ nl)%string;
|}.

(** The literals [{"error":"..."}]. *)
Definition error_json (msg : string) : string := encode (JObj [("error", JStr msg)]).

Definition StatusInternalServerError : Z := 500.
Definition StatusServiceUnavailable : Z := 503.
Definition StatusOK : Z := 200.

Section handlers.
Context {X : Type}.

(** A write that failed is logged. *)
Definition log_write (format : string) (werr : option (error X)) : list (event X) :=
  match werr with Some e => [Logf format [VErr e]] | None => [] end.

(** [gzip] is the text a [gzip.Writer] produces; [werr] how the writes end. *)
Definition handleSnapshot (gzip : string → string) (latest : option snap_ptr) (acceptEncoding : string)
    (werr : option (error X)) (c : marshalCache) : response * marshalCache * list (event X) :=
  match latest with
  | None => (http_Error (error_json "no snapshot yet") StatusServiceUnavailable, c, [])
  | Some snap =>
      match bytes snap c with
      | (None, c, _) => (http_Error (error_json "encoding snapshot") StatusInternalServerError, c, [])
      | (Some data, c, _) =>
          if Contains acceptEncoding "gzip" then
            ({| status := StatusOK;
                headers := [("Content-Type", "application/json"); ("Content-Encoding", "gzip")];
                body := gzip data |}, c, log_write "writing snapshot: %v" werr)
          else
            ({| status := StatusOK; headers := [("Content-Type", "application/json")]; body := data |},
             c, log_write "writing snapshot: %v" werr)
      end
  end.

(** [json.NewEncoder(w).Encode] ends the document with a newline. *)
Definition writeJSON (v : json) (werr : option (error X)) : response * list (event X) :=
  ({| status := StatusOK; headers := [("Content-Type", "application/json")];
      body := (encode v +:+ nl)%string |},
   log_write "writing response: %v" werr).

Definition zeroCapabilities : Capabilities := {|
  CapMetrics := false; CapMetricsReason := ""; CapDisk := false; CapDiskReason := "" |}.

Definition handleCapabilities (latest : option snap_ptr) (werr : option (error X)) :
    response * list (event X) :=
  let caps := match latest with Some snap => SnapCapabilities (deref snap) | None => zeroCapabilities end in
  writeJSON (json_of_capabilities caps) werr.

Definition handleReady (latest : option snap_ptr) : response :=
  match latest with
  | None => http_Error "no snapshot yet" StatusServiceUnavailable
  | Some _ => {| status := StatusOK; headers := []; body := ("ok" +:+ nl)%string |}
  end.

Definition handleHealth : response := {| status := StatusOK; headers := []; body := ("ok" +:+ nl)%string |}.

(** ** Routes

    [http.ServeMux] on a clean path: a GET pattern also takes HEAD, another
    method on a known path is a 405, and "/" takes every path. *)
Inductive handler :=
| SnapshotHandler | StreamHandler | CapabilitiesHandler | HealthHandler | ReadyHandler
| MetricsHandler | StaticHandler | MethodNotAllowed.

Definition Handler (method path : string) : handler :=
  if decide (method = "GET" ∨ method = "HEAD") then
    if decide (path = "/api/v1/snapshot") then SnapshotHandler
    else if decide (path = "/api/v1/stream") then StreamHandler
    else if decide (path = "/api/v1/capabilities") then CapabilitiesHandler
    else if decide (path = "/healthz") then HealthHandler
    else if decide (path = "/readyz") then ReadyHandler
    else if decide (path = "/metrics") then MetricsHandler
    else StaticHandler
  else MethodNotAllowed.

(** ** The event stream *)

Definition event_text (data : string) : string :=
  ("event: snapshot" +:+ nl +:+ "data: " +:+ data +:+ nl +:+ nl)%string.
Definition ping_text : string := (": ping" +:+ nl +:+ nl)%string.

(** What wakes the loop, and how the write it makes ends. *)
Inductive wake :=
| CtxDone
| Heartbeat (werr : option (error X))
| FromChannel (snap : snap_ptr) (werr : option (error X)).

(** What reached the client: the chunks written and flushed. *)
Definition writeEvent (snap : snap_ptr) (werr : option (error X)) (c : marshalCache) :
    list string * bool * marshalCache :=
  match bytes snap c with
  | (None, c, _) => ([], false, c)
  | (Some data, c, _) =>
      match werr with Some _ => ([], false, c) | None => ([event_text data], true, c) end
  end.

(** The chunks, whether the handler has returned, and the cache. *)
Fixpoint stream_loop (wakes : list wake) (c : marshalCache) : list string * bool * marshalCache :=
  match wakes with
  | [] => ([], false, c)
  | CtxDone :: _ => ([], true, c)
  | Heartbeat (Some _) :: _ => ([], true, c)
  | Heartbeat None :: wakes =>
      let '(chunks, ended, c) := stream_loop wakes c in (ping_text :: chunks, ended, c)
  | FromChannel snap werr :: wakes =>
      let '(chunk, ok, c) := writeEvent snap werr c in
      if ok then let '(chunks, ended, c) := stream_loop wakes c in (chunk ++ chunks, ended, c)
      else (chunk, true, c)
  end.

Record stream_result := {
  sr_response : response; (* its body: the chunks so far *)
  sr_chunks : list string;
  sr_ended : bool;
  sr_subscribed : bool;
  sr_cancelled : bool;
  sr_events : list (event X);
  sr_cache : marshalCache;
}.

(** The deferred calls, [StreamDisconnected] and then [cancel], run when the
    handler returns. *)
Definition handleStream (flusher : bool) (latest : option snap_ptr) (first_werr : option (error X))
    (wakes : list wake) (c : marshalCache) : stream_result :=
  if flusher then
    let '(chunks, ended, c) :=
      match latest with
      | Some snap =>
          let '(chunk, ok, c) := writeEvent snap first_werr c in
          if ok then let '(chunks, ended, c) := stream_loop wakes c in (chunk ++ chunks, ended, c)
          else (chunk, true, c)
      | None => stream_loop wakes c
      end in
    {| sr_response := {| status := StatusOK;
                         headers := [("Content-Type", "text/event-stream"); ("Cache-Control", "no-cache");
                                     ("Connection", "keep-alive")];
                         body := concat_str chunks |};
       sr_chunks := chunks;
       sr_ended := ended;
       sr_subscribed := true;
       sr_cancelled := ended;
       sr_events := StreamConnected ++ (if ended then StreamDisconnected else []);
       sr_cache := c |}
  else
    {| sr_response := http_Error "streaming unsupported" StatusInternalServerError;
       sr_chunks := []; sr_ended := true; sr_subscribed := false; sr_cancelled := false;
       sr_events := []; sr_cache := c |}.
End handlers.

(** ** A client of the stream

    The event-stream format as a browser's EventSource reads it, for the
    fields the server uses: a line [event:] or [data:] sets a field, a line
    that starts with a colon is a comment, an empty line dispatches the event
    if it has data.  What follows the last newline is not complete yet. *)

(** The complete lines, and the unfinished one. *)
Fixpoint lines (s : string) : list string * string :=
  match s with
  | EmptyString => ([], "")
  | String a s' =>
      let '(ls, rest) := lines s' in
      if decide (a = newline) then ("" :: ls, rest)
      else match ls with
           | [] => ([], String a rest)
           | l :: ls => (String a l :: ls, rest)
           end
  end.

Definition sse_step (s : string * option string * list (string * string)) (line : string) :
    string * option string * list (string * string) :=
  let '(name, data, out) := s in
  if decide (line = "") then
    ("", None, match data with Some d => out ++ [(name, d)] | None => out end)
  else match CutPrefix line "event: " with
  | Some name => (name, data, out)
  | None =>
      match CutPrefix line "data: " with
      | Some d => (name, Some match data with Some d0 => d0 +:+ nl +:+ d | None => d end%string, out)
      | None => (name, data, out)
      end
  end.

Definition sse_events (s : string) : list (string * string) :=
  (foldl sse_step ("", None, []) (lines s).1).2.

(** ** Lemmas: the cache *)

(** The snapshots in memory: what each address holds. *)
Section cache.
Context (heap : nat → Snapshot).
Implicit Types (p : snap_ptr) (ps : list snap_ptr) (c : marshalCache).

Definition in_heap p : Prop := deref p = heap (address p).

Definition cache_ok c : Prop :=
  ∀ data, cached_data c = Some data → ∃ a, cached_snap c = Some a ∧ Marshal (heap a) = Some data.

Lemma cache0_ok : cache_ok cache0.
Proof. done. Qed.

(** A call of [bytes], hit and miss. *)
Lemma bytes_cases p c :
  (cached_snap c = Some (address p) ∧ ∃ data, cached_data c = Some data ∧ bytes p c = (Some data, c, [])) ∨
  ((cached_snap c ≠ Some (address p) ∨ cached_data c = None) ∧
   bytes p c = (Marshal (deref p),
                match Marshal (deref p) with
                | Some data => {| cached_snap := Some (address p); cached_data := Some data |}
                | None => c
                end, [p])).
Proof.
  unfold bytes, json_Marshal. case_decide as Ha; [destruct (cached_data c) as [d|] eqn:E|].
  - left. by eauto.
  - right. split; [by right|]. by destruct (Marshal (deref p)).
  - right. split; [by left|]. by destruct (Marshal (deref p)).
Qed.

Lemma bytes_ok p c : in_heap p → cache_ok c → (bytes p c).1.1 = Marshal (deref p) ∧ cache_ok (bytes p c).1.2.
Proof.
  intros Hp Hc. unfold in_heap in Hp. destruct (bytes_cases p c) as [(Ha & d & E & ->)|[_ ->]]; simpl.
  - destruct (Hc d E) as (a & Ha' & Hm). split; [|done]. rewrite Hp. congruence.
  - destruct (Marshal (deref p)) as [d|] eqn:Em; [|done]. split; [done|].
    intros d' [= <-]. exists (address p). split; [done|]. by rewrite <-Hp.
Qed.




End cache.

(** ** Lemmas: the stream *)

Lemma lines_line l t :
  one_line l → lines (l +:+ nl +:+ t) = (l :: (lines t).1, (lines t).2).
Proof.
  unfold one_line. induction l as [|a l IH]; autorewrite with go; intros Hl.
  - unfold nl. autorewrite with go. cbn [lines]. destruct (lines t) as [ls rest]. by rewrite decide_True.
  - cbn [HasByte] in Hl. destruct (decide (a = newline)); [done|]. cbn [lines]. rewrite IH by done.
    by rewrite decide_False.
Qed.

(** The stream is a sequence of events and pings. *)
Inductive chunk := Ping | Event (data : string).

Definition chunk_text (ch : chunk) : string :=
  match ch with Ping => ping_text | Event data => event_text data end.

Definition chunk_events (ch : chunk) : list (string * string) :=
  match ch with Ping => [] | Event data => [("snapshot", data)] end.

Definition chunk_ok (ch : chunk) : Prop :=
  match ch with Ping => True | Event data => one_line data end.

Lemma sse_step_data name data out :
  sse_step (name, None, out) ("data: " +:+ data) = (name, Some data, out).
Proof.
  assert (CutPrefix ("data: " +:+ data) "data: " = Some data) as Hcut by by apply CutPrefix_Some.
  unfold sse_step. rewrite decide_False by done.
  change (CutPrefix ("data: " +:+ data) "event: ") with (None : option string). by rewrite Hcut.
Qed.

Lemma foldl_chunk ch t out :
  chunk_ok ch →
  foldl sse_step ("", None, out) (lines (chunk_text ch +:+ t)).1 =
    foldl sse_step ("", None, out ++ chunk_events ch) (lines t).1.
Proof.
  intros Hok. destruct ch as [|data]; simpl in Hok; unfold chunk_text, ping_text, event_text.
  - rewrite !app_assoc_string. rewrite lines_line by reflexivity.
    rewrite (lines_line "" t eq_refl : lines (nl +:+ t) = _). simpl. by rewrite app_nil_r.
  - rewrite !app_assoc_string. rewrite lines_line by reflexivity.
    rewrite <-(app_assoc_string "data: "). rewrite lines_line by (by apply one_line_app).
    rewrite (lines_line "" t eq_refl : lines (nl +:+ t) = _).
    cbn [fst foldl]. change (sse_step ("", None, out) "event: snapshot") with ("snapshot", None : option string, out).
    by rewrite sse_step_data.
Qed.

Lemma sse_events_chunks chs :
  Forall chunk_ok chs → sse_events (concat_str (chunk_text <$> chs)) = chs ≫= chunk_events.
Proof.
  intros Hok. unfold sse_events. change (chs ≫= chunk_events) with ([] ++ (chs ≫= chunk_events)).
  generalize ([] : list (string * string)). induction Hok as [|ch chs Hch _ IH]; intros out.
  - by rewrite app_nil_r.
  - rewrite fmap_cons, bind_cons. change (concat_str (chunk_text ch :: ?x)) with (chunk_text ch +:+ concat_str x)%string.
    rewrite foldl_chunk by done. rewrite IH. by rewrite app_assoc.
Qed.

Lemma Marshal_one_line s data : Marshal s = Some data → one_line data.
Proof.
  intros H. destruct (Parse_Marshal s data H) as (g & Hg & -> & _). apply encode_one_line.
  unfold marshal_time in Hg. destruct (date _) as [[y m] d]. case_decide; simplify_eq.
  apply (small_snapshot _ s). by apply small_atom.
Qed.

Section stream.
Context {X : Type} (heap : nat → Snapshot).
Implicit Types (wakes : list (wake (X := X))) (c : marshalCache) (p : snap_ptr).

(** The snapshots the channel delivers. *)
Definition from_channel wakes : list snap_ptr :=
  omap (λ w, match w with FromChannel p _ => Some p | _ => None end) wakes.

(** What the chunks carry: the encodings of these snapshots, in order, with
    pings between. *)
Definition carry (chunks : list string) (sent : list snap_ptr) : Prop :=
  ∃ chs datas, chunks = chunk_text <$> chs ∧ Forall chunk_ok chs ∧
    chs ≫= chunk_events = (λ d, ("snapshot", d)) <$> datas ∧
    Forall2 (λ p d, Marshal (deref p) = Some d) sent datas.

Lemma carry_nil : carry [] [].
Proof. by exists [], []. Qed.

Lemma carry_ping chunks sent : carry chunks sent → carry (ping_text :: chunks) sent.
Proof.
  intros (chs & datas & -> & Hok & He & Hm). exists (Ping :: chs), datas. split_and!; try done.
  by constructor.
Qed.

Lemma carry_event data p chunks sent :
  Marshal (deref p) = Some data → carry chunks sent → carry ([event_text data] ++ chunks) (p :: sent).
Proof.
  intros Hp (chs & datas & -> & Hok & He & Hm). exists (Event data :: chs), (data :: datas).
  split_and!; [done| |by rewrite bind_cons, fmap_cons, He|by constructor].
  constructor; [by eapply Marshal_one_line|done].
Qed.

Lemma carry_app chunks sent chunks' sent' :
  carry chunks sent → carry chunks' sent' → carry (chunks ++ chunks') (sent ++ sent').
Proof.
  intros (chs & datas & -> & Hok & He & Hm) (chs' & datas' & -> & Hok' & He' & Hm').
  exists (chs ++ chs'), (datas ++ datas'). split_and!.
  - by rewrite fmap_app.
  - by apply Forall_app.
  - by rewrite bind_app, fmap_app, He, He'.
  - by apply Forall2_app.
Qed.

(** A write of an event: nothing, and the handler returns, or the event. *)
Lemma writeEvent_cases p (werr : option (error X)) c :
  in_heap heap p → cache_ok heap c →
  let '(chunk, ok, c') := writeEvent p werr c in
  cache_ok heap c' ∧
  if (ok : bool) then ∃ data, Marshal (deref p) = Some data ∧ chunk = [event_text data] else chunk = [].
Proof.
  intros Hp Hc. destruct (bytes_ok heap p c Hp Hc) as [Hb Hc'].
  unfold writeEvent. destruct (bytes p c) as [[[data|] c'] calls]; simpl in *; [|done].
  destruct werr; simpl; [done|]. split; [done|]. by exists data.
Qed.

Lemma stream_loop_carry wakes c :
  Forall (in_heap heap) (from_channel wakes) → cache_ok heap c →
  let '(chunks, ended, _) := stream_loop wakes c in
  ∃ sent, carry chunks sent ∧ sent `prefix_of` from_channel wakes ∧
    (ended = false → sent = from_channel wakes).
Proof.
  revert c. induction wakes as [|w wakes IH]; intros c Hh Hc; simpl.
  { exists []. split_and!; [apply carry_nil|done|done]. }
  assert (∃ sent, carry [] sent ∧ sent `prefix_of` from_channel (w :: wakes) ∧
            (true = false → sent = from_channel (w :: wakes))) as Hstop.
  { exists []. split_and!; [apply carry_nil|apply prefix_nil|done]. }
  destruct w as [|[e|]|p werr]; [exact Hstop|exact Hstop| |].
  - specialize (IH c Hh Hc). destruct (stream_loop wakes c) as [[chunks ended] c'].
    destruct IH as (sent & H1 & H2 & H3). exists sent. split_and!; [by apply carry_ping|done|done].
  - apply Forall_cons in Hh as [Hp Hh]. pose proof (writeEvent_cases p werr c Hp Hc) as Hw.
    destruct (writeEvent p werr c) as [[chunk [|]] c']; destruct Hw as [Hc' Hw]; [|by rewrite Hw].
    destruct Hw as (data & Hm & ->). specialize (IH c' Hh Hc').
    destruct (stream_loop wakes c') as [[chunks ended] c'']. destruct IH as (sent & H1 & H2 & H3).
    exists (p :: sent). split_and!; [by apply carry_event|by apply prefix_cons|].
    intros He. change (p :: sent = p :: from_channel wakes). by rewrite H3.
Qed.

Lemma carry_sse chunks sent :
  carry chunks sent →
  ∃ datas, sse_events (concat_str chunks) = (λ d, ("snapshot", d)) <$> datas ∧
    Forall2 (λ p d, Marshal (deref p) = Some d) sent datas.
Proof.
  intros (chs & datas & -> & Hok & He & Hm). exists datas. split; [|done].
  by rewrite sse_events_chunks, He.
Qed.
End stream.

(** What [handleStream] comes to, on every path. *)
Lemma handleStream_cases {X : Type} heap latest (werr : option (error X)) wakes c :
  Forall (in_heap heap) (option_list latest ++ from_channel wakes) → cache_ok heap c →
  ∃ chunks ended c' sent,
    handleStream true latest werr wakes c =
      {| sr_response := {| status := StatusOK;
                           headers := [("Content-Type", "text/event-stream"); ("Cache-Control", "no-cache");
                                       ("Connection", "keep-alive")];
                           body := concat_str chunks |};
         sr_chunks := chunks; sr_ended := ended; sr_subscribed := true; sr_cancelled := ended;
         sr_events := StreamConnected ++ (if ended then StreamDisconnected else []); sr_cache := c' |} ∧
    carry chunks sent ∧ sent `prefix_of` option_list latest ++ from_channel wakes ∧
    (ended = false → sent = option_list latest ++ from_channel wakes).
Proof.
  intros Hh Hc. apply Forall_app in Hh as [Hl Hw]. unfold handleStream. destruct latest as [p|].
  - apply Forall_cons in Hl as [Hp _]. pose proof (writeEvent_cases heap p werr c Hp Hc) as Hwrite.
    destruct (writeEvent p werr c) as [[chunk [|]] c1]; destruct Hwrite as [Hc1 Hwrite].
    + destruct Hwrite as (data & Hm & ->). pose proof (stream_loop_carry heap wakes c1 Hw Hc1) as Hloop.
      destruct (stream_loop wakes c1) as [[chunks ended] c2]. destruct Hloop as (sent & H1 & H2 & H3).
      exists ([event_text data] ++ chunks), ended, c2, (p :: sent).
      split_and!; [done|by apply carry_event|by apply prefix_cons|]. intros He. simpl. by rewrite H3.
    + subst chunk. exists [], true, c1, []. split_and!; [done|apply carry_nil|apply prefix_nil|done].
  - pose proof (stream_loop_carry heap wakes c Hw Hc) as Hloop.
    destruct (stream_loop wakes c) as [[chunks ended] c2]. destruct Hloop as (sent & H1 & H2 & H3).
    by exists chunks, ended, c2, sent.
Qed.

(** The document of an endpoint, read back. *)
Lemma read_capabilities_text c :
  valid_text (CapMetricsReason c) → valid_text (CapDiskReason c) →
  (v ← Parse (encode (json_of_capabilities c) +:+ nl); read_capabilities v) = Some c.
Proof.
  intros Hm Hd. destruct (small_capabilities c). rewrite Parse_encode_ws; [|done| |done|done].
  - cbn [mbind option_bind]. by rewrite sanitize_capabilities, read_capabilities_json.
  - unfold max_depth. lia.
Qed.

Lemma read_snapshot_Marshal s text :
  snapshot_text s → Marshal s = Some text →
  read_snapshot text = Some (rfc3339 (GeneratedAt s), SnapNodes s, SnapCapabilities s).
Proof.
  intros Ht Hm. destruct (Parse_Marshal s text Hm) as (g & Hg & _ & Hp).
  assert (g = JStr (rfc3339 (GeneratedAt s)) ∧ sanitize_json g = g) as [-> Hs].
  { unfold marshal_time in Hg. destruct (date _) as [[y m] d]. case_decide; simplify_eq.
    split; [done|]. simpl. by rewrite (rfc3339_text (GeneratedAt s)). }
  unfold read_snapshot. rewrite Hp, sanitize_snapshot by done. cbn [mbind option_bind json_of_snapshot].
  change (member "nodes" _) with (JArr (json_of_node <$> SnapNodes s)).
  change (member "capabilities" _) with (json_of_capabilities (SnapCapabilities s)).
  change (read_list read_node (JArr (json_of_node <$> SnapNodes s)))
    with (mapM read_node (json_of_node <$> SnapNodes s)).
  rewrite (mapM_read read_node json_of_node _ read_node_json), read_capabilities_json. reflexivity.
Qed.

(** ** Properties *)


(** C32: GET /api/v1/snapshot: 503 before the first snapshot, 500 when it cannot be
    encoded, and otherwise 200 with a body, gzipped and marked so exactly when the
    Accept-Encoding header names gzip, from which the whole snapshot can be read back: nodes, pods, roles, usage,
    disks and capabilities, nil and empty told apart. *)
Theorem handleSnapshot_serves {X : Type} (gzip : string → string) (gunzip : string → option string)
    heap latest accept (werr : option (error X)) c :
  (∀ s, gunzip (gzip s) = Some s) → cache_ok heap c → Forall (in_heap heap) (option_list latest) →
  let '(resp, c', _) := handleSnapshot gzip latest accept werr c in
  cache_ok heap c' ∧
  match latest with
  | None => status resp = 503%Z
  | Some p =>
      match Marshal (deref p) with
      | None => status resp = 500%Z
      | Some text =>
          status resp = 200%Z ∧ ("Content-Type", "application/json") ∈ headers resp ∧
          (("Content-Encoding", "gzip") ∈ headers resp ↔ Contains accept "gzip" = true) ∧
          (if Contains accept "gzip" then gunzip (body resp) else Some (body resp)) = Some text ∧
          (snapshot_text (deref p) →
           read_snapshot text = Some (rfc3339 (GeneratedAt (deref p)), SnapNodes (deref p), SnapCapabilities (deref p)))
      end
  end.
Proof.
  intros Hgz Hc Hh. destruct latest as [p|]; [|done]. apply Forall_cons in Hh as [Hp _].
  unfold handleSnapshot. destruct (bytes_ok heap p c Hp Hc) as [Hb Hc'].
  destruct (bytes p c) as [[data c'] calls]. simpl in Hb, Hc'. rewrite <-Hb.
  destruct data as [text|]; [|done].
  destruct (Contains accept "gzip"); (split; [done|]; split; [done|]; split; [left|]);
    (split; [|split; [|intros Ht; by apply read_snapshot_Marshal]]).
  - split; [done|]. intros _. right. left.
  - apply Hgz.
  - split; [|done]. intros H. exfalso. revert H. apply (bool_decide_unpack _). vm_compute. exact I.
  - done.
Qed.

(** C34: GET /api/v1/capabilities always answers 200 with a document that reads back
    as the latest snapshot's capabilities, and before the first snapshot as both
    signals down without a reason; the readiness probe says 503 exactly then. *)
Theorem handleCapabilities_serves {X : Type} latest (werr : option (error X)) :
  Forall (λ p, snapshot_text (deref p)) (option_list latest) →
  let resp := (handleCapabilities latest werr).1 in
  status resp = 200%Z ∧
  (v ← Parse (body resp); read_capabilities v) =
    Some match latest with Some p => SnapCapabilities (deref p) | None =>
           {| CapMetrics := false; CapMetricsReason := ""; CapDisk := false; CapDiskReason := "" |} end ∧
  (status (handleReady latest) = 503%Z ↔ latest = None).
Proof.
  intros Ht. split; [done|]. split; [|by destruct latest].
  unfold handleCapabilities, writeJSON. simpl. destruct latest as [p|].
  - apply Forall_cons in Ht as [[_ Hm Hd] _]. by apply read_capabilities_text.
  - by apply read_capabilities_text.
Qed.

(** C31: the event stream, read by a browser, is the latest snapshot and then those
    the channel delivered, in order, heartbeats invisible: all of them while the
    handler runs, a prefix once it returned. On every way out (client gone, a
    failed write, a snapshot that cannot be encoded) it has unsubscribed and the
    client gauge is back where it was. *)
Theorem handleStream_delivers {X : Type} heap latest (werr : option (error X)) wakes c :
  Forall (in_heap heap) (option_list latest ++ from_channel wakes) → cache_ok heap c →
  let r := handleStream true latest werr wakes c in
  let arrived := option_list latest ++ from_channel wakes in
  (∃ sent datas, sent `prefix_of` arrived ∧ (sr_ended r = false → sent = arrived) ∧
     sse_events (body (sr_response r)) = (λ d, ("snapshot", d)) <$> datas ∧
     Forall2 (λ p d, Marshal (deref p) = Some d) sent datas) ∧
  sr_subscribed r = true ∧ sr_cancelled r = sr_ended r ∧
  gauge_delta "streamClients" (sr_events r) = (if sr_ended r then 0 else 1)%Z.
Proof.
  intros Hh Hc. destruct (handleStream_cases heap latest werr wakes c Hh Hc)
    as (chunks & ended & c' & sent & -> & Hcarry & Hpre & Hall).
  simpl. split_and!; try done; [|by destruct ended].
  destruct (carry_sse chunks sent Hcarry) as (datas & He & Hm). by exists sent, datas.
Qed.

(** ** Witnesses *)

Module ServerWitness.
(** One node with a pod, generated a minute after the snapshot before it. *)
Definition pod_u1 : Pod := {|
  PodUID := "u1"; PodName := "web-<1>"; PodNamespace := "default";
  PodRequests := {| CPUMillis := 250; MemBytes := 1024 |}; PodLimits := zeroResources;
  PodUsage := {| CPUMillis := -1; MemBytes := 9223372036854775807 |}; PodHasUsage := true |}.

Definition node_n1 : Node := {|
  NodeName := "n1"; NodeIsReady := true; NodeRoles := ["worker"];
  NodeAllocatable := {| AllocCPUMillis := 4000; AllocMemBytes := 8; AllocDiskBytes := 100; AllocPods := 110 |};
  NodeUsage := zeroResources; NodeHasUsage := false;
  NodeDisk := {| CapacityBytes := 100; UsedBytes := 40; AvailableBytes := 60; DiskIsLive := true |};
  NodePods := Some [pod_u1] |}.

Definition heap (a : nat) : Snapshot := {|
  GeneratedAt := Z.of_nat a * Minute;
  SnapNodes := [node_n1];
  SnapCapabilities := {| CapMetrics := false; CapMetricsReason := ReasonForbidden;
                         CapDisk := true; CapDiskReason := "" |} |}.

Definition ptr (a : nat) : snap_ptr := {| address := a; deref := heap a |}.

Lemma heap_text a : snapshot_text (heap a).
Proof.
  constructor; [|reflexivity|reflexivity]. constructor; [|constructor].
  constructor; [reflexivity|repeat constructor|]. constructor; [by constructor|constructor].
Qed.


(** A client that takes gzip and one that does not; the compressed text is
    marked by a "z" here. *)
Definition gz (s : string) : string := String "z" s.
Definition gunz (s : string) : option string := match s with String _ s => Some s | EmptyString => None end.

Lemma handleSnapshot_serves_witness :
  let zipped := (handleSnapshot (X := string) gz (Some (ptr 1)) "br, gzip" None cache0).1.1 in
  let plain := (handleSnapshot (X := string) gz (Some (ptr 1)) "br" None cache0).1.1 in
  status zipped = 200%Z ∧ ("Content-Encoding", "gzip") ∈ headers zipped ∧
  ¬ ("Content-Encoding", "gzip") ∈ headers plain ∧ gunz (body zipped) = Some (body plain) ∧
  read_snapshot (body plain) = Some ("0001-01-01T00:01:00Z", [node_n1], SnapCapabilities (heap 1)).
Proof.
  pose proof (λ accept, handleSnapshot_serves (X := string) gz gunz heap (Some (ptr 1)) accept None cache0
    (λ _, eq_refl) (cache0_ok heap) ltac:(by repeat constructor)) as H.
  pose proof (H "br") as Hp. specialize (H "br, gzip"). cbv zeta.
  destruct (handleSnapshot gz (Some (ptr 1)) "br, gzip" None cache0) as [[zipped c1] evs1].
  destruct (handleSnapshot gz (Some (ptr 1)) "br" None cache0) as [[plain c2] evs2].
  destruct H as [_ H]. destruct Hp as [_ Hp]. cbv beta iota in H, Hp. cbn [fst snd].
  change (deref (ptr 1)) with (heap 1) in H, Hp.
  destruct (Marshal (heap 1)) as [text|] eqn:E; [|vm_compute in E; discriminate].
  destruct H as (H1 & _ & H2 & H3 & _). destruct Hp as (_ & _ & Hp2 & Hp3 & Hp4).
  change (Contains "br, gzip" "gzip") with true in H2, H3. change (Contains "br" "gzip") with false in Hp2, Hp3.
  injection Hp3 as Hp3. rewrite Hp3. split; [exact H1|]. split; [by apply H2|].
  split; [intros Hin; by apply Hp2 in Hin|]. split; [exact H3|].
  refine (eq_trans (Hp4 (heap_text 1)) _). vm_compute. reflexivity.
Defined.

Lemma handleCapabilities_serves_witness :
  status (handleCapabilities (X := string) (Some (ptr 1)) None).1 = 200%Z ∧
  (v ← Parse (body (handleCapabilities (X := string) (Some (ptr 1)) None).1); read_capabilities v) =
    Some (SnapCapabilities (heap 1)).
Proof.
  destruct (handleCapabilities_serves (X := string) (Some (ptr 1)) None) as (H1 & H2 & _).
  - repeat constructor; apply heap_text.
  - split; [exact H1|exact H2].
Defined.

Lemma handleStream_delivers_witness :
  length (sse_events (body (sr_response
    (handleStream (X := string) true (Some (ptr 1)) None [Heartbeat None; FromChannel (ptr 2) None] cache0)))) = 2 ∧
  gauge_delta "streamClients" (sr_events
    (handleStream (X := string) true (Some (ptr 1)) None
       [Heartbeat None; FromChannel (ptr 2) None; CtxDone] cache0)) = 0%Z.
Proof.
  split.
  - destruct (handleStream_delivers heap (Some (ptr 1)) (None : option (error string))
                [Heartbeat None; FromChannel (ptr 2) None] cache0) as [(sent & datas & _ & Hall & -> & Hm) _].
    + by repeat constructor.
    + apply cache0_ok.
    + rewrite length_fmap, <-(Forall2_length _ _ _ Hm), Hall; [reflexivity|vm_compute; reflexivity].
  - destruct (handleStream_delivers heap (Some (ptr 1)) (None : option (error string))
                [Heartbeat None; FromChannel (ptr 2) None; CtxDone] cache0) as (_ & _ & _ & ->).
    + by repeat constructor.
    + apply cache0_ok.
    + vm_compute. reflexivity.
Defined.
End ServerWitness.
