(* ===== verification/Stream.v ===== *)
(** * The event stream among other goroutines

    [handleStream] of src/internal/server/server.go over the source's shared
    state: every step of the handler (subscribe, read the latest snapshot and
    write it, one round of the select loop, the deferred calls) is atomic, and
    between any two of them the other goroutines publish, subscribe, cancel,
    receive and ask the shared marshal cache for bytes.  [handleStream] of
    Server is this handler run alone ([stream_run_handleStream]). *)

From S2P Require Import Prelude.
From S2P Require Import GoErrors.
From S2P Require Import Events.
From S2P Require Import Model.
From S2P Require Import Json.
From S2P Require Import Metrics.
From S2P Require Import Wire.
From S2P Require Import PubSub.
From S2P Require Import Source.
From S2P Require Import Server.

(** Where a handler is, past the check that its writer can flush. *)
Inductive stream_pc :=
| AtSubscribe
| AtLatest (ch : nat)  (* subscribed, about to call [Latest] *)
| AtSelect (ch : nat)  (* at the head of the loop *)
| AtReturn (ch : nat)  (* returning, the deferred calls to be run *)
| Returned (ch : nat).

Section machine.
Context {X : Type}.

Record stream_sys := StreamSys {
  ss_pub : pubsub snap_ptr;
  ss_cache : marshalCache;
  ss_pc : stream_pc;
  ss_chunks : list string;
  ss_events : list (event X);
}.

(** A step of another goroutine, or of the handler: its next statement, whose
    write ends as given, or, in the select, the case that is taken. *)
Inductive stream_act :=
| Other (o : op (A := snap_ptr))
| OtherBytes (snap : snap_ptr)
| Proceed (werr : option (error X))
| SelectDone
| SelectHeartbeat (werr : option (error X))
| SelectReceive (werr : option (error X)).

(** [if err := s.writeEvent(w, snap); err != nil { return }], then the flush. *)
Definition stream_write (ch : nat) (snap : snap_ptr) (werr : option (error X)) (st : pubsub snap_ptr)
    (s : stream_sys) : stream_sys :=
  let '(chunk, ok, c) := writeEvent snap werr (ss_cache s) in
  {| ss_pub := st; ss_cache := c; ss_pc := if ok then AtSelect ch else AtReturn ch;
     ss_chunks := ss_chunks s ++ chunk; ss_events := ss_events s |}.

Definition goto (pc : stream_pc) (s : stream_sys) : stream_sys :=
  {| ss_pub := ss_pub s; ss_cache := ss_cache s; ss_pc := pc; ss_chunks := ss_chunks s;
     ss_events := ss_events s |}.

(** An act the handler cannot take where it is (a receive on an empty channel,
    a case outside the select) changes nothing. *)
Definition stream_step (s : stream_sys) (a : stream_act) : stream_sys :=
  match a, ss_pc s with
  | Other o, _ =>
      {| ss_pub := exec (ss_pub s) o; ss_cache := ss_cache s; ss_pc := ss_pc s;
         ss_chunks := ss_chunks s; ss_events := ss_events s |}
  | OtherBytes snap, _ =>
      {| ss_pub := ss_pub s; ss_cache := (bytes snap (ss_cache s)).1.2; ss_pc := ss_pc s;
         ss_chunks := ss_chunks s; ss_events := ss_events s |}
  | Proceed _, AtSubscribe =>
      let '(ch, st) := Subscribe (ss_pub s) in
      {| ss_pub := st; ss_cache := ss_cache s; ss_pc := AtLatest ch; ss_chunks := ss_chunks s;
         ss_events := ss_events s ++ StreamConnected |}
  | Proceed werr, AtLatest ch =>
      match Latest (ss_pub s) with
      | Some snap => stream_write ch snap werr (ss_pub s) s
      | None => goto (AtSelect ch) s
      end
  | SelectDone, AtSelect ch => goto (AtReturn ch) s
  | SelectHeartbeat (Some _), AtSelect ch => goto (AtReturn ch) s
  | SelectHeartbeat None, AtSelect ch =>
      {| ss_pub := ss_pub s; ss_cache := ss_cache s; ss_pc := AtSelect ch;
         ss_chunks := ss_chunks s ++ [ping_text]; ss_events := ss_events s |}
  | SelectReceive werr, AtSelect ch =>
      match recv ch (ss_pub s) with
      | Some (snap, st) => stream_write ch snap werr st s
      | None => s
      end
  | Proceed _, AtReturn ch =>
      {| ss_pub := cancel ch (ss_pub s); ss_cache := ss_cache s; ss_pc := Returned ch;
         ss_chunks := ss_chunks s; ss_events := ss_events s ++ StreamDisconnected |}
  | _, _ => s
  end.

Definition stream_run (s : stream_sys) (l : list stream_act) : stream_sys := foldl stream_step s l.

(** A handler called on this source and cache. *)
Definition stream_start (st : pubsub snap_ptr) (c : marshalCache) : stream_sys :=
  {| ss_pub := st; ss_cache := c; ss_pc := AtSubscribe; ss_chunks := []; ss_events := [] |}.


(** What the other goroutines do to the subscribers. *)
Definition others (l : list stream_act) : list op :=
  omap (λ a, match a with Other o => Some o | _ => None end) l.

(** The same with the receives of a handler that stays in its loop. *)
Definition loop_ops (ch : nat) (l : list stream_act) : list op :=
  omap (λ a, match a with Other o => Some o | SelectReceive _ => Some (OpRecv ch) | _ => None end) l.

Definition is_other (a : stream_act) : Prop :=
  match a with Other _ | OtherBytes _ => True | _ => False end.

(** The handler's channel is its own, and a snapshot in memory stays as it is. *)
Definition act_ok (heap : nat → Snapshot) (ch : nat) (a : stream_act) : Prop :=
  match a with
  | Other o => o ≠ OpRecv ch ∧ o ≠ OpCancel ch ∧ Forall (in_heap heap) (published [o])
  | OtherBytes p => in_heap heap p
  | _ => True
  end.

(** The handler, past [Latest]: [fresh] is the first frame's snapshot if there
    is one, [got] what its channel delivered since, and [pubs] what was
    published since it subscribed. *)
Record streaming (heap : nat → Snapshot) (ch : nat) (fresh got pubs : list snap_ptr) (s : stream_sys) : Prop := {
  str_pub : pubsub_ok (ss_pub s);
  str_next : ch < next (ss_pub s);
  str_cache : cache_ok heap (ss_cache s);
  str_pubs : Forall (in_heap heap) pubs;
  str_order : sublist (got ++ buffered ch (ss_pub s)) pubs;
  str_first : ch ∈ subs (ss_pub s) → head (got ++ buffered ch (ss_pub s)) = head pubs;
  str_pc : (ss_pc s = AtSelect ch ∨ ss_pc s = AtReturn ch) ∧ ch ∈ subs (ss_pub s) ∧
             gauge_delta "streamClients" (ss_events s) = 1%Z ∨
           ss_pc s = Returned ch ∧ ¬ (ch ∈ subs (ss_pub s)) ∧
             gauge_delta "streamClients" (ss_events s) = 0%Z;
  str_sent : ∃ sent, carry (ss_chunks s) sent ∧ sent `prefix_of` fresh ++ got ∧
             (ss_pc s = AtSelect ch → sent = fresh ++ got);
}.

Implicit Types (s : stream_sys) (a : stream_act) (heap : nat → Snapshot) (ch : nat).

(** ** Lemmas *)

Lemma head_offer {A} (x : A) got buf pubs :
  head (got ++ buf) = head pubs → head (got ++ offer x buf) = head (pubs ++ [x]).
Proof.
  unfold offer. intros H. destruct got as [|y got]; [|by destruct pubs; simplify_eq/=].
  case_decide as Hlen; destruct buf as [|y buf], pubs; simplify_eq/=; try done. unfold chan_cap in Hlen. lia.
Qed.

(** The steps of the other goroutines, as the handler sees them. *)
Lemma streaming_exec heap ch fresh got pubs s o :
  o ≠ OpRecv ch → o ≠ OpCancel ch → Forall (in_heap heap) (published [o]) →
  streaming heap ch fresh got pubs s →
  streaming heap ch fresh got (pubs ++ published [o]) (stream_step s (Other o)).
Proof.
  intros Ho Ho' Hh [Hp Hn Hc Hps Hord Hfst Hpc Hsent].
  pose proof (exec_next (ss_pub s) o). pose proof (exec_subs (ss_pub s) o ch Hn Ho') as Hsubs.
  constructor; cbn [stream_step ss_pub ss_cache ss_pc ss_chunks ss_events].
  - by apply exec_ok.
  - lia.
  - done.
  - by apply Forall_app.
  - etrans; [apply sublist_app; [reflexivity|by apply exec_other_buffered]|].
    rewrite app_assoc. by apply sublist_app.
  - rewrite Hsubs. intros Hin. specialize (Hfst Hin). destruct o as [x| |ch'|ch'].
    + simpl. rewrite buffered_publish, decide_True by done. by apply head_offer.
    + rewrite app_nil_r. by rewrite (buffered_subscribe _ ch Hn : buffered ch (exec _ OpSubscribe) = _).
    + by rewrite app_nil_r.
    + rewrite app_nil_r. simpl. destruct (recv ch' (ss_pub s)) as [[y st']|] eqn:E; [|done].
      apply recv_Some in E as (_ & Hb & _). rewrite Hb; [done|congruence].
  - rewrite Hsubs. done.
  - done.
Qed.

(** A write of the handler: the frame, or the way out. *)
Lemma streaming_write heap ch fresh got got' pubs p (werr : option (error X)) st s :
  in_heap heap p →
  pubsub_ok st → ch < next st → cache_ok heap (ss_cache s) → Forall (in_heap heap) pubs →
  sublist (got' ++ buffered ch st) pubs → ch ∈ subs st → head (got' ++ buffered ch st) = head pubs →
  gauge_delta "streamClients" (ss_events s) = 1%Z →
  carry (ss_chunks s) got → fresh ++ got' = got ++ [p] →
  streaming heap ch fresh got' pubs (stream_write ch p werr st s).
Proof.
  intros Hp Hst Hn Hc Hps Hord Hin Hfst Hg Hcarry Heq. unfold stream_write.
  pose proof (writeEvent_cases heap p werr (ss_cache s) Hp Hc) as Hw.
  destruct (writeEvent p werr (ss_cache s)) as [[chunk ok] c]. destruct Hw as [Hc' Hw].
  constructor; cbn [ss_pub ss_cache ss_pc ss_chunks ss_events]; try done.
  - left. destruct ok; auto.
  - destruct ok.
    + destruct Hw as (data & Hm & ->). exists (got ++ [p]). split_and!; [|by rewrite Heq|done].
      apply carry_app; [done|]. apply (carry_event data p [] []); [done|apply carry_nil].
    + subst chunk. rewrite app_nil_r. exists got. split_and!; [done|rewrite Heq; by apply prefix_app_r|done].
Qed.

(** A change of the handler that leaves the shared state alone. *)
Lemma streaming_local heap ch fresh got pubs s s' :
  streaming heap ch fresh got pubs s → ss_pc s = AtSelect ch →
  ss_pub s' = ss_pub s → ss_cache s' = ss_cache s → ss_events s' = ss_events s →
  (ss_pc s' = AtSelect ch ∨ ss_pc s' = AtReturn ch) →
  (ss_chunks s' = ss_chunks s ∨ ss_chunks s' = ss_chunks s ++ [ping_text]) →
  streaming heap ch fresh got pubs s'.
Proof.
  intros [Hp Hn Hc Hps Hord Hfst Hpc Hsent] Epc Ep Ec Ee Hpc' Hch.
  constructor; rewrite ?Ep, ?Ec, ?Ee; try done.
  - left. destruct Hpc as [(_ & Hin & Hg)|(Hpc & _)]; [done|congruence].
  - destruct Hsent as (sent & Hcarry & Hpre & Hall). exists sent. split_and!; [|done|by intros _; apply Hall].
    destruct Hch as [-> | ->]; [done|]. rewrite <-(app_nil_r sent).
    apply carry_app; [done|]. apply carry_ping, carry_nil.
Qed.

(** Every act but a receive. *)
Lemma streaming_quiet heap ch fresh got pubs s a :
  (∀ werr, a ≠ SelectReceive werr) → act_ok heap ch a → streaming heap ch fresh got pubs s →
  streaming heap ch fresh got (pubs ++ published (others [a])) (stream_step s a).
Proof.
  intros Hq Ha Hs. destruct a as [o|p|werr| |werr|werr]; cbn [others omap list_omap];
    [destruct Ha as (Ho & Ho' & Hh); by apply streaming_exec|rewrite app_nil_r..|by destruct (Hq werr)].
  - destruct Hs as [Hp Hn Hc Hps Hord Hfst Hpc Hsent]. constructor; try done.
    simpl. by apply bytes_ok.
  - cbn [stream_step]. pose proof Hs as [Hp Hn Hc Hps Hord Hfst Hpc Hsent].
    destruct Hpc as [([Epc|Epc] & Hin & Hg)|(Epc & _)]; rewrite Epc; [done| |done].
    constructor; cbn [ss_pub ss_cache ss_pc ss_chunks ss_events]; try done.
    + exact (exec_ok _ (OpCancel ch) Hp).
    + simpl. set_solver.
    + right. split; [done|]. split; [simpl; set_solver|]. by rewrite gauge_delta_app, Hg.
    + destruct Hsent as (sent & Hcarry & Hpre & _). by exists sent.
  - pose proof (str_pc _ _ _ _ _ _ Hs) as [([Epc|Epc] & _)|(Epc & _)]; cbn [stream_step]; rewrite Epc;
      [|done|done]. eapply streaming_local; eauto.
  - pose proof (str_pc _ _ _ _ _ _ Hs) as [([Epc|Epc] & _)|(Epc & _)]; cbn [stream_step]; rewrite Epc;
      destruct werr; try done; eapply streaming_local; eauto.
Qed.

(** A receive, by a handler in its loop. *)
Lemma streaming_receive heap ch fresh got pubs s werr :
  ss_pc s = AtSelect ch → streaming heap ch fresh got pubs s →
  streaming heap ch fresh (got ++ received ch (ss_pub s) [OpRecv ch]) pubs (stream_step s (SelectReceive werr)) ∧
  ss_pub (stream_step s (SelectReceive werr)) = run (ss_pub s) [OpRecv ch].
Proof.
  intros Epc Hs. pose proof Hs as [Hp Hn Hc Hps Hord Hfst Hpc Hsent]. cbn [stream_step]. rewrite Epc, received_recv.
  destruct Hpc as [(_ & Hin & Hg)|(Epc' & _)]; [|congruence].
  pose proof (exec_ok _ (OpRecv ch) Hp) as Hp'. cbn [run foldl exec] in *.
  destruct (recv ch (ss_pub s)) as [[p st]|] eqn:E; [|by simpl; rewrite app_nil_r].
  apply recv_Some in E as (Eb & _ & _ & Esubs & Enext). rewrite Eb in Hord, Hfst.
  destruct Hsent as (sent & Hcarry & _ & Hall). rewrite (Hall Epc) in Hcarry. split.
  - apply (streaming_write heap ch fresh (fresh ++ got)); cbn [received];
      rewrite ?Esubs, ?Enext, <-?app_assoc; try done; [|by apply Hfst].
    rewrite Forall_forall in Hps. apply Hps. eapply elem_of_submseteq; [|by apply sublist_submseteq].
    apply elem_of_app. right. left.
  - unfold stream_write. by destruct (writeEvent p werr (ss_cache s)) as [[? ?] ?].
Qed.

(** While the handler stays in its loop, it takes every receive. *)
Lemma streaming_step heap ch fresh got pubs s a :
  act_ok heap ch a → streaming heap ch fresh got pubs s →
  ∃ got', streaming heap ch fresh got' (pubs ++ published (others [a])) (stream_step s a) ∧
    (ss_pc (stream_step s a) = AtSelect ch →
       ss_pc s = AtSelect ch ∧ a ≠ SelectDone ∧ got' = got ++ received ch (ss_pub s) (loop_ops ch [a]) ∧
       ss_pub (stream_step s a) = run (ss_pub s) (loop_ops ch [a])).
Proof.
  intros Ha Hs. pose proof (str_pc _ _ _ _ _ _ Hs) as Hpc.
  destruct a as [o|p|werr| |werr|werr].
  6: { destruct Hpc as [([Epc|Epc] & _)|(Epc & _)].
    - destruct (streaming_receive heap ch fresh got pubs s werr Epc Hs) as [H1 H2].
      eexists. split; [cbn [others omap list_omap]; rewrite app_nil_r; exact H1|done].
    - exists got. cbn [stream_step others omap list_omap]. rewrite Epc, app_nil_r. split; [done|congruence].
    - exists got. cbn [stream_step others omap list_omap]. rewrite Epc, app_nil_r. split; [done|congruence]. }
  all: exists got; (split; [by apply streaming_quiet|]); destruct Hpc as [([Epc|Epc] & _)|(Epc & _)];
    cbn [stream_step]; rewrite ?Epc; try (simpl; rewrite ?app_nil_r; congruence).
  - simpl. intros _. destruct Ha as (Ho & _). split_and!; try done.
    change (got = got ++ received ch (ss_pub s) [o]). by rewrite received_other, app_nil_r.
  - simpl. by rewrite app_nil_r.
  - simpl. by rewrite app_nil_r.
  - destruct werr; simpl; [congruence|]. by rewrite app_nil_r.
  - destruct werr; simpl; congruence.
  - destruct werr; simpl; congruence.
Qed.

Lemma streaming_run heap ch fresh got pubs s l :
  Forall (act_ok heap ch) l → streaming heap ch fresh got pubs s →
  ∃ got', streaming heap ch fresh got' (pubs ++ published (others l)) (stream_run s l) ∧
    (ss_pc (stream_run s l) = AtSelect ch →
       ss_pc s = AtSelect ch ∧ (SelectDone ∉ l) ∧ got' = got ++ received ch (ss_pub s) (loop_ops ch l)).
Proof.
  intros Hl. revert got pubs s. induction Hl as [|a l Ha Hl IH]; intros got pubs s Hs.
  { exists got. rewrite app_nil_r. split; [done|]. intros Hpc. split_and!; [done|apply not_elem_of_nil|].
    by rewrite app_nil_r. }
  destruct (streaming_step heap ch fresh got pubs s a Ha Hs) as (got1 & H1 & Hloop1).
  destruct (IH got1 _ _ H1) as (got2 & H2 & Hloop2). exists got2. change (a :: l) with ([a] ++ l).
  unfold others, loop_ops. rewrite !omap_app, published_app, app_assoc. split; [exact H2|].
  intros Hpc. destruct (Hloop2 Hpc) as (Hpc1 & Hdone & ->). destruct (Hloop1 Hpc1) as (Hpc0 & Ha' & -> & Ep).
  split_and!; [done| |].
  - rewrite elem_of_app, list_elem_of_singleton. intros [?|?]; [by apply Ha'|done].
  - rewrite received_app, <-app_assoc. fold (loop_ops ch [a]). by rewrite <-Ep.
Qed.

(** When the client goes, the handler returns. *)
Lemma streaming_leave heap ch fresh got pubs s :
  streaming heap ch fresh got pubs s → ss_pc (stream_run s [SelectDone; Proceed None]) = Returned ch.
Proof.
  intros Hs. destruct s as [st c pc chunks evs].
  by destruct (str_pc _ _ _ _ _ _ Hs) as [([Epc|Epc] & _)|(Epc & _)]; simpl in Epc; subst pc.
Qed.

Lemma stream_run_app s l l' : stream_run s (l ++ l') = stream_run (stream_run s l) l'.
Proof. apply foldl_app. Qed.

Lemma others_own heap ch l :
  Forall (act_ok heap ch) l →
  (OpRecv ch ∉ others l) ∧ (OpCancel ch ∉ others l) ∧ Forall (in_heap heap) (published (others l)).
Proof.
  intros Hl. unfold others, published. rewrite Forall_forall in Hl. split_and!.
  - intros ([o| | | | |] & Ha & [= ->])%list_elem_of_omap. by destruct (Hl _ Ha) as [? _].
  - intros ([o| | | | |] & Ha & [= ->])%list_elem_of_omap. by destruct (Hl _ Ha) as (_ & ? & _).
  - apply Forall_forall. intros p (o & Ho & Hp)%list_elem_of_omap.
    apply list_elem_of_omap in Ho as ([o'| | | | |] & Ha & [= ->]). destruct (Hl _ Ha) as (_ & _ & Hh).
    destruct o as [x| | |]; try done. injection Hp as ->. by apply Forall_cons in Hh as [? _].
Qed.

(** While only others run, the handler's own state is left alone. *)
Lemma others_run heap ch s l :
  Forall is_other l → Forall (act_ok heap ch) l → cache_ok heap (ss_cache s) →
  ∃ c, cache_ok heap c ∧ stream_run s l =
    {| ss_pub := run (ss_pub s) (others l); ss_cache := c; ss_pc := ss_pc s; ss_chunks := ss_chunks s;
       ss_events := ss_events s |}.
Proof.
  intros Hl Hok. revert s. induction Hl as [|a l Ha Hl IH]; intros s Hc; [by exists (ss_cache s); destruct s|].
  apply Forall_cons in Hok as [Hoka Hok]. destruct a as [o|p| | | |]; try done.
  - destruct (IH Hok (stream_step s (Other o)) Hc) as (c & Hc' & E). exists c. split; [done|exact E].
  - destruct (IH Hok (stream_step s (OtherBytes p))) as (c & Hc' & E); [|by exists c].
    simpl. by apply bytes_ok.
Qed.

(** A handler that subscribed, was overtaken by [pre], and then read the latest
    snapshot and wrote it. *)
Lemma streaming_start heap st c w0 pre werr :
  pubsub_ok st → cache_ok heap c → Forall (in_heap heap) (option_list (Latest st)) →
  Forall is_other pre → Forall (act_ok heap (next st)) pre →
  let first := match last (published (others pre)) with Some p => Some p | None => Latest st end in
  let s := stream_run (stream_start st c) (Proceed w0 :: pre ++ [Proceed werr]) in
  streaming heap (next st) (option_list first) [] (published (others pre)) s ∧
  ss_pub s = run (Subscribe st).2 (others pre).
Proof.
  intros Hst Hc Hlatest Hpre Hok. cbv zeta. unfold stream_run. cbn [foldl]. rewrite foldl_app.
  set (s1 := stream_step (stream_start st c) (Proceed w0)).
  destruct (others_run heap (next st) s1 pre Hpre Hok Hc) as (c' & Hc' & E). unfold stream_run in E. rewrite E.
  pose proof (exec_ok st OpSubscribe Hst) as Hok1. set (st2 := run (ss_pub s1) (others pre)).
  assert (pubsub_ok st2) as Hok2 by (by apply run_ok).
  destruct (others_own heap (next st) pre Hok) as (Hr & Hcan & Hheap).
  assert (next st ∈ subs st2 ∧ next st < next st2) as [Hin Hn].
  { apply run_subs; [done|simpl; set_solver|simpl; lia]. }
  assert (buffered (next st) st2 = match published (others pre) with [] => [] | x :: _ => [x] end) as Hb.
  { unfold st2. rewrite buffered_idle; [|done|simpl; set_solver|done|done|simpl; lia].
    unfold buffered. simpl. by rewrite lookup_insert_eq. }
  assert (Latest st2 = match last (published (others pre)) with Some p => Some p | None => Latest st end) as Hl.
  { unfold Latest, st2. by rewrite latest_run. }
  assert (sublist (buffered (next st) st2) (published (others pre))) as Hsub.
  { rewrite Hb. destruct (published (others pre)); [done|]. apply sublist_skip, sublist_nil_l. }
  assert (head (buffered (next st) st2) = head (published (others pre))) as Hhead.
  { rewrite Hb. by destruct (published (others pre)). }
  cbn [foldl stream_step ss_pc ss_pub]. change (ss_pc s1) with (AtLatest (next st)). cbv iota. rewrite Hl.
  destruct (match last _ with Some p => _ | None => _ end) as [p|] eqn:Ef.
  - split; [|by unfold stream_write; destruct (writeEvent _ _ _) as [[? ?] ?]].
    apply (streaming_write heap (next st) [p] []); try done; [|apply carry_nil].
    destruct (last (published (others pre))) as [q|] eqn:El; simplify_eq.
    + rewrite Forall_forall in Hheap. apply Hheap. by apply last_Some_elem_of.
    + rewrite Ef in Hlatest. by apply Forall_cons in Hlatest as [? _].
  - split; [|done]. constructor; try done.
    + left. split; [by left|]. by split.
    + exists []. split_and!; [apply carry_nil|done|done].
Qed.
End machine.

(** ** The handler run alone *)

Section alone.
Context {X : Type}.
Implicit Types (s : stream_sys (X := X)) (wakes : list (wake (X := X))).




End alone.

(** ** Properties *)

(** C35: the event stream among other goroutines: whatever they publish, subscribe,
    cancel, receive or ask the marshal cache for between the handler's steps,
    the handler subscribes before it reads the latest snapshot, so its first
    frame is the latest at that moment and everything published since it
    subscribed is offered to its channel. What the channel has delivered or
    still holds is a subsequence of those publications that starts, while it is
    subscribed, with the first of them (when several would wait at once the
    oldest is kept and the others are skipped; one published between the two
    calls waits too, and is sent after the latest or, if it is the latest, again). The
    frames a browser reads are the first and then the delivered ones, in order;
    while the handler is in its loop it takes every receive and has sent all of
    them. Until it returns it is subscribed and counted as a client, and once it
    has returned, as it does when the client goes, it is neither. *)
Theorem stream_frames {X : Type} heap st c w0 pre (werr : option (error X)) rest :
  pubsub_ok st → cache_ok heap c → Forall (in_heap heap) (option_list (Latest st)) →
  Forall is_other pre → Forall (act_ok heap (next st)) (pre ++ rest) →
  let ch := next st in
  let s := stream_run (stream_start st c) (Proceed w0 :: pre ++ Proceed werr :: rest) in
  let first := match last (published (others pre)) with Some p => Some p | None => Latest st end in
  let pubs := published (others (pre ++ rest)) in
  let clients := gauge_delta "streamClients" (ss_events s) in
  ∃ got sent datas,
    sublist (got ++ buffered ch (ss_pub s)) pubs ∧
    (ch ∈ subs (ss_pub s) → head (got ++ buffered ch (ss_pub s)) = head pubs) ∧
    sent `prefix_of` option_list first ++ got ∧
    (ss_pc s = AtSelect ch → sent = option_list first ++ got ∧
       got = received ch (run (Subscribe st).2 (others pre)) (loop_ops ch rest) ∧ (SelectDone ∉ rest)) ∧
    sse_events (concat_str (ss_chunks s)) = (λ d, ("snapshot", d)) <$> datas ∧
    Forall2 (λ p d, Marshal (deref p) = Some d) sent datas ∧
    ss_pc (stream_run s [SelectDone; Proceed None]) = Returned ch ∧
    (ss_pc s = Returned ch ∧ ¬ (ch ∈ subs (ss_pub s)) ∧ clients = 0%Z ∨
     (ss_pc s = AtSelect ch ∨ ss_pc s = AtReturn ch) ∧ ch ∈ subs (ss_pub s) ∧ clients = 1%Z).
Proof.
  intros Hst Hc Hlatest Hpre Hok. cbv zeta. apply Forall_app in Hok as [Hokpre Hrest].
  destruct (streaming_start heap st c w0 pre werr Hst Hc Hlatest Hpre Hokpre) as [Hs0 Hp0].
  destruct (streaming_run heap (next st) _ [] _ _ rest Hrest Hs0) as (got & Hs & Hloop).
  rewrite cons_middle, app_assoc, app_comm_cons, stream_run_app. rewrite Hp0 in Hloop.
  pose proof (streaming_leave heap (next st) _ _ _ _ Hs) as Hleave.
  destruct Hs as [_ _ _ _ Hord Hfst Hpc (sent & Hcarry & Hprefix & Hall)].
  destruct (carry_sse _ _ Hcarry) as (datas & He & Hm). exists got, sent, datas.
  unfold others in *. rewrite omap_app, published_app.
  split_and!; try done; [|by destruct Hpc; [right|left]].
  intros Hpcs. destruct (Hloop Hpcs) as (_ & Hdone & Hgot). by rewrite (Hall Hpcs).
Qed.


(** ** Witnesses *)

Module StreamWitness.
Import ServerWitness.

Definition published_1 : pubsub snap_ptr := publish (ptr 1) pubsub0.

(** Two publications between [Subscribe] and [Latest], one while the handler is
    in its loop, two receives, then the client goes. *)
Definition overtaken : list (stream_act (X := string)) := [Other (OpPublish (ptr 2)); Other (OpPublish (ptr 3))].
Definition looping : list (stream_act (X := string)) :=
  [OtherBytes (ptr 2); SelectReceive None; Other (OpPublish (ptr 4)); SelectHeartbeat None; SelectReceive None].

Lemma published_1_ok : pubsub_ok published_1.
Proof. exact (exec_ok _ (OpPublish (ptr 1)) pubsub0_ok). Qed.

Definition leaving : list (stream_act (X := string)) := looping ++ [SelectDone; Proceed None].

(** The browser reads snapshot 3, the latest, then 2, which waited in the
    channel, then 4.  When the client has gone the handler is no subscriber any
    more. *)
Lemma stream_frames_witness :
  let run_of rest := stream_run (stream_start published_1 cache0) (Proceed None :: overtaken ++ Proceed None :: rest) in
  (∃ datas, sse_events (concat_str (ss_chunks (run_of looping))) = (λ d, ("snapshot", d)) <$> datas ∧
     Forall2 (λ p d, Marshal (deref p) = Some d) [ptr 3; ptr 2; ptr 4] datas) ∧
  ss_pc (run_of leaving) = Returned 0 ∧ ¬ (0 ∈ subs (ss_pub (run_of leaving))) ∧
  gauge_delta "streamClients" (ss_events (run_of leaving)) = 0%Z.
Proof.
  cbv zeta beta. split.
  - destruct (stream_frames (X := string) heap published_1 cache0 None overtaken None looping published_1_ok
      (cache0_ok heap) ltac:(by repeat constructor) ltac:(by repeat constructor) ltac:(by repeat constructor))
      as (got & sent & datas & _ & _ & _ & Hall & He & Hm & _).
    set (S := stream_run _ _) in *. assert (ss_pc S = AtSelect 0) as Hpc by (vm_compute; reflexivity).
    clearbody S. change (next published_1) with 0 in Hall. destruct (Hall Hpc) as (Hsent & Hgot & _).
    assert (received 0 (run (Subscribe published_1).2 (others overtaken)) (loop_ops 0 looping) = [ptr 2; ptr 4])
      as Hrec by (vm_compute; reflexivity).
    exists datas. split; [exact He|]. rewrite Hsent, Hgot, Hrec in Hm. exact Hm.
  - destruct (stream_frames (X := string) heap published_1 cache0 None overtaken None leaving published_1_ok
      (cache0_ok heap) ltac:(by repeat constructor) ltac:(by repeat constructor) ltac:(by repeat constructor))
      as (got & sent & datas & _ & _ & _ & _ & _ & _ & _ & Hend).
    set (S := stream_run _ _) in *. assert (ss_pc S = Returned 0) as Hpc by (vm_compute; reflexivity).
    clearbody S. rewrite Hpc in Hend. destruct Hend as [[_ Hend]|([Hend|Hend] & _)]; [|discriminate Hend..].
    split; [exact Hpc|exact Hend].
Defined.

End StreamWitness.
