(* ===== verification/Serving.v ===== *)
(** * The server over a source

    The handlers of the server run concurrently with each other and with the
    goroutine that feeds the source.  Each gets a snapshot's pointer from
    [Latest] or from its channel, and later asks the shared marshal cache for
    its bytes; [serve_step] interleaves these steps in any order.  What is
    proved uses the contract [SourceLaws] alone, so it holds of the collector
    and of the mock. *)

From S2P Require Import Prelude.
From S2P Require Import GoErrors.
From S2P Require Import Model.
From S2P Require Import KubeApi.
From S2P Require Import Wire.
From S2P Require Import PubSub.
From S2P Require Import Source.
From S2P Require Import Rand.
From S2P Require Import Mock.
From S2P Require Import MockSource.
From S2P Require Import Kubelet.
From S2P Require Import DiskSignal.
From S2P Require Import Collector.
From S2P Require Import Server.

Section serving.
Context {St Ev : Type} `{!Source St Ev}.

(** The source, the server's cache and the pointers its handlers hold. *)
Record serving := Serving {
  sv_source : St;
  sv_cache : marshalCache;
  sv_held : list snap_ptr;
}.

Inductive serve_act :=
| ServeTick (e : Ev)
| ServeSubscribe
| ServeCancel (ch : nat)
| ServeRecv (ch : nat)  (* a stream handler receives *)
| ServeLatest           (* a handler calls [Latest] *)
| ServeBytes (i : nat). (* the handler with the [i]-th pointer calls [bytes] *)

(** The new state, and what a call of [bytes] was asked and returned. *)
Definition serve_step (s : serving) (a : serve_act) : serving * list (snap_ptr * option string) :=
  let '(Serving src c held) := s in
  match a with
  | ServeTick e => (Serving (tick src e) c held, [])
  | ServeSubscribe => (Serving (client OpSubscribe src) c held, [])
  | ServeCancel ch => (Serving (client (OpCancel ch) src) c held, [])
  | ServeRecv ch =>
      (Serving (client (OpRecv ch) src) c
         match recv ch (view src) with Some (p, _) => held ++ [p] | None => held end, [])
  | ServeLatest =>
      (Serving src c match Latest (view src) with Some p => held ++ [p] | None => held end, [])
  | ServeBytes i =>
      match held !! i with
      | Some p => let '(data, c, _) := bytes p c in (Serving src c held, [(p, data)])
      | None => (s, [])
      end
  end.

Fixpoint serve (s : serving) (l : list serve_act) : serving * list (snap_ptr * option string) :=
  match l with
  | [] => (s, [])
  | a :: l =>
      let '(s, out) := serve_step s a in
      let '(s, out') := serve s l in
      (s, out ++ out')
  end.

(** ** Lemmas *)

Context {laws : Source.SourceLaws St Ev}.

(** [heap] says what each address below [n] holds. *)
Record fits (heap : nat → Snapshot) (s : serving) : Prop := {
  fits_source : source_ok (sv_source s);
  fits_visible : ∀ p, visible (view (sv_source s)) p → in_heap heap p;
  fits_held : Forall (λ p, in_heap heap p ∧ coherent (deref p) ∧ address p < allocs (sv_source s)) (sv_held s);
  fits_cache : cache_ok heap (sv_cache s);
  fits_cached : ∀ a, cached_snap (sv_cache s) = Some a → a < allocs (sv_source s);
}.

Lemma bytes_snap p c : (bytes p c).1.2 = c ∨ cached_snap (bytes p c).1.2 = Some (address p).
Proof.
  destruct (bytes_cases p c) as [(_ & d & _ & ->)|[_ ->]]; [by left|].
  destruct (Marshal (deref p)); [by right|by left].
Qed.

(** Publishing at a new address changes nothing below it. *)
Lemma cache_ok_extend heap n snap c :
  cache_ok heap c → (∀ a, cached_snap c = Some a → a < n) →
  cache_ok (λ a, if decide (a = n) then snap else heap a) c.
Proof.
  intros Hc Hn data Hd. destruct (Hc data Hd) as (a & Ha & Hm). exists a. split; [done|].
  rewrite decide_False; [done|]. specialize (Hn a Ha). lia.
Qed.

Lemma in_heap_extend (heap : nat → Snapshot) n snap p :
  in_heap heap p → address p < n → in_heap (λ a, if decide (a = n) then snap else heap a) p.
Proof. unfold in_heap. intros -> Hlt. rewrite decide_False by lia. done. Qed.

Lemma client_fits heap src c held o :
  (∀ p, o ≠ OpPublish p) → fits heap (Serving src c held) → fits heap (Serving (client o src) c held).
Proof.
  intros Ho [Hs Hv Hh Hc Hca]. destruct (client_ok src o Ho Hs) as (Hs' & Ev' & Ea).
  constructor; simpl in *; rewrite ?Ev', ?Ea; try done. intros p Hp. apply Hv.
  eapply visible_client; [exact Ho|apply (ok_view src Hs)|exact Hp].
Qed.

Lemma hold_fits heap src c held p :
  visible (view src) p → fits heap (Serving src c held) → fits heap (Serving src c (held ++ [p])).
Proof.
  intros Hp [Hs Hv Hh Hc Hca]. constructor; simpl in *; try done. apply Forall_app. split; [done|].
  apply Forall_singleton. split; [by apply Hv|]. by apply (src_visible _ _ (ok_view src Hs)).
Qed.

Lemma serve_step_fits heap s a :
  fits heap s →
  (∃ heap', fits heap' (serve_step s a).1) ∧
  Forall (λ r, coherent (deref r.1) ∧ r.2 = Marshal (deref r.1)) (serve_step s a).2.
Proof.
  destruct s as [src c held]. intros Hf. destruct a as [e| |ch|ch| |i]; simpl.
  - split; [|constructor]. destruct Hf as [Hs Hv Hh Hc Hca]. simpl in *.
    destruct (tick_ok src e Hs) as [Hs' [[Ev' Ea]|(snap & Hsnap & Ev' & Ea)]].
    + exists heap. constructor; simpl; rewrite ?Ev', ?Ea; done.
    + exists (λ a, if decide (a = allocs src) then snap else heap a). constructor; simpl; rewrite ?Ev', ?Ea.
      * done.
      * intros p Hp. apply visible_publish_fresh in Hp as [->|Hp]; [| |apply (ok_view src Hs)].
        -- unfold in_heap. simpl. by rewrite decide_True.
        -- apply in_heap_extend; [by apply Hv|]. by apply (src_visible _ _ (ok_view src Hs)).
      * eapply Forall_impl; [exact Hh|]. intros p (H1 & H2 & H3). split_and!; [by apply in_heap_extend|done|lia].
      * by apply cache_ok_extend.
      * intros a Ha. specialize (Hca a Ha). lia.
  - split; [|constructor]. exists heap. by apply client_fits.
  - split; [|constructor]. exists heap. by apply client_fits.
  - split; [|constructor]. exists heap. apply client_fits; [done|].
    destruct (recv ch (view src)) as [[p st]|] eqn:E; [|done]. apply hold_fits; [by eapply visible_recv|done].
  - split; [|constructor]. exists heap.
    destruct (Latest (view src)) as [p|] eqn:E; [|done]. apply hold_fits; [by apply visible_latest|done].
  - destruct (held !! i) as [p|] eqn:E; [|split; [by exists heap|constructor]].
    destruct Hf as [Hs Hv Hh Hc Hca]. simpl in *. rewrite Forall_lookup in Hh.
    destruct (Hh i p E) as (Hin & Hcoh & Hlt). destruct (bytes_ok heap p c Hin Hc) as [Hb Hc'].
    pose proof (bytes_snap p c) as Hsn. destruct (bytes p c) as [[data c'] calls]. simpl in *. split.
    + exists heap. constructor; simpl; [done|done|by rewrite Forall_lookup|done|].
      intros a Ha. destruct Hsn as [->|Hsn]; [by apply Hca|]. rewrite Hsn in Ha. by injection Ha as <-.
    + apply Forall_singleton. done.
Qed.

Lemma serve_fits heap s l :
  fits heap s → Forall (λ r, coherent (deref r.1) ∧ r.2 = Marshal (deref r.1)) (serve s l).2.
Proof.
  revert heap s. induction l as [|a l IH]; intros heap s Hf; [constructor|]. cbn [serve].
  destruct (serve_step_fits heap s a Hf) as [[heap' Hf'] Hout]. destruct (serve_step s a) as [s' out].
  specialize (IH heap' s' Hf'). destruct (serve s' l) as [s'' out']. simpl in *. by apply Forall_app.
Qed.

(** What the visible snapshots of a source say of the addresses. *)
Definition visible_list (st : pubsub snap_ptr) : list snap_ptr :=
  option_list (latest st) ++ (map_to_list (bufs st) ≫= snd).

Lemma visible_list_spec st p : visible st p ↔ p ∈ visible_list st.
Proof.
  unfold visible, visible_list, buffered. rewrite elem_of_app. split; (intros [H|H]; [left|right]).
  - rewrite H. left.
  - destruct H as [ch H]. destruct (bufs st !! ch) as [buf|] eqn:E; [|by apply not_elem_of_nil in H].
    apply list_elem_of_bind. exists (ch, buf). split; [done|]. by apply elem_of_map_to_list.
  - destruct (latest st); [|by apply not_elem_of_nil in H]. by apply list_elem_of_singleton in H as ->.
  - apply list_elem_of_bind in H as ([ch buf] & Hp & Hb%elem_of_map_to_list). exists ch. by rewrite Hb.
Qed.

Definition heap_of (st : pubsub snap_ptr) (dummy : Snapshot) (a : nat) : Snapshot :=
  match filter (λ p, address p = a) (visible_list st) with p :: _ => deref p | [] => dummy end.

Lemma heap_of_spec st n dummy p : source_inv st n → visible st p → in_heap (heap_of st dummy) p.
Proof.
  intros Hst Hp. unfold in_heap, heap_of.
  destruct (filter _ _) as [|q qs] eqn:E.
  - assert (p ∈ filter (λ q, address q = address p) (visible_list st)) as H.
    { apply list_elem_of_filter. split; [done|]. by apply visible_list_spec. }
    rewrite E in H. by apply not_elem_of_nil in H.
  - assert (q ∈ filter (λ q, address q = address p) (visible_list st)) as H by (rewrite E; left).
    apply list_elem_of_filter in H as [Ha Hq]. f_equal. apply (src_address _ _ Hst); [done| |done].
    by apply visible_list_spec.
Qed.

Lemma fits_start dummy src :
  source_ok src → fits (heap_of (view src) dummy) (Serving src cache0 []).
Proof.
  intros Hs. constructor; simpl; [done| |constructor|apply cache0_ok|done].
  intros p Hp. eapply heap_of_spec; [by apply ok_view|done].
Qed.

End serving.

(** ** Properties *)

Definition empty_snapshot : Snapshot := {|
  GeneratedAt := zeroTime; SnapNodes := [];
  SnapCapabilities := {| CapMetrics := true; CapMetricsReason := ""; CapDisk := true; CapDiskReason := "" |} |}.

(** C2: end to end over the interface: for any source that keeps its contract,
    in every interleaving of its goroutine, the stream handlers and the request
    handlers, whenever a handler asks for the bytes of the snapshot it holds
    (however old), it gets the JSON text of exactly that snapshot, and the
    snapshot is coherent. *)
Theorem served_coherent {St Ev : Type} `{!Source St Ev} {laws : Source.SourceLaws St Ev}
    (src : St) (l : list (serve_act (Ev := Ev))) :
  source_ok src →
  Forall (λ r, coherent (deref r.1) ∧ r.2 = Marshal (deref r.1)) (serve (Serving src cache0 []) l).2.
Proof. intros Hs. eapply serve_fits. by apply (fits_start empty_snapshot). Qed.

(** ** Witnesses: the collector, and the mock *)

Module ServingWitness.
Import SampleErrors SampleQuantity KubeletWitness CollectorWitness MockWitness.

(** A handler takes the first snapshot, a poll publishes the next, another
    handler takes that one, and both then ask for their bytes. *)
Definition requests : list (serve_act (Ev := PollEnv (X := api_error) (Q := quantity) (RT := unit))) :=
  [ServeTick (env (60 * Second) ([], Some forbidden)); ServeLatest;
   ServeTick (env (75 * Second) ([], Some forbidden)); ServeLatest; ServeBytes 1; ServeBytes 0; ServeBytes 1].

Lemma served_coherent_witness :
  (λ r, address r.1) <$> (serve (Source0 := collector_source syntax_error) (Serving start cache0 []) requests).2 = [1; 0; 1] ∧
  Forall (λ r, coherent (deref r.1) ∧ r.2 = Marshal (deref r.1))
    (serve (Source0 := collector_source syntax_error) (Serving start cache0 []) requests).2 ∧
  (∀ m, mock_inv m → Forall (λ r, coherent (deref r.1) ∧ r.2 = Marshal (deref r.1))
    (serve (Source0 := mock_source sample (λ _, false)) (Serving m cache0 [])
       [ServeLatest; ServeTick (30, (3 * Second)%Z); ServeBytes 0]).2).
Proof.
  split; [vm_compute; reflexivity|]. split.
  - apply (served_coherent (Source0 := collector_source syntax_error)
             (laws := collector_source_laws syntax_error) start requests).
    exact (New_inv transport config (opts true NodeDiskAuto)).
  - intros m Hm. exact (served_coherent (Source0 := mock_source sample (λ _, false))
             (laws := mock_source_laws sample (λ _, false)) m _ Hm).
Defined.
End ServingWitness.
