(* ===== verification/Telemetry.v ===== *)
(** * What the program tells about itself

    The metric updates of the other components, checked against the
    declarations of Metrics: every update is one the client library accepts,
    of a fixed set of series, and the counters count what they say. *)

From S2P Require Import Prelude.
From S2P Require Import GoErrors.
From S2P Require Import Events.
From S2P Require Import Model.
From S2P Require Import KubeApi.
From S2P Require Import Metrics.
From S2P Require Import MetricsSignal.
From S2P Require Import DiskSignal.
From S2P Require Import Kubelet.
From S2P Require Import Snapshot.
From S2P Require Import PubSub.
From S2P Require Import Source.
From S2P Require Import Collector.
From S2P Require Import Server.

(** Splits a list of events into its parts. *)
Ltac well_typed_events :=
  repeat match goal with
  | |- Forall _ (_ ++ _) => apply Forall_app; split
  | |- Forall _ [] => constructor
  | |- Forall _ (RecordSignal _ _) => apply RecordSignal_ok; apply (bool_decide_unpack _); exact I
  | |- Forall _ (Request <$> _) => apply requests_ok
  | |- Forall _ (Logf _ _ :: _) => constructor; [exact I|]
  | |- Forall _ (Request _ :: _) => constructor; [exact I|]
  | |- context [match ?x with _ => _ end] => destruct x
  end.

Section typed.
Context {X : Type} `{!KubeErrors X} {Q : Type} `{!Quantity Q} {Cred RT : Type}.
Context (json_error : string → string).
Implicit Types (c : Collector (X := X) (RT := RT)) (env : PollEnv (X := X) (Q := Q) (RT := RT)).

Lemma noteMetrics_typed now pu nu (err : option (error X)) (s : MetricsState) :
  Forall well_typed (noteMetrics now pu nu err s).2.
Proof.
  unfold noteMetrics. destruct err as [e|]; [destruct (IsForbidden e); [|destruct (metricsAbsent e)]|];
    cbn [snd]; well_typed_events.
Qed.

Lemma currentMetrics_typed enabled t1 t2 (api : MetricsApi (X := X) (Q := Q)) (s : MetricsState) :
  Forall well_typed (currentMetrics enabled t1 t2 api s).2.
Proof.
  destruct (currentMetrics_cases enabled t1 t2 api s)
    as [[_ ->]|[(_ & _ & ->)|(_ & _ & pu & nu & err & evs & Hf & ->)]]; [constructor|constructor|].
  apply Forall_app. split; [|apply noteMetrics_typed]. revert Hf. unfold fetchMetrics.
  destruct (NodeMetricses api) as [nm [e|]]; [|destruct (PodMetricses api) as [pm [e|]]];
    intros [= _ _ _ <-]; well_typed_events.
Qed.

Lemma noteDisk_typed now disk (err : option (error X)) (s : DiskState) : Forall well_typed (noteDisk now disk err s).2.
Proof. unfold noteDisk. destruct err as [e|]; [destruct (IsForbidden e)|]; cbn [snd]; well_typed_events. Qed.

Lemma currentDisk_typed mode t1 t2 (kd pd : diskRouteFunc (X := X)) (nodes : list (KNode Q)) (s : DiskState) :
  Forall well_typed (currentDisk mode t1 t2 kd pd nodes s).2.
Proof.
  destruct (currentDisk_cases mode t1 t2 kd pd nodes s)
    as [[_ ->]|[(_ & _ & ->)|(_ & _ & disk & err & route & evs & Hf & ->)]]; [constructor|constructor|].
  apply Forall_app. split; [|apply noteDisk_typed]. revert Hf. unfold fetchDisk, run_fanOut.
  repeat case_match; intros; simplify_eq/=; well_typed_events.
Qed.

Lemma poll_typed env c : Forall well_typed (poll json_error env c).2.
Proof.
  assert (Forall well_typed (pollOnce json_error env c).2) as H.
  { destruct (pollOnce_cases json_error env c)
      as [(err & -> & _)|(nodes & pods & usage & m & evs & dv & d & evs' & _ & _ & Em & Ed & ->)]; [constructor|].
    apply Forall_app. split.
    - pose proof (currentMetrics_typed (metricsEnabled c) (env_metrics_check env) (env_metrics_done env)
        (env_metrics_api env) (metrics c)) as H. by rewrite Em in H.
    - pose proof (currentDisk_typed (diskMode c) (env_disk_check env) (env_disk_done env)
        (kubelet_route json_error env c) (proxy_route json_error env) nodes (disk c)) as H. by rewrite Ed in H. }
  unfold poll. destruct (pollOnce json_error env c) as [[err c'] evs]. simpl in *.
  apply Forall_app. split; [done|]. apply (Forall_app _ (ObservePoll _ err)). split; [apply ObservePoll_ok|].
  destruct err; well_typed_events.
Qed.

Lemma acts_typed l c : Forall well_typed (acts json_error c l).2.
Proof.
  revert c. induction l as [|a l IH]; intros c; [constructor|]. simpl.
  assert (Forall well_typed (act_step json_error c a).2) as Ha.
  { destruct a as [env| |ch|ch]; [apply poll_typed|constructor..]. }
  destruct (act_step json_error c a) as [c' evs]. specialize (IH c').
  destruct (acts json_error c' l) as [c'' evs']. simpl in *. by apply Forall_app.
Qed.

(** ** Polls, publications and the poll counter *)

Definition successes (evs : list (event X)) : nat :=
  length (filter (λ ls, ls = [ResultSuccess]) (counter_incs "pollTotal" evs)).

Lemma successes_app evs evs' : successes (evs ++ evs') = successes evs + successes evs'.
Proof. unfold successes. by rewrite counter_incs_app, filter_app, length_app. Qed.

(** What an act does to the subscribers: a poll that could read the cache
    publishes the snapshot it made, one that could not publishes nothing. *)
Definition act_ops (a : act (X := X) (Q := Q) (RT := RT)) (ops : list (op (A := snap_ptr))) : Prop :=
  match a with
  | ActPoll env =>
      if decide (poll_result env = ResultSuccess) then
        ∃ p, ops = [OpPublish p] ∧ GeneratedAt (deref p) = env_generated env
      else ops = []
  | ActSubscribe => ops = [OpSubscribe]
  | ActCancel ch => ops = [OpCancel ch]
  | ActRecv ch => ops = [OpRecv ch]
  end.

(** The results of the polls among the acts. *)
Definition poll_results (l : list (act (X := X) (Q := Q) (RT := RT))) : list string :=
  omap (λ a, match a with ActPoll env => Some (poll_result env) | _ => None end) l.

Lemma act_step_published a c :
  let '(c', evs) := act_step json_error c a in
  ∃ ops, act_ops a ops ∧ pub c' = PubSub.run (pub c) ops ∧
    address <$> published ops = seq (allocated c) (successes evs) ∧
    allocated c' = allocated c + successes evs ∧
    counter_incs "pollTotal" evs = (λ r, [r]) <$> poll_results [a].
Proof.
  destruct a as [env| |ch|ch]; cbn [act_step];
    [|exists [OpSubscribe]|exists [OpCancel ch]|exists [OpRecv ch]];
    [|split_and!; solve [done|symmetry; apply Nat.add_0_r]..].
  pose proof (poll_counted json_error env c) as Hcount. pose proof (poll_state json_error env c) as Hstate.
  destruct (poll json_error env c) as [c' evs]. simpl in Hcount, Hstate. subst c'.
  unfold successes, act_ops. rewrite Hcount. cbn [poll_results omap list_omap].
  destruct (pollOnce_cases json_error env c)
    as [(err & -> & Herr)|(nodes & pods & usage & m & evs' & dv & d & evs'' & En & Ep & _ & _ & ->)]; cbn [fst snd].
  - assert (poll_result env = ResultError) as ->.
    { unfold poll_result. destruct (env_nodes env) as [? [?|]], (env_pods env) as [? [?|]]; try done.
      by destruct Herr as [[? ?]|[? ?]]. }
    exists []. split_and!; solve [done|symmetry; apply Nat.add_0_r].
  - assert (poll_result env = ResultSuccess) as -> by (unfold poll_result; by rewrite En, Ep).
    exists [OpPublish {| address := allocated c; deref := assemble (env_generated env) nodes pods usage dv |}].
    rewrite decide_True by done. split; [by eexists|]. split_and!; try done.
    change (S (allocated c) = allocated c + 1). lia.
Qed.

Lemma acts_published l c :
  let '(c', evs) := acts json_error c l in
  ∃ opss, Forall2 act_ops l opss ∧ pub c' = PubSub.run (pub c) (concat opss) ∧
    address <$> published (concat opss) = seq (allocated c) (successes evs) ∧
    counter_incs "pollTotal" evs = (λ r, [r]) <$> poll_results l.
Proof.
  revert c. induction l as [|a l IH]; intros c; [by exists []|]. cbn [acts].
  pose proof (act_step_published a c) as Ha. destruct (act_step json_error c a) as [c1 evs].
  destruct Ha as (ops & Hops & Ep & Ea & En & Ec). specialize (IH c1).
  destruct (acts json_error c1 l) as [c2 evs']. destruct IH as (opss & Hopss & Ep' & Ea' & Ec').
  exists (ops :: opss). split; [by constructor|]. split; [|split].
  - by rewrite Ep', Ep, <-run_app.
  - cbn [concat]. by rewrite published_app, fmap_app, Ea, Ea', En, successes_app, seq_app.
  - change (a :: l) with ([a] ++ l). unfold poll_results. rewrite omap_app, fmap_app.
    by rewrite counter_incs_app, Ec, Ec'.
Qed.
End typed.

(** ** Properties *)

Section properties.
Context {X : Type} `{!KubeErrors X} {Q : Type} `{!Quantity Q} {Cred RT : Type}.
Context (json_error : string → string).
Context (TransportFor : RestConfig Cred → RT * option (error X)) (config : option (RestConfig Cred)).

(** C17: every metric update the program ever makes is well typed: from startup,
    over every run of the collector and every event stream, it is of one of the
    five metrics [init] registers, of that metric's kind, with one value per
    label, and the values are the package's constants. So [WithLabelValues]
    never panics, and the number of series is fixed. *)
Theorem updates_well_typed version (opts : Options) (l : list (act (X := X) (Q := Q) (RT := RT)))
    flusher latest (werr : option (error X)) wakes cache :
  Forall (well_typed (X := X)) (SetVersion version) ∧
  Forall well_typed (startup_logs (New TransportFor config opts)) ∧
  Forall well_typed (acts json_error (New TransportFor config opts) l).2 ∧
  Forall well_typed (sr_events (handleStream flusher latest werr wakes cache)).
Proof.
  split_and!.
  - apply Forall_singleton. unfold well_typed, update_ok, registered. apply Exists_cons_hd.
    split; [done|]. split; [done|]. by apply Forall2_cons.
  - unfold startup_logs. well_typed_events.
  - apply acts_typed.
  - assert (∀ d, well_typed (X := X) (GaugeAdd "streamClients" d)) as Hd.
    { intros d. apply (bool_decide_unpack _). vm_compute. exact I. }
    unfold handleStream. destruct flusher; [|constructor].
    destruct (match latest with Some _ => _ | None => _ end) as [[chunks ended] c']. simpl.
    destruct ended; repeat constructor; apply Hd.
Qed.

(** C18: over every run from [New], whatever the polls meet and the readers do,
    the poll counter counts every poll once, in order, as a success when it
    could read nodes and pods from the cache and as an error when not; exactly
    the polls counted as a success publish a snapshot, one each, made at that
    poll, and nothing but that and the readers' own calls reaches the
    subscribers. So the counter of successful polls is the number of
    snapshots published, and [Latest] is the one of the last such poll. *)
Theorem success_counts_snapshots (opts : Options) (l : list (act (X := X) (Q := Q) (RT := RT))) :
  let '(c, evs) := acts json_error (New TransportFor config opts) l in
  counter_incs "pollTotal" evs = (λ r, [r]) <$> poll_results l ∧
  ∃ opss, Forall2 act_ops l opss ∧ pub c = PubSub.run pubsub0 (concat opss) ∧
    address <$> published (concat opss) = seq 0 (successes evs) ∧
    Latest (pub c) = last (published (concat opss)).
Proof.
  pose proof (acts_published json_error l (New TransportFor config opts)) as H.
  destruct (acts json_error (New TransportFor config opts) l) as [c evs].
  destruct H as (opss & Hopss & Ep & Ea & Ec). destruct (New_pub TransportFor config opts) as [Hp0 Hn0].
  rewrite Hp0 in Ep. rewrite Hn0 in Ea. split; [exact Ec|]. exists opss. split_and!; try done.
  unfold Latest. rewrite Ep, latest_run. by destruct (last _).
Qed.
End properties.
