(* ===== verification/KubeClient.v ===== *)
(** * Kubernetes clients

    [New] and [restConfig] of src/internal/kube/client.go.  The client
    libraries are the environment's: what they return is an argument, a
    configuration a type [Cfg] with the two limits the program sets. *)

From S2P Require Import Prelude.
From S2P Require Import GoErrors.

Section clients.
Context {X : Type} `{!KubeErrors X} {Cfg Core Metrics : Type}.

(** The library calls: [rest.InClusterConfig], loading a kubeconfig (from the
    explicit path, or by the default rules), and the two constructors.
    [with_limits cfg qps burst] is [cfg] with those fields set. *)
Record Library := {
  InClusterConfig : Cfg * option (error X);
  ClientConfig : option string → Cfg * option (error X);
  NewCore : Cfg → Core * option (error X);
  NewMetrics : Cfg → Metrics * option (error X);
  with_limits : Cfg → Z → Z → Cfg;
}.

(** [Clients]. *)
Record Clients := {
  CoreClient : Core;
  MetricsClient : Metrics;
  InCluster : bool;
  Config : Cfg;
}.

(** A result or an error; and whether the note about kubeconfig credentials
    was printed. *)
Definition restConfig (lib : Library) (kubeconfig : string) : (Cfg * bool + error X) * bool :=
  match InClusterConfig lib with
  | (cfg, None) => (inl (cfg, true), false)
  | (_, Some _) =>
      match ClientConfig lib (if decide (kubeconfig = "") then None else Some kubeconfig) with
      | (_, Some err) =>
          (inr (Errorf_w "no in-cluster credentials and kubeconfig loading failed" (Some err)), false)
      | (cfg, None) => (inl (cfg, false), true)
      end
  end.

Definition kube_New (lib : Library) (kubeconfig : string) : Clients + error X :=
  match (restConfig lib kubeconfig).1 with
  | inr err => inr err
  | inl (cfg, inCluster) =>
      let cfg := with_limits lib cfg 20 40 in
      match NewCore lib cfg with
      | (_, Some err) => inr (Errorf_w "building core client" (Some err))
      | (core, None) =>
          match NewMetrics lib cfg with
          | (_, Some err) => inr (Errorf_w "building metrics client" (Some err))
          | (metrics, None) =>
              inl {| CoreClient := core; MetricsClient := metrics; InCluster := inCluster; Config := cfg |}
          end
      end
  end.

(** The configuration of the clients: which credentials it is from. *)
Lemma kube_New_config lib kubeconfig clients :
  kube_New lib kubeconfig = inl clients →
  (InCluster clients = true ↔ (InClusterConfig lib).2 = None) ∧
  Config clients = with_limits lib
    (if InCluster clients then (InClusterConfig lib).1
     else (ClientConfig lib (if decide (kubeconfig = "") then None else Some kubeconfig)).1) 20 40.
Proof.
  unfold kube_New, restConfig. destruct (InClusterConfig lib) as [cfg [e|]]; simpl;
    [destruct (ClientConfig lib _) as [cfg' [e'|]]; simpl; [done|]|];
    destruct (NewCore lib _) as [core [?|]]; try done; destruct (NewMetrics lib _) as [mc [?|]]; try done;
    by intros [= <-].
Qed.
End clients.
Arguments Library : clear implicits.
Arguments Clients : clear implicits.
