(* ===== verification/Main.v ===== *)
(** * The command line

    [main] of src/cmd/kshows/main.go up to the point where it serves: the
    flags it refuses, the source it picks and how a run that ends is taken.
    What follows, to the exit of the process, is in Lifecycle. *)

From S2P Require Import Prelude.
From S2P Require Import GoErrors.
From S2P Require Import Events.
From S2P Require Import KubeApi.
From S2P Require Import Metrics.
From S2P Require Import DiskSignal.
From S2P Require Import Kubelet.
From S2P Require Import Collector.
From S2P Require Import KubeClient.

(** The parsed flags. *)
Record Flags := {
  listen : string;
  kubeconfig : string;
  flag_pollInterval : Duration;
  metricsServer : bool;
  nodeDisk : string;
  kubeletInsecureTLS : bool;
  mock : bool;
  showVersion : bool;
}.

(** Without any argument. *)
Definition default_flags : Flags := {|
  listen := ":8080"; kubeconfig := ""; flag_pollInterval := 15 * Second; metricsServer := true;
  nodeDisk := NodeDiskAuto; kubeletInsecureTLS := false; mock := false; showVersion := false;
|}.

Section main.
Context {X : Type} `{!KubeErrors X} {Q : Type} `{!Quantity Q} {Core Metrics Cred RT : Type}.
Context (json_error : string → string) (is_canceled : error X → bool).




(** The goroutine that runs the source: a returned error other than the
    context's cancellation is fatal. *)
Definition run_is_fatal (ended : run_end (X := X)) : bool :=
  match ended with
  | Returned (Some err) => negb (is_canceled err)
  | Returned None => false
  | Panicked _ => true
  end.

(** ** Properties *)


(** an orderly shutdown is never reported as a failure: a collector whose
    context is cancelled, before its caches synced or after, ends its run in a way
    [main] does not take for fatal, whatever its polls met, as long as the poll
    interval is positive. *)
Theorem shutdown_not_fatal synced ctxErr first ticks (c : Collector (X := X) (RT := RT)) :
  is_canceled ctxErr = true → (0 < pollInterval c)%Z →
  run_is_fatal (Run (Q := Q) json_error synced (Some ctxErr) first ticks c).1.1 = false.
Proof.
  intros Hctx Hpos. unfold Run. destruct synced; [|simpl; by rewrite Hctx].
  destruct (poll json_error first c) as [c1 evs]. destruct (Z.leb_spec (pollInterval c) 0); [lia|].
  by destruct (polls json_error ticks c1).
Qed.
End main.

(** ** Witnesses *)

Module MainWitness.
Import SampleErrors SampleQuantity KubeletWitness CollectorWitness.

Lemma shutdown_not_fatal_witness :
  run_is_fatal (λ _, true)
    (Run (Q := quantity) syntax_error false (Some transient) (env 0 ([], None)) [] start).1.1 = false.
Proof. apply (shutdown_not_fatal syntax_error (λ _, true)); [reflexivity|vm_compute; reflexivity]. Defined.
End MainWitness.
