(* ===== verification/Lifecycle.v ===== *)
(** * The life of the process

    [main] of src/cmd/kshows/main.go from the point where it serves: the main
    goroutine in [ListenAndServe], the goroutine that runs the source and the
    one that waits for the signal, as steps that interleave in any order.
    net/http is the environment's; documented of it: once [Shutdown] is called
    the server takes no new request and [ListenAndServe] returns
    [ErrServerClosed] at once, while [Shutdown] itself returns when no request
    is in flight or its context has expired. *)

From S2P Require Import Prelude.
From S2P Require Import GoErrors.
From S2P Require Import KubeApi.
From S2P Require Import Collector.
From S2P Require Import Main.

(** How far the call of [srv.Shutdown] has come. *)
Inductive shutdown_phase := NotCalled | Draining | Drained.

#[export] Instance phase_eq_dec : EqDecision shutdown_phase.
Proof. solve_decision. Defined.

Section lifecycle.
Context {X : Type} (is_canceled : error X → bool).

Record process := {
  ctx_done : bool;           (* a signal cancelled [ctx] *)
  source_running : bool;     (* the goroutine that calls [run] *)
  shutdown : shutdown_phase;
  in_flight : nat;           (* requests being served *)
  exited : option Z;         (* the exit code *)
}.

Definition process0 : process := {|
  ctx_done := false; source_running := true; shutdown := NotCalled; in_flight := 0; exited := None |}.

(** What the program is shown or does next. *)
Inductive happening :=
| Signal                                 (* SIGINT or SIGTERM *)
| RequestStarts
| RequestEnds
| SourceReturns (ended : run_end (X := X)) (* [run(ctx)] *)
| ShutdownStarts                         (* [<-ctx.Done()] and the call *)
| ShutdownReturns (expired : bool)
| ListenReturns (closed : bool).         (* with [ErrServerClosed], or another error *)

Definition exit_with (code : Z) (s : process) : process := {|
  ctx_done := ctx_done s; source_running := source_running s; shutdown := shutdown s;
  in_flight := in_flight s; exited := Some code |}.

(** [None] when it cannot happen. *)
Definition live_step (s : process) (h : happening) : option process :=
  match h with
  | Signal =>
      Some {| ctx_done := true; source_running := source_running s; shutdown := shutdown s;
              in_flight := in_flight s; exited := exited s |}
  | RequestStarts =>
      if decide (shutdown s = NotCalled) then
        Some {| ctx_done := ctx_done s; source_running := source_running s; shutdown := shutdown s;
                in_flight := S (in_flight s); exited := exited s |}
      else None
  | RequestEnds =>
      match in_flight s with
      | O => None
      | S n => Some {| ctx_done := ctx_done s; source_running := source_running s; shutdown := shutdown s;
                       in_flight := n; exited := exited s |}
      end
  | SourceReturns ended =>
      if source_running s then
        match ended with
        | Panicked _ => Some (exit_with 2 s)
        | Returned _ =>
            if run_is_fatal is_canceled ended then Some (exit_with 1 s) (* log.Fatalf *)
            else Some {| ctx_done := ctx_done s; source_running := false; shutdown := shutdown s;
                         in_flight := in_flight s; exited := exited s |}
        end
      else None
  | ShutdownStarts =>
      if decide (ctx_done s = true ∧ shutdown s = NotCalled) then
        Some {| ctx_done := ctx_done s; source_running := source_running s; shutdown := Draining;
                in_flight := in_flight s; exited := exited s |}
      else None
  | ShutdownReturns expired =>
      if decide (shutdown s = Draining ∧ (in_flight s = 0 ∨ expired = true)) then
        Some {| ctx_done := ctx_done s; source_running := source_running s; shutdown := Drained;
                in_flight := in_flight s; exited := exited s |}
      else None
  | ListenReturns closed =>
      if closed then
        if decide (shutdown s = NotCalled) then None else Some (exit_with 0 s) (* main returns *)
      else
        if decide (shutdown s = NotCalled) then Some (exit_with 1 s) else None (* log.Fatalf *)
  end.

(** Nothing happens in a process that has exited. *)
Definition process_step (s : process) (h : happening) : option process :=
  match exited s with Some _ => None | None => live_step s h end.

Fixpoint process_run (s : process) (hs : list happening) : option process :=
  match hs with
  | [] => Some s
  | h :: hs => s ← process_step s h; process_run s hs
  end.

(** ** Lemmas *)

(** What a history of happenings justifies. *)
Record justified (hs : list happening) (s : process) : Prop := {
  just_done : ctx_done s = true → Signal ∈ hs;
  just_shutdown : shutdown s ≠ NotCalled → ctx_done s = true;
  just_exit : ∀ code, exited s = Some code →
    (code = 0%Z ∧ shutdown s ≠ NotCalled ∧ last hs = Some (ListenReturns true)) ∨
    (code = 1%Z ∧ (last hs = Some (ListenReturns false) ∨
                   ∃ err, last hs = Some (SourceReturns (Returned (Some err))) ∧ is_canceled err = false)) ∨
    (code = 2%Z ∧ ∃ msg, last hs = Some (SourceReturns (Panicked msg)));
}.

Lemma process_run_app s hs hs' : process_run s (hs ++ hs') = (s' ← process_run s hs; process_run s' hs').
Proof.
  revert s. induction hs as [|h hs IH]; intros s; [done|]. simpl.
  destruct (process_step s h); simpl; [apply IH|done].
Qed.

Lemma justified_step hs s h s' : justified hs s → process_step s h = Some s' → justified (hs ++ [h]) s'.
Proof.
  intros [Hd Hs He]. unfold process_step. destruct (exited s) as [code|] eqn:Eex; [done|].
  assert (∀ s1, ctx_done s1 = ctx_done s → shutdown s1 = shutdown s → exited s1 = None → justified (hs ++ [h]) s1) as Hsame.
  { intros s1 E1 E2 E3. constructor; rewrite ?E1, ?E2, ?E3; [|done|done]. intros H. apply elem_of_app. auto. }
  assert (∀ code, (code = 0%Z ∧ shutdown s ≠ NotCalled ∧ h = ListenReturns true) ∨
    (code = 1%Z ∧ (h = ListenReturns false ∨
       ∃ err, h = SourceReturns (Returned (Some err)) ∧ is_canceled err = false)) ∨
    (code = 2%Z ∧ ∃ msg, h = SourceReturns (Panicked msg)) → justified (hs ++ [h]) (exit_with code s)) as Hexit.
  { intros code Hc. constructor; simpl; [intros H; apply elem_of_app; auto|done|].
    intros code' [= <-]. rewrite last_snoc. naive_solver. }
  destruct h as [| | |ended| |expired|closed]; simpl.
  - intros [= <-]. constructor; simpl; [intros _; apply elem_of_app; right; left|done|by rewrite Eex].
  - case_decide; [|done]. intros [= <-]. by apply Hsame.
  - destruct (in_flight s); [done|]. intros [= <-]. by apply Hsame.
  - destruct (source_running s); [|done]. destruct ended as [[err|]|msg]; simpl.
    + destruct (is_canceled err) eqn:Ec; simpl; intros [= <-]; [by apply Hsame|]. apply Hexit. right; left. eauto.
    + intros [= <-]. by apply Hsame.
    + intros [= <-]. apply Hexit. eauto.
  - case_decide as Hc; [|done]. intros [= <-]. destruct Hc as [Hc _].
    constructor; simpl; [intros H; apply elem_of_app; auto|done|by rewrite Eex].
  - case_decide as Hc; [|done]. intros [= <-]. destruct Hc as [Hc _].
    constructor; simpl; [intros H; apply elem_of_app; auto| |by rewrite Eex].
    intros _. apply Hs. by rewrite Hc.
  - destruct closed; (case_decide; [try done|try done]); intros [= <-]; apply Hexit; eauto 10.
Qed.

Lemma process_run_justified hs s : process_run process0 hs = Some s → justified hs s.
Proof.
  revert s. induction hs as [|h hs IH] using rev_ind; intros s.
  - intros [= <-]. by constructor.
  - rewrite process_run_app. destruct (process_run process0 hs) as [s1|] eqn:E; simpl; [|done].
    destruct (process_step s1 h) as [s2|] eqn:E2; simpl; [|done]. intros [= <-].
    by eapply justified_step; [apply IH|].
Qed.

(** ** Properties *)

(** C19: the exit code says why the process ended, in every interleaving: 0 only
    after a signal and the call of [Shutdown], 1 when the listener failed or
    the source returned an error other than the context's cancellation, 2 when
    the source's goroutine panicked. *)
Theorem exit_codes hs s code :
  process_run process0 hs = Some s → exited s = Some code →
  (code = 0%Z ∧ Signal ∈ hs ∧ shutdown s ≠ NotCalled ∧ last hs = Some (ListenReturns true)) ∨
  (code = 1%Z ∧ (last hs = Some (ListenReturns false) ∨
     ∃ err, last hs = Some (SourceReturns (Returned (Some err))) ∧ is_canceled err = false)) ∨
  (code = 2%Z ∧ ∃ msg, last hs = Some (SourceReturns (Panicked msg))).
Proof.
  intros Hrun Hex. destruct (process_run_justified hs s Hrun) as [Hd Hs He].
  destruct (He code Hex) as [(-> & Hsh & Hl)|[H|H]]; [left|by right; left|by right; right].
  split_and!; try done. auto.
Qed.

(** C20: graceful shutdown is cut short: [main] returns as soon as
    [ListenAndServe] does, so from any state that serves with requests in
    flight a signal can end the process with all of them unfinished, the exit
    code 0 and [Shutdown] still draining. *)
Theorem exit_drops_requests s :
  exited s = None → shutdown s = NotCalled →
  ∃ s', process_run s [Signal; ShutdownStarts; ListenReturns true] = Some s' ∧
    exited s' = Some 0%Z ∧ shutdown s' = Draining ∧ in_flight s' = in_flight s.
Proof.
  destruct s as [done running phase n ex]. simpl. intros -> ->. eexists. split; [reflexivity|]. by split_and!.
Qed.
End lifecycle.

(** ** Witnesses *)

Module LifecycleWitness.
Definition serving_two : list (happening (X := string)) := [RequestStarts; RequestStarts].

Lemma exit_codes_witness :
  ∃ s, process_run (λ _ : error string, false) process0 [RequestStarts; Signal; ShutdownStarts; RequestEnds; ListenReturns true] = Some s ∧
    exited s = Some 0%Z ∧ Signal ∈ [RequestStarts; Signal; ShutdownStarts; RequestEnds; ListenReturns (X := string) true].
Proof.
  eexists. split; [vm_compute; reflexivity|]. split; [reflexivity|].
  destruct (exit_codes (λ _ : error string, false) [RequestStarts; Signal; ShutdownStarts; RequestEnds; ListenReturns true]
              (exit_with 0 {| ctx_done := true; source_running := true; shutdown := Draining; in_flight := 0; exited := None |}) 0%Z)
    as [(_ & H & _)|[[H _]|[H _]]]; [vm_compute; reflexivity|reflexivity|exact H|discriminate|discriminate].
Defined.

(** Two requests in flight when the signal comes. *)
Lemma exit_drops_requests_witness :
  ∃ s s', process_run (λ _ : error string, false) process0 serving_two = Some s ∧ in_flight s = 2 ∧
    process_run (λ _ : error string, false) s [Signal; ShutdownStarts; ListenReturns true] = Some s' ∧
    exited s' = Some 0%Z ∧ in_flight s' = 2.
Proof.
  eexists. destruct (exit_drops_requests (λ _ : error string, false)
    {| ctx_done := false; source_running := true; shutdown := NotCalled; in_flight := 2; exited := None |}
    eq_refl eq_refl) as (s' & H1 & H2 & _ & H3).
  exists s'. split; [vm_compute; reflexivity|]. split; [reflexivity|]. split; [exact H1|]. split; [exact H2|exact H3].
Defined.
End LifecycleWitness.
